(** * LazyCopy minifilter driver: a shallow embedding and its properties

    The development follows the driver's source files
    ([Fetch.c], [FileLocks.c], [Operations.c], [ReparsePoints.c],
    [Configuration.c], [Communication.c], [Context.c], [Utilities.c]).
    Kernel services the driver calls (the pool allocator, the filter
    manager, the I/O manager) are not part of the repository: their
    answers are inputs of the embedded functions. *)

From Stdlib Require Import ZArith Lia Bool List.
From stdpp Require Import base list.
Import ListNotations.

Local Open Scope Z_scope.

(** ** Machine integers *)

(** [LONG]: a 32-bit two's complement integer read from its 32-bit pattern. *)
Definition LONG_of (u : Z) : Z :=
  let w := u mod 2^32 in if w <? 2^31 then w else w - 2^32.

(** [(ULONG)x] and [(USHORT)x]: truncating casts. *)
Definition ULONG_of (x : Z) : Z := x mod 2^32.
Definition USHORT_of (x : Z) : Z := x mod 2^16.

(** [LONGLONG] arithmetic wraps at 64 bits. *)
Definition LONGLONG_of (x : Z) : Z :=
  let w := x mod 2^64 in if w <? 2^63 then w else w - 2^64.

(** ** NTSTATUS *)

Definition NTSTATUS := Z.

Definition NT_SUCCESS (Status : NTSTATUS) : bool := 0 <=? Status.

Definition STATUS_SUCCESS                : NTSTATUS := 0.
Definition STATUS_TIMEOUT                : NTSTATUS := 0x102.
Definition STATUS_PENDING                : NTSTATUS := 0x103.
Definition STATUS_REPARSE                : NTSTATUS := 0x104.
Definition STATUS_DATATYPE_MISALIGNMENT  : NTSTATUS := Eval cbv in LONG_of 0x80000002.
Definition STATUS_BUFFER_OVERFLOW        : NTSTATUS := Eval cbv in LONG_of 0x80000005.
Definition STATUS_ACCESS_VIOLATION       : NTSTATUS := Eval cbv in LONG_of 0xC0000005.
Definition STATUS_INVALID_PARAMETER      : NTSTATUS := Eval cbv in LONG_of 0xC000000D.
Definition STATUS_END_OF_FILE            : NTSTATUS := Eval cbv in LONG_of 0xC0000011.
Definition STATUS_ACCESS_DENIED          : NTSTATUS := Eval cbv in LONG_of 0xC0000022.
Definition STATUS_PORT_DISCONNECTED      : NTSTATUS := Eval cbv in LONG_of 0xC0000037.
Definition STATUS_INSUFFICIENT_RESOURCES : NTSTATUS := Eval cbv in LONG_of 0xC000009A.
Definition STATUS_INVALID_PARAMETER_1    : NTSTATUS := Eval cbv in LONG_of 0xC00000EF.
Definition STATUS_INVALID_PARAMETER_2    : NTSTATUS := Eval cbv in LONG_of 0xC00000F0.
Definition STATUS_INVALID_PARAMETER_3    : NTSTATUS := Eval cbv in LONG_of 0xC00000F1.
Definition STATUS_NAME_TOO_LONG          : NTSTATUS := Eval cbv in LONG_of 0xC0000106.
Definition STATUS_INVALID_BUFFER_SIZE    : NTSTATUS := Eval cbv in LONG_of 0xC0000206.
Definition STATUS_NOT_FOUND              : NTSTATUS := Eval cbv in LONG_of 0xC0000225.
Definition STATUS_NOT_A_REPARSE_POINT    : NTSTATUS := Eval cbv in LONG_of 0xC0000275.
Definition STATUS_IO_REPARSE_DATA_INVALID : NTSTATUS := Eval cbv in LONG_of 0xC0000278.
Definition STATUS_FLT_CONTEXT_ALREADY_DEFINED : NTSTATUS := Eval cbv in LONG_of 0xC01C0002.

(** ** Strings *)

(** A [WCHAR] is a 16-bit code unit; a [UNICODE_STRING] is modelled by the
    [Length / sizeof(WCHAR)] code units of its buffer. *)
Definition WCHAR := Z.
Definition UNICODE_STRING := list WCHAR.
Definition UNICODE_NULL : WCHAR := 0.

Definition HANDLE := Z.

(** * Fetch.c: opening the source file *)

Module Opener.

(** What the kernel and the user-mode client answer during one call of
    [LcOpenFile]: the result of [ZwOpenFile] and, when it is asked, the
    result of [LcOpenFileInUserMode]. A null handle is [None]. *)
Record OPEN_ENV := {
  ZwOpenFile           : UNICODE_STRING -> NTSTATUS * option HANDLE;
  LcOpenFileInUserMode : UNICODE_STRING -> NTSTATUS * option HANDLE
}.

(** The observable outcome of [LcOpenFile]: the returned status, the
    handle stored in [*Handle] (only on success), the paths sent to the
    user-mode client, and the handles closed by the cleanup block. *)
Record OPEN_RESULT := {
  status        : NTSTATUS;
  Handle        : option HANDLE;
  notifications : list UNICODE_STRING;
  closed        : list HANDLE
}.

(** The [__finally] block of [LcOpenFile]. *)
Definition LcOpenFile_finally (status : NTSTATUS) (fileHandle : option HANDLE)
    (sent : list UNICODE_STRING) : OPEN_RESULT :=
  if NT_SUCCESS status
  then {| status := status; Handle := fileHandle; notifications := sent; closed := [] |}
  else {| status := status; Handle := None; notifications := sent;
          closed := match fileHandle with Some h => [h] | None => [] end |}.

Definition LcOpenFile (env : OPEN_ENV) (FilePath : UNICODE_STRING) : OPEN_RESULT :=
  let '(status, fileHandle) := ZwOpenFile env FilePath in
  if negb (NT_SUCCESS status) && (status =? STATUS_ACCESS_DENIED)
  then
    let '(notificationStatus, userHandle) := LcOpenFileInUserMode env FilePath in
    (* [LcOpenFileInUserMode] writes [fileHandle] only when it duplicates a handle. *)
    let fileHandle := match userHandle with Some h => Some h | None => fileHandle end in
    let status :=
      if (notificationStatus =? STATUS_PORT_DISCONNECTED) || (notificationStatus =? STATUS_TIMEOUT)
      then status
      else notificationStatus in
    LcOpenFile_finally status fileHandle [FilePath]
  else LcOpenFile_finally status fileHandle [].

End Opener.

(** * Utilities.c and the kernel's string routines *)

(** [RtlUpcaseUnicodeChar]: the kernel's upcase table, restricted here to
    the ASCII letters; every other code unit is left as it is. *)
Definition RtlUpcaseUnicodeChar (c : WCHAR) : WCHAR :=
  if (97 <=? c) && (c <=? 122) then c - 32 else c.

(** [RtlCompareUnicodeString(String1, String2, TRUE)]: the difference of
    the first pair of upcased code units that differ, else the difference
    of the lengths (in bytes). Zero means equal up to case. *)
Fixpoint RtlCompareUnicodeString (String1 String2 : UNICODE_STRING) : Z :=
  match String1, String2 with
  | c1 :: r1, c2 :: r2 =>
      let d := RtlUpcaseUnicodeChar c1 - RtlUpcaseUnicodeChar c2 in
      if d =? 0 then RtlCompareUnicodeString r1 r2 else d
  | _, _ => 2 * Z.of_nat (length String1) - 2 * Z.of_nat (length String2)
  end.

(** [RtlPrefixUnicodeString(String1, String2, TRUE)]: [String1] is a
    prefix of [String2] up to case. *)
Fixpoint RtlPrefixUnicodeString (String1 String2 : UNICODE_STRING) : bool :=
  match String1, String2 with
  | [], _ => true
  | _ :: _, [] => false
  | c1 :: r1, c2 :: r2 =>
      (RtlUpcaseUnicodeChar c1 =? RtlUpcaseUnicodeChar c2) && RtlPrefixUnicodeString r1 r2
  end.

(** [wcslen]: the index of the first null code unit; [None] when the
    readable memory ends before one is met. *)
Fixpoint wcslen (s : list WCHAR) : option nat :=
  match s with
  | [] => None
  | c :: r => if c =? UNICODE_NULL then Some O
              else match wcslen r with Some n => Some (S n) | None => None end
  end.

(** [RtlUnicodeStringValidate]: a counted string holds at most
    [UNICODE_STRING_MAX_BYTES = 65534] bytes. *)
Definition UnicodeLength (s : UNICODE_STRING) : Z := 2 * Z.of_nat (length s).

Definition RtlUnicodeStringValidate (s : UNICODE_STRING) : bool :=
  UnicodeLength s <=? 65534.

(** [LcAllocateUnicodeString]: [pool] tells whether [ExAllocatePoolWithTag]
    returns a buffer. [Size] is a USHORT. *)
Definition LcAllocateUnicodeString (pool : bool) (Size : Z) : NTSTATUS :=
  if Size =? 0 then STATUS_INVALID_PARAMETER_2
  else if negb (Size mod 2 =? 0) then STATUS_INVALID_PARAMETER_2
  else if pool then STATUS_SUCCESS
  else STATUS_INSUFFICIENT_RESOURCES.

(** [LcCopyUnicodeString]: allocates [Length + sizeof(WCHAR)] bytes (the
    sum is passed as a USHORT) and copies the source. *)
Definition LcCopyUnicodeString (pool : bool) (SourceString : UNICODE_STRING)
    : NTSTATUS * option UNICODE_STRING :=
  if negb (RtlUnicodeStringValidate SourceString) then (STATUS_INVALID_PARAMETER_2, None)
  else
    let status := LcAllocateUnicodeString pool (USHORT_of (UnicodeLength SourceString + 2)) in
    if NT_SUCCESS status then (STATUS_SUCCESS, Some SourceString) else (status, None).

(** * FileLocks.c: the list of per-file locking events *)

Module FileLocks.

Definition PVOID := Z.

(** [FILE_LOCK_ENTRY]. [Event] is the signal state of the entry's
    synchronization event; [Address] is where the pool placed the entry,
    so that [&entry->Event] is identified by it. *)
Record FILE_LOCK_ENTRY := {
  FileName : UNICODE_STRING;
  Event    : bool;
  RefCount : Z;
  Address  : PVOID
}.

Definition PKEVENT := PVOID.

(** Pool answers during one [LcGetFileLock]: where
    [LcAllocateNonPagedBuffer] puts the entry ([None]: no memory), and
    whether the pool serves the copy of the file name. *)
Record POOL_ENV := {
  entryBuffer : option PVOID;
  nameBuffer  : bool
}.

(** A pool block the cleanup block of [LcGetFileLock] releases: the
    entry at an address, or the buffer [FileName.Buffer] of the entry at
    an address, which is released when it is not null. *)
Inductive BLOCK :=
| EntryBlock (a : PVOID)
| NameBlock (a : PVOID).

Record GET_RESULT := {
  status        : NTSTATUS;
  EventOut      : option PKEVENT;
  FileLocksList : list FILE_LOCK_ENTRY;
  (* Pool blocks released by the cleanup block. *)
  freed         : list BLOCK
}.

(** [fileLockEntry->RefCount++] on a LONG. *)
Definition reference (e : FILE_LOCK_ENTRY) : FILE_LOCK_ENTRY :=
  {| FileName := FileName e; Event := Event e;
     RefCount := LONG_of (RefCount e + 1); Address := Address e |}.

(** The entry as [LcGetFileLock] fills it before it is linked:
    [KeInitializeEvent(&Event, SynchronizationEvent, TRUE)], [RefCount = 0]. *)
Definition new_entry (a : PVOID) (name : UNICODE_STRING) : FILE_LOCK_ENTRY :=
  {| FileName := name; Event := true; RefCount := 0; Address := a |}.

(** The [while] loop of [LcGetFileLock]: walks the list from its head;
    at the first entry whose name compares equal, takes a reference in
    place. [None]: the whole list was walked without a match. *)
Fixpoint reference_by_name (FileName0 : UNICODE_STRING) (l : list FILE_LOCK_ENTRY)
    : option (PKEVENT * list FILE_LOCK_ENTRY) :=
  match l with
  | [] => None
  | e :: rest =>
      if RtlCompareUnicodeString FileName0 (FileName e) =? 0
      then Some (Address e, reference e :: rest)
      else match reference_by_name FileName0 rest with
           | Some (ev, rest') => Some (ev, e :: rest')
           | None => None
           end
  end.

(** [LcFreeUnicodeString(&fileLockEntry->FileName)]: the buffer is
    released and the string zeroed; a string that is zeroed already stays
    so. The other members of the entry are not written. *)
Definition free_name (e : FILE_LOCK_ENTRY) : FILE_LOCK_ENTRY :=
  {| FileName := []; Event := Event e; RefCount := RefCount e; Address := Address e |}.

(** The cleanup block when the entry allocation has failed. After an
    unsuccessful walk the local [fileLockEntry] still points to the entry
    visited last, the last one of the list: its name and the entry
    itself are released, and the entry stays linked. The list is given
    as the memory holds it when the function returns. *)
Fixpoint free_last_visited (l : list FILE_LOCK_ENTRY) : list FILE_LOCK_ENTRY * list BLOCK :=
  match l with
  | [] => ([], [])
  | e :: rest =>
      match rest with
      | [] => ([free_name e], [NameBlock (Address e); EntryBlock (Address e)])
      | _ :: _ => let '(rest', blocks) := free_last_visited rest in (e :: rest', blocks)
      end
  end.

Definition LcGetFileLock (pool : POOL_ENV) (l : list FILE_LOCK_ENTRY)
    (FileName0 : UNICODE_STRING) : GET_RESULT :=
  match reference_by_name FileName0 l with
  | Some (ev, l') =>
      {| status := STATUS_SUCCESS; EventOut := Some ev; FileLocksList := l'; freed := [] |}
  | None =>
      match entryBuffer pool with
      | None =>
          (* The allocation left [fileLockEntry] as the walk set it. *)
          {| status := STATUS_INSUFFICIENT_RESOURCES; EventOut := None;
             FileLocksList := fst (free_last_visited l);
             freed := snd (free_last_visited l) |}
      | Some a =>
          match LcCopyUnicodeString (nameBuffer pool) FileName0 with
          | (_, Some name) =>
              {| status := STATUS_SUCCESS; EventOut := Some a;
                 FileLocksList := reference (new_entry a name) :: l; freed := [] |}
          | (status, None) =>
              (* The new entry was zeroed: its name has no buffer. *)
              {| status := status; EventOut := None; FileLocksList := l;
                 freed := [EntryBlock a] |}
          end
      end
  end.

(** [fileLockEntry->RefCount--], then removal or [KeSetEvent]. *)
Definition dereference (e : FILE_LOCK_ENTRY) : option FILE_LOCK_ENTRY :=
  let count := LONG_of (RefCount e - 1) in
  if count <=? 0 then None
  else Some {| FileName := FileName e; Event := true; RefCount := count; Address := Address e |}.

(** [LcReleaseFileLock]: the first entry whose event is [Event0] is
    dereferenced; the second component lists the entries freed. *)
Fixpoint LcReleaseFileLock (Event0 : PKEVENT) (l : list FILE_LOCK_ENTRY)
    : list FILE_LOCK_ENTRY * list PVOID :=
  match l with
  | [] => ([], [])
  | e :: rest =>
      if Address e =? Event0
      then match dereference e with
           | None => (rest, [Address e])
           | Some e' => (e' :: rest, [])
           end
      else let '(rest', fr) := LcReleaseFileLock Event0 rest in (e :: rest', fr)
  end.

End FileLocks.

(** * Bit flags *)

(** [FlagOn], [ClearFlag] and [SetFlag] of the WDK headers, on ULONG values. *)
Definition FlagOn (F SF : Z) : bool := negb (Z.land F SF =? 0).
Definition ClearFlag (F SF : Z) : Z := Z.land F (ULONG_of (Z.lnot SF)).
Definition SetFlag (F SF : Z) : Z := Z.lor F SF.

Definition FILE_ATTRIBUTE_READONLY            : Z := 0x00000001.
Definition FILE_ATTRIBUTE_ARCHIVE             : Z := 0x00000020.
Definition FILE_ATTRIBUTE_NORMAL              : Z := 0x00000080.
Definition FILE_ATTRIBUTE_REPARSE_POINT       : Z := 0x00000400.
Definition FILE_ATTRIBUTE_OFFLINE             : Z := 0x00001000.
Definition FILE_ATTRIBUTE_NOT_CONTENT_INDEXED : Z := 0x00002000.

(** Globals.h *)
Definition LC_REPARSE_TAG : Z := 0x00000340.
Definition LC_FILE_ATTRIBUTES : Z :=
  Z.lor FILE_ATTRIBUTE_OFFLINE FILE_ATTRIBUTE_REPARSE_POINT.

(** * ReparsePoints.c *)

Module ReparsePoints.

(** [LC_REPARSE_DATA] as the code reads it through its pointer.
    [RemoteFilePath] is the memory from [ReparseBuffer.RemoteFilePath] on,
    code unit by code unit, as far as it can be read: the declared
    [ReparseDataLength] does not bound it. *)
Record LC_REPARSE_DATA := {
  ReparseTag        : Z;
  ReparseDataLength : Z;
  Reserved          : Z;
  ReparseGuid       : Z;
  RemoteFileSize    : Z;
  RemoteFilePath    : list WCHAR
}.

Definition REPARSE_GUID_DATA_BUFFER_HEADER_SIZE : Z := 24.

(** [sizeof(reparseData->ReparseBuffer)]: a LONGLONG and one WCHAR,
    padded to the alignment of the LONGLONG. *)
Definition sizeof_ReparseBuffer : Z := 16.

(** The lower layers during one [LcGetReparsePointData]: the first
    [FSCTL_GET_REPARSE_POINT] (header only: its status and the declared
    data length), the pool, the second [FSCTL_GET_REPARSE_POINT] (its
    status and the data), and the pool again for the path. *)
Record REPARSE_ENV := {
  header     : NTSTATUS * Z;
  dataBuffer : bool;
  data       : NTSTATUS * LC_REPARSE_DATA;
  pathBuffer : bool
}.

Inductive REPARSE_RESULT :=
| Returned (status : NTSTATUS) (out : option (Z * UNICODE_STRING))
  (* [wcslen] left the readable memory, or [RtlCopyMemory] overran the
     buffer allocated for the path. *)
| MemoryFault.

Definition LcGetReparsePointData (env : REPARSE_ENV) : REPARSE_RESULT :=
  let '(status, declared) := header env in
  if negb (status =? STATUS_BUFFER_OVERFLOW) then Returned STATUS_NOT_A_REPARSE_POINT None
  else
    let reparseDataLength := ULONG_of (REPARSE_GUID_DATA_BUFFER_HEADER_SIZE + declared) in
    if (reparseDataLength =? 0) then Returned STATUS_INVALID_PARAMETER_2 None
    else if negb (dataBuffer env) then Returned STATUS_INSUFFICIENT_RESOURCES None
    else
      let '(status, reparseData) := data env in
      if negb (NT_SUCCESS status) then Returned status None
      else
        match wcslen (RemoteFilePath reparseData) with
        | None => MemoryFault
        | Some n =>
            let remoteFilePathLength := (Z.of_nat n + 1) * 2 in
            if negb (ReparseDataLength reparseData <? sizeof_ReparseBuffer + remoteFilePathLength)
            then Returned STATUS_IO_REPARSE_DATA_INVALID None
            else
              let size := USHORT_of remoteFilePathLength in
              let status := LcAllocateUnicodeString (pathBuffer env) size in
              if negb (NT_SUCCESS status) then Returned status None
              else if size <? remoteFilePathLength then MemoryFault
              else
                let Length := USHORT_of (size - 2) in
                Returned status
                  (Some (LONGLONG_of (RemoteFileSize reparseData),
                         take (Z.to_nat (Length / 2)) (RemoteFilePath reparseData)))
        end.

(** What the file system keeps for a file, as far as [LcUntagFile] can
    tell: the attributes of its basic information and the tag of its
    reparse point, if it has one. *)
Record FILE_STATE := {
  FileAttributes : Z;
  ReparsePoint   : option Z
}.

(** Statuses of the lower layers during one [LcUntagFile], in call
    order. [FltUntagFile_failure] is a failure of [FltUntagFile] that does
    not come from the state of the reparse point. *)
Record UNTAG_ENV := {
  FltQueryInformationFile  : NTSTATUS;
  FltSetInformationFile_1  : NTSTATUS;
  FltCreateFileEx          : NTSTATUS;
  FltUntagFile_failure     : option NTSTATUS;
  FltSetInformationFile_2  : NTSTATUS
}.

Definition STATUS_IO_REPARSE_TAG_MISMATCH : NTSTATUS := Eval cbv in LONG_of 0xC0000277.

(** [FltSetInformationFile(.., FileBasicInformation)]: a zero
    [FileAttributes] member keeps the file's attributes. *)
Definition set_basic_information (status : NTSTATUS) (attributes : Z) (f : FILE_STATE)
    : FILE_STATE :=
  if NT_SUCCESS status && negb (attributes =? 0)
  then {| FileAttributes := attributes; ReparsePoint := ReparsePoint f |}
  else f.

(** [FltUntagFile(.., LC_REPARSE_TAG, &LC_REPARSE_GUID)]: removes the
    reparse point when its tag is ours; the file system then drops the
    reparse attribute. *)
Definition FltUntagFile (failure : option NTSTATUS) (f : FILE_STATE) : NTSTATUS * FILE_STATE :=
  match failure with
  | Some status => (status, f)
  | None =>
      match ReparsePoint f with
      | None => (STATUS_NOT_A_REPARSE_POINT, f)
      | Some tag =>
          if tag =? LC_REPARSE_TAG
          then (STATUS_SUCCESS,
                {| FileAttributes := ClearFlag (FileAttributes f) FILE_ATTRIBUTE_REPARSE_POINT;
                   ReparsePoint := None |})
          else (STATUS_IO_REPARSE_TAG_MISMATCH, f)
      end
  end.

Definition LcUntagFile (env : UNTAG_ENV) (f : FILE_STATE) : NTSTATUS * FILE_STATE :=
  let status := FltQueryInformationFile env in
  if negb (NT_SUCCESS status) then (status, f)
  else
    let basicInformation := FileAttributes f in
    let readOnlyFile := FlagOn basicInformation FILE_ATTRIBUTE_READONLY in
    let basicInformation :=
      if readOnlyFile then ClearFlag basicInformation FILE_ATTRIBUTE_READONLY
      else basicInformation in
    let status := if readOnlyFile then FltSetInformationFile_1 env else status in
    let f := if readOnlyFile
             then set_basic_information (FltSetInformationFile_1 env) basicInformation f
             else f in
    if negb (NT_SUCCESS status) then (status, f)
    else
      let status := FltCreateFileEx env in
      if negb (NT_SUCCESS status) then (status, f)
      else
        let '(status, f) := FltUntagFile (FltUntagFile_failure env) f in
        if negb (NT_SUCCESS status) && negb (status =? STATUS_NOT_A_REPARSE_POINT)
        then (status, f)
        else
          let basicInformation := ClearFlag basicInformation FILE_ATTRIBUTE_REPARSE_POINT in
          let basicInformation := ClearFlag basicInformation FILE_ATTRIBUTE_OFFLINE in
          let basicInformation := ClearFlag basicInformation FILE_ATTRIBUTE_NOT_CONTENT_INDEXED in
          let basicInformation :=
            if readOnlyFile then SetFlag basicInformation FILE_ATTRIBUTE_READONLY
            else basicInformation in
          let status := FltSetInformationFile_2 env in
          (status, set_basic_information status basicInformation f).

End ReparsePoints.

(** * Context.h: the stream context *)

Record LC_STREAM_CONTEXT := {
  UseCustomHandler : bool;
  RemoteFileSize   : Z;
  RemoteFilePath   : UNICODE_STRING
}.

(** * Operations.c: query information *)

Module QueryInformation.

Inductive FLT_PREOP_CALLBACK_STATUS :=
| FLT_PREOP_SUCCESS_NO_CALLBACK
| FLT_PREOP_SYNCHRONIZE.

Definition FLTFL_CALLBACK_DATA_FS_FILTER_OPERATION : Z := 0x00000004.
Definition FLTFL_CALLBACK_DATA_GENERATED_IO        : Z := 0x00010000.
Definition FLTFL_CALLBACK_DATA_REISSUED_IO         : Z := 0x00020000.
Definition FLTFL_POST_OPERATION_DRAINING           : Z := 0x00000001.

(** The information buffer of a query, by information class, with the
    members the callbacks read or write. *)
Inductive FILE_INFORMATION :=
| FileAllInformation (FileAttributes EndOfFile : Z)
| FileNetworkOpenInformation (EndOfFile FileAttributes : Z)
| FileBasicInformation (FileAttributes : Z)
| FileAttributeTagInformation (FileAttributes ReparseTag : Z)
| FileStandardInformation (EndOfFile : Z)
| FileEndOfFileInformation (EndOfFile : Z)
| FileOtherInformation (FileInformationClass : Z).

Record FLT_CALLBACK_DATA := {
  Flags      : Z;
  IoStatus   : NTSTATUS;
  InfoBuffer : FILE_INFORMATION
}.

Definition PreQueryInformationOperationCallback (Data : FLT_CALLBACK_DATA)
    : FLT_PREOP_CALLBACK_STATUS :=
  if FlagOn (Flags Data) FLTFL_CALLBACK_DATA_GENERATED_IO
     || FlagOn (Flags Data) FLTFL_CALLBACK_DATA_FS_FILTER_OPERATION
     || FlagOn (Flags Data) FLTFL_CALLBACK_DATA_REISSUED_IO
  then FLT_PREOP_SUCCESS_NO_CALLBACK
  else
    match InfoBuffer Data with
    | FileAllInformation _ _
    | FileStandardInformation _
    | FileEndOfFileInformation _
    | FileNetworkOpenInformation _ _ => FLT_PREOP_SYNCHRONIZE
    | _ => FLT_PREOP_SUCCESS_NO_CALLBACK
    end.

(** The [switch] of the post-operation callback. [size] is
    [context->RemoteFileSize]. *)
Definition fix_information (size : Z) (info : FILE_INFORMATION) : FILE_INFORMATION :=
  match info with
  | FileAllInformation attributes eof =>
      FileAllInformation (ClearFlag attributes LC_FILE_ATTRIBUTES)
        (if eof =? 0 then size else eof)
  | FileNetworkOpenInformation eof attributes =>
      FileNetworkOpenInformation (if eof =? 0 then size else eof)
        (ClearFlag attributes LC_FILE_ATTRIBUTES)
  | FileBasicInformation attributes =>
      FileBasicInformation (ClearFlag attributes LC_FILE_ATTRIBUTES)
  | FileAttributeTagInformation attributes tag =>
      FileAttributeTagInformation (ClearFlag attributes LC_FILE_ATTRIBUTES) tag
  | FileStandardInformation eof =>
      FileStandardInformation (if eof =? 0 then size else eof)
  | FileEndOfFileInformation eof =>
      FileEndOfFileInformation (if eof =? 0 then size else eof)
  | FileOtherInformation c => FileOtherInformation c
  end.

(** [context] is what [LcGetStreamContext] finds for the file ([None]:
    it fails); [Flags0] are the post-operation flags. *)
Definition PostQueryInformationOperationCallback (Data : FLT_CALLBACK_DATA)
    (context : option LC_STREAM_CONTEXT) (Flags0 : Z) : FLT_CALLBACK_DATA :=
  if FlagOn Flags0 FLTFL_POST_OPERATION_DRAINING then Data
  else if negb (NT_SUCCESS (IoStatus Data)) && negb (IoStatus Data =? STATUS_BUFFER_OVERFLOW)
  then Data
  else
    match context with
    | None => Data
    | Some context =>
        {| Flags := Flags Data; IoStatus := IoStatus Data;
           InfoBuffer := fix_information (RemoteFileSize context) (InfoBuffer Data) |}
    end.

(** One query as the filter manager runs it: the pre-operation callback,
    the lower layers (which fill the status and the buffer), and the
    post-operation callback when the pre-operation callback asked for it. *)
Definition query_information (lower : FLT_CALLBACK_DATA -> FLT_CALLBACK_DATA)
    (context : option LC_STREAM_CONTEXT) (Flags0 : Z) (Data : FLT_CALLBACK_DATA)
    : FLT_CALLBACK_DATA :=
  match PreQueryInformationOperationCallback Data with
  | FLT_PREOP_SYNCHRONIZE => PostQueryInformationOperationCallback (lower Data) context Flags0
  | FLT_PREOP_SUCCESS_NO_CALLBACK => lower Data
  end.

(** The members of a buffer, when its class has them. *)
Definition EndOfFile_of (info : FILE_INFORMATION) : option Z :=
  match info with
  | FileAllInformation _ eof | FileNetworkOpenInformation eof _
  | FileStandardInformation eof | FileEndOfFileInformation eof => Some eof
  | _ => None
  end.

Definition FileAttributes_of (info : FILE_INFORMATION) : option Z :=
  match info with
  | FileAllInformation a _ | FileNetworkOpenInformation _ a
  | FileBasicInformation a | FileAttributeTagInformation a _ => Some a
  | _ => None
  end.

Definition size_bearing (info : FILE_INFORMATION) : bool :=
  match info with
  | FileAllInformation _ _ | FileNetworkOpenInformation _ _
  | FileStandardInformation _ | FileEndOfFileInformation _ => true
  | _ => false
  end.

End QueryInformation.

(** * Operations.c: the post-create callback *)

Module PostCreate.

Definition FLTFL_POST_OPERATION_DRAINING : Z := 0x00000001.

Definition FILE_SUPERSEDED  : Z := 0.
Definition FILE_OPENED      : Z := 1.
Definition FILE_CREATED     : Z := 2.
Definition FILE_OVERWRITTEN : Z := 3.

Definition FILE_WRITE_THROUGH          : Z := 0x00000002.
Definition FILE_RANDOM_ACCESS          : Z := 0x00000800.
Definition FILE_OPEN_FOR_BACKUP_INTENT : Z := 0x00004000.
Definition FILE_OPEN_REPARSE_POINT     : Z := 0x00200000.
Definition FILE_SHARE_READ             : Z := 0x00000001.
Definition FILE_SHARE_WRITE            : Z := 0x00000002.

Definition DefaultCreateOptions : Z :=
  Z.lor FILE_OPEN_REPARSE_POINT
    (Z.lor FILE_OPEN_FOR_BACKUP_INTENT (Z.lor FILE_RANDOM_ACCESS FILE_WRITE_THROUGH)).
Definition DefaultShareAccess : Z := Z.lor FILE_SHARE_READ FILE_SHARE_WRITE.

(** Configuration.h *)
Definition DriverDisabled : Z := 0.
Definition FetchEnabled   : Z := 1.
Definition WatchEnabled   : Z := 2.

(** The members of the callback data the callback reads or writes.
    [TagData] is [Data->TagData->FileTag] ([None]: no tag data). *)
Record FLT_CALLBACK_DATA := {
  IoStatus_Status      : NTSTATUS;
  IoStatus_Information : Z;
  TagData              : option Z;
  Options              : Z;
  ShareAccess          : Z;
  Dirty                : bool
}.

Record CREATE_COMPLETION_CONTEXT := {
  Name          : UNICODE_STRING;
  Stream        : UNICODE_STRING;
  OperationMode : Z;
  ReportRate    : Z
}.

(** The steps after the reparse tag was recognised. *)
Inductive STEP := Reissue | Untag | ReadReparseData | SetContext.

(** What the rest of the system answers during one callback: the delete
    disposition of the file object, the I/O status after
    [FltReissueSynchronousIo], and the results of [LcUntagFile],
    [LcGetReparsePointData] and [LcFindOrCreateStreamContext] (status and
    [contextCreated]). *)
Record POST_CREATE_ENV := {
  DeletePending               : bool;
  FltReissueSynchronousIo     : NTSTATUS * Z;
  LcUntagFile                 : NTSTATUS;
  LcGetReparsePointData       : NTSTATUS;
  LcFindOrCreateStreamContext : NTSTATUS * bool
}.

Record POST_CREATE_RESULT := {
  Data       : FLT_CALLBACK_DATA;
  (* The local [status] when the [__finally] block starts. *)
  status     : NTSTATUS;
  (* [FltCancelFileOpen] was called. *)
  cancelled  : bool;
  (* [LcEtwFileAccessed] was called. *)
  reported   : bool;
  (* The steps taken, each with the status it ended in. *)
  trace      : list (STEP * NTSTATUS);
  (* A stream context was set by this callback. *)
  contextSet : bool
}.

(** The [__finally] block. *)
Definition finally (Data0 : FLT_CALLBACK_DATA) (status0 : NTSTATUS) (reported0 : bool)
    (trace0 : list (STEP * NTSTATUS)) (contextSet0 : bool) : POST_CREATE_RESULT :=
  if negb (NT_SUCCESS status0) && negb (status0 =? STATUS_NOT_A_REPARSE_POINT)
  then {| Data := {| IoStatus_Status := status0; IoStatus_Information := 0;
                     TagData := TagData Data0; Options := Options Data0;
                     ShareAccess := ShareAccess Data0; Dirty := true |};
          status := status0; cancelled := true; reported := reported0;
          trace := trace0; contextSet := contextSet0 |}
  else {| Data := Data0; status := status0; cancelled := false; reported := reported0;
          trace := trace0; contextSet := contextSet0 |}.

Definition dataStreamName : UNICODE_STRING := [58; 58; 36; 68; 65; 84; 65].

Definition needs_reissue (Data0 : FLT_CALLBACK_DATA) : bool :=
  negb (Z.land (Options Data0) DefaultCreateOptions =? DefaultCreateOptions)
  || negb (Z.land (ShareAccess Data0) DefaultShareAccess =? DefaultShareAccess).

Definition reissued (env : POST_CREATE_ENV) (Data0 : FLT_CALLBACK_DATA) : FLT_CALLBACK_DATA :=
  {| IoStatus_Status := fst (FltReissueSynchronousIo env);
     IoStatus_Information := snd (FltReissueSynchronousIo env);
     TagData := TagData Data0;
     Options := Z.lor (Options Data0) DefaultCreateOptions;
     ShareAccess := Z.lor (ShareAccess Data0) DefaultShareAccess;
     Dirty := true |}.

Definition created_or_overwritten (Data0 : FLT_CALLBACK_DATA) : bool :=
  (IoStatus_Information Data0 =? FILE_CREATED)
  || (IoStatus_Information Data0 =? FILE_OVERWRITTEN)
  || (IoStatus_Information Data0 =? FILE_SUPERSEDED).

(** The part of the [__try] block after the reissue. *)
Definition after_reissue (env : POST_CREATE_ENV) (Data0 : FLT_CALLBACK_DATA)
    (status0 : NTSTATUS) (trace0 : list (STEP * NTSTATUS)) : POST_CREATE_RESULT :=
  if created_or_overwritten Data0
  then finally Data0 (LcUntagFile env) false (trace0 ++ [(Untag, LcUntagFile env)]) false
  else
    let status1 := LcGetReparsePointData env in
    let trace1 := trace0 ++ [(ReadReparseData, status1)] in
    if negb (NT_SUCCESS status1) then finally Data0 status1 false trace1 false
    else
      let '(status2, contextCreated) := LcFindOrCreateStreamContext env in
      let trace2 := trace1 ++ [(SetContext, status2)] in
      if negb (NT_SUCCESS status2) then finally Data0 status2 false trace2 false
      else finally Data0 status2 false trace2 contextCreated.

Definition PostCreateOperationCallback (env : POST_CREATE_ENV)
    (completionContext : CREATE_COMPLETION_CONTEXT) (Flags0 : Z)
    (Data0 : FLT_CALLBACK_DATA) : POST_CREATE_RESULT :=
  let status0 := STATUS_SUCCESS in
  if FlagOn Flags0 FLTFL_POST_OPERATION_DRAINING
     || negb (NT_SUCCESS (IoStatus_Status Data0))
     || DeletePending env
  then finally Data0 status0 false [] false
  else
    let reported0 :=
      negb (IoStatus_Status Data0 =? STATUS_REPARSE)
      && FlagOn (OperationMode completionContext) WatchEnabled in
    if negb (IoStatus_Status Data0 =? STATUS_REPARSE)
       || match TagData Data0 with
          | None => true
          | Some FileTag => negb (FileTag =? LC_REPARSE_TAG)
          end
    then finally Data0 status0 reported0 [] false
    else if negb (FlagOn (OperationMode completionContext) FetchEnabled)
    then finally Data0 status0 reported0 [] false
    else if negb (UnicodeLength (Stream completionContext) =? 0)
            && negb (RtlCompareUnicodeString (Stream completionContext) dataStreamName =? 0)
    then finally Data0 status0 reported0 [] false
    else if needs_reissue Data0
    then
      let Data1 := reissued env Data0 in
      let status1 := IoStatus_Status Data1 in
      if negb (NT_SUCCESS status1) then finally Data1 status1 false [(Reissue, status1)] false
      else after_reissue env Data1 status1 [(Reissue, status1)]
    else after_reissue env Data0 status0 [].

(** The callback got past every early [__leave]: the open ended in
    [STATUS_REPARSE] on our tag, fetching is enabled and the default data
    stream was opened. *)
Definition recognised (env : POST_CREATE_ENV)
    (completionContext : CREATE_COMPLETION_CONTEXT) (Flags0 : Z)
    (Data0 : FLT_CALLBACK_DATA) : Prop :=
  FlagOn Flags0 FLTFL_POST_OPERATION_DRAINING = false /\
  DeletePending env = false /\
  IoStatus_Status Data0 = STATUS_REPARSE /\
  TagData Data0 = Some LC_REPARSE_TAG /\
  FlagOn (OperationMode completionContext) FetchEnabled = true /\
  ((UnicodeLength (Stream completionContext) =? 0)
   || (RtlCompareUnicodeString (Stream completionContext) dataStreamName =? 0)) = true.

End PostCreate.

(** * Configuration.c: the paths to watch *)

Module Configuration.

(** [wcsrchr(Buffer, c)]: the index of the last [c] before the first null
    code unit. [i] is the index of the head of [s]. *)
Fixpoint wcsrchr_from (s : list WCHAR) (c : WCHAR) (i : nat) (found : option nat)
    : option nat :=
  match s with
  | [] => found
  | x :: r =>
      if x =? UNICODE_NULL then found
      else wcsrchr_from r c (S i) (if x =? c then Some i else found)
  end.

Definition wcsrchr (s : list WCHAR) (c : WCHAR) : option nat := wcsrchr_from s c O None.

Definition PATH_SEPARATOR : WCHAR := 92.

(** [LcValidatePath], for a counted string whose buffer is
    null-terminated (the strings both callers build with
    [RtlInitUnicodeStringEx]). *)
Definition LcValidatePath (Path : UNICODE_STRING) : NTSTATUS :=
  if negb (RtlUnicodeStringValidate Path) then STATUS_INVALID_PARAMETER_1
  else if UnicodeLength Path <? 2 then STATUS_INVALID_PARAMETER_1
  else
    match wcsrchr Path PATH_SEPARATOR with
    | None => STATUS_INVALID_PARAMETER_1
    | Some lastPathSeparator =>
        let endOfString := (length Path - 1)%nat in
        if (lastPathSeparator <? endOfString)%nat
           && negb (nth (S lastPathSeparator) (Path ++ [UNICODE_NULL]) UNICODE_NULL
                    =? UNICODE_NULL)
        then STATUS_INVALID_PARAMETER_1
        else STATUS_SUCCESS
    end.

(** [Configuration.PathsToWatch], from the head of the list. *)
Definition PATHS_TO_WATCH := list UNICODE_STRING.

Definition LcIsPathWatched (PathsToWatch : PATHS_TO_WATCH) (Path : UNICODE_STRING) : bool :=
  if negb (RtlUnicodeStringValidate Path) then false
  else existsb (fun entry => RtlPrefixUnicodeString entry Path) PathsToWatch.

Definition LcClearPathsToWatch (PathsToWatch : PATHS_TO_WATCH) : PATHS_TO_WATCH := [].

(** [pool]: whether the pool serves the list entry, and the copy of the path. *)
Definition LcAddPathToWatch (pool : bool * bool) (PathsToWatch : PATHS_TO_WATCH)
    (Path : UNICODE_STRING) : NTSTATUS * PATHS_TO_WATCH :=
  if negb (NT_SUCCESS (LcValidatePath Path)) then (STATUS_INVALID_PARAMETER_1, PathsToWatch)
  else if LcIsPathWatched PathsToWatch Path then (STATUS_SUCCESS, PathsToWatch)
  else if negb (fst pool) then (STATUS_INSUFFICIENT_RESOURCES, PathsToWatch)
  else
    match LcCopyUnicodeString (snd pool) Path with
    | (_, Some copy) => (STATUS_SUCCESS, copy :: PathsToWatch)
    | (status, None) => (status, PathsToWatch)
    end.

End Configuration.

(** * Communication.c: the SetWatchPaths command *)

Module Communication.
Import Configuration.

(** [WATCH_PATHS] as the handler reads it. [Data] is the memory from the
    member [Data] on, as far as it can be read; reading past it raises an
    access violation, which the handler's exception filter turns into the
    returned status. *)
Record WATCH_PATHS := {
  PathCount : Z;
  Data      : list WCHAR
}.

Definition FIELD_OFFSET_Data : Z := 4.

(** [RtlInitUnicodeStringEx]: refuses a string longer than
    [UNICODE_STRING_MAX_CHARS - 1] code units. *)
Definition RtlInitUnicodeStringEx (s : UNICODE_STRING) : NTSTATUS :=
  if 65532 <? UnicodeLength s then STATUS_NAME_TOO_LONG else STATUS_SUCCESS.

(** A [ULONG_PTR] of [sizeof_PVOID] bytes: 8 on the 64-bit build, 4 on
    the 32-bit one. *)
Definition ULONG_PTR_of (sizeof_PVOID : Z) (x : Z) : Z := x mod 2 ^ (8 * sizeof_PVOID).

(** The [for] loop of the handler. [count] iterations are left, [idx] is
    the index of the next path, [buffer] the memory from the local
    [buffer] on and [address] the value of that pointer; [bufferEnd] is
    the constant of that name. [pool idx] are the pool's answers for path
    [idx]. *)
Fixpoint watch_paths_loop (pool : nat -> bool * bool) (sizeof_PVOID bufferEnd : Z)
    (count idx : nat) (buffer : list WCHAR) (address : Z) (PathsToWatch : PATHS_TO_WATCH)
    : NTSTATUS * PATHS_TO_WATCH :=
  match count with
  | O => (STATUS_SUCCESS, PathsToWatch)
  | S count' =>
      match wcslen buffer with
      | None => (STATUS_ACCESS_VIOLATION, PathsToWatch)
      | Some currentStringLength =>
          let next :=
            ULONG_PTR_of sizeof_PVOID (address + (Z.of_nat currentStringLength + 1) * 2) in
          if negb (next <=? bufferEnd)
          then (STATUS_INVALID_BUFFER_SIZE, PathsToWatch)
          else
            let currentString := take currentStringLength buffer in
            let status := RtlInitUnicodeStringEx currentString in
            if negb (NT_SUCCESS status) then (status, PathsToWatch)
            else
              let '(status, PathsToWatch') :=
                LcAddPathToWatch (pool idx) PathsToWatch currentString in
              if negb (NT_SUCCESS status) then (status, PathsToWatch')
              else
                watch_paths_loop pool sizeof_PVOID bufferEnd count' (S idx)
                  (drop (S currentStringLength) buffer) next PathsToWatch'
      end
  end.

(** [InputBuffer = None] is a null pointer, [Some (address, watchPaths)]
    a pointer of value [address] to [watchPaths]. *)
Definition LcSetWatchPathsHandler (pool : nat -> bool * bool) (sizeof_PVOID : Z)
    (InputBuffer : option (Z * WATCH_PATHS)) (InputBufferSize : Z)
    (PathsToWatch : PATHS_TO_WATCH) : NTSTATUS * PATHS_TO_WATCH :=
  match InputBuffer with
  | None => (STATUS_INVALID_PARAMETER_1, PathsToWatch)
  | Some (address, watchPaths) =>
      let bufferEnd := ULONG_PTR_of sizeof_PVOID (address + InputBufferSize) in
      if InputBufferSize <? FIELD_OFFSET_Data then (STATUS_INVALID_PARAMETER_2, PathsToWatch)
      else
        watch_paths_loop pool sizeof_PVOID bufferEnd (Z.to_nat (PathCount watchPaths)) O
          (Data watchPaths) (ULONG_PTR_of sizeof_PVOID (address + FIELD_OFFSET_Data))
          (LcClearPathsToWatch PathsToWatch)
  end.

End Communication.

(** * Fetch.c: the chunked copy *)

Module Fetch.

Definition ChunkSize : Z := 128 * 1024.
Definition MaxChunks : Z := 4.

(** [FILE_CHUNK]. Chunks are never freed while the copy runs; [Id], the
    number of chunks allocated before this one, stands for its address. *)
Record FILE_CHUNK := {
  Id            : nat;
  BufferSize    : Z;
  BytesInBuffer : Z
}.

(** ** The list of chunks *)

Definition find_chunk (id : nat) (l : list FILE_CHUNK) : option FILE_CHUNK :=
  List.find (fun c => Nat.eqb (Id c) id) l.

(** [chunk->BytesInBuffer = n] through a pointer. *)
Definition store_BytesInBuffer (id : nat) (n : Z) (l : list FILE_CHUNK) : list FILE_CHUNK :=
  map (fun c => if Nat.eqb (Id c) id
                then {| Id := Id c; BufferSize := BufferSize c; BytesInBuffer := n |}
                else c) l.

(** The chunk after [id] in list order, the first chunk after the last
    one: [ListEntry.Flink], skipping the list head. *)
Fixpoint chunk_after (id : nat) (l : list FILE_CHUNK) (first : option FILE_CHUNK)
    : option FILE_CHUNK :=
  match l with
  | [] => None
  | c :: rest =>
      if Nat.eqb (Id c) id
      then match rest with
           | next :: _ => Some next
           | [] => first
           end
      else chunk_after id rest first
  end.

(** Linking [new] before [Entry] ([None]: before the list head, that is
    at the tail). *)
Fixpoint insert_before (Entry : option nat) (new : FILE_CHUNK) (l : list FILE_CHUNK)
    : list FILE_CHUNK :=
  match l with
  | [] => [new]
  | c :: rest =>
      if match Entry with Some id => Nat.eqb (Id c) id | None => false end
      then new :: c :: rest
      else c :: insert_before Entry new rest
  end.

(** [LcAddNewChunk]. [pool]: whether the pool serves the chunk, and its
    buffer. Returns the status, the list, the chunk allocated and the
    list length. *)
Definition LcAddNewChunk (pool : bool * bool) (l : list FILE_CHUNK) (Entry : option nat)
    (RemainingBytes : Z) (ListLength : Z)
    : NTSTATUS * list FILE_CHUNK * option FILE_CHUNK * Z :=
  let bufferSize := Z.min ChunkSize (ULONG_of RemainingBytes) in
  if negb (fst pool) then (STATUS_INSUFFICIENT_RESOURCES, l, None, ListLength)
  else if bufferSize =? 0 then (STATUS_INVALID_PARAMETER_3, l, None, ListLength)
  else if negb (snd pool) then (STATUS_INSUFFICIENT_RESOURCES, l, None, ListLength)
  else
    let newChunk := {| Id := length l; BufferSize := bufferSize; BytesInBuffer := 0 |} in
    (STATUS_SUCCESS, insert_before Entry newChunk l, Some newChunk,
     ULONG_of (ListLength + 1)).

(** [LcInitializeChunksList]: up to two chunks. [pool idx] are the
    pool's answers in iteration [idx]. *)
Definition LcInitializeChunksList (pool : nat -> bool * bool) (FileSize : Z)
    : NTSTATUS * list FILE_CHUNK * Z :=
  match LcAddNewChunk (pool O) [] None FileSize 0 with
  | (status, l, Some chunk, ListLength) =>
      let FileSize := LONGLONG_of (FileSize - BufferSize chunk) in
      if FileSize <=? 0 then (status, l, ListLength)
      else
        match LcAddNewChunk (pool 1%nat) l None FileSize ListLength with
        | (status, l, Some _, ListLength) => (status, l, ListLength)
        | (status, _, None, _) => (status, [], 0)
        end
  | (status, _, None, _) => (status, [], 0)
  end.

Record ENGINE := {
  (* The list of chunks, from [chunksListHead.Flink] on. *)
  chunks                : list FILE_CHUNK;
  chunkListLength       : Z;
  readChunk             : option nat;
  writeChunk            : option nat;
  eof                   : bool;
  waitingForRead        : bool;
  (* [writeEvent] is signaled; [writeCallbackContext.Status] and [.BytesWritten]. *)
  writeEvent            : bool;
  writeStatus           : NTSTATUS;
  BytesWritten          : Z;
  (* The local [status]. *)
  status                : NTSTATUS;
  remainingBytes        : Z;
  totalBytesRead        : Z;
  totalBytesWritten     : Z;
  sourceFileOffset      : Z;
  destinationFileOffset : Z;
  (* History: a write is in flight; the writes issued (offset, length), oldest
     first; the I/O status of each completed write as [LcWriteCallback] saw it. *)
  writePending          : bool;
  writes                : list (Z * Z);
  completions           : list (NTSTATUS * Z)
}.

(** Assignments to one local. *)
Definition set_chunks (v : list FILE_CHUNK) (s : ENGINE) : ENGINE :=
  {| chunks := v; chunkListLength := chunkListLength s; readChunk := readChunk s; writeChunk :=
     writeChunk s; eof := eof s; waitingForRead := waitingForRead s; writeEvent := writeEvent s;
     writeStatus := writeStatus s; BytesWritten := BytesWritten s; status := status s; remainingBytes
     := remainingBytes s; totalBytesRead := totalBytesRead s; totalBytesWritten := totalBytesWritten
     s; sourceFileOffset := sourceFileOffset s; destinationFileOffset := destinationFileOffset s;
     writePending := writePending s; writes := writes s; completions := completions s |}.
Definition set_chunkListLength (v : Z) (s : ENGINE) : ENGINE :=
  {| chunks := chunks s; chunkListLength := v; readChunk := readChunk s; writeChunk := writeChunk
     s; eof := eof s; waitingForRead := waitingForRead s; writeEvent := writeEvent s; writeStatus :=
     writeStatus s; BytesWritten := BytesWritten s; status := status s; remainingBytes :=
     remainingBytes s; totalBytesRead := totalBytesRead s; totalBytesWritten := totalBytesWritten s;
     sourceFileOffset := sourceFileOffset s; destinationFileOffset := destinationFileOffset s;
     writePending := writePending s; writes := writes s; completions := completions s |}.
Definition set_readChunk (v : option nat) (s : ENGINE) : ENGINE :=
  {| chunks := chunks s; chunkListLength := chunkListLength s; readChunk := v; writeChunk :=
     writeChunk s; eof := eof s; waitingForRead := waitingForRead s; writeEvent := writeEvent s;
     writeStatus := writeStatus s; BytesWritten := BytesWritten s; status := status s; remainingBytes
     := remainingBytes s; totalBytesRead := totalBytesRead s; totalBytesWritten := totalBytesWritten
     s; sourceFileOffset := sourceFileOffset s; destinationFileOffset := destinationFileOffset s;
     writePending := writePending s; writes := writes s; completions := completions s |}.
Definition set_writeChunk (v : option nat) (s : ENGINE) : ENGINE :=
  {| chunks := chunks s; chunkListLength := chunkListLength s; readChunk := readChunk s;
     writeChunk := v; eof := eof s; waitingForRead := waitingForRead s; writeEvent := writeEvent s;
     writeStatus := writeStatus s; BytesWritten := BytesWritten s; status := status s; remainingBytes
     := remainingBytes s; totalBytesRead := totalBytesRead s; totalBytesWritten := totalBytesWritten
     s; sourceFileOffset := sourceFileOffset s; destinationFileOffset := destinationFileOffset s;
     writePending := writePending s; writes := writes s; completions := completions s |}.
Definition set_eof (v : bool) (s : ENGINE) : ENGINE :=
  {| chunks := chunks s; chunkListLength := chunkListLength s; readChunk := readChunk s;
     writeChunk := writeChunk s; eof := v; waitingForRead := waitingForRead s; writeEvent :=
     writeEvent s; writeStatus := writeStatus s; BytesWritten := BytesWritten s; status := status s;
     remainingBytes := remainingBytes s; totalBytesRead := totalBytesRead s; totalBytesWritten :=
     totalBytesWritten s; sourceFileOffset := sourceFileOffset s; destinationFileOffset :=
     destinationFileOffset s; writePending := writePending s; writes := writes s; completions :=
     completions s |}.
Definition set_waitingForRead (v : bool) (s : ENGINE) : ENGINE :=
  {| chunks := chunks s; chunkListLength := chunkListLength s; readChunk := readChunk s;
     writeChunk := writeChunk s; eof := eof s; waitingForRead := v; writeEvent := writeEvent s;
     writeStatus := writeStatus s; BytesWritten := BytesWritten s; status := status s; remainingBytes
     := remainingBytes s; totalBytesRead := totalBytesRead s; totalBytesWritten := totalBytesWritten
     s; sourceFileOffset := sourceFileOffset s; destinationFileOffset := destinationFileOffset s;
     writePending := writePending s; writes := writes s; completions := completions s |}.
Definition set_writeEvent (v : bool) (s : ENGINE) : ENGINE :=
  {| chunks := chunks s; chunkListLength := chunkListLength s; readChunk := readChunk s;
     writeChunk := writeChunk s; eof := eof s; waitingForRead := waitingForRead s; writeEvent := v;
     writeStatus := writeStatus s; BytesWritten := BytesWritten s; status := status s; remainingBytes
     := remainingBytes s; totalBytesRead := totalBytesRead s; totalBytesWritten := totalBytesWritten
     s; sourceFileOffset := sourceFileOffset s; destinationFileOffset := destinationFileOffset s;
     writePending := writePending s; writes := writes s; completions := completions s |}.
Definition set_writeStatus (v : NTSTATUS) (s : ENGINE) : ENGINE :=
  {| chunks := chunks s; chunkListLength := chunkListLength s; readChunk := readChunk s;
     writeChunk := writeChunk s; eof := eof s; waitingForRead := waitingForRead s; writeEvent :=
     writeEvent s; writeStatus := v; BytesWritten := BytesWritten s; status := status s;
     remainingBytes := remainingBytes s; totalBytesRead := totalBytesRead s; totalBytesWritten :=
     totalBytesWritten s; sourceFileOffset := sourceFileOffset s; destinationFileOffset :=
     destinationFileOffset s; writePending := writePending s; writes := writes s; completions :=
     completions s |}.
Definition set_BytesWritten (v : Z) (s : ENGINE) : ENGINE :=
  {| chunks := chunks s; chunkListLength := chunkListLength s; readChunk := readChunk s;
     writeChunk := writeChunk s; eof := eof s; waitingForRead := waitingForRead s; writeEvent :=
     writeEvent s; writeStatus := writeStatus s; BytesWritten := v; status := status s;
     remainingBytes := remainingBytes s; totalBytesRead := totalBytesRead s; totalBytesWritten :=
     totalBytesWritten s; sourceFileOffset := sourceFileOffset s; destinationFileOffset :=
     destinationFileOffset s; writePending := writePending s; writes := writes s; completions :=
     completions s |}.
Definition set_status (v : NTSTATUS) (s : ENGINE) : ENGINE :=
  {| chunks := chunks s; chunkListLength := chunkListLength s; readChunk := readChunk s;
     writeChunk := writeChunk s; eof := eof s; waitingForRead := waitingForRead s; writeEvent :=
     writeEvent s; writeStatus := writeStatus s; BytesWritten := BytesWritten s; status := v;
     remainingBytes := remainingBytes s; totalBytesRead := totalBytesRead s; totalBytesWritten :=
     totalBytesWritten s; sourceFileOffset := sourceFileOffset s; destinationFileOffset :=
     destinationFileOffset s; writePending := writePending s; writes := writes s; completions :=
     completions s |}.
Definition set_remainingBytes (v : Z) (s : ENGINE) : ENGINE :=
  {| chunks := chunks s; chunkListLength := chunkListLength s; readChunk := readChunk s;
     writeChunk := writeChunk s; eof := eof s; waitingForRead := waitingForRead s; writeEvent :=
     writeEvent s; writeStatus := writeStatus s; BytesWritten := BytesWritten s; status := status s;
     remainingBytes := v; totalBytesRead := totalBytesRead s; totalBytesWritten := totalBytesWritten
     s; sourceFileOffset := sourceFileOffset s; destinationFileOffset := destinationFileOffset s;
     writePending := writePending s; writes := writes s; completions := completions s |}.
Definition set_totalBytesRead (v : Z) (s : ENGINE) : ENGINE :=
  {| chunks := chunks s; chunkListLength := chunkListLength s; readChunk := readChunk s;
     writeChunk := writeChunk s; eof := eof s; waitingForRead := waitingForRead s; writeEvent :=
     writeEvent s; writeStatus := writeStatus s; BytesWritten := BytesWritten s; status := status s;
     remainingBytes := remainingBytes s; totalBytesRead := v; totalBytesWritten := totalBytesWritten
     s; sourceFileOffset := sourceFileOffset s; destinationFileOffset := destinationFileOffset s;
     writePending := writePending s; writes := writes s; completions := completions s |}.
Definition set_totalBytesWritten (v : Z) (s : ENGINE) : ENGINE :=
  {| chunks := chunks s; chunkListLength := chunkListLength s; readChunk := readChunk s;
     writeChunk := writeChunk s; eof := eof s; waitingForRead := waitingForRead s; writeEvent :=
     writeEvent s; writeStatus := writeStatus s; BytesWritten := BytesWritten s; status := status s;
     remainingBytes := remainingBytes s; totalBytesRead := totalBytesRead s; totalBytesWritten := v;
     sourceFileOffset := sourceFileOffset s; destinationFileOffset := destinationFileOffset s;
     writePending := writePending s; writes := writes s; completions := completions s |}.
Definition set_sourceFileOffset (v : Z) (s : ENGINE) : ENGINE :=
  {| chunks := chunks s; chunkListLength := chunkListLength s; readChunk := readChunk s;
     writeChunk := writeChunk s; eof := eof s; waitingForRead := waitingForRead s; writeEvent :=
     writeEvent s; writeStatus := writeStatus s; BytesWritten := BytesWritten s; status := status s;
     remainingBytes := remainingBytes s; totalBytesRead := totalBytesRead s; totalBytesWritten :=
     totalBytesWritten s; sourceFileOffset := v; destinationFileOffset := destinationFileOffset s;
     writePending := writePending s; writes := writes s; completions := completions s |}.
Definition set_destinationFileOffset (v : Z) (s : ENGINE) : ENGINE :=
  {| chunks := chunks s; chunkListLength := chunkListLength s; readChunk := readChunk s;
     writeChunk := writeChunk s; eof := eof s; waitingForRead := waitingForRead s; writeEvent :=
     writeEvent s; writeStatus := writeStatus s; BytesWritten := BytesWritten s; status := status s;
     remainingBytes := remainingBytes s; totalBytesRead := totalBytesRead s; totalBytesWritten :=
     totalBytesWritten s; sourceFileOffset := sourceFileOffset s; destinationFileOffset := v;
     writePending := writePending s; writes := writes s; completions := completions s |}.
Definition set_writePending (v : bool) (s : ENGINE) : ENGINE :=
  {| chunks := chunks s; chunkListLength := chunkListLength s; readChunk := readChunk s;
     writeChunk := writeChunk s; eof := eof s; waitingForRead := waitingForRead s; writeEvent :=
     writeEvent s; writeStatus := writeStatus s; BytesWritten := BytesWritten s; status := status s;
     remainingBytes := remainingBytes s; totalBytesRead := totalBytesRead s; totalBytesWritten :=
     totalBytesWritten s; sourceFileOffset := sourceFileOffset s; destinationFileOffset :=
     destinationFileOffset s; writePending := v; writes := writes s; completions := completions s |}.
Definition set_writes (v : list (Z * Z)) (s : ENGINE) : ENGINE :=
  {| chunks := chunks s; chunkListLength := chunkListLength s; readChunk := readChunk s;
     writeChunk := writeChunk s; eof := eof s; waitingForRead := waitingForRead s; writeEvent :=
     writeEvent s; writeStatus := writeStatus s; BytesWritten := BytesWritten s; status := status s;
     remainingBytes := remainingBytes s; totalBytesRead := totalBytesRead s; totalBytesWritten :=
     totalBytesWritten s; sourceFileOffset := sourceFileOffset s; destinationFileOffset :=
     destinationFileOffset s; writePending := writePending s; writes := v; completions := completions
     s |}.
Definition set_completions (v : list (NTSTATUS * Z)) (s : ENGINE) : ENGINE :=
  {| chunks := chunks s; chunkListLength := chunkListLength s; readChunk := readChunk s;
     writeChunk := writeChunk s; eof := eof s; waitingForRead := waitingForRead s; writeEvent :=
     writeEvent s; writeStatus := writeStatus s; BytesWritten := BytesWritten s; status := status s;
     remainingBytes := remainingBytes s; totalBytesRead := totalBytesRead s; totalBytesWritten :=
     totalBytesWritten s; sourceFileOffset := sourceFileOffset s; destinationFileOffset :=
     destinationFileOffset s; writePending := writePending s; writes := writes s; completions := v |}.

(** ** The environment of one loop iteration *)

(** What the I/O manager, the pool and the file systems answer while
    the loop body runs once:
    - [readWait]: the status of [ZwWaitForSingleObject] on the source
      handle (with [waitTimeout] while the loop waits for the read, with a
      zero timeout otherwise);
    - [statusBlock]: [statusBlock.Status] and [.Information] as the loop
      finds them;
    - [writeCompleted]: [LcWriteCallback] ran before the loop read the
      state of [writeEvent], with this I/O status (status, information);
    - [chunkPool]: the pool's answers to [LcAddNewChunk];
    - [writeWait]: [LcWriteCallback] ran while the loop waited for
      [writeEvent] in [LcGetNextAvailableChunk];
    - [ZwReadFile], [FltWriteFile]: the statuses these calls return. *)
Record ITER_ENV := {
  readWait       : NTSTATUS;
  statusBlock    : NTSTATUS * Z;
  writeCompleted : option (NTSTATUS * Z);
  chunkPool      : bool * bool;
  writeWait      : option (NTSTATUS * Z);
  ZwReadFile     : NTSTATUS;
  FltWriteFile   : NTSTATUS
}.

(** [LcWriteCallback], for the write in flight. *)
Definition LcWriteCallback (IoStatus : option (NTSTATUS * Z)) (s : ENGINE) : ENGINE :=
  match IoStatus with
  | Some (Status, Information) =>
      if writePending s
      then set_writeStatus Status
             (set_BytesWritten (if NT_SUCCESS Status then ULONG_of Information else 0)
                (set_writeEvent true
                   (set_writePending false
                      (set_completions (completions s ++ [(Status, Information)]) s))))
      else s
  | None => s
  end.

(** ** [LcGetNextAvailableChunk] *)

(** The chunk after [*CurrentChunk]; the first one when it is null. *)
Definition next_chunk (CurrentChunk : option nat) (l : list FILE_CHUNK) : option FILE_CHUNK :=
  match CurrentChunk with
  | None => head l
  | Some id => chunk_after id l (head l)
  end.

(** [ReadOperation] tells which cursor the caller passed: [&readChunk]
    or [&writeChunk]. [None]: the list is empty or the cursor does not
    point into it. The status is the one the function returns; the cursor
    is stored only when it is a success. *)
Definition LcGetNextAvailableChunk (e : ITER_ENV) (ReadOperation : bool) (s : ENGINE)
    : option (NTSTATUS * ENGINE) :=
  let CurrentChunk := if ReadOperation then readChunk s else writeChunk s in
  match next_chunk CurrentChunk (chunks s) with
  | None => None
  | Some chunk =>
      if ReadOperation
      then
        if negb (BytesInBuffer chunk =? 0)
        then
          if chunkListLength s <? MaxChunks
          then
            match LcAddNewChunk (chunkPool e) (chunks s) (Some (Id chunk))
                    (remainingBytes s) (chunkListLength s) with
            | (status, l, Some new, ListLength) =>
                Some (status,
                      set_readChunk (Some (Id new))
                        (set_chunks l (set_chunkListLength ListLength s)))
            | (status, _, None, _) => Some (status, s)
            end
          else
            (* Wait for the pending write, at most [WaitTimeout]. *)
            let s := LcWriteCallback (writeWait e) s in
            let status := if writeEvent s then STATUS_SUCCESS else STATUS_TIMEOUT in
            Some (status, set_readChunk (Some (Id chunk)) s)
        else Some (STATUS_SUCCESS, set_readChunk (Some (Id chunk)) s)
      else Some (STATUS_SUCCESS, set_writeChunk (Some (Id chunk)) s)
  end.

(** ** The loop of [LcFetchFileByChunks] *)

Inductive STEP :=
| Continue (s : ENGINE)          (* the next iteration starts *)
| Leave (s : ENGINE)             (* [__leave], with [status s] *)
| Break (s : ENGINE)             (* [break]: "We're done!" *)
| InvalidPointer.

(** [if (!eof) { ... }]: move to the next available chunk and schedule
    the read. *)
Definition schedule_read (e : ITER_ENV) (s : ENGINE) : STEP :=
  if eof s then Continue s
  else
    let s := if remainingBytes s <=? 0 then set_remainingBytes ChunkSize s else s in
    match LcGetNextAvailableChunk e true s with
    | None => InvalidPointer
    | Some (status0, s) =>
        let s := set_status status0 s in
        if negb (NT_SUCCESS status0) then Leave s
        else
          let s := set_status (ZwReadFile e) s in
          if (status s =? STATUS_PENDING) || (status s =? STATUS_SUCCESS)
          then Continue s
          else Leave s
    end.

(** The read into chunk [id] is over: "update status of the current chunk". *)
Definition complete_read (e : ITER_ENV) (id : nat) (chunk : FILE_CHUNK) (s : ENGINE)
    : ENGINE :=
  let s := set_status (fst (statusBlock e)) s in
  if NT_SUCCESS (status s) || (status s =? STATUS_END_OF_FILE)
  then
    let bytesRead := ULONG_of (snd (statusBlock e)) in
    let s := set_chunks (store_BytesInBuffer id bytesRead (chunks s)) s in
    let s := set_remainingBytes (LONGLONG_of (remainingBytes s - bytesRead)) s in
    let s := set_totalBytesRead (LONGLONG_of (totalBytesRead s + bytesRead)) s in
    let s := set_sourceFileOffset (LONGLONG_of (sourceFileOffset s + bytesRead)) s in
    if (status s =? STATUS_END_OF_FILE) || (bytesRead <? BufferSize chunk)
    then set_eof true (set_status STATUS_SUCCESS (set_remainingBytes 0 s))
    else s
  else s.

(** [if (!eof && readComplete) { ... }] *)
Definition read_side (e : ITER_ENV) (s : ENGINE) : STEP :=
  match readChunk s with
  | None => schedule_read e s
  | Some id =>
      (* If it's not the first read, update status of the current chunk. *)
      match find_chunk id (chunks s) with
      | None => InvalidPointer
      | Some chunk =>
          let s := complete_read e id chunk s in
          if negb (NT_SUCCESS (status s)) then Leave s else schedule_read e s
      end
  end.

(** The end of [if (writeComplete) { ... }], from [waitingForRead = FALSE] on. *)
Definition schedule_write (e : ITER_ENV) (s : ENGINE) : STEP :=
  let s := set_waitingForRead false s in
  match writeChunk s with
  | None => InvalidPointer
  | Some id =>
      match find_chunk id (chunks s) with
      | None => InvalidPointer
      | Some chunk =>
          if BytesInBuffer chunk =? 0
          then if eof s then Break s else Continue (set_waitingForRead true s)
          else
            (* [KeClearEvent], then [FltWriteFile]. *)
            let s := set_writeEvent false s in
            let s := set_writes
                       (writes s ++ [(destinationFileOffset s, BytesInBuffer chunk)]) s in
            let s := set_writePending true s in
            let s := set_status (FltWriteFile e) s in
            if negb (NT_SUCCESS (status s)) then Leave s else Continue s
      end
  end.

(** [NT_IF_FAIL_LEAVE(LcGetNextAvailableChunk(.., &writeChunk, .., FALSE, ..))],
    then the rest of the write side. *)
Definition advance_write (e : ITER_ENV) (s : ENGINE) : STEP :=
  match LcGetNextAvailableChunk e false s with
  | None => InvalidPointer
  | Some (status0, s) =>
      let s := set_status status0 s in
      if negb (NT_SUCCESS status0) then Leave s else schedule_write e s
  end.

(** The write of chunk [id] is over: the chunk is free again and the
    bytes written are counted. *)
Definition complete_write (id : nat) (s : ENGINE) : ENGINE :=
  let s := set_chunks (store_BytesInBuffer id 0 (chunks s)) s in
  let s := set_totalBytesWritten (LONGLONG_of (totalBytesWritten s + BytesWritten s)) s in
  set_destinationFileOffset (LONGLONG_of (destinationFileOffset s + BytesWritten s)) s.

(** [if (writeComplete) { ... }] *)
Definition write_side (e : ITER_ENV) (s : ENGINE) : STEP :=
  if negb (waitingForRead s)
  then
    match writeChunk s with
    | None => advance_write e s
    | Some id =>
        (* If it's not the first write, update status of the current chunk. *)
        let s := set_status (writeStatus s) s in
        if negb (NT_SUCCESS (status s)) then Leave s
        else advance_write e (complete_write id s)
    end
  else schedule_write e s.

(** One pass through the body of [for (;;)]. *)
Definition loop_body (e : ITER_ENV) (s : ENGINE) : STEP :=
  if waitingForRead s && negb (NT_SUCCESS (readWait e))
  then Leave (set_status (readWait e) s)
  else
    let s := if waitingForRead s then set_status (readWait e) s else s in
    let readComplete := if waitingForRead s then true else (readWait e =? STATUS_SUCCESS) in
    let s := LcWriteCallback (writeCompleted e) s in
    let writeComplete := writeEvent s in
    let after_read := if negb (eof s) && readComplete then read_side e s else Continue s in
    match after_read with
    | Continue s => if writeComplete then write_side e s else Continue s
    | other => other
    end.

(** [fuel] passes through the loop; iteration [n] runs in the
    environment [env n s], which may depend on the state it meets. *)
Fixpoint loop (env : nat -> ENGINE -> ITER_ENV) (fuel n : nat) (s : ENGINE) : STEP :=
  match fuel with
  | O => Continue s
  | S fuel' =>
      match loop_body (env n s) s with
      | Continue s' => loop env fuel' (S n) s'
      | other => other
      end
  end.

(** The locals of [LcFetchFileByChunks] when the loop is entered. *)
Definition entry_state (l : list FILE_CHUNK) (ListLength : Z) (status0 : NTSTATUS)
    (SourceFileSize : Z) : ENGINE :=
  {| chunks := l; chunkListLength := ListLength; readChunk := None; writeChunk := None;
     eof := false; waitingForRead := false; writeEvent := true;
     writeStatus := STATUS_SUCCESS; BytesWritten := 0; status := status0;
     remainingBytes := SourceFileSize; totalBytesRead := 0; totalBytesWritten := 0;
     sourceFileOffset := 0; destinationFileOffset := 0; writePending := false;
     writes := []; completions := [] |}.

Inductive FETCH_RESULT :=
| Returned (status : NTSTATUS) (BytesCopied : Z) (final : ENGINE)
| StillRunning (s : ENGINE)      (* the fuel ran out *)
| Invalid.

Definition LcFetchFileByChunks (pool : nat -> bool * bool)
    (env : nat -> ENGINE -> ITER_ENV) (fuel : nat) (SourceFileSize : Z) : FETCH_RESULT :=
  match LcInitializeChunksList pool SourceFileSize with
  | (status0, l, ListLength) =>
      let s := entry_state l ListLength status0 SourceFileSize in
      if negb (NT_SUCCESS status0) then Returned status0 0 s
      else
        match loop env fuel O s with
        | Break s => Returned (status s) (totalBytesWritten s) s
        | Leave s => Returned (status s) 0 s
        | Continue s => StillRunning s
        | InvalidPointer => Invalid
        end
  end.

(** ** A source that answers at once *)

(** Every read of a source of [actual] bytes has completed when the loop
    looks, with as many bytes as the source has left for the chunk, and
    with [STATUS_END_OF_FILE] at or past the end; every write has
    completed in full when the loop looks; the pool never fails. *)
Definition prompt_source (actual : Z) (n : nat) (s : ENGINE) : ITER_ENV :=
  let requested :=
    match readChunk s with
    | Some id => match find_chunk id (chunks s) with
                 | Some chunk => BufferSize chunk
                 | None => 0
                 end
    | None => 0
    end in
  {| readWait := STATUS_SUCCESS;
     statusBlock :=
       if actual <=? sourceFileOffset s then (STATUS_END_OF_FILE, 0)
       else (STATUS_SUCCESS, Z.min requested (actual - sourceFileOffset s));
     writeCompleted :=
       match last (writes s) with
       | Some (_, Length) => Some (STATUS_SUCCESS, Length)
       | None => None
       end;
     chunkPool := (true, true);
     writeWait := None;
     ZwReadFile := STATUS_PENDING;
     FltWriteFile := STATUS_PENDING |}.

End Fetch.

(** * Operations.c: concurrent read, write and section-acquire accesses *)

(** [PreReadWriteOperationCallback] runs on the thread of each access.
    The threads share the list of [FileLocks.c] and the volume; a thread
    is observed at the program points between its calls into the
    kernel, and one step runs it from one point to the next. *)
Module ReadWrite.

Inductive FLT_PREOP_CALLBACK_STATUS :=
| FLT_PREOP_SUCCESS_NO_CALLBACK
| FLT_PREOP_COMPLETE.

Inductive PROGRAM_POINT :=
| AtEntry          (* nothing has run *)
| AtZeroWait       (* LcGetFileLock returned the event *)
| InWait           (* in the wait without timeout *)
| AtTagQuery       (* the zero-timeout wait returned STATUS_SUCCESS *)
| AtFetch          (* the tag is LC_REPARSE_TAG; cancelOnError is set *)
| InFetch          (* inside LcFetchRemoteFile *)
| AtUntag          (* the fetch succeeded *)
| AtDeleteContext  (* LcUntagFile succeeded *)
| AtFinally        (* entering the __finally block *)
| Completed.       (* the callback has returned *)

(** The locals of one invocation; [parked] and [invokedFetch] record
    whether it has entered the wait without timeout and whether it has
    called [LcFetchRemoteFile]. *)
Record THREAD := {
  Name           : UNICODE_STRING;
  pc             : PROGRAM_POINT;
  status         : NTSTATUS;
  fileLockEvent  : option FileLocks.PKEVENT;
  cancelOnError  : bool;
  callbackStatus : FLT_PREOP_CALLBACK_STATUS;
  parked         : bool;
  invokedFetch   : bool
}.

(** The thread at point [p] with [status = st]. *)
Definition move (p : PROGRAM_POINT) (st : NTSTATUS) (t : THREAD) : THREAD :=
  {| Name := Name t; pc := p; status := st; fileLockEvent := fileLockEvent t;
     cancelOnError := cancelOnError t; callbackStatus := callbackStatus t;
     parked := parked t; invokedFetch := invokedFetch t |}.

(** The volume: the file each path names, compared as the lock list
    compares names. *)
Definition VOLUME := list (UNICODE_STRING * ReparsePoints.FILE_STATE).

Fixpoint file_at (name : UNICODE_STRING) (v : VOLUME) : option ReparsePoints.FILE_STATE :=
  match v with
  | [] => None
  | (n, f) :: rest =>
      if RtlCompareUnicodeString name n =? 0 then Some f else file_at name rest
  end.

Fixpoint store_file (name : UNICODE_STRING) (f : ReparsePoints.FILE_STATE) (v : VOLUME)
    : VOLUME :=
  match v with
  | [] => []
  | (n, g) :: rest =>
      if RtlCompareUnicodeString name n =? 0 then (n, f) :: rest
      else (n, g) :: store_file name f rest
  end.

(** [FILE_ATTRIBUTE_TAG_INFORMATION.ReparseTag]: zero without a reparse point. *)
Definition ReparseTag (f : ReparsePoints.FILE_STATE) : Z :=
  match ReparsePoints.ReparsePoint f with Some tag => tag | None => 0 end.

Definition tagged (v : VOLUME) (name : UNICODE_STRING) : bool :=
  match file_at name v with
  | Some f => ReparseTag f =? LC_REPARSE_TAG
  | None => false
  end.

(** The entry whose event is at [ev]. *)
Definition entry_at (ev : FileLocks.PKEVENT) (l : list FileLocks.FILE_LOCK_ENTRY)
    : option FileLocks.FILE_LOCK_ENTRY :=
  find (fun e => FileLocks.Address e =? ev) l.

(** A satisfied wait on a synchronization event resets it. *)
Definition reset (e : FileLocks.FILE_LOCK_ENTRY) : FileLocks.FILE_LOCK_ENTRY :=
  {| FileLocks.FileName := FileLocks.FileName e; FileLocks.Event := false;
     FileLocks.RefCount := FileLocks.RefCount e; FileLocks.Address := FileLocks.Address e |}.

Definition satisfy_wait (ev : FileLocks.PKEVENT) (l : list FileLocks.FILE_LOCK_ENTRY)
    : list FileLocks.FILE_LOCK_ENTRY :=
  map (fun e => if FileLocks.Address e =? ev then reset e else e) l.

(** What the kernel answers the calls of the step that runs. *)
Record ANSWERS := {
  LcIsProcessTrusted       : bool;
  LcGetStreamContext       : NTSTATUS;
  LcGetFileNameInformation : NTSTATUS;
  pool                     : FileLocks.POOL_ENV;
  FltQueryInformationFile  : NTSTATUS;
  LcFetchRemoteFile        : NTSTATUS;
  untag                    : ReparsePoints.UNTAG_ENV;
  FltDeleteStreamContext   : NTSTATUS
}.

Definition SHARED := (list FileLocks.FILE_LOCK_ENTRY * VOLUME)%type.

(** The pool hands out a block the list does not link. A block in use is
    never handed out; one that [LcGetFileLock] released while it was
    linked can be, and the new entry would then overwrite the linked one
    in place, which the model does not follow. *)
Definition pool_answer_possible (k : ANSWERS) (l : list FileLocks.FILE_LOCK_ENTRY) : bool :=
  match FileLocks.entryBuffer (pool k) with
  | Some a => negb (existsb (fun e => FileLocks.Address e =? a) l)
  | None => true
  end.

(** Whether the cleanup block of [LcGetFileLock] released an entry that
    is linked in the list. *)
Definition freed_linked_entry (r : FileLocks.GET_RESULT) : bool :=
  existsb (fun b =>
             match b with
             | FileLocks.EntryBlock a =>
                 existsb (fun e => FileLocks.Address e =? a) (FileLocks.FileLocksList r)
             | FileLocks.NameBlock _ => false
             end)
          (FileLocks.freed r).

(** One step of a thread over the shared list and volume. [None]: the
    thread cannot step (its wait is not satisfied, or it has returned),
    or the answers are not ones the model follows (the pool hands out a
    block the list links). A failed [LcGetFileLock] leaves the list as
    its cleanup block left it: an entry it released stays linked, and
    the later steps read it as the memory holds it, which is what the
    driver does as long as the pool has not handed the block out
    again. *)
Definition callback_step (k : ANSWERS) (t : THREAD) (sh : SHARED) : option (THREAD * SHARED) :=
  let '(l, v) := sh in
  match pc t with
  | AtEntry =>
      if LcIsProcessTrusted k then Some (move AtFinally (status t) t, sh)
      else if negb (NT_SUCCESS (LcGetStreamContext k))
      then Some (move AtFinally STATUS_SUCCESS t, sh)
      else if negb (NT_SUCCESS (LcGetFileNameInformation k))
      then Some (move AtFinally (LcGetFileNameInformation k) t, sh)
      else if negb (pool_answer_possible k l) then None
      else
        let r := FileLocks.LcGetFileLock (pool k) l (Name t) in
        if negb (NT_SUCCESS (FileLocks.status r))
        then Some (move AtFinally (FileLocks.status r) t, (FileLocks.FileLocksList r, v))
        else
          Some ({| Name := Name t; pc := AtZeroWait; status := FileLocks.status r;
                   fileLockEvent := FileLocks.EventOut r;
                   cancelOnError := cancelOnError t; callbackStatus := callbackStatus t;
                   parked := parked t; invokedFetch := invokedFetch t |},
                (FileLocks.FileLocksList r, v))
  | AtZeroWait =>
      match fileLockEvent t with
      | None => None
      | Some ev =>
          match entry_at ev l with
          | None => None
          | Some e =>
              if FileLocks.Event e
              then Some (move AtTagQuery (status t) t, (satisfy_wait ev l, v))
              else Some ({| Name := Name t; pc := InWait; status := status t;
                            fileLockEvent := fileLockEvent t;
                            cancelOnError := cancelOnError t;
                            callbackStatus := callbackStatus t;
                            parked := true; invokedFetch := invokedFetch t |}, sh)
          end
      end
  | InWait =>
      match fileLockEvent t with
      | None => None
      | Some ev =>
          match entry_at ev l with
          | None => None
          | Some e =>
              if FileLocks.Event e
              then Some (move AtFinally STATUS_SUCCESS t, (satisfy_wait ev l, v))
              else None
          end
      end
  | AtTagQuery =>
      let st := FltQueryInformationFile k in
      if negb (NT_SUCCESS st) then Some (move AtFinally st t, sh)
      else
        match file_at (Name t) v with
        | None => None
        | Some f =>
            if negb (ReparseTag f =? LC_REPARSE_TAG) then Some (move AtFinally st t, sh)
            else Some ({| Name := Name t; pc := AtFetch; status := st;
                          fileLockEvent := fileLockEvent t;
                          cancelOnError := true; callbackStatus := callbackStatus t;
                          parked := parked t; invokedFetch := invokedFetch t |}, sh)
        end
  | AtFetch =>
      Some ({| Name := Name t; pc := InFetch; status := status t;
               fileLockEvent := fileLockEvent t;
               cancelOnError := cancelOnError t; callbackStatus := callbackStatus t;
               parked := parked t; invokedFetch := true |}, sh)
  | InFetch =>
      let st := LcFetchRemoteFile k in
      Some (move (if NT_SUCCESS st then AtUntag else AtFinally) st t, sh)
  | AtUntag =>
      match file_at (Name t) v with
      | None => None
      | Some f =>
          let '(st, f') := ReparsePoints.LcUntagFile (untag k) f in
          Some (move (if NT_SUCCESS st then AtDeleteContext else AtFinally) st t,
                (l, store_file (Name t) f' v))
      end
  | AtDeleteContext => Some (move AtFinally (FltDeleteStreamContext k) t, sh)
  | AtFinally =>
      Some ({| Name := Name t; pc := Completed; status := status t;
               (* the locals are gone *)
               fileLockEvent := None;
               cancelOnError := cancelOnError t;
               callbackStatus :=
                 if negb (NT_SUCCESS (status t)) && cancelOnError t
                 then FLT_PREOP_COMPLETE else callbackStatus t;
               parked := parked t; invokedFetch := invokedFetch t |},
            (match fileLockEvent t with
             | Some ev => fst (FileLocks.LcReleaseFileLock ev l)
             | None => l
             end, v))
  | Completed => None
  end.

Record SYSTEM := {
  FileLocksList : list FileLocks.FILE_LOCK_ENTRY;
  volume        : VOLUME;
  threads       : list THREAD
}.

(** Thread [i] takes one step with the answers [k]. *)
Definition system_step (i : nat) (k : ANSWERS) (sys : SYSTEM) : option SYSTEM :=
  match threads sys !! i with
  | None => None
  | Some t =>
      match callback_step k t (FileLocksList sys, volume sys) with
      | None => None
      | Some (t', (l, v)) =>
          Some {| FileLocksList := l; volume := v; threads := <[i := t']> (threads sys) |}
      end
  end.

Fixpoint run (schedule : list (nat * ANSWERS)) (sys : SYSTEM) : option SYSTEM :=
  match schedule with
  | [] => Some sys
  | (i, k) :: rest =>
      match system_step i k sys with
      | Some sys' => run rest sys'
      | None => None
      end
  end.

(** The step thread [t] takes with the answers [k] over the list [l]
    calls [LcGetFileLock], and the cleanup block of that call releases an
    entry that is linked. *)
Definition releases_linked_entry (k : ANSWERS) (t : THREAD)
    (l : list FileLocks.FILE_LOCK_ENTRY) : bool :=
  match pc t with
  | AtEntry =>
      negb (LcIsProcessTrusted k)
      && NT_SUCCESS (LcGetStreamContext k)
      && NT_SUCCESS (LcGetFileNameInformation k)
      && freed_linked_entry (FileLocks.LcGetFileLock (pool k) l (Name t))
  | _ => false
  end.

(** No step of the run releases an entry that is linked. *)
Fixpoint spares_linked_entries (schedule : list (nat * ANSWERS)) (sys : SYSTEM) : bool :=
  match schedule with
  | [] => true
  | (i, k) :: rest =>
      match threads sys !! i with
      | Some t =>
          negb (releases_linked_entry k t (FileLocksList sys))
          && match system_step i k sys with
             | Some sys' => spares_linked_entries rest sys'
             | None => true
             end
      | None => true
      end
  end.

(** An access that is about to enter the callback. *)
Definition enter (name : UNICODE_STRING) : THREAD :=
  {| Name := name; pc := AtEntry; status := STATUS_SUCCESS; fileLockEvent := None;
     cancelOnError := false; callbackStatus := FLT_PREOP_SUCCESS_NO_CALLBACK;
     parked := false; invokedFetch := false |}.

(** The accesses [names] over the volume [v], none of which has run:
    the list of locks is empty, as [LcInitializeFileLocks] leaves it. *)
Definition boot (v : VOLUME) (names : list UNICODE_STRING) : SYSTEM :=
  {| FileLocksList := []; volume := v; threads := map enter names |}.

(** ** Two accesses to one stub *)

Definition served (a : FileLocks.PVOID) (fetch : NTSTATUS) : ANSWERS :=
  {| LcIsProcessTrusted := false; LcGetStreamContext := STATUS_SUCCESS;
     LcGetFileNameInformation := STATUS_SUCCESS;
     pool := {| FileLocks.entryBuffer := Some a; FileLocks.nameBuffer := true |};
     FltQueryInformationFile := STATUS_SUCCESS;
     LcFetchRemoteFile := fetch;
     untag := {| ReparsePoints.FltQueryInformationFile := STATUS_SUCCESS;
                 ReparsePoints.FltSetInformationFile_1 := STATUS_SUCCESS;
                 ReparsePoints.FltCreateFileEx := STATUS_SUCCESS;
                 ReparsePoints.FltUntagFile_failure := None;
                 ReparsePoints.FltSetInformationFile_2 := STATUS_SUCCESS |};
     FltDeleteStreamContext := STATUS_SUCCESS |}.

(** The path [\a] (and [\A], the same path to the list of locks) names a stub. *)
Definition stub_path : UNICODE_STRING := [92; 97].
Definition stub_PATH : UNICODE_STRING := [92; 65].

Definition stub_volume : VOLUME :=
  [(stub_path,
    {| ReparsePoints.FileAttributes := LC_FILE_ATTRIBUTES;
       ReparsePoints.ReparsePoint := Some LC_REPARSE_TAG |})].

(** Access 0 runs up to its call of the fetch engine; access 1 then
    takes the lock of the same path. *)
Definition first_fetching : list (nat * ANSWERS) :=
  [(0%nat, served 4096 STATUS_SUCCESS); (0%nat, served 4096 STATUS_SUCCESS);
   (0%nat, served 4096 STATUS_SUCCESS); (0%nat, served 4096 STATUS_SUCCESS);
   (1%nat, served 8192 STATUS_SUCCESS)].

(** The fetch of access 0 fails and access 0 returns; access 1 then runs
    up to its own call of the fetch engine. *)
Definition first_fails : list (nat * ANSWERS) :=
  [(0%nat, served 4096 STATUS_ACCESS_DENIED); (0%nat, served 4096 STATUS_SUCCESS);
   (1%nat, served 8192 STATUS_SUCCESS); (1%nat, served 8192 STATUS_SUCCESS);
   (1%nat, served 8192 STATUS_SUCCESS)].

(** The fetch of access 0 succeeds and access 0 runs on to its return;
    access 1 then runs to its return. *)
Definition first_succeeds : list (nat * ANSWERS) :=
  [(0%nat, served 4096 STATUS_SUCCESS); (0%nat, served 4096 STATUS_SUCCESS);
   (0%nat, served 4096 STATUS_SUCCESS); (0%nat, served 4096 STATUS_SUCCESS);
   (1%nat, served 8192 STATUS_SUCCESS); (1%nat, served 8192 STATUS_SUCCESS);
   (1%nat, served 8192 STATUS_SUCCESS)].

End ReadWrite.

(** * Configuration.c: trusted processes, operation mode and report rate *)

Module Settings.
Import Configuration.

Definition MAX_REPORT_RATE : Z := 10000.
Definition DriverDisabled : Z := 0.

(** [DRIVER_CONFIGURATION_DATA], without its lock. Both lists are read
    from their heads. *)
Record DRIVER_CONFIGURATION_DATA := {
  OperationMode       : Z;
  ReportRate          : Z;
  RegistryPath        : UNICODE_STRING;
  TrustedProccessList : list HANDLE;
  PathsToWatch        : PATHS_TO_WATCH
}.

Definition NULL : HANDLE := 0.

Definition set_TrustedProccessList (l : list HANDLE) (c : DRIVER_CONFIGURATION_DATA)
    : DRIVER_CONFIGURATION_DATA :=
  {| OperationMode := OperationMode c; ReportRate := ReportRate c;
     RegistryPath := RegistryPath c; TrustedProccessList := l;
     PathsToWatch := PathsToWatch c |}.

Definition set_PathsToWatch (l : PATHS_TO_WATCH) (c : DRIVER_CONFIGURATION_DATA)
    : DRIVER_CONFIGURATION_DATA :=
  {| OperationMode := OperationMode c; ReportRate := ReportRate c;
     RegistryPath := RegistryPath c; TrustedProccessList := TrustedProccessList c;
     PathsToWatch := l |}.

(** ** Trusted processes *)

Definition LcIsProcessTrusted (c : DRIVER_CONFIGURATION_DATA) (ProcessId : HANDLE) : bool :=
  if ProcessId =? NULL then false
  else existsb (fun entry => entry =? ProcessId) (TrustedProccessList c).

(** [pool]: whether the pool serves the list entry. *)
Definition LcAddTrustedProcess (pool : bool) (c : DRIVER_CONFIGURATION_DATA)
    (ProcessId : HANDLE) : NTSTATUS * DRIVER_CONFIGURATION_DATA :=
  if ProcessId =? NULL then (STATUS_INVALID_PARAMETER_1, c)
  else if LcIsProcessTrusted c ProcessId then (STATUS_SUCCESS, c)
  else if negb pool then (STATUS_INSUFFICIENT_RESOURCES, c)
  else (STATUS_SUCCESS, set_TrustedProccessList (ProcessId :: TrustedProccessList c) c).

(** The walk of [LcRemoveTrustedProcess]: the first entry that holds
    [ProcessId] is unlinked and the walk stops. *)
Fixpoint unlink_first (ProcessId : HANDLE) (l : list HANDLE) : list HANDLE :=
  match l with
  | [] => []
  | entry :: rest =>
      if entry =? ProcessId then rest else entry :: unlink_first ProcessId rest
  end.

Definition LcRemoveTrustedProcess (c : DRIVER_CONFIGURATION_DATA) (ProcessId : HANDLE)
    : DRIVER_CONFIGURATION_DATA :=
  if ProcessId =? NULL then c
  else set_TrustedProccessList (unlink_first ProcessId (TrustedProccessList c)) c.

Definition LcClearTrustedProcesses (c : DRIVER_CONFIGURATION_DATA)
    : DRIVER_CONFIGURATION_DATA :=
  set_TrustedProccessList [] c.

(** ** Operation mode and report rate *)

Definition LcSetOperationMode (Value : Z) (c : DRIVER_CONFIGURATION_DATA)
    : DRIVER_CONFIGURATION_DATA :=
  {| OperationMode := Value; ReportRate := ReportRate c; RegistryPath := RegistryPath c;
     TrustedProccessList := TrustedProccessList c; PathsToWatch := PathsToWatch c |}.

Definition LcGetOperationMode (c : DRIVER_CONFIGURATION_DATA) : Z := OperationMode c.

(** [Value] is a ULONG. *)
Definition LcSetReportRate (Value : Z) (c : DRIVER_CONFIGURATION_DATA)
    : DRIVER_CONFIGURATION_DATA :=
  let Value := if MAX_REPORT_RATE <? Value then MAX_REPORT_RATE else Value in
  {| OperationMode := OperationMode c; ReportRate := Value; RegistryPath := RegistryPath c;
     TrustedProccessList := TrustedProccessList c; PathsToWatch := PathsToWatch c |}.

Definition LcGetReportRateForPath (c : DRIVER_CONFIGURATION_DATA) (Path : UNICODE_STRING)
    : Z :=
  if LcIsPathWatched (PathsToWatch c) Path then ReportRate c else 0.

(** The paths-to-watch functions over the configuration. *)
Definition LcAddPathToWatch (pool : bool * bool) (c : DRIVER_CONFIGURATION_DATA)
    (Path : UNICODE_STRING) : NTSTATUS * DRIVER_CONFIGURATION_DATA :=
  let '(status, paths) := Configuration.LcAddPathToWatch pool (PathsToWatch c) Path in
  (status, set_PathsToWatch paths c).

Definition LcClearPathsToWatch (c : DRIVER_CONFIGURATION_DATA) : DRIVER_CONFIGURATION_DATA :=
  set_PathsToWatch (Configuration.LcClearPathsToWatch (PathsToWatch c)) c.

(** ** Reading the configuration from the registry *)

(** What [LcGetRegistryValueDWord] and [LcGetRegistryValueString] answer
    for the three values: a status with the value read. The string is the
    memory from [stringValue.Buffer] on, as far as it can be read. [pool
    idx] are the pool's answers for the path number [idx]. *)
Record REGISTRY_ENV := {
  ReportRateValue    : NTSTATUS * Z;
  OperationModeValue : NTSTATUS * Z;
  WatchPathsValue    : NTSTATUS * list WCHAR;
  pool               : nat -> bool * bool
}.

(** [RtlInitUnicodeStringEx]: refuses a string longer than
    [UNICODE_STRING_MAX_CHARS - 1] code units. *)
Definition RtlInitUnicodeStringEx (s : UNICODE_STRING) : NTSTATUS :=
  if 65532 <? UnicodeLength s then STATUS_NAME_TOO_LONG else STATUS_SUCCESS.

(** How the [for (;;)] loop over the strings of the value ends. *)
Inductive PARSED :=
| Parsed (status : NTSTATUS) (c : DRIVER_CONFIGURATION_DATA)
(* [wcslen] ran past the memory that can be read. *)
| ReadPastValue
| MoreIterations.

(** [fuel] iterations of the loop from [buffer] on, entered with the
    local [status]. *)
Fixpoint watch_paths_value (pool : nat -> bool * bool) (fuel idx : nat)
    (buffer : list WCHAR) (status : NTSTATUS) (c : DRIVER_CONFIGURATION_DATA) : PARSED :=
  match fuel with
  | O => MoreIterations
  | S fuel' =>
      match wcslen buffer with
      | None => ReadPastValue
      | Some O => Parsed status c
      | Some currentStringLength =>
          let currentString := take currentStringLength buffer in
          let status := RtlInitUnicodeStringEx currentString in
          if negb (NT_SUCCESS status) then Parsed status c
          else
            let '(status, c') := LcAddPathToWatch (pool idx) c currentString in
            if negb (NT_SUCCESS status) then Parsed status c'
            else watch_paths_value pool fuel' (S idx)
                   (drop (S currentStringLength) buffer) status c'
      end
  end.

(** The [__finally] block. *)
Definition registry_finally (status : NTSTATUS) (c : DRIVER_CONFIGURATION_DATA)
    : NTSTATUS * DRIVER_CONFIGURATION_DATA :=
  if negb (NT_SUCCESS status)
  then (status, LcClearPathsToWatch (LcSetReportRate 0 (LcSetOperationMode DriverDisabled c)))
  else (status, c).

(** [LcReadConfigurationFromRegistry]. [None]: the loop over the strings
    read past the value. *)
Definition LcReadConfigurationFromRegistry (env : REGISTRY_ENV)
    (c : DRIVER_CONFIGURATION_DATA) : option (NTSTATUS * DRIVER_CONFIGURATION_DATA) :=
  if negb (RtlUnicodeStringValidate (RegistryPath c)) then Some (STATUS_INVALID_PARAMETER, c)
  else
    let '(status, dwordValue) := ReportRateValue env in
    if negb (NT_SUCCESS status) && negb (status =? STATUS_INVALID_PARAMETER)
    then Some (registry_finally status c)
    else
      let c := if NT_SUCCESS status then LcSetReportRate dwordValue c
               else LcSetReportRate 0 c in
      let '(status, dwordValue) := OperationModeValue env in
      if negb (NT_SUCCESS status) && negb (status =? STATUS_INVALID_PARAMETER)
      then Some (registry_finally status c)
      else
        let c := if NT_SUCCESS status then LcSetOperationMode dwordValue c
                 else LcSetOperationMode DriverDisabled c in
        let c := LcClearPathsToWatch c in
        let '(status, stringValue) := WatchPathsValue env in
        if negb (NT_SUCCESS status)
        then
          if status =? STATUS_INVALID_PARAMETER then Some (registry_finally STATUS_SUCCESS c)
          else Some (registry_finally status c)
        else
          match watch_paths_value (pool env) (S (length stringValue)) O stringValue
                  status c with
          | Parsed status c => Some (registry_finally status c)
          | ReadPastValue => None
          | MoreIterations => None
          end.

End Settings.

(** * Operations.c: the pre-create and directory-control callbacks *)

Module PreCreate.

Inductive FLT_PREOP_CALLBACK_STATUS :=
| FLT_PREOP_SUCCESS_NO_CALLBACK
| FLT_PREOP_SUCCESS_WITH_CALLBACK.

Definition FILE_DIRECTORY_FILE       : Z := 0x00000001.
Definition FILE_OPEN_BY_FILE_ID      : Z := 0x00002000.
Definition FO_VOLUME_OPEN            : Z := 0x00400000.
Definition SL_OPEN_PAGING_FILE       : Z := 0x02.
Definition IRP_PAGING_IO             : Z := 0x00000002.
Definition IRP_SYNCHRONOUS_PAGING_IO : Z := 0x00000040.
Definition FILE_CREATE               : Z := 0x00000002.

(** The members of the callback data and of the file object the
    callback reads or writes. [Options] is
    [Iopb->Parameters.Create.Options] (a ULONG: the create options in
    the low 24 bits, the disposition above them) and [ShareAccess] the
    USHORT beside it. *)
Record FLT_CALLBACK_DATA := {
  TargetFileObject : bool;
  Options          : Z;
  ShareAccess      : Z;
  FileObject_Flags : Z;
  OperationFlags   : Z;
  IrpFlags         : Z;
  Flags            : Z;
  Thread_ProcessId : HANDLE;
  Dirty            : bool
}.

(** [CREATE_COMPLETION_CONTEXT] as the callback fills it. *)
Record CREATE_COMPLETION_CONTEXT := {
  Name          : UNICODE_STRING;
  OperationMode : Z;
  ReportRate    : Z
}.

(** What the pool and the filter manager answer: whether the pool
    serves the completion context, and the result of
    [LcGetFileNameInformation]. *)
Record PRE_CREATE_ENV := {
  completionContextBuffer  : bool;
  LcGetFileNameInformation : NTSTATUS * UNICODE_STRING
}.

Record PRE_CREATE_RESULT := {
  callbackStatus    : FLT_PREOP_CALLBACK_STATUS;
  Data              : FLT_CALLBACK_DATA;
  CompletionContext : option CREATE_COMPLETION_CONTEXT
}.

Definition leave (Data0 : FLT_CALLBACK_DATA) : PRE_CREATE_RESULT :=
  {| callbackStatus := FLT_PREOP_SUCCESS_NO_CALLBACK; Data := Data0;
     CompletionContext := None |}.

Definition PreCreateOperationCallback (config : Settings.DRIVER_CONFIGURATION_DATA)
    (env : PRE_CREATE_ENV) (Data0 : FLT_CALLBACK_DATA) : PRE_CREATE_RESULT :=
  let createOptions := Z.land (Options Data0) 0xFFFFFF in
  let createDisposition := Z.shiftr (Options Data0) 24 in
  if negb (TargetFileObject Data0) then leave Data0
  else if FlagOn createOptions FILE_DIRECTORY_FILE
          || FlagOn createOptions FILE_OPEN_BY_FILE_ID
          || FlagOn (FileObject_Flags Data0) FO_VOLUME_OPEN
          || FlagOn (OperationFlags Data0) SL_OPEN_PAGING_FILE
          || FlagOn (IrpFlags Data0) IRP_PAGING_IO
          || FlagOn (IrpFlags Data0) IRP_SYNCHRONOUS_PAGING_IO
  then leave Data0
  else if FlagOn (Flags Data0) QueryInformation.FLTFL_CALLBACK_DATA_GENERATED_IO
          || FlagOn (Flags Data0) QueryInformation.FLTFL_CALLBACK_DATA_FS_FILTER_OPERATION
          || FlagOn (Flags Data0) QueryInformation.FLTFL_CALLBACK_DATA_REISSUED_IO
  then leave Data0
  else if createDisposition =? FILE_CREATE then leave Data0
  else
    let operationMode := Settings.LcGetOperationMode config in
    if operationMode =? Settings.DriverDisabled then leave Data0
    else if Settings.LcIsProcessTrusted config (Thread_ProcessId Data0)
    then
      if negb (Z.land (Options Data0) PostCreate.DefaultCreateOptions
               =? PostCreate.DefaultCreateOptions)
         || negb (Z.land (ShareAccess Data0) PostCreate.DefaultShareAccess
                  =? PostCreate.DefaultShareAccess)
      then leave {| TargetFileObject := TargetFileObject Data0;
                    Options := Z.lor (Options Data0) PostCreate.DefaultCreateOptions;
                    ShareAccess := Z.lor (ShareAccess Data0) PostCreate.DefaultShareAccess;
                    FileObject_Flags := FileObject_Flags Data0;
                    OperationFlags := OperationFlags Data0;
                    IrpFlags := IrpFlags Data0; Flags := Flags Data0;
                    Thread_ProcessId := Thread_ProcessId Data0; Dirty := true |}
      else leave Data0
    else if negb (completionContextBuffer env) then leave Data0
    else
      let '(status, name) := LcGetFileNameInformation env in
      if negb (NT_SUCCESS status) then leave Data0
      else
        {| callbackStatus := FLT_PREOP_SUCCESS_WITH_CALLBACK; Data := Data0;
           CompletionContext :=
             Some {| Name := name; OperationMode := operationMode;
                     ReportRate :=
                       if FlagOn operationMode PostCreate.WatchEnabled
                       then Settings.LcGetReportRateForPath config name
                       else 0 |} |}.

End PreCreate.

Module DirectoryControl.

Definition FILE_ATTRIBUTE_DIRECTORY : Z := 0x00000010.
Definition FILE_ATTRIBUTE_SYSTEM    : Z := 0x00000004.
Definition IRP_MN_QUERY_DIRECTORY   : Z := 0x01.

(** The information classes the callback has a case for; every other
    class is [FileOtherInformation]. *)
Inductive FILE_INFORMATION_CLASS :=
| FileDirectoryInformation
| FileFullDirectoryInformation
| FileBothDirectoryInformation
| FileIdBothDirectoryInformation
| FileIdFullDirectoryInformation
| FileOtherInformation.

(** One entry of the directory buffer: the two members the five
    structures share and the callback reads. *)
Record DIRECTORY_ENTRY := {
  NextEntryOffset : Z;
  FileAttributes  : Z
}.

(** The body of each [for (;;)] loop for one entry. *)
Definition show_online (fileInfo : DIRECTORY_ENTRY) : DIRECTORY_ENTRY :=
  if negb (FlagOn (FileAttributes fileInfo) FILE_ATTRIBUTE_DIRECTORY)
     && negb (FlagOn (FileAttributes fileInfo) FILE_ATTRIBUTE_SYSTEM)
     && (Z.land (FileAttributes fileInfo) LC_FILE_ATTRIBUTES =? LC_FILE_ATTRIBUTES)
  then {| NextEntryOffset := NextEntryOffset fileInfo;
          FileAttributes := Z.land (FileAttributes fileInfo)
                              (ULONG_of (Z.lnot FILE_ATTRIBUTE_OFFLINE)) |}
  else fileInfo.

(** The loop over the entries the buffer holds, in the order their
    offsets chain them. [None]: a non-zero [NextEntryOffset] led past
    the entries of the buffer. *)
Fixpoint walk (buffer : list DIRECTORY_ENTRY) : option (list DIRECTORY_ENTRY) :=
  match buffer with
  | [] => None
  | fileInfo :: rest =>
      if negb (NextEntryOffset fileInfo =? 0)
      then match walk rest with
           | Some rest' => Some (show_online fileInfo :: rest')
           | None => None
           end
      else Some (show_online fileInfo :: rest)
  end.

(** The members of the callback data the callback reads; [buffer] is
    [None] when neither the MDL nor the probed user buffer gives one. *)
Record FLT_CALLBACK_DATA := {
  IoStatus_Status      : NTSTATUS;
  MinorFunction        : Z;
  FileInformationClass : FILE_INFORMATION_CLASS;
  buffer               : option (list DIRECTORY_ENTRY)
}.

(** The buffer as [PostDirectoryControlOperationCallback] leaves it. The
    outer [None]: the walk left the buffer. *)
Definition PostDirectoryControlOperationCallback (Data : FLT_CALLBACK_DATA) (Flags0 : Z)
    : option (option (list DIRECTORY_ENTRY)) :=
  if FlagOn Flags0 QueryInformation.FLTFL_POST_OPERATION_DRAINING
     || negb (NT_SUCCESS (IoStatus_Status Data))
     || negb (MinorFunction Data =? IRP_MN_QUERY_DIRECTORY)
  then Some (buffer Data)
  else
    match buffer Data with
    | None => Some None
    | Some entries =>
        match FileInformationClass Data with
        | FileOtherInformation => Some (Some entries)
        | _ => match walk entries with
               | Some entries' => Some (Some entries')
               | None => None
               end
        end
    end.

End DirectoryControl.

(** * Fetch.c: fetching the remote file *)

Module RemoteFetch.

(** What the rest of the system answers during one [LcFetchRemoteFile]:
    the answers [LcOpenFile] gets, the result of
    [ZwQueryInformationFile] with [standardInfo.EndOfFile], the result
    of [FltSetInformationFile], and the pool and the I/O completions of
    [LcFetchFileByChunks]. *)
Record FETCH_ENV := {
  opener                 : Opener.OPEN_ENV;
  ZwQueryInformationFile : NTSTATUS * Z;
  FltSetInformationFile  : NTSTATUS;
  pool                   : nat -> bool * bool;
  io                     : nat -> Fetch.ENGINE -> Fetch.ITER_ENV
}.

(** The outcome: the status returned, [*BytesCopied], the end of file
    set on the target, the paths sent to the user-mode client, the
    handles closed (by [LcOpenFile] and by the cleanup block), and the
    locals of [LcFetchFileByChunks] at its return when it ran. *)
Record FETCH_REMOTE_RESULT := {
  status        : NTSTATUS;
  BytesCopied   : Z;
  EndOfFile     : option Z;
  notifications : list UNICODE_STRING;
  closed        : list HANDLE;
  engine        : option Fetch.ENGINE
}.

(** [fuel] bounds the passes through the loop of [LcFetchFileByChunks];
    [None]: the copy is still running after them (or followed an invalid
    chunk pointer). *)
Definition LcFetchRemoteFile (env : FETCH_ENV) (fuel : nat) (SourceFile : UNICODE_STRING)
    : option FETCH_REMOTE_RESULT :=
  let o := Opener.LcOpenFile (opener env) SourceFile in
  let sourceFileHandle := Opener.Handle o in
  (* The [__finally] block. *)
  let leave status0 BytesCopied0 EndOfFile0 engine0 :=
    {| status := status0; BytesCopied := BytesCopied0; EndOfFile := EndOfFile0;
       notifications := Opener.notifications o;
       closed := Opener.closed o
                 ++ match sourceFileHandle with Some h => [h] | None => [] end;
       engine := engine0 |} in
  if negb (NT_SUCCESS (Opener.status o)) then Some (leave (Opener.status o) 0 None None)
  else
    let '(status0, standardInfo_EndOfFile) := ZwQueryInformationFile env in
    if negb (NT_SUCCESS status0) then Some (leave status0 0 None None)
    else if standardInfo_EndOfFile =? 0 then Some (leave status0 0 None None)
    else
      let status0 := FltSetInformationFile env in
      if negb (NT_SUCCESS status0) then Some (leave status0 0 None None)
      else
        match Fetch.LcFetchFileByChunks (pool env) (io env) fuel standardInfo_EndOfFile with
        | Fetch.Returned status0 BytesCopied0 final =>
            Some (leave status0 BytesCopied0 (Some standardInfo_EndOfFile) (Some final))
        | _ => None
        end.

End RemoteFetch.

(** * Registry.c: string values *)

Module Registry.

Definition REG_SZ       : Z := 1.
Definition REG_MULTI_SZ : Z := 7.

(** The members of [KEY_VALUE_PARTIAL_INFORMATION] the function reads. *)
Record KEY_VALUE_PARTIAL_INFORMATION := {
  Type_      : Z;
  DataLength : Z
}.

(** The string [LcGetRegistryValueString] hands out: the size of the
    buffer it allocated, the [Length] it stored, and the number of bytes
    [RtlCopyMemory] wrote from the start of the buffer. *)
Record STRING_VALUE := {
  MaximumLength : Z;
  Length        : Z;
  bytesCopied   : Z
}.

(** [value] is what [LcGetRegistryValue] answers; [pool] tells whether
    the pool serves the string. *)
Definition LcGetRegistryValueString (value : NTSTATUS * KEY_VALUE_PARTIAL_INFORMATION)
    (pool : bool) : NTSTATUS * option STRING_VALUE :=
  let '(status, valueBuffer) := value in
  if negb (NT_SUCCESS status) then (status, None)
  else if negb ((Type_ valueBuffer =? REG_MULTI_SZ) || (Type_ valueBuffer =? REG_SZ))
  then (STATUS_INVALID_PARAMETER, None)
  else
    let Size := USHORT_of (DataLength valueBuffer) in
    let status := LcAllocateUnicodeString pool Size in
    if negb (NT_SUCCESS status) then (status, None)
    else
      (status,
       Some {| MaximumLength := Size;
               Length := USHORT_of (Size - 2);
               bytesCopied := DataLength valueBuffer |}).

End Registry.

(** * Communication.c: the commands of the user-mode client *)

Module Commands.

Definition GetDriverVersion       : Z := 1.
Definition ReadRegistryParameters : Z := 100.
Definition SetOperationMode       : Z := 101.
Definition SetWatchPaths          : Z := 102.
Definition SetReportRate          : Z := 103.

Definition STATUS_BUFFER_TOO_SMALL : NTSTATUS := Eval cbv in LONG_of 0xC0000023.
Definition STATUS_NOT_SUPPORTED    : NTSTATUS := Eval cbv in LONG_of 0xC00000BB.
Definition STATUS_INVALID_PARAMETER_4 : NTSTATUS := Eval cbv in LONG_of 0xC00000F2.

Definition LC_MAJOR_VERSION : Z := 1.
Definition LC_MINOR_VERSION : Z := 1.

(** [DRIVER_COMMAND] as the driver reads it from the input buffer: the
    two members of the header, and the bytes of the memory from the
    member [Data] on, as far as it can be read. *)
Record DRIVER_COMMAND := {
  Type_      : Z;
  DataLength : Z;
  Data       : list Z
}.

Definition FIELD_OFFSET_Data : Z := 8.

(** A ULONG and the WCHARs read from bytes (little endian); a read past
    the readable bytes raises an access violation. *)
Definition read_ULONG (bytes : list Z) : option Z :=
  match bytes with
  | b0 :: b1 :: b2 :: b3 :: _ => Some (b0 + 256 * b1 + 65536 * b2 + 16777216 * b3)
  | _ => None
  end.

Fixpoint read_WCHARs (bytes : list Z) : list WCHAR :=
  match bytes with
  | low :: high :: rest => (low + 256 * high) :: read_WCHARs rest
  | _ => []
  end.

(** What the rest of the system answers during one command. *)
Record COMMAND_ENV := {
  registry            : Settings.REGISTRY_ENV;
  pool                : nat -> bool * bool;
  (* [IoIs32bitProcess] on a 64-bit system. *)
  IoIs32bitProcess    : bool;
  sizeof_PVOID        : Z;
  (* The output buffer can be written. *)
  outputWritable      : bool
}.

Record COMMAND_RESULT := {
  status                   : NTSTATUS;
  Configuration            : Settings.DRIVER_CONFIGURATION_DATA;
  (* [DRIVER_VERSION] written to the output buffer: (Major, Minor). *)
  Output                   : option (Z * Z);
  (* [*ReturnOutputBufferLength]; [None]: not written, the caller's
     variable keeps whatever it held. *)
  ReturnOutputBufferLength : option Z
}.

(** A return of the dispatcher before it has written
    [*ReturnOutputBufferLength]. *)
Definition rejected (status0 : NTSTATUS) (c : Settings.DRIVER_CONFIGURATION_DATA)
    : COMMAND_RESULT :=
  {| status := status0; Configuration := c; Output := None;
     ReturnOutputBufferLength := None |}.

(** A return of a handler that wrote no output: the dispatcher has set
    [*ReturnOutputBufferLength] to zero before it called the handler. *)
Definition unchanged (status0 : NTSTATUS) (c : Settings.DRIVER_CONFIGURATION_DATA)
    : COMMAND_RESULT :=
  {| status := status0; Configuration := c; Output := None;
     ReturnOutputBufferLength := Some 0 |}.

(** The handlers. [InputBuffer] is the memory from the member [Data] of
    the command on ([None]: a null pointer). *)
Definition LcGetDriverVersionHandler (env : COMMAND_ENV) (OutputBuffer : option Z)
    (OutputBufferSize : Z) (c : Settings.DRIVER_CONFIGURATION_DATA) : COMMAND_RESULT :=
  match OutputBuffer with
  | None => unchanged STATUS_INVALID_PARAMETER_3 c
  | Some _ =>
      if OutputBufferSize <? 4 then unchanged STATUS_INVALID_PARAMETER_4 c
      else if negb (outputWritable env) then unchanged STATUS_ACCESS_VIOLATION c
      else {| status := STATUS_SUCCESS; Configuration := c;
              Output := Some (LC_MAJOR_VERSION, LC_MINOR_VERSION);
              ReturnOutputBufferLength := Some 4 |}
  end.

Definition LcSetOperationModeHandler (InputBuffer : option (list Z)) (InputBufferSize : Z)
    (c : Settings.DRIVER_CONFIGURATION_DATA) : COMMAND_RESULT :=
  match InputBuffer with
  | None => unchanged STATUS_INVALID_PARAMETER_1 c
  | Some bytes =>
      if InputBufferSize <? 4 then unchanged STATUS_INVALID_PARAMETER_2 c
      else match read_ULONG bytes with
           | None => unchanged STATUS_ACCESS_VIOLATION c
           | Some Mode => unchanged STATUS_SUCCESS (Settings.LcSetOperationMode Mode c)
           end
  end.

Definition LcSetReportRateHandler (InputBuffer : option (list Z)) (InputBufferSize : Z)
    (c : Settings.DRIVER_CONFIGURATION_DATA) : COMMAND_RESULT :=
  match InputBuffer with
  | None => unchanged STATUS_INVALID_PARAMETER_1 c
  | Some bytes =>
      if InputBufferSize <? 4 then unchanged STATUS_INVALID_PARAMETER_2 c
      else match read_ULONG bytes with
           | None => unchanged STATUS_ACCESS_VIOLATION c
           | Some ReportRate => unchanged STATUS_SUCCESS (Settings.LcSetReportRate ReportRate c)
           end
  end.

(** [Communication.LcSetWatchPathsHandler] over the configuration. The
    list is cleared before [PathCount] is read. [InputBuffer] comes with
    the value of the pointer. *)
Definition LcSetWatchPathsHandler (env : COMMAND_ENV) (InputBuffer : option (Z * list Z))
    (InputBufferSize : Z) (c : Settings.DRIVER_CONFIGURATION_DATA) : COMMAND_RESULT :=
  match InputBuffer with
  | None => unchanged STATUS_INVALID_PARAMETER_1 c
  | Some (address, bytes) =>
      if InputBufferSize <? Communication.FIELD_OFFSET_Data
      then unchanged STATUS_INVALID_PARAMETER_2 c
      else
        match read_ULONG bytes with
        | None => unchanged STATUS_ACCESS_VIOLATION (Settings.LcClearPathsToWatch c)
        | Some count =>
            let '(status0, paths) :=
              Communication.LcSetWatchPathsHandler (pool env) (sizeof_PVOID env)
                (Some (address,
                       {| Communication.PathCount := count;
                          Communication.Data := read_WCHARs (drop 4 bytes) |}))
                InputBufferSize (Settings.PathsToWatch c) in
            unchanged status0 (Settings.set_PathsToWatch paths c)
        end
  end.

(** [None]: the loop of [LcReadConfigurationFromRegistry] read past the value. *)
Definition LcReadRegistryParametersHandler (env : COMMAND_ENV)
    (c : Settings.DRIVER_CONFIGURATION_DATA) : option COMMAND_RESULT :=
  match Settings.LcReadConfigurationFromRegistry (registry env) c with
  | Some (status0, c') => Some (unchanged status0 c')
  | None => None
  end.

Definition LcValidateBufferAlignment (env : COMMAND_ENV) (Buffer : Z) : NTSTATUS :=
  let alignment := if IoIs32bitProcess env then 4 else sizeof_PVOID env in
  if negb (Buffer mod alignment =? 0) then STATUS_DATATYPE_MISALIGNMENT else STATUS_SUCCESS.

(** [LcClientMessageReceived]. [InputBuffer]: [None] is a null pointer,
    [Some (address, None)] a pointer of value [address] to a buffer whose
    header cannot be read. [OutputBuffer] is the address of the output
    buffer. The parameter [ReturnOutputBufferLength] is not null. *)
Definition LcClientMessageReceived (env : COMMAND_ENV)
    (InputBuffer : option (Z * option DRIVER_COMMAND)) (InputBufferSize : Z)
    (OutputBuffer : option Z) (OutputBufferSize : Z)
    (c : Settings.DRIVER_CONFIGURATION_DATA) : option COMMAND_RESULT :=
  match InputBuffer with
  | None => Some (rejected STATUS_INVALID_PARAMETER_2 c)
  | Some (address, message) =>
      if negb (0 <? InputBufferSize) then Some (rejected STATUS_INVALID_PARAMETER_3 c)
      else if negb (Bool.eqb (match OutputBuffer with Some _ => true | None => false end)
                             (0 <? OutputBufferSize))
      then Some (rejected STATUS_INVALID_PARAMETER_4 c)
      else if match OutputBuffer with
              | Some output => negb (NT_SUCCESS (LcValidateBufferAlignment env output))
              | None => false
              end
      then Some (rejected STATUS_DATATYPE_MISALIGNMENT c)
      else
        match message with
        | None => Some (rejected STATUS_ACCESS_VIOLATION c)
        | Some command =>
            let dataLength := DataLength command in
            if negb (ULONG_of (FIELD_OFFSET_Data + dataLength) <=? InputBufferSize)
            then Some (rejected STATUS_BUFFER_TOO_SMALL c)
            else
              let data := if 0 <? dataLength then Some (Data command) else None in
              let pointer :=
                Communication.ULONG_PTR_of (sizeof_PVOID env) (address + FIELD_OFFSET_Data) in
              if Type_ command =? GetDriverVersion
              then Some (LcGetDriverVersionHandler env OutputBuffer OutputBufferSize c)
              else if Type_ command =? ReadRegistryParameters
              then LcReadRegistryParametersHandler env c
              else if Type_ command =? SetOperationMode
              then Some (LcSetOperationModeHandler data dataLength c)
              else if Type_ command =? SetWatchPaths
              then Some (LcSetWatchPathsHandler env
                           (if 0 <? dataLength then Some (pointer, Data command) else None)
                           dataLength c)
              else if Type_ command =? SetReportRate
              then Some (LcSetReportRateHandler data dataLength c)
              else Some (rejected STATUS_NOT_SUPPORTED c)
        end
  end.

End Commands.

(** * Communication.c: the connection of the user-mode client *)

Module Connection.

(** The connection variables of Communication.c. A null pointer or handle
    is [None]; the null process id is [Settings.NULL]. *)
Record CONNECTION := {
  ClientPort          : option Z;
  ClientProcessId     : HANDLE;
  ClientProcessHandle : option HANDLE;
  SystemProcessHandle : option HANDLE
}.

(** The driver as the connection callbacks see it: the connection
    variables, the configuration, and the handles closed so far. *)
Record DRIVER := {
  connection    : CONNECTION;
  Configuration : Settings.DRIVER_CONFIGURATION_DATA;
  closed        : list HANDLE
}.

(** What the kernel answers during one [LcCommunicationPortConnect]: the
    id of the connecting process, the results of [ZwOpenProcess] and
    [ObOpenObjectByPointer] with the handle they store, and whether the
    pool serves the entry of the trusted list. *)
Record CONNECT_ENV := {
  PsGetCurrentProcessId : HANDLE;
  ZwOpenProcess         : NTSTATUS * option HANDLE;
  ObOpenObjectByPointer : NTSTATUS * option HANDLE;
  pool                  : bool
}.

Definition LcResetConnectionVariables (d : DRIVER) : DRIVER :=
  let c := connection d in
  let closed1 := match ClientProcessHandle c with
                 | Some h => closed d ++ [h]
                 | None => closed d
                 end in
  let closed2 := match SystemProcessHandle c with
                 | Some h => closed1 ++ [h]
                 | None => closed1
                 end in
  {| connection := {| ClientPort := ClientPort c; ClientProcessId := Settings.NULL;
                      ClientProcessHandle := None; SystemProcessHandle := None |};
     Configuration :=
       if negb (ClientProcessId c =? Settings.NULL)
       then Settings.LcRemoveTrustedProcess (Configuration d) (ClientProcessId c)
       else Configuration d;
     closed := closed2 |}.

(** A handle variable after a call that stores a handle only when it
    has one to give. *)
Definition stored (given old : option HANDLE) : option HANDLE :=
  match given with Some h => Some h | None => old end.

Definition LcCommunicationPortConnect (env : CONNECT_ENV) (Port : Z) (d : DRIVER)
    : NTSTATUS * DRIVER :=
  let c := connection d in
  let ProcessId := PsGetCurrentProcessId env in
  let '(status, clientHandle) := ZwOpenProcess env in
  let c1 := {| ClientPort := Some Port; ClientProcessId := ProcessId;
               ClientProcessHandle := stored clientHandle (ClientProcessHandle c);
               SystemProcessHandle := SystemProcessHandle c |} in
  let d1 := {| connection := c1; Configuration := Configuration d; closed := closed d |} in
  if negb (NT_SUCCESS status) then (status, LcResetConnectionVariables d1)
  else
    let '(status, systemHandle) := ObOpenObjectByPointer env in
    let c2 := {| ClientPort := Some Port; ClientProcessId := ProcessId;
                 ClientProcessHandle := ClientProcessHandle c1;
                 SystemProcessHandle := stored systemHandle (SystemProcessHandle c1) |} in
    let d2 := {| connection := c2; Configuration := Configuration d; closed := closed d |} in
    if negb (NT_SUCCESS status) then (status, LcResetConnectionVariables d2)
    else
      (* We trust the client process. *)
      let '(status, config) :=
        Settings.LcAddTrustedProcess (pool env) (Configuration d) ProcessId in
      let d3 := {| connection := c2; Configuration := config; closed := closed d |} in
      if negb (NT_SUCCESS status) then (status, LcResetConnectionVariables d3)
      else (status, d3).

(** [FltCloseClientPort] sets [ClientPort] to NULL. *)
Definition LcCommunicationPortDisconnect (d : DRIVER) : DRIVER :=
  let c := connection d in
  LcResetConnectionVariables
    {| connection := {| ClientPort := None; ClientProcessId := ClientProcessId c;
                        ClientProcessHandle := ClientProcessHandle c;
                        SystemProcessHandle := SystemProcessHandle c |};
       Configuration := Configuration d; closed := closed d |}.

End Connection.

(** * Properties *)

(** ** Fetch.c: the source opener *)

Section OpenerProperties.
Import Opener.

Lemma NT_SUCCESS_ACCESS_DENIED : NT_SUCCESS STATUS_ACCESS_DENIED = false.
Proof. reflexivity. Qed.

Lemma LcOpenFile_finally_status st h sent :
  status (LcOpenFile_finally st h sent) = st /\
  notifications (LcOpenFile_finally st h sent) = sent.
Proof. unfold LcOpenFile_finally. destruct (NT_SUCCESS st); auto. Qed.

(** C7. Error behaviour of [LcOpenFile]. A direct open that does not end
    in access-denied (success included) is returned as it is and the
    user-mode client is never asked. On access-denied the open is
    delegated once, for the same path; a delegation that ends in
    [STATUS_PORT_DISCONNECTED] or [STATUS_TIMEOUT] makes the opener return
    the original access-denied status, and every other delegation status
    is returned unchanged. *)
Theorem LcOpenFile_error_behavior (env : OPEN_ENV) (FilePath : UNICODE_STRING) :
  let r := LcOpenFile env FilePath in
  let direct := fst (ZwOpenFile env FilePath) in
  let delegated := fst (LcOpenFileInUserMode env FilePath) in
  (direct <> STATUS_ACCESS_DENIED ->
     status r = direct /\ notifications r = []) /\
  (direct = STATUS_ACCESS_DENIED ->
     notifications r = [FilePath] /\
     (delegated = STATUS_PORT_DISCONNECTED \/ delegated = STATUS_TIMEOUT ->
        status r = STATUS_ACCESS_DENIED) /\
     (delegated <> STATUS_PORT_DISCONNECTED -> delegated <> STATUS_TIMEOUT ->
        status r = delegated)).
Proof.
  cbv zeta. unfold LcOpenFile.
  destruct (ZwOpenFile env FilePath) as [direct h] eqn:Hopen.
  destruct (LcOpenFileInUserMode env FilePath) as [deleg uh] eqn:Huser.
  cbn [fst]. split.
  - intros Hne.
    assert (Hb : (direct =? STATUS_ACCESS_DENIED) = false) by (apply Z.eqb_neq; exact Hne).
    rewrite Hb, andb_false_r. apply LcOpenFile_finally_status.
  - intros ->. rewrite NT_SUCCESS_ACCESS_DENIED. cbn [negb andb Z.eqb].
    change (STATUS_ACCESS_DENIED =? STATUS_ACCESS_DENIED) with true. cbv iota.
    repeat split.
    + apply LcOpenFile_finally_status.
    + intros [-> | ->]; cbn; reflexivity.
    + intros H1 H2.
      apply Z.eqb_neq in H1, H2. rewrite H1, H2. cbn [orb].
      apply LcOpenFile_finally_status.
Qed.

(** The delegated open reports a torn-down port: the caller sees access-denied. *)
Definition disconnected_client : OPEN_ENV :=
  {| ZwOpenFile := fun _ => (STATUS_ACCESS_DENIED, None);
     LcOpenFileInUserMode := fun _ => (STATUS_PORT_DISCONNECTED, None) |}.

Lemma LcOpenFile_error_behavior_witness :
  status (LcOpenFile disconnected_client [92; 92; 115]) = STATUS_ACCESS_DENIED.
Proof.
  destruct (LcOpenFile_error_behavior disconnected_client [92; 92; 115]) as [_ H].
  destruct (H eq_refl) as [_ [Hmap _]].
  apply Hmap. left. reflexivity.
Defined.

End OpenerProperties.

(** ** Strings *)

Section StringProperties.

Lemma RtlUpcaseUnicodeChar_idem c :
  RtlUpcaseUnicodeChar (RtlUpcaseUnicodeChar c) = RtlUpcaseUnicodeChar c.
Proof.
  unfold RtlUpcaseUnicodeChar.
  destruct ((97 <=? c) && (c <=? 122)) eqn:E; [|rewrite E; reflexivity].
  apply andb_true_iff in E as [H1 H2]. apply Z.leb_le in H1, H2.
  destruct (97 <=? c - 32) eqn:E1; [apply Z.leb_le in E1; lia | reflexivity].
Qed.

(** Equality up to case, as [RtlCompareUnicodeString(.., .., TRUE) == 0] decides it. *)
Definition equal_ignoring_case (a b : UNICODE_STRING) : Prop :=
  map RtlUpcaseUnicodeChar a = map RtlUpcaseUnicodeChar b.

Lemma RtlCompareUnicodeString_zero a : forall b,
  RtlCompareUnicodeString a b = 0 <-> equal_ignoring_case a b.
Proof.
  unfold equal_ignoring_case.
  induction a as [|c1 r1 IH]; intros [|c2 r2]; cbn [RtlCompareUnicodeString map length].
  - split; auto.
  - split; [lia | discriminate].
  - split; [lia | discriminate].
  - destruct (RtlUpcaseUnicodeChar c1 - RtlUpcaseUnicodeChar c2 =? 0) eqn:E.
    + apply Z.eqb_eq in E. rewrite IH. split.
      * intros ->. f_equal. lia.
      * intros H. injection H. auto.
    + apply Z.eqb_neq in E. split; [contradiction|].
      intros H. injection H. intros _ Hc. lia.
Qed.

Lemma equal_ignoring_case_refl a : equal_ignoring_case a a.
Proof. reflexivity. Qed.

Lemma equal_ignoring_case_sym a b : equal_ignoring_case a b -> equal_ignoring_case b a.
Proof. unfold equal_ignoring_case. auto. Qed.

Lemma equal_ignoring_case_trans a b c :
  equal_ignoring_case a b -> equal_ignoring_case b c -> equal_ignoring_case a c.
Proof. unfold equal_ignoring_case. congruence. Qed.

End StringProperties.

(** ** FileLocks.c *)

Section FileLocksProperties.
Import FileLocks.

Lemma LONG_of_id x : - 2^31 <= x < 2^31 -> LONG_of x = x.
Proof.
  intros H. unfold LONG_of.
  destruct (Z_lt_le_dec x 0).
  - replace (x mod 2^32) with (x + 2^32).
    + destruct (x + 2^32 <? 2^31) eqn:E; [apply Z.ltb_lt in E; lia | lia].
    + apply Z.mod_unique with (-1); lia.
  - rewrite Z.mod_small by lia.
    destruct (x <? 2^31) eqn:E; [reflexivity | apply Z.ltb_ge in E; lia].
Qed.

Lemma reference_by_name_none name l :
  Forall (fun e => ~ equal_ignoring_case name (FileName e)) l ->
  reference_by_name name l = None.
Proof.
  induction 1 as [|e rest Hne _ IH]; cbn; [reflexivity|].
  destruct (RtlCompareUnicodeString name (FileName e) =? 0) eqn:E.
  - apply Z.eqb_eq, RtlCompareUnicodeString_zero in E. contradiction.
  - rewrite IH. reflexivity.
Qed.

Lemma reference_by_name_found name l1 e l2 :
  Forall (fun e => ~ equal_ignoring_case name (FileName e)) l1 ->
  equal_ignoring_case name (FileName e) ->
  reference_by_name name (l1 ++ e :: l2) = Some (Address e, l1 ++ reference e :: l2).
Proof.
  intros Hl1 He. induction Hl1 as [|x rest Hne _ IH]; cbn.
  - apply RtlCompareUnicodeString_zero, Z.eqb_eq in He. rewrite He. reflexivity.
  - destruct (RtlCompareUnicodeString name (FileName x) =? 0) eqn:E.
    + apply Z.eqb_eq, RtlCompareUnicodeString_zero in E. contradiction.
    + rewrite IH. reflexivity.
Qed.

Lemma LcCopyUnicodeString_ok name :
  UnicodeLength name <= 65532 ->
  LcCopyUnicodeString true name = (STATUS_SUCCESS, Some name).
Proof.
  intros H. unfold LcCopyUnicodeString, RtlUnicodeStringValidate.
  assert (H0 : 0 <= UnicodeLength name) by (unfold UnicodeLength; lia).
  destruct (UnicodeLength name <=? 65534) eqn:E; [|apply Z.leb_gt in E; lia].
  cbn [negb]. unfold LcAllocateUnicodeString, USHORT_of.
  rewrite Z.mod_small by lia.
  destruct (UnicodeLength name + 2 =? 0) eqn:E0; [apply Z.eqb_eq in E0; lia|].
  replace ((UnicodeLength name + 2) mod 2) with 0.
  - reflexivity.
  - unfold UnicodeLength. symmetry.
    replace (2 * Z.of_nat (length name) + 2) with ((Z.of_nat (length name) + 1) * 2) by lia.
    apply Z.mod_mul. lia.
Qed.

Lemma LcReleaseFileLock_at ev l1 e l2 :
  Forall (fun x => Address x <> ev) l1 ->
  Address e = ev ->
  LcReleaseFileLock ev (l1 ++ e :: l2) =
    match dereference e with
    | None => (l1 ++ l2, [ev])
    | Some e' => (l1 ++ e' :: l2, [])
    end.
Proof.
  intros Hl1 He. induction Hl1 as [|x rest Hne _ IH]; cbn.
  - subst ev. rewrite Z.eqb_refl. destruct (dereference e); reflexivity.
  - apply Z.eqb_neq in Hne. rewrite Hne, IH. destruct (dereference e); reflexivity.
Qed.

(** C3. The acquire/release contract of the lock list.
    Acquire, no entry for the name (up to case) and the pool serving both
    allocations: a new entry is made with a signaled event and a zero
    count, linked at the head with its count raised to one, and its event
    is returned. Acquire, an entry for the name exists: the first such
    entry has its count raised by one and its event is returned; nothing
    else changes. Release: the entry owning the event has its count
    lowered by one; it is unlinked and freed exactly when the count
    reaches zero, and otherwise stays with its event signaled. *)
Theorem file_lock_acquire_release_contract :
  (forall (pool : POOL_ENV) (l : list FILE_LOCK_ENTRY) (name : UNICODE_STRING) (a : PVOID),
      Forall (fun e => ~ equal_ignoring_case name (FileName e)) l ->
      entryBuffer pool = Some a -> nameBuffer pool = true ->
      UnicodeLength name <= 65532 ->
      Event (new_entry a name) = true /\ RefCount (new_entry a name) = 0 /\
      LcGetFileLock pool l name =
        {| status := STATUS_SUCCESS; EventOut := Some a;
           FileLocksList :=
             {| FileName := name; Event := true; RefCount := 1; Address := a |} :: l;
           freed := [] |}) /\
  (forall (pool : POOL_ENV) (l1 l2 : list FILE_LOCK_ENTRY) (e : FILE_LOCK_ENTRY)
          (name : UNICODE_STRING),
      Forall (fun x => ~ equal_ignoring_case name (FileName x)) l1 ->
      equal_ignoring_case name (FileName e) ->
      - 2^31 <= RefCount e < 2^31 - 1 ->
      LcGetFileLock pool (l1 ++ e :: l2) name =
        {| status := STATUS_SUCCESS; EventOut := Some (Address e);
           FileLocksList :=
             l1 ++ {| FileName := FileName e; Event := Event e;
                      RefCount := RefCount e + 1; Address := Address e |} :: l2;
           freed := [] |}) /\
  (forall (ev : PKEVENT) (l1 l2 : list FILE_LOCK_ENTRY) (e : FILE_LOCK_ENTRY),
      Forall (fun x => Address x <> ev) l1 ->
      Address e = ev ->
      1 <= RefCount e < 2^31 ->
      LcReleaseFileLock ev (l1 ++ e :: l2) =
        if RefCount e - 1 =? 0
        then (l1 ++ l2, [ev])
        else (l1 ++ {| FileName := FileName e; Event := true;
                       RefCount := RefCount e - 1; Address := Address e |} :: l2, [])).
Proof.
  split; [|split].
  - intros pool l name a Hnone Ha Hn Hlen. split; [reflexivity|]. split; [reflexivity|].
    unfold LcGetFileLock. rewrite (reference_by_name_none _ _ Hnone), Ha, Hn.
    rewrite (LcCopyUnicodeString_ok _ Hlen). reflexivity.
  - intros pool l1 l2 e name Hl1 He Hrange.
    unfold LcGetFileLock. rewrite (reference_by_name_found _ _ _ _ Hl1 He).
    unfold reference. rewrite LONG_of_id by lia. reflexivity.
  - intros ev l1 l2 e Hl1 He Hrange.
    rewrite (LcReleaseFileLock_at _ _ _ _ Hl1 He).
    unfold dereference. rewrite LONG_of_id by lia.
    destruct (RefCount e - 1 =? 0) eqn:E.
    + apply Z.eqb_eq in E. rewrite E. reflexivity.
    + apply Z.eqb_neq in E.
      destruct (RefCount e - 1 <=? 0) eqn:E'; [apply Z.leb_le in E'; lia | reflexivity].
Qed.

(** Two threads take the lock of [A] (the second spells it [a]); the
    first release keeps the entry and signals its event. *)
Lemma file_lock_acquire_release_contract_witness :
  let pool := {| entryBuffer := Some 4096; nameBuffer := true |} in
  let first := LcGetFileLock pool [] [65] in
  let second := LcGetFileLock pool (FileLocksList first) [97] in
  FileLocksList second = [{| FileName := [65]; Event := true; RefCount := 2; Address := 4096 |}] /\
  LcReleaseFileLock 4096 (FileLocksList second) =
    ([{| FileName := [65]; Event := true; RefCount := 1; Address := 4096 |}], []).
Proof.
  destruct file_lock_acquire_release_contract as [Hnew [Hfound Hrelease]].
  cbv zeta.
  destruct (Hnew {| entryBuffer := Some 4096; nameBuffer := true |} [] [65] 4096)
    as [_ [_ ->]]; [constructor | reflexivity | reflexivity | cbv; discriminate |].
  cbn [FileLocksList].
  assert (H2 := Hfound {| entryBuffer := Some 4096; nameBuffer := true |} [] []
             {| FileName := [65]; Event := true; RefCount := 1; Address := 4096 |} [97]
             ltac:(constructor) eq_refl ltac:(cbn; lia)).
  cbn [app FileName Event RefCount Address Z.add Pos.add Pos.succ] in H2. rewrite H2.
  cbn [FileLocksList].
  split; [reflexivity|].
  assert (H3 := Hrelease 4096 [] []
             {| FileName := [65]; Event := true; RefCount := 2; Address := 4096 |}
             ltac:(constructor) eq_refl ltac:(cbn; lia)).
  exact H3.
Defined.

End FileLocksProperties.

(** ** ReparsePoints.c: reading the reparse data *)

Section ReparseDataProperties.
Import ReparsePoints.

(** The spec's reading of the length check: the declared length covers
    the 8-byte remote size and the path with its terminator ([n] code
    units before the terminator). *)
Definition declared_length_covers_payload (d : LC_REPARSE_DATA) (n : nat) : Prop :=
  8 + (Z.of_nat n + 1) * 2 <= ReparseDataLength d.

(** What the length check of [LcGetReparsePointData] decides: once both
    file-system controls have succeeded and the path is terminated, the
    function answers [STATUS_IO_REPARSE_DATA_INVALID] exactly when the
    declared length is at least [sizeof(ReparseBuffer)] plus the bytes of
    the path with its terminator. *)
Lemma LcGetReparsePointData_length_check (env : REPARSE_ENV) (declared : Z)
    (st : NTSTATUS) (d : LC_REPARSE_DATA) (n : nat) :
  header env = (STATUS_BUFFER_OVERFLOW, declared) ->
  0 <= declared < 2^16 ->
  dataBuffer env = true ->
  data env = (st, d) -> NT_SUCCESS st = true ->
  wcslen (RemoteFilePath d) = Some n ->
  (LcGetReparsePointData env = Returned STATUS_IO_REPARSE_DATA_INVALID None
   <-> sizeof_ReparseBuffer + (Z.of_nat n + 1) * 2 <= ReparseDataLength d).
Proof.
  intros Hh Hd Hb Hdata Hst Hlen. unfold LcGetReparsePointData.
  rewrite Hh. change (STATUS_BUFFER_OVERFLOW =? STATUS_BUFFER_OVERFLOW) with true.
  cbn [negb]. cbv zeta.
  assert (Hsz : (ULONG_of (REPARSE_GUID_DATA_BUFFER_HEADER_SIZE + declared) =? 0) = false).
  { apply Z.eqb_neq. unfold ULONG_of, REPARSE_GUID_DATA_BUFFER_HEADER_SIZE.
    rewrite Z.mod_small; lia. }
  rewrite Hsz, Hb, Hdata, Hst, Hlen. cbn [negb].
  destruct (ReparseDataLength d <? sizeof_ReparseBuffer + (Z.of_nat n + 1) * 2) eqn:E; cbn [negb].
  - apply Z.ltb_lt in E. split; [|lia].
    unfold LcAllocateUnicodeString.
    repeat match goal with |- context [if ?b then _ else _] => destruct b end;
      intros H; try discriminate H; inversion H.
  - apply Z.ltb_ge in E. split; [lia | reflexivity].
Qed.

(** A mark for the path [a]: 8 bytes of size, the path with its
    terminator, and 8 more bytes, all inside the declared 20 bytes. *)
Definition padded_mark : REPARSE_ENV :=
  let d := {| ReparseTag := LC_REPARSE_TAG; ReparseDataLength := 20; Reserved := 0;
              ReparseGuid := 0; RemoteFileSize := 1500;
              RemoteFilePath := [97; 0; 0; 0; 0; 0] |} in
  {| header := (STATUS_BUFFER_OVERFLOW, 20); dataBuffer := true;
     data := (STATUS_SUCCESS, d); pathBuffer := true |}.

(** A mark whose declared 8 bytes end after the size; the code units
    after it belong to whatever follows the buffer. *)
Definition truncated_mark : REPARSE_ENV :=
  let d := {| ReparseTag := LC_REPARSE_TAG; ReparseDataLength := 8; Reserved := 0;
              ReparseGuid := 0; RemoteFileSize := 1500;
              RemoteFilePath := [97; 0] |} in
  {| header := (STATUS_BUFFER_OVERFLOW, 8); dataBuffer := true;
     data := (STATUS_SUCCESS, d); pathBuffer := true |}.

(** C6 (the code at the failing inputs). The declared length of
    [padded_mark] covers both payload fields, and the function rejects
    it; the declared length of [truncated_mark] does not cover the path,
    and the function accepts it. *)
Lemma LcGetReparsePointData_length_check_inverted :
  (declared_length_covers_payload (snd (data padded_mark)) 1 /\
   LcGetReparsePointData padded_mark = Returned STATUS_IO_REPARSE_DATA_INVALID None) /\
  (~ declared_length_covers_payload (snd (data truncated_mark)) 1 /\
   LcGetReparsePointData truncated_mark = Returned STATUS_SUCCESS (Some (1500, [97]))).
Proof.
  unfold declared_length_covers_payload. cbn.
  repeat split; try lia; reflexivity.
Qed.

End ReparseDataProperties.

(** ** ReparsePoints.c: removing the reparse point *)

Section UntagProperties.
Import ReparsePoints.

(** The three attributes [LcUntagFile] clears ("additional attributes"). *)
Definition stub_attributes : Z :=
  Z.lor FILE_ATTRIBUTE_REPARSE_POINT
    (Z.lor FILE_ATTRIBUTE_OFFLINE FILE_ATTRIBUTE_NOT_CONTENT_INDEXED).

(** The attributes with the three stub attributes cleared. *)
Definition without_stub_attributes (attributes : Z) : Z :=
  ClearFlag (ClearFlag (ClearFlag attributes FILE_ATTRIBUTE_REPARSE_POINT)
               FILE_ATTRIBUTE_OFFLINE) FILE_ATTRIBUTE_NOT_CONTENT_INDEXED.

Ltac bitwise i :=
  apply Z.bits_inj'; intros i ?;
  repeat rewrite ?Z.land_spec, ?Z.lor_spec.

Ltac bit_of H i :=
  apply (f_equal (fun x => Z.testbit x i)) in H;
  repeat rewrite ?Z.land_spec, ?Z.lor_spec in H.

Lemma clear_as_mask a : 
  without_stub_attributes a = Z.land a (ULONG_of (Z.lnot stub_attributes)).
Proof.
  unfold without_stub_attributes, ClearFlag.
  rewrite <- !Z.land_assoc. f_equal.
Qed.

Lemma clear_idempotent a :
  without_stub_attributes (without_stub_attributes a) = without_stub_attributes a.
Proof.
  rewrite !clear_as_mask, <- Z.land_assoc, Z.land_diag. reflexivity.
Qed.

Lemma clear_nothing a :
  0 <= a < 2^32 -> Z.land a stub_attributes = 0 -> without_stub_attributes a = a.
Proof.
  intros Ha H. rewrite clear_as_mask.
  assert (Hones : Z.land a (Z.ones 32) = a)
    by (rewrite Z.land_ones by lia; apply Z.mod_small; exact Ha).
  assert (Hor : Z.lor (ULONG_of (Z.lnot stub_attributes)) stub_attributes = Z.ones 32)
    by reflexivity.
  bitwise i. bit_of H i. bit_of Hones i. bit_of Hor i.
  rewrite Z.bits_0 in H.
  destruct (Z.testbit a i), (Z.testbit (ULONG_of (Z.lnot stub_attributes)) i),
    (Z.testbit stub_attributes i), (Z.testbit (Z.ones 32) i);
    cbn in *; congruence.
Qed.

Lemma restore_readonly a :
  0 <= a < 2^32 -> FlagOn a FILE_ATTRIBUTE_READONLY = true ->
  SetFlag (without_stub_attributes (ClearFlag a FILE_ATTRIBUTE_READONLY))
    FILE_ATTRIBUTE_READONLY = without_stub_attributes a.
Proof.
  intros Ha Hro. rewrite !clear_as_mask. unfold SetFlag, ClearFlag.
  assert (Hbit : Z.land a FILE_ATTRIBUTE_READONLY = FILE_ATTRIBUTE_READONLY).
  { unfold FlagOn in Hro. apply negb_true_iff, Z.eqb_neq in Hro.
    unfold FILE_ATTRIBUTE_READONLY in *. change 1 with (Z.ones 1) in *.
    rewrite Z.land_ones in * by lia. change (Z.ones 1) with 1.
    change (2^1) with 2 in *. pose proof (Z.mod_pos_bound a 2). lia. }
  assert (Hones : Z.land a (Z.ones 32) = a)
    by (rewrite Z.land_ones by lia; apply Z.mod_small; exact Ha).
  assert (Hor : Z.lor (ULONG_of (Z.lnot FILE_ATTRIBUTE_READONLY)) FILE_ATTRIBUTE_READONLY
                = Z.ones 32) by reflexivity.
  assert (Hin : Z.land FILE_ATTRIBUTE_READONLY (ULONG_of (Z.lnot stub_attributes))
                = FILE_ATTRIBUTE_READONLY) by reflexivity.
  bitwise i. bit_of Hbit i. bit_of Hones i. bit_of Hor i. bit_of Hin i.
  destruct (Z.testbit a i), (Z.testbit (ULONG_of (Z.lnot stub_attributes)) i),
    (Z.testbit FILE_ATTRIBUTE_READONLY i),
    (Z.testbit (ULONG_of (Z.lnot FILE_ATTRIBUTE_READONLY)) i), (Z.testbit (Z.ones 32) i);
    cbn in *; congruence.
Qed.

Lemma clear_keeps_range a : 0 <= a < 2^32 -> 0 <= without_stub_attributes a < 2^32.
Proof.
  intros Ha. rewrite clear_as_mask.
  assert (Hones : Z.land a (Z.ones 32) = a)
    by (rewrite Z.land_ones by lia; apply Z.mod_small; exact Ha).
  set (m := ULONG_of (Z.lnot stub_attributes)).
  assert (H : Z.land (Z.land a m) (Z.ones 32) = Z.land a m).
  { rewrite <- Z.land_assoc, (Z.land_comm m), Z.land_assoc, Hones. reflexivity. }
  rewrite Z.land_ones in H by lia.
  pose proof (Z.mod_pos_bound (Z.land a m) (2^32)). lia.
Qed.

(** Every lower-layer call of [LcUntagFile] succeeds. *)
Definition lower_layers_succeed (env : UNTAG_ENV) : Prop :=
  NT_SUCCESS (FltQueryInformationFile env) = true /\
  NT_SUCCESS (FltSetInformationFile_1 env) = true /\
  NT_SUCCESS (FltCreateFileEx env) = true /\
  FltUntagFile_failure env = None /\
  NT_SUCCESS (FltSetInformationFile_2 env) = true.

Lemma set_basic_information_ReparsePoint st a f :
  ReparsePoint (set_basic_information st a f) = ReparsePoint f.
Proof. unfold set_basic_information. destruct (_ && _); reflexivity. Qed.

Lemma LcUntagFile_absent_eq (env : UNTAG_ENV) (f : FILE_STATE) :
  ReparsePoint f = None ->
  0 <= FileAttributes f < 2^32 ->
  lower_layers_succeed env ->
  LcUntagFile env f =
    (FltSetInformationFile_2 env,
     if without_stub_attributes (FileAttributes f) =? 0 then f
     else {| FileAttributes := without_stub_attributes (FileAttributes f);
             ReparsePoint := None |}).
Proof.
  intros Hrp Ha (Hq & Hs1 & Hc & Hu & Hs2).
  unfold LcUntagFile. rewrite Hq. cbn [negb]. cbv zeta.
  destruct (FlagOn (FileAttributes f) FILE_ATTRIBUTE_READONLY) eqn:Hro.
  - rewrite Hs1, Hc. cbn [negb]. rewrite Hu.
    unfold FltUntagFile at 1. rewrite set_basic_information_ReparsePoint, Hrp.
    cbn [negb andb NT_SUCCESS]. 
    change (STATUS_NOT_A_REPARSE_POINT =? STATUS_NOT_A_REPARSE_POINT) with true.
    cbn [negb andb]. 
    change (NT_SUCCESS STATUS_NOT_A_REPARSE_POINT) with false. cbn [negb andb].
    fold (without_stub_attributes (ClearFlag (FileAttributes f) FILE_ATTRIBUTE_READONLY)).
    rewrite (restore_readonly _ Ha Hro).
    assert (Hnz : (without_stub_attributes (FileAttributes f) =? 0) = false).
    { apply Z.eqb_neq. rewrite <- (restore_readonly _ Ha Hro). unfold SetFlag.
      intros H0. apply Z.lor_eq_0_iff in H0 as [_ H0]. discriminate H0. }
    rewrite Hnz. f_equal.
    unfold set_basic_information at 1. rewrite Hs2, Hnz. cbn [negb andb].
    rewrite set_basic_information_ReparsePoint, Hrp. reflexivity.
  - rewrite Hq, Hc. cbn [negb]. rewrite Hu.
    unfold FltUntagFile. rewrite Hrp.
    change (STATUS_NOT_A_REPARSE_POINT =? STATUS_NOT_A_REPARSE_POINT) with true.
    change (NT_SUCCESS STATUS_NOT_A_REPARSE_POINT) with false. cbn [negb andb].
    fold (without_stub_attributes (FileAttributes f)).
    f_equal. unfold set_basic_information. rewrite Hs2, Hrp. cbn [andb].
    destruct (without_stub_attributes (FileAttributes f) =? 0); reflexivity.
Qed.

(** C8, amended. On a file whose reparse point is already absent, and
    with every lower-layer call succeeding, [LcUntagFile] returns a
    success status and leaves the reparse point absent; it still rewrites
    the basic information with the reparse-point, offline and
    not-content-indexed attributes cleared (a zero result keeps the
    attributes, as the file system reads a zero member). The file is
    therefore unchanged when none of the three attributes was set, and a
    second call changes nothing more. *)
Theorem LcUntagFile_absent_mark (env : UNTAG_ENV) (f : FILE_STATE) :
  ReparsePoint f = None ->
  0 <= FileAttributes f < 2^32 ->
  lower_layers_succeed env ->
  let r := LcUntagFile env f in
  NT_SUCCESS (fst r) = true /\
  ReparsePoint (snd r) = None /\
  FileAttributes (snd r) =
    (if without_stub_attributes (FileAttributes f) =? 0 then FileAttributes f
     else without_stub_attributes (FileAttributes f)) /\
  (Z.land (FileAttributes f) stub_attributes = 0 -> snd r = f) /\
  LcUntagFile env (snd r) = r.
Proof.
  intros Hrp Ha Henv. cbv zeta.
  rewrite (LcUntagFile_absent_eq env f Hrp Ha Henv). cbn [fst snd].
  destruct Henv as (Hq & Hs1 & Hc & Hu & Hs2).
  split; [exact Hs2|].
  destruct (without_stub_attributes (FileAttributes f) =? 0) eqn:Hz.
  - split; [exact Hrp|]. split; [reflexivity|]. split; [reflexivity|].
    rewrite (LcUntagFile_absent_eq env f Hrp Ha); [|repeat split; assumption].
    rewrite Hz. reflexivity.
  - cbn [ReparsePoint FileAttributes]. split; [reflexivity|]. split; [reflexivity|]. split.
    + intros Hnone. rewrite (clear_nothing _ Ha Hnone). destruct f as [a rp].
      cbn in Hrp |- *. rewrite Hrp. reflexivity.
    + rewrite LcUntagFile_absent_eq;
        [| reflexivity | cbn [FileAttributes]; apply clear_keeps_range; exact Ha
         | repeat split; assumption].
      cbn [FileAttributes]. rewrite clear_idempotent, Hz. reflexivity.
Qed.

Definition every_call_succeeds : UNTAG_ENV :=
  {| FltQueryInformationFile := STATUS_SUCCESS; FltSetInformationFile_1 := STATUS_SUCCESS;
     FltCreateFileEx := STATUS_SUCCESS; FltUntagFile_failure := None;
     FltSetInformationFile_2 := STATUS_SUCCESS |}.

(** A fetched file left with the archive and not-content-indexed attributes. *)
Definition not_indexed_file : FILE_STATE :=
  {| FileAttributes := Z.lor FILE_ATTRIBUTE_ARCHIVE FILE_ATTRIBUTE_NOT_CONTENT_INDEXED;
     ReparsePoint := None |}.

Lemma LcUntagFile_absent_mark_witness :
  NT_SUCCESS (fst (LcUntagFile every_call_succeeds not_indexed_file)) = true /\
  FileAttributes (snd (LcUntagFile every_call_succeeds not_indexed_file))
    = FILE_ATTRIBUTE_ARCHIVE.
Proof.
  destruct (LcUntagFile_absent_mark every_call_succeeds not_indexed_file)
    as (Hs & _ & Ha & _); [reflexivity | cbv; split; congruence | cbv; repeat split |].
  split; [exact Hs | exact Ha].
Defined.

(** C8 as stated fails: the reparse point of [not_indexed_file] is
    absent, [LcUntagFile] succeeds, and the file loses its
    not-content-indexed attribute. *)
Lemma LcUntagFile_absent_mark_changes_attributes :
  ReparsePoint not_indexed_file = None /\
  fst (LcUntagFile every_call_succeeds not_indexed_file) = STATUS_SUCCESS /\
  snd (LcUntagFile every_call_succeeds not_indexed_file) <> not_indexed_file /\
  FileAttributes not_indexed_file = 0x2020 /\
  FileAttributes (snd (LcUntagFile every_call_succeeds not_indexed_file)) = 0x20.
Proof.
  cbv. repeat split; congruence.
Qed.

End UntagProperties.

(** ** Operations.c: query information *)

Section QueryInformationProperties.
Import QueryInformation.

(** The request comes from a caller, not from a minifilter. *)
Definition caller_request (Data : FLT_CALLBACK_DATA) : Prop :=
  FlagOn (Flags Data) FLTFL_CALLBACK_DATA_GENERATED_IO = false /\
  FlagOn (Flags Data) FLTFL_CALLBACK_DATA_FS_FILTER_OPERATION = false /\
  FlagOn (Flags Data) FLTFL_CALLBACK_DATA_REISSUED_IO = false.

(** The lower layers returned data: success, or a buffer overflow. *)
Definition completed (Data : FLT_CALLBACK_DATA) : Prop :=
  NT_SUCCESS (IoStatus Data) = true \/ IoStatus Data = STATUS_BUFFER_OVERFLOW.

Lemma pre_query_synchronizes (Data : FLT_CALLBACK_DATA) :
  caller_request Data -> size_bearing (InfoBuffer Data) = true ->
  PreQueryInformationOperationCallback Data = FLT_PREOP_SYNCHRONIZE.
Proof.
  intros (H1 & H2 & H3) Hc. unfold PreQueryInformationOperationCallback.
  rewrite H1, H2, H3. cbn [orb].
  destruct (InfoBuffer Data); try discriminate Hc; reflexivity.
Qed.

Lemma ClearFlag_clears a m : Z.land (ClearFlag a m) m = 0.
Proof.
  unfold ClearFlag, ULONG_of. rewrite <- Z.land_assoc.
  change (2^32) with (2^32). rewrite <- (Z.land_ones (Z.lnot m) 32) by lia.
  rewrite <- (Z.land_assoc (Z.lnot m)), (Z.land_comm (Z.ones 32)), (Z.land_assoc (Z.lnot m)).
  rewrite (Z.land_comm (Z.lnot m) m), Z.land_lnot_diag, Z.land_0_l, Z.land_0_r.
  reflexivity.
Qed.

Lemma fix_information_members size info :
  EndOfFile_of (fix_information size info)
    = option_map (fun eof => if eof =? 0 then size else eof) (EndOfFile_of info) /\
  FileAttributes_of (fix_information size info)
    = option_map (fun a => ClearFlag a LC_FILE_ATTRIBUTES) (FileAttributes_of info).
Proof. destruct info; split; reflexivity. Qed.

(** C5, amended. Take a query of a size-bearing class that a caller
    issued, that the lower layers completed (success or buffer overflow)
    and that is not being drained. If the file has a stream context, a
    zero end-of-file is replaced by the context's remote file size (any
    other end-of-file is kept), and the attributes member, when the class
    has one (all-information, network-open), loses the offline and
    reparse-point bits. If the file has no stream context the buffer is
    returned as the lower layers filled it. *)
Theorem query_information_spoofs_size (lower : FLT_CALLBACK_DATA -> FLT_CALLBACK_DATA)
    (context : option LC_STREAM_CONTEXT) (Flags0 : Z) (Data : FLT_CALLBACK_DATA) :
  caller_request Data ->
  size_bearing (InfoBuffer Data) = true ->
  FlagOn Flags0 FLTFL_POST_OPERATION_DRAINING = false ->
  completed (lower Data) ->
  let out := query_information lower context Flags0 Data in
  (forall c, context = Some c ->
     EndOfFile_of (InfoBuffer out)
       = option_map (fun eof => if eof =? 0 then RemoteFileSize c else eof)
           (EndOfFile_of (InfoBuffer (lower Data))) /\
     FileAttributes_of (InfoBuffer out)
       = option_map (fun a => ClearFlag a LC_FILE_ATTRIBUTES)
           (FileAttributes_of (InfoBuffer (lower Data))) /\
     (forall a, FileAttributes_of (InfoBuffer out) = Some a ->
        Z.land a LC_FILE_ATTRIBUTES = 0)) /\
  (context = None -> out = lower Data).
Proof.
  intros Hcaller Hclass Hdrain Hdone. cbv zeta.
  unfold query_information. rewrite (pre_query_synchronizes _ Hcaller Hclass).
  unfold PostQueryInformationOperationCallback. rewrite Hdrain.
  assert (Hgo : negb (NT_SUCCESS (IoStatus (lower Data)))
                && negb (IoStatus (lower Data) =? STATUS_BUFFER_OVERFLOW) = false).
  { destruct Hdone as [H | H]; rewrite H; [reflexivity|].
    change (STATUS_BUFFER_OVERFLOW =? STATUS_BUFFER_OVERFLOW) with true.
    apply andb_false_r. }
  rewrite Hgo. split.
  - intros c ->. cbn [InfoBuffer].
    destruct (fix_information_members (RemoteFileSize c) (InfoBuffer (lower Data))) as [He Ha].
    split; [exact He|]. split; [exact Ha|].
    intros a. rewrite Ha.
    destruct (FileAttributes_of (InfoBuffer (lower Data))); cbn; [|discriminate].
    intros H. injection H as <-. apply ClearFlag_clears.
  - intros ->. reflexivity.
Qed.

(** The lower layers answer an all-information query on an empty stub. *)
Definition empty_stub (Data : FLT_CALLBACK_DATA) : FLT_CALLBACK_DATA :=
  {| Flags := Flags Data; IoStatus := STATUS_SUCCESS;
     InfoBuffer := FileAllInformation
                     (Z.lor FILE_ATTRIBUTE_ARCHIVE LC_FILE_ATTRIBUTES) 0 |}.

Definition query_all : FLT_CALLBACK_DATA :=
  {| Flags := 1; IoStatus := STATUS_SUCCESS; InfoBuffer := FileAllInformation 0 0 |}.

Definition stub_context : LC_STREAM_CONTEXT :=
  {| UseCustomHandler := false; RemoteFileSize := 4096; RemoteFilePath := [92; 97] |}.

Lemma query_information_spoofs_size_witness :
  let out := query_information empty_stub (Some stub_context) 0 query_all in
  EndOfFile_of (InfoBuffer out) = Some 4096 /\
  FileAttributes_of (InfoBuffer out) = Some FILE_ATTRIBUTE_ARCHIVE.
Proof.
  destruct (query_information_spoofs_size empty_stub (Some stub_context) 0 query_all)
    as [H _]; [cbv; repeat split | reflexivity | reflexivity | left; reflexivity |].
  destruct (H stub_context eq_refl) as (He & Ha & _).
  split; [exact He | exact Ha].
Defined.

(** C5 as stated fails: the same query on a file that has no stream
    context (an offline file that is not a stub of this driver, or a stub
    whose context could not be read) returns the offline and
    reparse-point bits untouched. *)
Lemma query_without_context_keeps_attributes :
  let out := query_information empty_stub None 0 query_all in
  size_bearing (InfoBuffer query_all) = true /\
  FileAttributes_of (InfoBuffer out) = Some 0x1420 /\
  Z.land 0x1420 LC_FILE_ATTRIBUTES = LC_FILE_ATTRIBUTES /\
  LC_FILE_ATTRIBUTES <> 0.
Proof. cbv. repeat split; congruence. Qed.

End QueryInformationProperties.

(** ** Operations.c: the post-create callback *)

Section PostCreateProperties.
Import PostCreate.

(** A status that makes the [__finally] block cancel the open. *)
Definition fails (s : NTSTATUS) : Prop :=
  NT_SUCCESS s = false /\ s <> STATUS_NOT_A_REPARSE_POINT.

(** [FltCancelFileOpen] was called, the create is completed with the
    status [s] and a zero information value, and the callback set no
    stream context. *)
Definition cancelled_with (r : POST_CREATE_RESULT) (s : NTSTATUS) : Prop :=
  cancelled r = true /\ status r = s /\
  IoStatus_Status (Data r) = s /\ IoStatus_Information (Data r) = 0 /\
  contextSet r = false.

Lemma finally_fails (D : FLT_CALLBACK_DATA) (s : NTSTATUS) (reported0 : bool)
    (trace0 : list (STEP * NTSTATUS)) :
  fails s -> cancelled_with (finally D s reported0 trace0 false) s.
Proof.
  intros [Hf Hne]. unfold finally. rewrite Hf.
  apply Z.eqb_neq in Hne. rewrite Hne. cbn. repeat split.
Qed.

Lemma finally_passes (D : FLT_CALLBACK_DATA) (s : NTSTATUS) (reported0 contextSet0 : bool)
    (trace0 : list (STEP * NTSTATUS)) :
  let r := finally D s reported0 trace0 contextSet0 in
  cancelled r = false ->
  Data r = D /\ status r = s /\ contextSet r = contextSet0 /\
  (NT_SUCCESS s = true \/ s = STATUS_NOT_A_REPARSE_POINT).
Proof.
  cbv zeta. unfold finally.
  destruct (NT_SUCCESS s); cbn [negb andb]; [cbn; auto|].
  destruct (s =? STATUS_NOT_A_REPARSE_POINT) eqn:Hs; cbn [negb]; cbn; [|discriminate].
  apply Z.eqb_eq in Hs. auto.
Qed.

(** C10, amended. After an open that ended in [STATUS_REPARSE] on the
    driver's tag (fetching enabled, default data stream), whichever of the
    post-create steps is the first to fail with a status other than
    [STATUS_NOT_A_REPARSE_POINT] (the reissue of the open, the untagging
    of a created or overwritten file, the reading of the reparse data, the
    attaching of the stream context) cancels the open: [FltCancelFileOpen]
    is called, the create is completed with that status and a zero
    information value, and no stream context is set. An open that is not
    cancelled keeps the I/O status of the (reissued) open, and either the
    step it stopped at succeeded or it ended in
    [STATUS_NOT_A_REPARSE_POINT]; in the latter case no stream context is
    set. *)
Theorem post_create_failure_cancels_open (env : POST_CREATE_ENV)
    (completionContext : CREATE_COMPLETION_CONTEXT) (Flags0 : Z)
    (Data0 : FLT_CALLBACK_DATA) :
  recognised env completionContext Flags0 Data0 ->
  let r := PostCreateOperationCallback env completionContext Flags0 Data0 in
  let reissue := fst (FltReissueSynchronousIo env) in
  let D := if needs_reissue Data0 then reissued env Data0 else Data0 in
  let untag := LcUntagFile env in
  let read := LcGetReparsePointData env in
  let attach := fst (LcFindOrCreateStreamContext env) in
  (needs_reissue Data0 = true -> fails reissue -> cancelled_with r reissue) /\
  ((needs_reissue Data0 = true -> NT_SUCCESS reissue = true) ->
   (created_or_overwritten D = true -> fails untag -> cancelled_with r untag) /\
   (created_or_overwritten D = false -> fails read -> cancelled_with r read) /\
   (created_or_overwritten D = false -> NT_SUCCESS read = true -> fails attach ->
    cancelled_with r attach)) /\
  (cancelled r = false ->
   Data r = D /\
   ((needs_reissue Data0 = true /\ reissue = STATUS_NOT_A_REPARSE_POINT /\
     status r = reissue /\ contextSet r = false) \/
    ((needs_reissue Data0 = true -> NT_SUCCESS reissue = true) /\
     ((created_or_overwritten D = true /\ status r = untag /\
       (NT_SUCCESS untag = true \/ untag = STATUS_NOT_A_REPARSE_POINT) /\
       contextSet r = false) \/
      (created_or_overwritten D = false /\ read = STATUS_NOT_A_REPARSE_POINT /\
       status r = read /\ contextSet r = false) \/
      (created_or_overwritten D = false /\ NT_SUCCESS read = true /\
       attach = STATUS_NOT_A_REPARSE_POINT /\ status r = attach /\
       contextSet r = false) \/
      (created_or_overwritten D = false /\ NT_SUCCESS read = true /\
       NT_SUCCESS attach = true /\ status r = attach /\
       contextSet r = snd (LcFindOrCreateStreamContext env)))))).
Proof.
  intros (Hd & Hdp & Hst & Htag & Hfe & Hstream). cbv zeta.
  unfold PostCreateOperationCallback.
  rewrite Hd, Hdp, Hst, Htag, Hfe.
  change (NT_SUCCESS STATUS_REPARSE) with true.
  change (STATUS_REPARSE =? STATUS_REPARSE) with true.
  change (LC_REPARSE_TAG =? LC_REPARSE_TAG) with true.
  cbn [negb orb andb].
  assert (Hs : negb (UnicodeLength (Stream completionContext) =? 0)
               && negb (RtlCompareUnicodeString (Stream completionContext) dataStreamName =? 0)
               = false).
  { destruct (UnicodeLength (Stream completionContext) =? 0); [reflexivity|].
    cbn [orb] in Hstream. rewrite Hstream. reflexivity. }
  rewrite Hs.
  assert (Hafter : forall D st0 done,
    let r := after_reissue env D st0 done in
    ((created_or_overwritten D = true -> fails (LcUntagFile env) ->
      cancelled_with r (LcUntagFile env)) /\
     (created_or_overwritten D = false -> fails (LcGetReparsePointData env) ->
      cancelled_with r (LcGetReparsePointData env)) /\
     (created_or_overwritten D = false -> NT_SUCCESS (LcGetReparsePointData env) = true ->
      fails (fst (LcFindOrCreateStreamContext env)) ->
      cancelled_with r (fst (LcFindOrCreateStreamContext env)))) /\
    (cancelled r = false ->
     Data r = D /\
     ((created_or_overwritten D = true /\ status r = LcUntagFile env /\
       (NT_SUCCESS (LcUntagFile env) = true
        \/ LcUntagFile env = STATUS_NOT_A_REPARSE_POINT) /\
       contextSet r = false) \/
      (created_or_overwritten D = false /\
       LcGetReparsePointData env = STATUS_NOT_A_REPARSE_POINT /\
       status r = LcGetReparsePointData env /\ contextSet r = false) \/
      (created_or_overwritten D = false /\ NT_SUCCESS (LcGetReparsePointData env) = true /\
       fst (LcFindOrCreateStreamContext env) = STATUS_NOT_A_REPARSE_POINT /\
       status r = fst (LcFindOrCreateStreamContext env) /\ contextSet r = false) \/
      (created_or_overwritten D = false /\ NT_SUCCESS (LcGetReparsePointData env) = true /\
       NT_SUCCESS (fst (LcFindOrCreateStreamContext env)) = true /\
       status r = fst (LcFindOrCreateStreamContext env) /\
       contextSet r = snd (LcFindOrCreateStreamContext env))))).
  { intros D st0 done. cbv zeta. unfold after_reissue.
    destruct (created_or_overwritten D).
    - split.
      + split; [intros _; apply finally_fails|]. split; discriminate.
      + intros Hc. apply finally_passes in Hc as (HD & Hs' & Hctx & Hok).
        split; [exact HD|]. left. auto.
    - destruct (NT_SUCCESS (LcGetReparsePointData env)) eqn:Hget; cbn [negb].
      + destruct (LcFindOrCreateStreamContext env) as [s2 created] eqn:Hctx.
        cbn [fst snd].
        destruct (NT_SUCCESS s2) eqn:Hs2; cbn [negb].
        * split.
          { split; [discriminate|]. split; [intros _ [? _]; congruence|].
            intros _ _ [? _]. congruence. }
          intros Hc. apply finally_passes in Hc as (HD & Hs' & Hc' & Hok).
          split; [exact HD|]. right. right. right. auto.
        * split.
          { split; [discriminate|]. split; [intros _ [? _]; congruence|].
            intros _ _. apply finally_fails. }
          intros Hc. apply finally_passes in Hc as (HD & Hs' & Hc' & [Hok | Hok]);
            [congruence|].
          split; [exact HD|]. right. right. left. auto.
      + split.
        { split; [discriminate|]. split; [intros _; apply finally_fails|].
          intros _ ?. congruence. }
        intros Hc. apply finally_passes in Hc as (HD & Hs' & Hc' & [Hok | Hok]);
          [congruence|].
        split; [exact HD|]. right. left. auto. }
  destruct (needs_reissue Data0).
  - cbv zeta. cbn [reissued IoStatus_Status].
    destruct (NT_SUCCESS (fst (FltReissueSynchronousIo env))) eqn:Hre; cbn [negb].
    + destruct (Hafter (reissued env Data0) (fst (FltReissueSynchronousIo env))
                  [(Reissue, fst (FltReissueSynchronousIo env))]) as [Hfail Hopen].
      split; [intros _ [? _]; congruence|]. split; [intros _; exact Hfail|].
      intros Hc. destruct (Hopen Hc) as [HD Hcases]. split; [exact HD|].
      right. split; [reflexivity|]. exact Hcases.
    + split; [intros _; apply finally_fails|].
      split; [intros H; specialize (H eq_refl); discriminate|].
      intros Hc. apply finally_passes in Hc as (HD & Hs' & Hc' & [Hok | Hok]);
        [congruence|].
      split; [exact HD|]. left. auto.
  - destruct (Hafter Data0 STATUS_SUCCESS []) as [Hfail Hopen].
    split; [discriminate|]. split; [intros _; exact Hfail|].
    intros Hc. destruct (Hopen Hc) as [HD Hcases]. split; [exact HD|].
    right. split; [discriminate|]. exact Hcases.
Qed.

(** The reparse data of the stub is malformed: the open is cancelled. *)
Definition malformed_stub : POST_CREATE_ENV :=
  {| DeletePending := false;
     FltReissueSynchronousIo := (STATUS_SUCCESS, FILE_OPENED);
     LcUntagFile := STATUS_SUCCESS;
     LcGetReparsePointData := STATUS_IO_REPARSE_DATA_INVALID;
     LcFindOrCreateStreamContext := (STATUS_SUCCESS, true) |}.

Definition fetching : CREATE_COMPLETION_CONTEXT :=
  {| Name := [92; 97]; Stream := []; OperationMode := FetchEnabled; ReportRate := 0 |}.

Definition reparse_hit : FLT_CALLBACK_DATA :=
  {| IoStatus_Status := STATUS_REPARSE; IoStatus_Information := 0;
     TagData := Some LC_REPARSE_TAG; Options := 0; ShareAccess := 0; Dirty := false |}.

Lemma post_create_failure_cancels_open_witness :
  recognised malformed_stub fetching 0 reparse_hit /\
  cancelled_with (PostCreateOperationCallback malformed_stub fetching 0 reparse_hit)
    STATUS_IO_REPARSE_DATA_INVALID.
Proof.
  assert (Hrec : recognised malformed_stub fetching 0 reparse_hit)
    by (cbv; repeat split).
  split; [exact Hrec|].
  destruct (post_create_failure_cancels_open malformed_stub fetching 0 reparse_hit Hrec)
    as (_ & H & _).
  destruct H as (_ & Hread & _); [reflexivity|].
  apply Hread; [reflexivity|]. split; [reflexivity | discriminate].
Defined.

(** The first [FSCTL_GET_REPARSE_POINT] of [LcGetReparsePointData] fails
    for want of resources on a stub that carries the driver's tag. *)
Definition unreadable : ReparsePoints.REPARSE_ENV :=
  {| ReparsePoints.header := (STATUS_INSUFFICIENT_RESOURCES, 0);
     ReparsePoints.dataBuffer := true;
     ReparsePoints.data :=
       (STATUS_SUCCESS,
        {| ReparsePoints.ReparseTag := LC_REPARSE_TAG;
           ReparsePoints.ReparseDataLength := 14;
           ReparsePoints.Reserved := 0;
           ReparsePoints.ReparseGuid := 0;
           ReparsePoints.RemoteFileSize := 1;
           ReparsePoints.RemoteFilePath := [92; 98; 0] |});
     ReparsePoints.pathBuffer := true |}.

Definition unread_stub : POST_CREATE_ENV :=
  {| DeletePending := false;
     FltReissueSynchronousIo := (STATUS_SUCCESS, FILE_OPENED);
     LcUntagFile := STATUS_SUCCESS;
     LcGetReparsePointData :=
       match ReparsePoints.LcGetReparsePointData unreadable with
       | ReparsePoints.Returned s _ => s
       | ReparsePoints.MemoryFault => STATUS_SUCCESS
       end;
     LcFindOrCreateStreamContext := (STATUS_SUCCESS, true) |}.

(** C10 as stated fails in its last clause. [LcGetReparsePointData]
    turns every status of its first [FSCTL_GET_REPARSE_POINT] other than
    [STATUS_BUFFER_OVERFLOW] into [STATUS_NOT_A_REPARSE_POINT], which the
    [__finally] block lets through: the open of the tagged stub succeeds
    with [FILE_OPENED], it is not cancelled, and no stream context is
    set. *)
Lemma unread_stub_is_opened_without_context :
  ReparsePoints.LcGetReparsePointData unreadable
    = ReparsePoints.Returned STATUS_NOT_A_REPARSE_POINT None /\
  recognised unread_stub fetching 0 reparse_hit /\
  let r := PostCreateOperationCallback unread_stub fetching 0 reparse_hit in
  cancelled r = false /\
  IoStatus_Status (Data r) = STATUS_SUCCESS /\
  IoStatus_Information (Data r) = FILE_OPENED /\
  TagData (Data r) = Some LC_REPARSE_TAG /\
  contextSet r = false.
Proof. vm_compute. repeat split. Qed.

End PostCreateProperties.

(** ** Configuration.c and Communication.c: the SetWatchPaths command *)

Section WatchPathsProperties.
Import Configuration Communication.

Lemma RtlPrefixUnicodeString_trans a : forall b c,
  RtlPrefixUnicodeString a b = true -> RtlPrefixUnicodeString b c = true ->
  RtlPrefixUnicodeString a c = true.
Proof.
  induction a as [|x a IH]; intros [|y b] [|z c]; cbn; try discriminate; auto.
  intros H1 H2. apply andb_true_iff in H1 as [E1 P1]. apply andb_true_iff in H2 as [E2 P2].
  apply Z.eqb_eq in E1, E2. rewrite E1, E2, Z.eqb_refl. cbn. eauto.
Qed.


Lemma wcslen_split buffer : forall n,
  wcslen buffer = Some n ->
  buffer = take n buffer ++ [UNICODE_NULL] ++ drop (S n) buffer.
Proof.
  induction buffer as [|c r IH]; cbn; [discriminate|]. intros n.
  destruct (c =? UNICODE_NULL) eqn:E.
  - intros H. injection H as <-. apply Z.eqb_eq in E. subst c. reflexivity.
  - destruct (wcslen r) as [m|]; [|discriminate].
    intros H. injection H as <-. cbn. f_equal. apply IH. reflexivity.
Qed.

(** What a list of paths watches: some entry is a prefix, up to case. *)
Definition watches (strings : list UNICODE_STRING) (q : UNICODE_STRING) : Prop :=
  RtlUnicodeStringValidate q = true /\
  exists p, In p strings /\ RtlPrefixUnicodeString p q = true.

Lemma LcIsPathWatched_watches paths q :
  LcIsPathWatched paths q = true <-> watches paths q.
Proof.
  unfold LcIsPathWatched, watches.
  destruct (RtlUnicodeStringValidate q); cbn [negb].
  - rewrite existsb_exists. intuition.
  - split; [discriminate | intros [H _]; discriminate H].
Qed.

Lemma LcAddPathToWatch_cases pool paths p st paths' :
  LcAddPathToWatch pool paths p = (st, paths') ->
  (NT_SUCCESS st = false /\ paths' = paths) \/
  (st = STATUS_SUCCESS /\
   (forall q, watches paths' q <-> watches (paths ++ [p]) q) /\
   (forall e, In e paths' -> In e paths \/ e = p)).
Proof.
  unfold LcAddPathToWatch.
  destruct (NT_SUCCESS (LcValidatePath p)); cbn [negb];
    [|intros H; injection H as <- <-; left; split; reflexivity].
  destruct (LcIsPathWatched paths p) eqn:Hw.
  - intros H. injection H as <- <-. right. split; [reflexivity|]. split; [|auto].
    apply LcIsPathWatched_watches in Hw as [_ (e & He & Hpre)].
    intros q. unfold watches. split; intros [Hv (x & Hx & Hq)]; split; try exact Hv.
    + exists x. split; [apply in_or_app; left; exact Hx | exact Hq].
    + apply in_app_or in Hx as [Hx | [<- | []]].
      * exists x. auto.
      * exists e. split; [exact He | eapply RtlPrefixUnicodeString_trans; eauto].
  - destruct (fst pool); cbn [negb];
      [|intros H; injection H as <- <-; left; split; reflexivity].
    unfold LcCopyUnicodeString.
    destruct (RtlUnicodeStringValidate p); cbn [negb];
      [|intros H; injection H as <- <-; left; split; reflexivity].
    destruct (NT_SUCCESS (LcAllocateUnicodeString _ _)) eqn:Ha.
    + intros H. injection H as <- <-. right. split; [reflexivity|]. split.
      * intros q. unfold watches.
        split; intros [Hv (x & Hx & Hq)]; split; try exact Hv; exists x; split; try exact Hq.
        -- destruct Hx as [<- | Hx]; apply in_or_app; [right; left; reflexivity | left; exact Hx].
        -- apply in_app_or in Hx as [Hx | [<- | []]]; [right; exact Hx | left; reflexivity].
      * intros e [<- | He]; auto.
    + intros H. injection H as <- <-. left. split; [exact Ha | reflexivity].
Qed.








End WatchPathsProperties.

(** ** Fetch.c: the memory bound of the chunk list *)

Section ChunkListProperties.
Import Fetch.

Definition chunk_bounded (c : FILE_CHUNK) : Prop := 0 < BufferSize c <= ChunkSize.

(** At most [MaxChunks] chunks, each with a buffer of at most
    [ChunkSize] bytes, and [chunkListLength] counts them. *)
Definition memory_bound (s : ENGINE) : Prop :=
  chunkListLength s = Z.of_nat (length (chunks s)) /\
  Z.of_nat (length (chunks s)) <= MaxChunks /\
  Forall chunk_bounded (chunks s).

Definition cursor_ok (cursor : option nat) (l : list FILE_CHUNK) : Prop :=
  forall id, cursor = Some id -> In id (map Id l).

(** The invariant of the loop: the memory bound, a list that is not
    empty, and cursors that point into it. *)
Definition ring_ok (l : list FILE_CHUNK) (len : Z) (r w : option nat) : Prop :=
  len = Z.of_nat (length l) /\ l <> [] /\ Z.of_nat (length l) <= MaxChunks /\
  Forall chunk_bounded l /\ cursor_ok r l /\ cursor_ok w l.

Definition engine_ok (s : ENGINE) : Prop :=
  ring_ok (chunks s) (chunkListLength s) (readChunk s) (writeChunk s) /\
  (waitingForRead s = true -> writeChunk s <> None).

Definition step_ok (st : STEP) : Prop :=
  match st with
  | Continue s | Leave s | Break s => engine_ok s
  | InvalidPointer => False
  end.

Lemma engine_ok_memory_bound s : engine_ok s -> memory_bound s.
Proof. intros ((H1 & _ & H2 & H3 & _) & _). repeat split; assumption. Qed.

(** *** The list operations *)

Lemma insert_before_length E new l : length (insert_before E new l) = S (length l).
Proof.
  induction l as [|c rest IH]; cbn; [reflexivity|].
  destruct (match E with Some id => Nat.eqb (Id c) id | None => false end); cbn; congruence.
Qed.

Lemma insert_before_In E new l x :
  In x (insert_before E new l) <-> x = new \/ In x l.
Proof.
  induction l as [|c rest IH]; cbn; [intuition|].
  destruct (match E with Some id => Nat.eqb (Id c) id | None => false end); cbn.
  - intuition.
  - rewrite IH. intuition.
Qed.

Lemma insert_before_Forall (P : FILE_CHUNK -> Prop) E new l :
  P new -> Forall P l -> Forall P (insert_before E new l).
Proof.
  intros Hn Hl. rewrite List.Forall_forall in *. intros x Hx.
  apply insert_before_In in Hx as [-> | Hx]; auto.
Qed.

Lemma store_BytesInBuffer_length id n l : length (store_BytesInBuffer id n l) = length l.
Proof. unfold store_BytesInBuffer. apply length_map. Qed.

Lemma store_BytesInBuffer_ids id n l : map Id (store_BytesInBuffer id n l) = map Id l.
Proof.
  unfold store_BytesInBuffer. rewrite List.map_map. apply List.map_ext.
  intros c. destruct (Nat.eqb (Id c) id); reflexivity.
Qed.

Lemma store_BytesInBuffer_bounded id n l :
  Forall chunk_bounded l -> Forall chunk_bounded (store_BytesInBuffer id n l).
Proof.
  unfold store_BytesInBuffer. intros H. induction H as [|c rest Hc _ IH]; cbn; constructor; auto.
  destruct (Nat.eqb (Id c) id); exact Hc.
Qed.

Lemma find_chunk_Some id l :
  In id (map Id l) -> exists c, find_chunk id l = Some c.
Proof.
  unfold find_chunk. induction l as [|c rest IH]; cbn; [intros []|].
  destruct (Nat.eqb (Id c) id) eqn:E; [eauto|].
  intros [H | H]; [apply Nat.eqb_neq in E; contradiction | auto].
Qed.

Lemma chunk_after_Some id l first :
  In id (map Id l) -> exists c, chunk_after id l (Some first) = Some c /\ (In c l \/ c = first).
Proof.
  induction l as [|c rest IH]; cbn; [intros []|].
  destruct (Nat.eqb (Id c) id) eqn:E.
  - intros _. destruct rest as [|next rest']; eauto. exists next. cbn. auto.
  - intros [H | H]; [apply Nat.eqb_neq in E; contradiction|].
    destruct (IH H) as (x & Hx & Hin). exists x. split; [exact Hx | tauto].
Qed.

Lemma next_chunk_Some cursor l :
  l <> [] -> cursor_ok cursor l -> exists c, next_chunk cursor l = Some c /\ In c l.
Proof.
  intros Hne Hc. destruct l as [|f rest]; [contradiction|].
  unfold next_chunk. destruct cursor as [id|].
  - cbn [head]. destruct (chunk_after_Some id (f :: rest) f (Hc id eq_refl)) as (c & Hx & Hin).
    exists c. split; [exact Hx|]. destruct Hin as [H | ->]; [exact H | left; reflexivity].
  - exists f. split; [reflexivity | left; reflexivity].
Qed.

(** *** [LcAddNewChunk] *)

Lemma ULONG_of_range x : 0 <= ULONG_of x < 2^32.
Proof. unfold ULONG_of. apply Z.mod_pos_bound. lia. Qed.

Lemma LcAddNewChunk_cases pool l Entry Remaining len :
  let bufferSize := Z.min ChunkSize (ULONG_of Remaining) in
  (exists st, LcAddNewChunk pool l Entry Remaining len = (st, l, None, len)
              /\ NT_SUCCESS st = false) \/
  (0 < bufferSize /\
   LcAddNewChunk pool l Entry Remaining len =
     (STATUS_SUCCESS,
      insert_before Entry {| Id := length l; BufferSize := bufferSize; BytesInBuffer := 0 |} l,
      Some {| Id := length l; BufferSize := bufferSize; BytesInBuffer := 0 |},
      ULONG_of (len + 1))).
Proof.
  cbv zeta. unfold LcAddNewChunk.
  destruct (fst pool); cbn [negb]; [|left; eexists; split; reflexivity].
  destruct (Z.min ChunkSize (ULONG_of Remaining) =? 0) eqn:E;
    [left; eexists; split; reflexivity|].
  destruct (snd pool); cbn [negb]; [|left; eexists; split; reflexivity].
  right. split; [|reflexivity].
  apply Z.eqb_neq in E. pose proof (ULONG_of_range Remaining). unfold ChunkSize in *. lia.
Qed.

Lemma new_chunk_bounded Remaining n :
  0 < Z.min ChunkSize (ULONG_of Remaining) ->
  chunk_bounded {| Id := n; BufferSize := Z.min ChunkSize (ULONG_of Remaining);
                   BytesInBuffer := 0 |}.
Proof. unfold chunk_bounded. cbn. lia. Qed.

(** *** The invariant along the loop *)

Lemma ring_ok_store l len r w id n :
  ring_ok l len r w -> ring_ok (store_BytesInBuffer id n l) len r w.
Proof.
  intros (H1 & H2 & H3 & H4 & H5 & H6). unfold ring_ok, cursor_ok.
  rewrite store_BytesInBuffer_length, store_BytesInBuffer_ids.
  repeat split; auto using store_BytesInBuffer_bounded.
  intros E. apply (f_equal (@length _)) in E. rewrite store_BytesInBuffer_length in E.
  destruct l; [contradiction | discriminate].
Qed.

Lemma ring_ok_read_cursor l len r w c :
  ring_ok l len r w -> In c l -> ring_ok l len (Some (Id c)) w.
Proof.
  intros (H1 & H2 & H3 & H4 & H5 & H6) Hin. repeat split; auto.
  intros id [= <-]. apply in_map. exact Hin.
Qed.

Lemma ring_ok_write_cursor l len r w c :
  ring_ok l len r w -> In c l -> ring_ok l len r (Some (Id c)).
Proof.
  intros (H1 & H2 & H3 & H4 & H5 & H6) Hin. repeat split; auto.
  intros id [= <-]. apply in_map. exact Hin.
Qed.

Lemma ring_ok_insert l len r w Entry new :
  ring_ok l len r w -> len < MaxChunks -> chunk_bounded new ->
  ring_ok (insert_before Entry new l) (ULONG_of (len + 1)) (Some (Id new)) w.
Proof.
  intros (H1 & H2 & H3 & H4 & H5 & H6) Hlen Hnew. unfold ring_ok, cursor_ok.
  rewrite insert_before_length. subst len. unfold MaxChunks in *.
  split; [unfold ULONG_of; rewrite Z.mod_small; lia|].
  split; [intros E; apply (f_equal (@length _)) in E;
          rewrite insert_before_length in E; discriminate|].
  split; [lia|]. split; [apply insert_before_Forall; assumption|].
  split.
  - intros id [= <-]. apply in_map. apply insert_before_In. left. reflexivity.
  - intros id Hw. apply H6 in Hw. apply in_map_iff in Hw as (x & <- & Hx).
    apply in_map. apply insert_before_In. right. exact Hx.
Qed.

Lemma LcWriteCallback_ring io s :
  chunks (LcWriteCallback io s) = chunks s /\
  chunkListLength (LcWriteCallback io s) = chunkListLength s /\
  readChunk (LcWriteCallback io s) = readChunk s /\
  writeChunk (LcWriteCallback io s) = writeChunk s /\
  waitingForRead (LcWriteCallback io s) = waitingForRead s.
Proof.
  unfold LcWriteCallback. destruct io as [[st info]|]; [|auto 6].
  destruct (writePending s); auto 6.
Qed.

Lemma LcWriteCallback_ok io s : engine_ok s -> engine_ok (LcWriteCallback io s).
Proof.
  unfold engine_ok. destruct (LcWriteCallback_ring io s) as (-> & -> & -> & -> & ->). auto.
Qed.

(** [LcGetNextAvailableChunk] never meets an invalid pointer, keeps the
    invariant whatever status it returns, and leaves the write cursor
    set when it was asked to move it. *)
Lemma LcGetNextAvailableChunk_ok e ReadOperation s :
  engine_ok s ->
  exists st s', LcGetNextAvailableChunk e ReadOperation s = Some (st, s') /\ engine_ok s' /\
                (ReadOperation = false -> NT_SUCCESS st = true /\ writeChunk s' <> None).
Proof.
  intros [Hok Hwait]. unfold LcGetNextAvailableChunk.
  assert (Hnext : exists c, next_chunk (if ReadOperation then readChunk s else writeChunk s)
                              (chunks s) = Some c /\ In c (chunks s)).
  { destruct Hok as (_ & Hne & _ & _ & Hr & Hw).
    apply next_chunk_Some; [exact Hne | destruct ReadOperation; assumption]. }
  destruct Hnext as (c & -> & Hin).
  destruct ReadOperation.
  - destruct (BytesInBuffer c =? 0); cbn [negb].
    + do 2 eexists. split; [reflexivity|]. split; [|discriminate]. split; cbn; [|exact Hwait].
      eapply ring_ok_read_cursor; eauto.
    + destruct (chunkListLength s <? MaxChunks) eqn:Hlen.
      * apply Z.ltb_lt in Hlen.
        destruct (LcAddNewChunk_cases (chunkPool e) (chunks s) (Some (Id c))
                    (remainingBytes s) (chunkListLength s)) as [(st & -> & _) | [Hpos ->]].
        -- do 2 eexists. split; [reflexivity|]. split; [split; assumption | discriminate].
        -- do 2 eexists. split; [reflexivity|]. split; [|discriminate].
           split; cbn; [|exact Hwait].
           apply (ring_ok_insert _ _ _ _ (Some (Id c))
                    {| Id := length (chunks s);
                       BufferSize := Z.min ChunkSize (ULONG_of (remainingBytes s));
                       BytesInBuffer := 0 |} Hok Hlen).
           apply new_chunk_bounded. exact Hpos.
      * do 2 eexists. split; [reflexivity|]. split; [|discriminate]. split; cbn.
        -- destruct (LcWriteCallback_ring (writeWait e) s) as (-> & -> & _ & -> & _).
           eapply ring_ok_read_cursor; eauto.
        -- destruct (LcWriteCallback_ring (writeWait e) s) as (_ & _ & _ & -> & ->).
           exact Hwait.
  - do 2 eexists. split; [reflexivity|]. split; [|intros _; split; [reflexivity | discriminate]].
    split; cbn; [|discriminate]. eapply ring_ok_write_cursor; eauto.
Qed.

Ltac frame :=
  repeat match goal with
         | |- context [if ?b then _ else _] => destruct b
         end;
  unfold step_ok, engine_ok in *; cbn -[store_BytesInBuffer] in *;
  repeat match goal with
         | H : _ /\ _ |- _ => destruct H
         | |- _ /\ _ => split
         end;
  auto using ring_ok_store; try discriminate.

Lemma schedule_read_ok e s : engine_ok s -> step_ok (schedule_read e s).
Proof.
  intros Hok. unfold schedule_read. destruct (eof s); [exact Hok|].
  set (s1 := if remainingBytes s <=? 0 then set_remainingBytes ChunkSize s else s).
  assert (Hok1 : engine_ok s1) by (subst s1; frame).
  destruct (LcGetNextAvailableChunk_ok e true s1 Hok1) as (st & s' & -> & Hok' & _).
  frame.
Qed.

Lemma complete_read_ok e id chunk s : engine_ok s -> engine_ok (complete_read e id chunk s).
Proof. intros Hok. unfold complete_read. cbv zeta. frame. Qed.

Lemma read_side_ok e s : engine_ok s -> step_ok (read_side e s).
Proof.
  intros Hok. unfold read_side. destruct (readChunk s) as [id|] eqn:Hr;
    [|apply schedule_read_ok; exact Hok].
  destruct (find_chunk_Some id (chunks s)) as (c & ->).
  { destruct Hok as ((_ & _ & _ & _ & Hc & _) & _). apply Hc. exact Hr. }
  cbv zeta. pose proof (complete_read_ok e id c s Hok) as Hok'.
  destruct (negb (NT_SUCCESS (status (complete_read e id c s))));
    [exact Hok' | apply schedule_read_ok; exact Hok'].
Qed.

Lemma schedule_write_ok e s :
  engine_ok s -> writeChunk s <> None -> step_ok (schedule_write e s).
Proof.
  intros Hok Hset. unfold schedule_write. cbv zeta.
  change (writeChunk (set_waitingForRead false s)) with (writeChunk s).
  change (chunks (set_waitingForRead false s)) with (chunks s).
  destruct (writeChunk s) as [id|] eqn:Hw; [|contradiction].
  destruct (find_chunk_Some id (chunks s)) as (c & ->).
  { destruct Hok as ((_ & _ & _ & _ & _ & Hc) & _). apply Hc. exact Hw. }
  frame; rewrite Hw; discriminate.
Qed.

Lemma advance_write_ok e s : engine_ok s -> step_ok (advance_write e s).
Proof.
  intros Hok. unfold advance_write.
  destruct (LcGetNextAvailableChunk_ok e false s Hok) as (st & s' & -> & Hok' & Hw).
  destruct (Hw eq_refl) as [-> Hset]. cbn [negb]. cbv zeta.
  apply schedule_write_ok; [frame | exact Hset].
Qed.

Lemma write_side_ok e s : engine_ok s -> step_ok (write_side e s).
Proof.
  intros Hok. unfold write_side. destruct (waitingForRead s) eqn:Hwait; cbn [negb].
  - apply schedule_write_ok; [exact Hok | apply Hok; exact Hwait].
  - destruct (writeChunk s) as [id|] eqn:Hw; [|apply advance_write_ok; exact Hok].
    cbv zeta. destruct (negb (NT_SUCCESS (status (set_status (writeStatus s) s)))).
    + frame.
    + apply advance_write_ok. unfold complete_write. frame.
Qed.

Lemma loop_body_ok e s : engine_ok s -> step_ok (loop_body e s).
Proof.
  intros Hok. unfold loop_body.
  destruct (waitingForRead s && negb (NT_SUCCESS (readWait e))); [frame|].
  cbv zeta.
  set (s1 := if waitingForRead s then set_status (readWait e) s else s).
  assert (Hok1 : engine_ok s1) by (subst s1; frame).
  set (s2 := LcWriteCallback (writeCompleted e) s1).
  assert (Hok2 : engine_ok s2) by (apply LcWriteCallback_ok; exact Hok1).
  set (after_read := if negb (eof s2) && _ then read_side e s2 else Continue s2).
  assert (Hafter : step_ok after_read).
  { subst after_read. destruct (negb (eof s2) && _); [apply read_side_ok|]; exact Hok2. }
  destruct after_read as [s3| | |]; try exact Hafter.
  destruct (writeEvent s2); [apply write_side_ok|]; exact Hafter.
Qed.

Lemma loop_ok env fuel : forall n s, engine_ok s -> step_ok (loop env fuel n s).
Proof.
  induction fuel as [|fuel IH]; intros n s Hok; cbn [loop]; [exact Hok|].
  pose proof (loop_body_ok (env n s) s Hok) as Hstep.
  destruct (loop_body (env n s) s) as [s'| | |]; try exact Hstep.
  apply IH. exact Hstep.
Qed.

Lemma LcInitializeChunksList_ok pool FileSize :
  match LcInitializeChunksList pool FileSize with
  | (st, l, len) =>
      if NT_SUCCESS st then ring_ok l len None None else l = [] /\ len = 0
  end.
Proof.
  unfold LcInitializeChunksList.
  assert (Hnone : forall l, cursor_ok None l) by (intros l id H; discriminate H).
  destruct (LcAddNewChunk_cases (pool O) [] None FileSize 0) as [(st & -> & Hf) | [Hpos ->]].
  { rewrite Hf. auto. }
  cbn [insert_before length BufferSize].
  set (c0 := {| Id := 0; BufferSize := Z.min ChunkSize (ULONG_of FileSize);
                BytesInBuffer := 0 |}).
  assert (Hone : ring_ok [c0] (ULONG_of (0 + 1)) None None).
  { split; [reflexivity|]. split; [discriminate|]. split; [cbv; discriminate|].
    split; [|split; apply Hnone]. constructor; [|constructor].
    apply new_chunk_bounded. exact Hpos. }
  destruct (LONGLONG_of (FileSize - Z.min ChunkSize (ULONG_of FileSize)) <=? 0).
  { exact Hone. }
  set (rest := LONGLONG_of (FileSize - Z.min ChunkSize (ULONG_of FileSize))).
  destruct (LcAddNewChunk_cases (pool 1%nat) [c0] None rest (ULONG_of (0 + 1)))
    as [(st & -> & Hf) | [Hpos' ->]].
  { rewrite Hf. auto. }
  cbn [insert_before length NT_SUCCESS STATUS_SUCCESS Z.leb Z.compare].
  split; [reflexivity|]. split; [discriminate|]. split; [cbv; discriminate|].
  split; [|split; apply Hnone].
  constructor; [apply new_chunk_bounded; exact Hpos|].
  constructor; [apply new_chunk_bounded; exact Hpos' | constructor].
Qed.

(** C4. Whatever the pool, the source and the target answer and however
    long the copy runs, the state [LcFetchFileByChunks] is in (after any
    number of passes through its loop, or when it returns) has at most
    [MaxChunks = 4] chunks, each with a buffer of at most
    [ChunkSize = 128 KiB], and no pointer into the list is ever invalid.
    [LcAddNewChunk] gives the chunk it allocates a buffer of
    [min(ChunkSize, (ULONG)RemainingBytes)] bytes, which is at most
    [min(ChunkSize, RemainingBytes)] for the positive amounts the engine
    passes and equal to it below 4 GiB. [LcGetNextAvailableChunk] changes
    the list only when [chunkListLength < MaxChunks], by one chunk; on a
    full list of [MaxChunks] chunks the reader waits for the write event
    instead. *)
Theorem chunk_list_memory_bound :
  (forall (pool : nat -> bool * bool) (env : nat -> ENGINE -> ITER_ENV) (fuel : nat)
          (SourceFileSize : Z),
      match LcFetchFileByChunks pool env fuel SourceFileSize with
      | Returned _ _ s | StillRunning s => memory_bound s
      | Invalid => False
      end) /\
  (forall pool l Entry RemainingBytes len st l' c len',
      LcAddNewChunk pool l Entry RemainingBytes len = (st, l', Some c, len') ->
      BufferSize c = Z.min ChunkSize (ULONG_of RemainingBytes) /\
      BufferSize c <= ChunkSize /\
      (0 < RemainingBytes -> BufferSize c <= Z.min ChunkSize RemainingBytes) /\
      (0 < RemainingBytes < 2^32 -> BufferSize c = Z.min ChunkSize RemainingBytes)) /\
  (forall e s st s',
      LcGetNextAvailableChunk e true s = Some (st, s') ->
      chunks s' <> chunks s ->
      chunkListLength s < MaxChunks /\ length (chunks s') = S (length (chunks s))) /\
  (forall e s c,
      next_chunk (readChunk s) (chunks s) = Some c ->
      BytesInBuffer c <> 0 -> MaxChunks <= chunkListLength s ->
      let waited := LcWriteCallback (writeWait e) s in
      LcGetNextAvailableChunk e true s =
        Some (if writeEvent waited then STATUS_SUCCESS else STATUS_TIMEOUT,
              set_readChunk (Some (Id c)) waited)).
Proof.
  split; [|split; [|split]].
  - intros pool env fuel SourceFileSize. unfold LcFetchFileByChunks.
    pose proof (LcInitializeChunksList_ok pool SourceFileSize) as Hinit.
    destruct (LcInitializeChunksList pool SourceFileSize) as [[st l] len].
    destruct (NT_SUCCESS st); cbn [negb].
    + assert (Hok : engine_ok (entry_state l len st SourceFileSize))
        by (split; [exact Hinit | discriminate]).
      pose proof (loop_ok env fuel O _ Hok) as Hloop.
      destruct (loop env fuel 0 (entry_state l len st SourceFileSize)); cbn in Hloop;
        try (apply engine_ok_memory_bound; exact Hloop); exact Hloop.
    + destruct Hinit as [-> ->]. repeat split; cbn; [cbv; discriminate | constructor].
  - intros pool l Entry Remaining len st l' c len' Hadd.
    destruct (LcAddNewChunk_cases pool l Entry Remaining len) as [(st0 & H & _) | [Hpos H]];
      rewrite H in Hadd; [discriminate Hadd|].
    injection Hadd as _ _ <- _. cbn [BufferSize].
    pose proof (ULONG_of_range Remaining) as Hr. unfold ULONG_of in *.
    split; [reflexivity|]. split; [lia|]. split.
    + intros Hp. pose proof (Z.mod_le Remaining (2^32)). lia.
    + intros Hp. rewrite Z.mod_small by lia. reflexivity.
  - intros e s st s' Hget Hne. unfold LcGetNextAvailableChunk in Hget.
    destruct (next_chunk (readChunk s) (chunks s)) as [c|]; [|discriminate].
    destruct (BytesInBuffer c =? 0); cbn [negb] in Hget.
    { injection Hget as _ <-. contradiction Hne. reflexivity. }
    destruct (chunkListLength s <? MaxChunks) eqn:Hlen.
    + apply Z.ltb_lt in Hlen. split; [exact Hlen|].
      destruct (LcAddNewChunk_cases (chunkPool e) (chunks s) (Some (Id c))
                  (remainingBytes s) (chunkListLength s)) as [(st0 & H & _) | [_ H]];
        rewrite H in Hget; injection Hget as _ <-.
      * contradiction Hne. reflexivity.
      * cbn. apply insert_before_length.
    + injection Hget as _ <-. contradiction Hne. cbn.
      apply (LcWriteCallback_ring (writeWait e) s).
  - intros e s c Hnext Hfull Hlen. cbv zeta. unfold LcGetNextAvailableChunk.
    rewrite Hnext. apply Z.eqb_neq in Hfull. rewrite Hfull. cbn [negb].
    apply Z.ltb_ge in Hlen. rewrite Hlen. reflexivity.
Qed.

(** The first chunk of a 1500-byte file holds 1500 bytes. *)
Lemma chunk_list_memory_bound_witness :
  match LcAddNewChunk (true, true) [] None 1500 0 with
  | (_, _, Some c, _) => BufferSize c = Z.min ChunkSize 1500
  | (_, _, None, _) => False
  end.
Proof.
  destruct chunk_list_memory_bound as (_ & Hcap & _).
  destruct (LcAddNewChunk (true, true) [] None 1500 0) as [[[st l'] [c|]] len'] eqn:Hadd.
  - destruct (Hcap _ _ _ _ _ _ _ _ _ Hadd) as (_ & _ & _ & Heq). apply Heq. lia.
  - vm_compute in Hadd. discriminate Hadd.
Defined.

(** The cast to ULONG truncates: with 4 GiB + 5 bytes remaining the new
    chunk gets a buffer of 5 bytes, and with exactly 4 GiB remaining the
    allocation is refused. *)
Lemma LcAddNewChunk_truncates :
  LcAddNewChunk (true, true) [] None (2^32 + 5) 0
    = (STATUS_SUCCESS, [{| Id := 0; BufferSize := 5; BytesInBuffer := 0 |}],
       Some {| Id := 0; BufferSize := 5; BytesInBuffer := 0 |}, 1) /\
  LcAddNewChunk (true, true) [] None (2^32) 0 = (STATUS_INVALID_PARAMETER_3, [], None, 0).
Proof. split; reflexivity. Qed.

End ChunkListProperties.

(** ** Fetch.c: the bytes copied *)

Section BytesCopiedProperties.
Import Fetch.

(** The bytes [LcWriteCallback] counts for a completed write. *)
Definition credited (io : NTSTATUS * Z) : Z :=
  if NT_SUCCESS (fst io) then ULONG_of (snd io) else 0.

(** The cumulative byte count of a list of completed writes. *)
Definition bytes_written (l : list (NTSTATUS * Z)) : Z :=
  fold_right Z.add 0 (map credited l).

Definition succeeded (io : NTSTATUS * Z) : Prop := NT_SUCCESS (fst io) = true.

Lemma bytes_written_app l x : bytes_written (l ++ [x]) = bytes_written l + credited x.
Proof.
  unfold bytes_written. induction l as [|y l IH]; cbn [app map fold_right]; [lia|].
  rewrite IH. lia.
Qed.

Lemma LONGLONG_of_mod x : LONGLONG_of x mod 2^64 = x mod 2^64.
Proof.
  unfold LONGLONG_of. cbv zeta.
  destruct (x mod 2^64 <? 2^63).
  - apply Z.mod_mod. lia.
  - replace (x mod 2^64 - 2^64) with (x mod 2^64 + (-1) * 2^64) by lia.
    rewrite Z.mod_add by lia. apply Z.mod_mod. lia.
Qed.

Lemma LONGLONG_of_add x y : LONGLONG_of (LONGLONG_of x + y) = LONGLONG_of (x + y).
Proof.
  unfold LONGLONG_of at 1 3. cbv zeta.
  rewrite Z.add_mod by lia. rewrite LONGLONG_of_mod. rewrite <- Z.add_mod by lia.
  reflexivity.
Qed.

(** A completed write waits to be counted: the event is signaled, the
    loop is not waiting for a read, and the write cursor is set. *)
Definition unaccounted (s : ENGINE) : bool :=
  writeEvent s && negb (waitingForRead s)
  && match writeChunk s with Some _ => true | None => false end.

(** No write is in flight and every completed write has been counted. *)
Definition settled (s : ENGINE) : Prop :=
  writePending s = false /\
  length (writes s) = length (completions s) /\
  totalBytesWritten s = LONGLONG_of (bytes_written (completions s)) /\
  Forall succeeded (completions s).

(** The invariant of the loop for the write side. *)
Definition accounting (s : ENGINE) : Prop :=
  writePending s = negb (writeEvent s) /\
  (writePending s = true -> waitingForRead s = false /\ writeChunk s <> None) /\
  length (writes s) = (length (completions s) + (if writePending s then 1 else 0))%nat /\
  exists done,
    totalBytesWritten s = LONGLONG_of (bytes_written done) /\
    Forall succeeded done /\
    if unaccounted s
    then exists info, completions s = done ++ [(writeStatus s, info)] /\
                      BytesWritten s = credited (writeStatus s, info)
    else completions s = done.

(** The locals the write side depends on. *)
Definition write_view (s : ENGINE) :=
  (writePending s, writeEvent s, waitingForRead s, writeChunk s,
   totalBytesWritten s, BytesWritten s, writeStatus s, writes s, completions s).

Lemma accounting_view s s' : write_view s = write_view s' -> accounting s -> accounting s'.
Proof.
  unfold write_view. intros H. injection H as H1 H2 H3 H4 H5 H6 H7 H8 H9.
  unfold accounting, unaccounted. rewrite H1, H2, H3, H4, H5, H6, H7, H8, H9. auto.
Qed.

Definition step_accounted (st : STEP) : Prop :=
  match st with
  | Continue s => accounting s
  | Break s => settled s
  | Leave s => status s <> STATUS_SUCCESS
  | InvalidPointer => True
  end.

Lemma failure_not_success st : NT_SUCCESS st = false -> st <> STATUS_SUCCESS.
Proof. intros H ->. discriminate H. Qed.

Lemma LcWriteCallback_accounting io s : accounting s -> accounting (LcWriteCallback io s).
Proof.
  intros Hacc. unfold LcWriteCallback.
  destruct io as [[st info]|]; [|exact Hacc].
  destruct (writePending s) eqn:Hp; [|exact Hacc].
  destruct Hacc as (H1 & H2 & H3 & done & Ht & Hd & Hc). rewrite Hp in H1, H3.
  destruct (H2 Hp) as [Hw Hset].
  assert (He : writeEvent s = false) by (destruct (writeEvent s); [discriminate H1 | reflexivity]).
  assert (Hun : unaccounted s = false) by (unfold unaccounted; rewrite He; reflexivity).
  rewrite Hun in Hc.
  unfold accounting, unaccounted. cbn. rewrite Hw.
  destruct (writeChunk s) as [id|]; [|contradiction]. cbn.
  split; [reflexivity|]. split; [discriminate|].
  split; [rewrite H3, length_app; cbn; lia|].
  exists done. split; [exact Ht|]. split; [exact Hd|].
  exists info. rewrite Hc. split; reflexivity.
Qed.

Lemma settled_event_accounting s :
  settled s -> writeEvent s = true -> waitingForRead s = true -> accounting s.
Proof.
  intros (Hp & Hl & Ht & Hd) He Hw. unfold accounting, unaccounted.
  rewrite Hp, He, Hw. cbn. split; [reflexivity|]. split; [discriminate|].
  split; [lia|]. exists (completions s). auto.
Qed.

Lemma schedule_write_accounted e s :
  settled s -> writeEvent s = true -> step_accounted (schedule_write e s).
Proof.
  intros (Hp & Hl & Ht & Hd) He. unfold schedule_write. cbv zeta.
  change (writeChunk (set_waitingForRead false s)) with (writeChunk s).
  change (chunks (set_waitingForRead false s)) with (chunks s).
  destruct (writeChunk s) as [id|] eqn:Hw; [|exact I].
  destruct (find_chunk id (chunks s)) as [c|]; [|exact I].
  destruct (BytesInBuffer c =? 0).
  - destruct (eof (set_waitingForRead false s)).
    + repeat split; assumption.
    + apply settled_event_accounting; [repeat split; assumption | exact He | reflexivity].
  - match goal with |- step_accounted (if negb (NT_SUCCESS ?x) then _ else _) =>
      destruct (NT_SUCCESS x) eqn:Hst end; cbn [negb].
    + unfold step_accounted, accounting, unaccounted. cbn. rewrite Hw.
      split; [reflexivity|]. split; [intros _; split; [reflexivity | discriminate]|].
      split; [rewrite length_app, Hl; cbn; lia|].
      exists (completions s). auto.
    + apply failure_not_success. exact Hst.
Qed.

Lemma advance_write_accounted e s :
  settled s -> writeEvent s = true -> step_accounted (advance_write e s).
Proof.
  intros Hs He. unfold advance_write, LcGetNextAvailableChunk.
  destruct (next_chunk (writeChunk s) (chunks s)) as [c|]; [|exact I].
  cbn [negb NT_SUCCESS STATUS_SUCCESS Z.leb Z.compare]. cbv zeta.
  apply schedule_write_accounted; [exact Hs | exact He].
Qed.

Lemma write_side_accounted e s :
  accounting s -> writeEvent s = true -> step_accounted (write_side e s).
Proof.
  intros (H1 & H2 & H3 & done & Ht & Hd & Hc) He.
  assert (Hp : writePending s = false) by (rewrite H1, He; reflexivity).
  rewrite Hp in H3. unfold write_side.
  unfold unaccounted in Hc. rewrite He in Hc. cbn [andb] in Hc.
  destruct (waitingForRead s) eqn:Hw; cbn [negb] in Hc |- *.
  - cbn [andb] in Hc. subst done.
    apply schedule_write_accounted; [|exact He]. repeat split; auto. lia.
  - destruct (writeChunk s) as [id|] eqn:Hwc; cbn [andb] in Hc.
    + destruct Hc as (info & Hc & Hb). cbv zeta.
      destruct (NT_SUCCESS (status (set_status (writeStatus s) s))) eqn:Hst; cbn [negb];
        [|apply failure_not_success; exact Hst].
      cbn in Hst. apply advance_write_accounted; [|exact He].
      unfold settled, complete_write. cbn -[bytes_written LONGLONG_of].
      split; [exact Hp|]. split; [lia|]. split.
      * rewrite Hc, bytes_written_app, Ht, Hb. apply LONGLONG_of_add.
      * rewrite Hc. apply List.Forall_app. split; [exact Hd|].
        constructor; [exact Hst | constructor].
    + subst done. apply advance_write_accounted; [|exact He]. repeat split; auto. lia.
Qed.

Lemma LcWriteCallback_event io s :
  writeEvent s = true -> writeEvent (LcWriteCallback io s) = true.
Proof.
  intros He. unfold LcWriteCallback. destruct io as [[st info]|]; [|exact He].
  destruct (writePending s); [reflexivity | exact He].
Qed.

(** What the read side may do to the locals of the write side. *)
Definition read_step_accounted (s : ENGINE) (st : STEP) : Prop :=
  match st with
  | Continue s' => accounting s' /\ (writeEvent s = true -> writeEvent s' = true)
  | Leave s' => status s' <> STATUS_SUCCESS
  | Break _ => False
  | InvalidPointer => True
  end.

Lemma LcGetNextAvailableChunk_read_accounted e s st s' :
  accounting s ->
  LcGetNextAvailableChunk e true s = Some (st, s') ->
  accounting s' /\ (writeEvent s = true -> writeEvent s' = true).
Proof.
  intros Hacc. unfold LcGetNextAvailableChunk.
  destruct (next_chunk (readChunk s) (chunks s)) as [c|]; [|discriminate].
  destruct (BytesInBuffer c =? 0); cbn [negb].
  { intros [= _ <-]. split; [|auto]. eapply accounting_view; [|exact Hacc]. reflexivity. }
  destruct (chunkListLength s <? MaxChunks).
  - destruct (LcAddNewChunk_cases (chunkPool e) (chunks s) (Some (Id c))
                (remainingBytes s) (chunkListLength s)) as [(st0 & -> & _) | [_ ->]];
      intros [= _ <-]; (split; [|auto]); [exact Hacc|].
    eapply accounting_view; [|exact Hacc]. reflexivity.
  - intros [= _ <-]. split.
    + eapply accounting_view; [|apply (LcWriteCallback_accounting (writeWait e)); exact Hacc].
      reflexivity.
    + apply LcWriteCallback_event.
Qed.

Lemma schedule_read_accounted e s :
  accounting s -> read_step_accounted s (schedule_read e s).
Proof.
  intros Hacc. unfold schedule_read. destruct (eof s); [split; auto|].
  set (s1 := if remainingBytes s <=? 0 then set_remainingBytes ChunkSize s else s).
  assert (Hview : write_view s = write_view s1)
    by (subst s1; destruct (remainingBytes s <=? 0); reflexivity).
  assert (Hacc1 : accounting s1) by (eapply accounting_view; eauto).
  assert (Hev : writeEvent s1 = writeEvent s) by (injection Hview; auto).
  destruct (LcGetNextAvailableChunk e true s1) as [[st s']|] eqn:Hget; [|exact I].
  destruct (LcGetNextAvailableChunk_read_accounted _ _ _ _ Hacc1 Hget) as [Hacc' Hev'].
  cbv zeta. destruct (NT_SUCCESS st) eqn:Hst; cbn [negb];
    [|apply failure_not_success; exact Hst].
  match goal with |- read_step_accounted _ (if ?c then _ else _) => destruct c eqn:Hc end.
  - split; [eapply accounting_view; [|exact Hacc']; reflexivity|].
    intros He. cbn. apply Hev'. rewrite Hev. exact He.
  - cbn in Hc |- *. intros E. rewrite E in Hc. discriminate Hc.
Qed.

Lemma complete_read_view e id chunk s :
  write_view (complete_read e id chunk s) = write_view s.
Proof.
  unfold complete_read. cbv zeta.
  repeat match goal with |- context [if ?b then _ else _] => destruct b end; reflexivity.
Qed.

Lemma read_side_accounted e s :
  accounting s -> read_step_accounted s (read_side e s).
Proof.
  intros Hacc. unfold read_side.
  destruct (readChunk s) as [id|]; [|apply schedule_read_accounted; exact Hacc].
  destruct (find_chunk id (chunks s)) as [c|]; [|exact I].
  cbv zeta. pose proof (complete_read_view e id c s) as Hview.
  destruct (NT_SUCCESS (status (complete_read e id c s))) eqn:Hst; cbn [negb];
    [|apply failure_not_success; exact Hst].
  assert (Hacc' : accounting (complete_read e id c s))
    by (eapply accounting_view; [symmetry; exact Hview | exact Hacc]).
  pose proof (schedule_read_accounted e _ Hacc') as Hstep.
  assert (Hev : writeEvent (complete_read e id c s) = writeEvent s) by (injection Hview; auto).
  destruct (schedule_read e (complete_read e id c s)); cbn in Hstep |- *; try exact Hstep.
  rewrite <- Hev. exact Hstep.
Qed.

Lemma loop_body_accounted e s : accounting s -> step_accounted (loop_body e s).
Proof.
  intros Hacc. unfold loop_body.
  destruct (waitingForRead s && negb (NT_SUCCESS (readWait e))) eqn:Hwait.
  { apply andb_true_iff in Hwait as [_ Hf]. apply negb_true_iff in Hf.
    apply failure_not_success. exact Hf. }
  cbv zeta.
  set (s1 := if waitingForRead s then set_status (readWait e) s else s).
  assert (Hacc1 : accounting s1).
  { eapply accounting_view; [|exact Hacc]. subst s1. destruct (waitingForRead s); reflexivity. }
  set (s2 := LcWriteCallback (writeCompleted e) s1).
  assert (Hacc2 : accounting s2) by (apply LcWriteCallback_accounting; exact Hacc1).
  set (after_read := if negb (eof s2) && _ then read_side e s2 else Continue s2).
  assert (Hafter : read_step_accounted s2 after_read).
  { subst after_read. destruct (negb (eof s2) && _);
      [apply read_side_accounted; exact Hacc2 | split; auto]. }
  destruct after_read as [s3| | |]; cbn in Hafter |- *;
    try exact Hafter; try contradiction.
  destruct Hafter as [Hacc3 Hev].
  destruct (writeEvent s2); [apply write_side_accounted; auto | exact Hacc3].
Qed.


Lemma entry_state_accounting l len st size : accounting (entry_state l len st size).
Proof.
  unfold accounting, unaccounted. cbn.
  split; [reflexivity|]. split; [discriminate|]. split; [reflexivity|].
  exists []. repeat split. constructor.
Qed.




End BytesCopiedProperties.

(** ** Operations.c: at most one fetcher per path *)

Section ConcurrentAccessProperties.
Import FileLocks ReadWrite.

Ltac Z_eqb :=
  repeat match goal with
         | H : (_ =? _) = true |- _ => apply Z.eqb_eq in H
         | H : (_ =? _) = false |- _ => apply Z.eqb_neq in H
         end.

Lemma entry_at_Some a l e : entry_at a l = Some e -> In e l /\ Address e = a.
Proof.
  unfold entry_at. intros H. apply find_some in H as [Hin Ha].
  split; [exact Hin | apply Z.eqb_eq; exact Ha].
Qed.

Lemma entry_at_cons a x l :
  entry_at a (x :: l) = if Address x =? a then Some x else entry_at a l.
Proof. reflexivity. Qed.

Lemma entry_at_absent a l : ~ In a (map Address l) -> entry_at a l = None.
Proof.
  induction l as [|x l IH]; intros Hn; [reflexivity|].
  rewrite entry_at_cons. cbn in Hn.
  destruct (Address x =? a) eqn:E; [apply Z.eqb_eq in E; tauto | apply IH; tauto].
Qed.

Lemma entry_at_present a l e : entry_at a l = Some e -> In a (map Address l).
Proof.
  intros H. apply entry_at_Some in H as [Hin <-]. apply in_map. exact Hin.
Qed.

Lemma entry_at_satisfy_wait ev b l :
  entry_at b (satisfy_wait ev l) =
    if b =? ev then option_map reset (entry_at b l) else entry_at b l.
Proof.
  induction l as [|x l IH]; [cbn; destruct (b =? ev); reflexivity|].
  cbn [satisfy_wait map]. rewrite !entry_at_cons. fold (satisfy_wait ev l). rewrite IH.
  destruct (Address x =? ev) eqn:Ex; cbn [reset Address];
    destruct (Address x =? b) eqn:Eb; destruct (b =? ev) eqn:Ebe;
    try reflexivity; exfalso; Z_eqb; congruence.
Qed.

Lemma satisfy_wait_addresses ev l : map Address (satisfy_wait ev l) = map Address l.
Proof.
  unfold satisfy_wait. rewrite map_map. apply map_ext.
  intros e. destruct (Address e =? ev); reflexivity.
Qed.

(** [LcGetFileLock] finding an entry: the entries seen through their events. *)
Lemma reference_by_name_spec name : forall l ev l',
  NoDup (map Address l) ->
  reference_by_name name l = Some (ev, l') ->
  (exists e, entry_at ev l = Some e /\ RtlCompareUnicodeString name (FileName e) = 0) /\
  map Address l' = map Address l /\
  (forall b, entry_at b l' =
             if b =? ev then option_map reference (entry_at b l) else entry_at b l).
Proof.
  induction l as [|x l IH]; intros ev l' Hnd Href; [discriminate|].
  cbn [reference_by_name] in Href. cbn [map] in Hnd. apply NoDup_cons in Hnd as [Hx Hnd].
  destruct (RtlCompareUnicodeString name (FileName x) =? 0) eqn:E.
  - injection Href as <- <-. apply Z.eqb_eq in E. split; [|split].
    + exists x. rewrite entry_at_cons, Z.eqb_refl. auto.
    + reflexivity.
    + intros b. rewrite !entry_at_cons. cbn [reference Address].
      destruct (Address x =? b) eqn:Eb.
      * apply Z.eqb_eq in Eb. subst b. rewrite Z.eqb_refl. reflexivity.
      * destruct (b =? Address x) eqn:Eb'; [|reflexivity].
        apply Z.eqb_eq in Eb'. apply Z.eqb_neq in Eb. congruence.
  - destruct (reference_by_name name l) as [[ev0 rest']|] eqn:Hrest; [|discriminate].
    injection Href as <- <-.
    destruct (IH _ _ Hnd eq_refl) as ((e & He & Hname) & Hmap & Hat).
    assert (Hne : Address x <> ev0).
    { intros Heq. apply Hx. rewrite Heq. apply list_elem_of_In. eapply entry_at_present; eauto. }
    split; [|split].
    + exists e. rewrite entry_at_cons. apply Z.eqb_neq in Hne. rewrite Hne. auto.
    + cbn [map]. rewrite Hmap. reflexivity.
    + intros b. rewrite !entry_at_cons, Hat.
      destruct (Address x =? b) eqn:Eb; [|reflexivity].
      apply Z.eqb_eq in Eb. subst b. apply Z.eqb_neq in Hne. rewrite Hne. reflexivity.
Qed.

Lemma reference_by_name_unknown name : forall l b e,
  reference_by_name name l = None ->
  entry_at b l = Some e -> RtlCompareUnicodeString name (FileName e) <> 0.
Proof.
  induction l as [|x l IH]; intros b e Href Hat; [discriminate|].
  cbn [reference_by_name] in Href. rewrite entry_at_cons in Hat.
  destruct (RtlCompareUnicodeString name (FileName x) =? 0) eqn:E; [discriminate|].
  destruct (reference_by_name name l) as [[ev0 rest']|]; [discriminate|].
  destruct (Address x =? b).
  - injection Hat as <-. apply Z.eqb_neq. exact E.
  - eapply IH; eauto.
Qed.

(** [LcReleaseFileLock] seen through the events. *)
Lemma LcReleaseFileLock_spec ev : forall l e,
  NoDup (map Address l) ->
  entry_at ev l = Some e ->
  NoDup (map Address (fst (LcReleaseFileLock ev l))) /\
  (forall b, entry_at b (fst (LcReleaseFileLock ev l)) =
             if b =? ev then dereference e else entry_at b l).
Proof.
  induction l as [|x l IH]; intros e Hnd Hat; [discriminate|].
  cbn [map] in Hnd. pose proof Hnd as Hnd0. apply NoDup_cons in Hnd as [Hx Hnd].
  rewrite entry_at_cons in Hat. cbn [LcReleaseFileLock].
  destruct (Address x =? ev) eqn:E.
  - injection Hat as <-. apply Z.eqb_eq in E.
    assert (Hrest : entry_at ev l = None).
    { apply entry_at_absent. rewrite <- E. intros H. apply Hx, list_elem_of_In, H. }
    unfold dereference. cbv zeta.
    destruct (LONG_of (RefCount x - 1) <=? 0); cbn [fst].
    + split; [exact Hnd|]. intros b. rewrite entry_at_cons.
      destruct (b =? ev) eqn:Eb.
      * apply Z.eqb_eq in Eb. subst b. exact Hrest.
      * destruct (Address x =? b) eqn:Exb; [|reflexivity].
        apply Z.eqb_eq in Exb. apply Z.eqb_neq in Eb. congruence.
    + split; [exact Hnd0|]. intros b. rewrite !entry_at_cons. cbn [Address].
      destruct (Address x =? b) eqn:Exb.
      * apply Z.eqb_eq in Exb. subst b. rewrite E, Z.eqb_refl. reflexivity.
      * destruct (b =? ev) eqn:Eb; [|reflexivity].
        apply Z.eqb_eq in Eb. apply Z.eqb_neq in Exb. congruence.
  - destruct (LcReleaseFileLock ev l) as [rest' fr] eqn:Hrel. cbn [fst].
    destruct (IH e Hnd Hat) as [Hnd' Hspec]. cbn [fst] in Hnd', Hspec.
    assert (Haddr : forall a, In a (map Address rest') -> In a (map Address l)).
    { intros a Ha. apply in_map_iff in Ha as (y & <- & Hy).
      destruct (Z.eq_dec (Address y) ev) as [Hev|Hev].
      - rewrite Hev. eapply entry_at_present; eauto.
      - destruct (entry_at (Address y) l) eqn:Hl; [eapply entry_at_present; eauto|].
        exfalso. specialize (Hspec (Address y)). apply Z.eqb_neq in Hev. rewrite Hev, Hl in Hspec.
        clear - Hspec Hy. induction rest' as [|z r IHr]; [destruct Hy|].
        rewrite entry_at_cons in Hspec. destruct Hy as [->|Hy].
        + rewrite Z.eqb_refl in Hspec. discriminate.
        + destruct (Address z =? Address y); [discriminate | auto]. }
    split.
    + cbn [map]. apply NoDup_cons. split; [|exact Hnd'].
      intros H. apply Hx. apply list_elem_of_In, Haddr, list_elem_of_In, H.
    + intros b. rewrite !entry_at_cons, Hspec.
      destruct (Address x =? b) eqn:Exb; [|reflexivity].
      apply Z.eqb_eq in Exb. subst b. rewrite E. reflexivity.
Qed.

Lemma LcCopyUnicodeString_copies p name st copy :
  LcCopyUnicodeString p name = (st, Some copy) -> copy = name /\ st = STATUS_SUCCESS.
Proof.
  unfold LcCopyUnicodeString. destruct (negb (RtlUnicodeStringValidate name)); [discriminate|].
  cbv zeta. destruct (NT_SUCCESS _); [|discriminate]. intros [= <- <-]. auto.
Qed.

(** The volume. *)
Lemma file_at_equal n m v :
  RtlCompareUnicodeString n m = 0 -> file_at n v = file_at m v.
Proof.
  intros H. apply RtlCompareUnicodeString_zero in H.
  induction v as [|[k f] v IH]; [reflexivity|]. cbn [file_at]. rewrite IH.
  destruct (RtlCompareUnicodeString n k =? 0) eqn:En;
    destruct (RtlCompareUnicodeString m k =? 0) eqn:Em; try reflexivity; exfalso.
  - apply Z.eqb_eq, RtlCompareUnicodeString_zero in En. apply Z.eqb_neq in Em. apply Em.
    apply RtlCompareUnicodeString_zero.
    eauto using equal_ignoring_case_sym, equal_ignoring_case_trans.
  - apply Z.eqb_eq, RtlCompareUnicodeString_zero in Em. apply Z.eqb_neq in En. apply En.
    apply RtlCompareUnicodeString_zero.
    eauto using equal_ignoring_case_sym, equal_ignoring_case_trans.
Qed.

Lemma file_at_store_other n m f v :
  RtlCompareUnicodeString n m <> 0 -> file_at n (store_file m f v) = file_at n v.
Proof.
  intros H. induction v as [|[k g] v IH]; [reflexivity|]. cbn [store_file file_at].
  destruct (RtlCompareUnicodeString m k =? 0) eqn:Em; cbn [file_at].
  - destruct (RtlCompareUnicodeString n k =? 0) eqn:En; [|reflexivity].
    exfalso. apply H. apply RtlCompareUnicodeString_zero.
    apply Z.eqb_eq, RtlCompareUnicodeString_zero in Em, En.
    eauto using equal_ignoring_case_sym, equal_ignoring_case_trans.
  - rewrite IH. reflexivity.
Qed.

(** How many threads hold a reference to the entry whose event is at [a]. *)
Definition uses (a : PKEVENT) (t : THREAD) : bool :=
  match fileLockEvent t with Some b => b =? a | None => false end.

Fixpoint references (a : PKEVENT) (ths : list THREAD) : Z :=
  match ths with
  | [] => 0
  | t :: rest => (if uses a t then 1 else 0) + references a rest
  end.

Lemma references_insert a : forall ths (i : nat) t t',
  ths !! i = Some t ->
  references a (<[i := t']> ths) =
    references a ths - (if uses a t then 1 else 0) + (if uses a t' then 1 else 0).
Proof.
  induction ths as [|x ths IH]; intros [|i] t t' Hi; try discriminate.
  - injection Hi as ->. cbn. lia.
  - cbn in Hi. change (<[S i := t']> (x :: ths)) with (x :: <[i := t']> ths).
    cbn [references]. rewrite (IH i t t' Hi). lia.
Qed.

Lemma references_bound a ths : 0 <= references a ths <= Z.of_nat (length ths).
Proof.
  induction ths as [|x ths IH]; cbn [references length]; [lia|].
  destruct (uses a x); lia.
Qed.

Lemma references_user a : forall ths (i : nat) t,
  ths !! i = Some t -> uses a t = true -> 1 <= references a ths.
Proof.
  induction ths as [|x ths IH]; intros [|i] t Hi Hu; try discriminate; cbn [references].
  - injection Hi as ->. rewrite Hu. pose proof (references_bound a ths). lia.
  - cbn in Hi. pose proof (IH i t Hi Hu). destruct (uses a x); lia.
Qed.

Lemma references_room a : forall ths (i : nat) t,
  ths !! i = Some t -> uses a t = false ->
  references a ths + 1 <= Z.of_nat (length ths).
Proof.
  induction ths as [|x ths IH]; intros [|i] t Hi Hu; try discriminate;
    cbn [references length].
  - injection Hi as ->. rewrite Hu. pose proof (references_bound a ths). lia.
  - cbn in Hi. pose proof (IH i t Hi Hu). destruct (uses a x); lia.
Qed.

(** The program points between a satisfied wait and the release. *)
Definition holds_token (p : PROGRAM_POINT) : bool :=
  match p with
  | AtTagQuery | AtFetch | InFetch | AtUntag | AtDeleteContext | AtFinally => true
  | _ => false
  end.

Definition holds (t : THREAD) (a : PKEVENT) : Prop :=
  holds_token (pc t) = true /\ fileLockEvent t = Some a.

Definition about_to_fetch (p : PROGRAM_POINT) : Prop := p = AtFetch \/ p = InFetch.

(** What the program point tells about the locals. *)
Definition thread_ok (t : THREAD) : Prop :=
  match pc t with
  | AtEntry =>
      fileLockEvent t = None /\ cancelOnError t = false /\ parked t = false /\
      invokedFetch t = false /\ callbackStatus t = FLT_PREOP_SUCCESS_NO_CALLBACK
  | AtZeroWait | AtTagQuery =>
      fileLockEvent t <> None /\ cancelOnError t = false /\ parked t = false /\
      invokedFetch t = false /\ callbackStatus t = FLT_PREOP_SUCCESS_NO_CALLBACK
  | InWait =>
      fileLockEvent t <> None /\ cancelOnError t = false /\ parked t = true /\
      invokedFetch t = false /\ callbackStatus t = FLT_PREOP_SUCCESS_NO_CALLBACK
  | AtFetch =>
      fileLockEvent t <> None /\ cancelOnError t = true /\ parked t = false /\
      invokedFetch t = false /\ callbackStatus t = FLT_PREOP_SUCCESS_NO_CALLBACK
  | InFetch | AtUntag | AtDeleteContext =>
      fileLockEvent t <> None /\ cancelOnError t = true /\ parked t = false /\
      invokedFetch t = true /\ callbackStatus t = FLT_PREOP_SUCCESS_NO_CALLBACK
  | AtFinally =>
      invokedFetch t = cancelOnError t /\ (parked t = true -> cancelOnError t = false) /\
      callbackStatus t = FLT_PREOP_SUCCESS_NO_CALLBACK
  | Completed =>
      fileLockEvent t = None /\
      invokedFetch t = cancelOnError t /\ (parked t = true -> cancelOnError t = false) /\
      (callbackStatus t = FLT_PREOP_COMPLETE -> cancelOnError t = true)
  end.

(** The invariant of the threads, the list of locks and the volume. *)
Record invariant (sys : SYSTEM) : Prop := {
  inv_threads : forall (i : nat) t, threads sys !! i = Some t -> thread_ok t;
  inv_addresses : NoDup (map Address (FileLocksList sys));
  inv_names : forall a b e e',
    entry_at a (FileLocksList sys) = Some e ->
    entry_at b (FileLocksList sys) = Some e' ->
    RtlCompareUnicodeString (FileName e) (FileName e') = 0 -> a = b;
  inv_event : forall (i : nat) t a,
    threads sys !! i = Some t -> fileLockEvent t = Some a ->
    exists e, entry_at a (FileLocksList sys) = Some e /\
              RtlCompareUnicodeString (Name t) (FileName e) = 0;
  inv_count : forall a e,
    entry_at a (FileLocksList sys) = Some e -> RefCount e = references a (threads sys);
  inv_token : forall (i j : nat) t u a,
    threads sys !! i = Some t -> threads sys !! j = Some u ->
    holds t a -> holds u a -> i = j;
  inv_signaled : forall a e (i : nat) t,
    entry_at a (FileLocksList sys) = Some e -> Event e = true ->
    threads sys !! i = Some t -> ~ holds t a;
  inv_mark : forall (i : nat) t,
    threads sys !! i = Some t -> about_to_fetch (pc t) -> tagged (volume sys) (Name t) = true;
  inv_size : Z.of_nat (length (threads sys)) < 2^31
}.

Lemma compare_refl a : RtlCompareUnicodeString a a = 0.
Proof. apply RtlCompareUnicodeString_zero, equal_ignoring_case_refl. Qed.

Lemma compare_sym a b :
  RtlCompareUnicodeString a b = 0 -> RtlCompareUnicodeString b a = 0.
Proof.
  rewrite !RtlCompareUnicodeString_zero. apply equal_ignoring_case_sym.
Qed.

Lemma compare_trans a b c :
  RtlCompareUnicodeString a b = 0 -> RtlCompareUnicodeString b c = 0 ->
  RtlCompareUnicodeString a c = 0.
Proof.
  rewrite !RtlCompareUnicodeString_zero. apply equal_ignoring_case_trans.
Qed.

Lemma boot_invariant v names :
  Z.of_nat (length names) < 2^31 -> invariant (boot v names).
Proof.
  intros Hsize.
  assert (Hths : forall (i : nat) t, map enter names !! i = Some t -> exists n, t = enter n).
  { intros i t Hi. apply list_elem_of_lookup_2, list_elem_of_In, in_map_iff in Hi
      as (n & <- & _). eauto. }
  constructor; cbn [boot threads FileLocksList volume].
  - intros i t Hi. destruct (Hths i t Hi) as [n ->]. cbn. auto.
  - constructor.
  - discriminate.
  - intros i t a Hi Ha. destruct (Hths i t Hi) as [n ->]. discriminate.
  - discriminate.
  - intros i j t u a Hi _ [Hp _]. destruct (Hths i t Hi) as [n ->]. discriminate.
  - discriminate.
  - intros i t Hi [Hp|Hp]; destruct (Hths i t Hi) as [n ->]; discriminate.
  - rewrite length_map. exact Hsize.
Qed.

Ltac other_thread H :=
  apply list_lookup_insert_Some in H as [(<- & <- & _) | [? H]].

Lemma uses_holds t a : holds t a -> uses a t = true.
Proof. intros [_ H]. unfold uses. rewrite H. apply Z.eqb_refl. Qed.

Lemma uses_same t t' a : fileLockEvent t' = fileLockEvent t -> uses a t' = uses a t.
Proof. unfold uses. intros ->. reflexivity. Qed.

(** A step that touches neither the list nor the volume nor the
    thread's reference. *)
Lemma local_step_invariant sys (i : nat) t t' :
  invariant sys -> threads sys !! i = Some t ->
  Name t' = Name t -> fileLockEvent t' = fileLockEvent t ->
  thread_ok t' ->
  (forall a, holds t' a -> holds t a) ->
  (about_to_fetch (pc t') -> tagged (volume sys) (Name t) = true) ->
  invariant {| FileLocksList := FileLocksList sys; volume := volume sys;
               threads := <[i := t']> (threads sys) |}.
Proof.
  intros Hinv Hi Hname Hev Hok Hholds Hmark.
  constructor; cbn [FileLocksList volume threads].
  - intros j u Hj. other_thread Hj; [exact Hok | eapply inv_threads; eauto].
  - apply Hinv.
  - apply Hinv.
  - intros j u a Hj Ha. other_thread Hj.
    + rewrite Hname. eapply inv_event; eauto. congruence.
    + eapply inv_event; eauto.
  - intros a e He. rewrite (references_insert a _ i t t' Hi), (uses_same t t' a Hev).
    rewrite (inv_count _ Hinv a e He). lia.
  - intros j1 j2 u1 u2 a H1 H2 Hu1 Hu2. other_thread H1; other_thread H2; try reflexivity.
    + eapply (inv_token _ Hinv); eauto.
    + eapply (inv_token _ Hinv); eauto.
    + eapply (inv_token _ Hinv); eauto.
  - intros a e j u He Hsig Hj Hu. other_thread Hj.
    + eapply (inv_signaled _ Hinv); eauto.
    + eapply (inv_signaled _ Hinv); eauto.
  - intros j u Hj Hu. other_thread Hj.
    + rewrite Hname. auto.
    + eapply inv_mark; eauto.
  - rewrite length_insert. apply Hinv.
Qed.

(** A wait on the event at [ev] is satisfied for a thread that did not
    hold the token. *)
Lemma wait_step_invariant sys (i : nat) t t' ev e :
  invariant sys -> threads sys !! i = Some t ->
  fileLockEvent t = Some ev -> holds_token (pc t) = false ->
  entry_at ev (FileLocksList sys) = Some e -> Event e = true ->
  Name t' = Name t -> fileLockEvent t' = fileLockEvent t ->
  thread_ok t' -> ~ about_to_fetch (pc t') ->
  invariant {| FileLocksList := satisfy_wait ev (FileLocksList sys); volume := volume sys;
               threads := <[i := t']> (threads sys) |}.
Proof.
  intros Hinv Hi Hev Hpc He Hsig Hname Hev' Hok Hfetch.
  assert (Hback : forall b x, entry_at b (satisfy_wait ev (FileLocksList sys)) = Some x ->
            exists y, entry_at b (FileLocksList sys) = Some y /\
                      FileName x = FileName y /\ RefCount x = RefCount y /\
                      (Event x = true -> Event y = true /\ b <> ev)).
  { intros b x Hx. rewrite entry_at_satisfy_wait in Hx.
    destruct (b =? ev) eqn:Eb.
    - destruct (entry_at b (FileLocksList sys)) as [y|]; [|discriminate].
      injection Hx as <-. exists y. cbn. repeat split; auto; discriminate.
    - exists x. Z_eqb. auto. }
  assert (Hnone : forall (j : nat) u, threads sys !! j = Some u -> ~ holds u ev).
  { intros j u Hj. eapply (inv_signaled _ Hinv); eauto. }
  constructor; cbn [FileLocksList volume threads].
  - intros j u Hj. other_thread Hj; [exact Hok | eapply inv_threads; eauto].
  - rewrite satisfy_wait_addresses. apply Hinv.
  - intros a b x x' Hx Hx' Hcmp.
    destruct (Hback _ _ Hx) as (y & Hy & Hn & _).
    destruct (Hback _ _ Hx') as (y' & Hy' & Hn' & _).
    rewrite Hn, Hn' in Hcmp. eapply (inv_names _ Hinv); eauto.
  - intros j u a Hj Ha.
    assert (Hsome : exists y, entry_at a (FileLocksList sys) = Some y /\
                              RtlCompareUnicodeString (Name u) (FileName y) = 0).
    { other_thread Hj.
      - rewrite Hname. eapply inv_event; eauto. congruence.
      - eapply inv_event; eauto. }
    destruct Hsome as (y & Hy & Hcmp). rewrite entry_at_satisfy_wait, Hy.
    destruct (a =? ev); cbn [option_map]; eauto.
  - intros a x Hx. destruct (Hback _ _ Hx) as (y & Hy & _ & Hc & _).
    rewrite (references_insert a _ i t t' Hi), (uses_same t t' a Hev'), Hc.
    rewrite (inv_count _ Hinv a y Hy). lia.
  - intros j1 j2 u1 u2 a H1 H2 Hu1 Hu2.
    other_thread H1; other_thread H2; try reflexivity.
    + exfalso. destruct Hu1 as [_ Hu1]. rewrite Hev', Hev in Hu1. injection Hu1 as <-.
      eapply Hnone; eauto.
    + exfalso. destruct Hu2 as [_ Hu2]. rewrite Hev', Hev in Hu2. injection Hu2 as <-.
      eapply Hnone; eauto.
    + eapply (inv_token _ Hinv); eauto.
  - intros a x j u Hx Hsigx Hj Hu.
    destruct (Hback _ _ Hx) as (y & Hy & _ & _ & Hs). destruct (Hs Hsigx) as [Hsy Hne].
    other_thread Hj.
    + destruct Hu as [_ Hu]. congruence.
    + eapply (inv_signaled _ Hinv); eauto.
  - intros j u Hj Hu. other_thread Hj; [contradiction | eapply inv_mark; eauto].
  - rewrite length_insert. apply Hinv.
Qed.

(** Two threads past their waits on one path are one thread. *)
Lemma one_token_per_path sys (i j : nat) t u :
  invariant sys -> threads sys !! i = Some t -> threads sys !! j = Some u ->
  holds_token (pc t) = true -> holds_token (pc u) = true ->
  fileLockEvent t <> None -> fileLockEvent u <> None ->
  RtlCompareUnicodeString (Name t) (Name u) = 0 -> i = j.
Proof.
  intros Hinv Hi Hj Ht Hu Het Heu Hcmp.
  destruct (fileLockEvent t) as [a|] eqn:Ha; [|contradiction].
  destruct (fileLockEvent u) as [b|] eqn:Hb; [|contradiction].
  destruct (inv_event _ Hinv i t a Hi Ha) as (e & He & Hte).
  destruct (inv_event _ Hinv j u b Hj Hb) as (e' & He' & Hue).
  assert (a = b) as <-.
  { apply (inv_names _ Hinv a b e e' He He').
    apply (compare_trans _ (Name t)); [apply compare_sym, Hte|].
    apply (compare_trans _ (Name u)); assumption. }
  apply (inv_token _ Hinv i j t u a Hi Hj); split; assumption.
Qed.

Lemma thread_ok_event t :
  thread_ok t -> about_to_fetch (pc t) \/ pc t = AtUntag ->
  holds_token (pc t) = true /\ fileLockEvent t <> None.
Proof.
  unfold thread_ok. intros Hok [[Hp|Hp]|Hp]; rewrite Hp in Hok |- *; cbn; tauto.
Qed.

(** [LcUntagFile] run by a thread that holds the token of its path. *)
Lemma untag_step_invariant sys (i : nat) t t' f' :
  invariant sys -> threads sys !! i = Some t -> pc t = AtUntag ->
  Name t' = Name t -> fileLockEvent t' = fileLockEvent t ->
  thread_ok t' -> ~ about_to_fetch (pc t') ->
  invariant {| FileLocksList := FileLocksList sys;
               volume := store_file (Name t) f' (volume sys);
               threads := <[i := t']> (threads sys) |}.
Proof.
  intros Hinv Hi Hpc Hname Hev Hok Hfetch.
  assert (Hloc : invariant {| FileLocksList := FileLocksList sys; volume := volume sys;
                              threads := <[i := t']> (threads sys) |}).
  { apply (local_step_invariant sys i t t'); auto; try (intros H; contradiction).
    intros a [_ Ha]. split; [rewrite Hpc; reflexivity | congruence]. }
  destruct Hloc as [H1 H2 H3 H4 H5 H6 H7 H8 H9]. cbn [FileLocksList volume threads] in *.
  constructor; cbn [FileLocksList volume threads]; auto.
  intros j u Hj Hu. pose proof (H8 j u Hj Hu) as Htag.
  other_thread Hj; [contradiction|].
  unfold tagged in Htag |- *. rewrite file_at_store_other; [exact Htag|].
  intros Hcmp.
  destruct (thread_ok_event t (inv_threads _ Hinv i t Hi) (or_intror Hpc)) as [Ht1 Ht2].
  destruct (thread_ok_event u (inv_threads _ Hinv j u Hj) (or_introl Hu)) as [Hu1 Hu2].
  apply H. eapply (one_token_per_path sys i j t u); eauto using compare_sym.
Qed.

Lemma references_none a ths :
  (forall (j : nat) u, ths !! j = Some u -> uses a u = false) -> references a ths = 0.
Proof.
  induction ths as [|x ths IH]; intros H; [reflexivity|]. cbn [references].
  rewrite (H O x eq_refl), IH; [reflexivity|].
  intros j u Hj. apply (H (S j) u Hj).
Qed.

Lemma uses_Some a t b : fileLockEvent t = Some b -> uses a t = (b =? a).
Proof. unfold uses. intros ->. reflexivity. Qed.

Lemma uses_None a t : fileLockEvent t = None -> uses a t = false.
Proof. unfold uses. intros ->. reflexivity. Qed.

Lemma LONG_of_small x : 0 <= x < 2^31 -> LONG_of x = x.
Proof.
  intros H. unfold LONG_of. rewrite Z.mod_small by lia.
  destruct (x <? 2^31) eqn:E; [reflexivity | apply Z.ltb_ge in E; lia].
Qed.

Lemma not_holding_not_fetching p : holds_token p = false -> ~ about_to_fetch p.
Proof. intros H [-> | ->]; discriminate H. Qed.

(** [LcGetFileLock] linking a new entry. *)
Lemma acquire_new_invariant sys (i : nat) t t' a :
  invariant sys -> threads sys !! i = Some t -> fileLockEvent t = None ->
  reference_by_name (Name t) (FileLocksList sys) = None ->
  ~ In a (map Address (FileLocksList sys)) ->
  Name t' = Name t -> fileLockEvent t' = Some a -> thread_ok t' ->
  holds_token (pc t') = false ->
  invariant {| FileLocksList := reference (new_entry a (Name t)) :: FileLocksList sys;
               volume := volume sys; threads := <[i := t']> (threads sys) |}.
Proof.
  intros Hinv Hi Hnone Href Hfresh Hname Hev Hok Hpc.
  set (new := reference (new_entry a (Name t))).
  assert (Hat : forall b, entry_at b (new :: FileLocksList sys) =
                          if a =? b then Some new else entry_at b (FileLocksList sys))
    by (intros b; apply entry_at_cons).
  assert (Hlive : forall b e, entry_at b (FileLocksList sys) = Some e -> (a =? b) = false).
  { intros b e He. apply Z.eqb_neq. intros <-. apply Hfresh. eapply entry_at_present; eauto. }
  assert (Husers : forall (j : nat) u, threads sys !! j = Some u -> uses a u = false).
  { intros j u Hj. destruct (fileLockEvent u) as [b|] eqn:Hb; [|apply uses_None; exact Hb].
    rewrite (uses_Some a u b Hb), Z.eqb_sym.
    destruct (inv_event _ Hinv j u b Hj Hb) as (e & He & _). eapply Hlive; eauto. }
  constructor; cbn [FileLocksList volume threads].
  - intros j u Hj. other_thread Hj; [exact Hok | eapply inv_threads; eauto].
  - cbn [map]. apply NoDup_cons. split; [|apply Hinv].
    intros H. apply list_elem_of_In in H. contradiction.
  - intros b c x x' Hx Hx' Hcmp. rewrite Hat in Hx, Hx'.
    destruct (a =? b) eqn:Eb; destruct (a =? c) eqn:Ec; Z_eqb.
    + congruence.
    + injection Hx as <-. exfalso.
      apply (reference_by_name_unknown _ _ _ _ Href Hx'). exact Hcmp.
    + injection Hx' as <-. exfalso.
      apply (reference_by_name_unknown _ _ _ _ Href Hx). apply compare_sym. exact Hcmp.
    + eapply (inv_names _ Hinv); eauto.
  - intros j u b Hj Hb. rewrite Hat. other_thread Hj.
    + rewrite Hev in Hb. injection Hb as <-. rewrite Z.eqb_refl. exists new.
      split; [reflexivity|]. rewrite Hname. apply compare_refl.
    + destruct (inv_event _ Hinv j u b Hj Hb) as (e & He & Hcmp).
      rewrite (Hlive b e He). eauto.
  - intros b x Hx. rewrite Hat in Hx.
    rewrite (references_insert b _ i t t' Hi), (uses_None b t Hnone), (uses_Some b t' a Hev).
    destruct (a =? b) eqn:Eb.
    + injection Hx as <-. Z_eqb. subst b. rewrite (references_none a _ Husers). reflexivity.
    + rewrite (inv_count _ Hinv b x Hx). lia.
  - intros j1 j2 u1 u2 b H1 H2 Hu1 Hu2.
    other_thread H1; other_thread H2; try (destruct Hu1, Hu2; congruence).
    eapply (inv_token _ Hinv j1 j2 u1 u2 b); eauto.
  - intros b x j u Hx Hsig Hj [Hu1 Hu2]. rewrite Hat in Hx.
    other_thread Hj; [congruence|].
    destruct (a =? b) eqn:Eb.
    + Z_eqb. subst b. pose proof (Husers j u Hj) as Hno.
      rewrite (uses_Some a u a Hu2), Z.eqb_refl in Hno. discriminate.
    + eapply (inv_signaled _ Hinv b x j u); eauto. split; auto.
  - intros j u Hj Hu. other_thread Hj.
    + exfalso. eapply not_holding_not_fetching; eauto.
    + eapply inv_mark; eauto.
  - rewrite length_insert. apply Hinv.
Qed.

(** [LcGetFileLock] taking a reference to the entry of the path. *)
Lemma acquire_found_invariant sys (i : nat) t t' ev l' :
  invariant sys -> threads sys !! i = Some t -> fileLockEvent t = None ->
  reference_by_name (Name t) (FileLocksList sys) = Some (ev, l') ->
  Name t' = Name t -> fileLockEvent t' = Some ev -> thread_ok t' ->
  holds_token (pc t') = false ->
  invariant {| FileLocksList := l'; volume := volume sys;
               threads := <[i := t']> (threads sys) |}.
Proof.
  intros Hinv Hi Hnone Href Hname Hev Hok Hpc.
  destruct (reference_by_name_spec _ _ _ _ (inv_addresses _ Hinv) Href)
    as ((e & He & Hcmp) & Hmap & Hat).
  assert (Hback : forall b x, entry_at b l' = Some x ->
            exists y, entry_at b (FileLocksList sys) = Some y /\
                      FileName x = FileName y /\ Event x = Event y /\
                      RefCount x = if b =? ev then LONG_of (RefCount y + 1) else RefCount y).
  { intros b x Hx. rewrite Hat in Hx. destruct (b =? ev).
    - destruct (entry_at b (FileLocksList sys)) as [y|]; [|discriminate].
      injection Hx as <-. exists y. auto.
    - exists x. auto. }
  constructor; cbn [FileLocksList volume threads].
  - intros j u Hj. other_thread Hj; [exact Hok | eapply inv_threads; eauto].
  - rewrite Hmap. apply Hinv.
  - intros b c x x' Hx Hx' Hc.
    destruct (Hback _ _ Hx) as (y & Hy & Hn & _).
    destruct (Hback _ _ Hx') as (y' & Hy' & Hn' & _).
    rewrite Hn, Hn' in Hc. eapply (inv_names _ Hinv); eauto.
  - intros j u b Hj Hb.
    assert (Hsome : exists y, entry_at b (FileLocksList sys) = Some y /\
                              RtlCompareUnicodeString (Name u) (FileName y) = 0).
    { other_thread Hj.
      - rewrite Hev in Hb. injection Hb as <-. rewrite Hname. eauto.
      - eapply inv_event; eauto. }
    destruct Hsome as (y & Hy & Hc). rewrite Hat, Hy.
    destruct (b =? ev); cbn [option_map]; eauto.
  - intros b x Hx. destruct (Hback _ _ Hx) as (y & Hy & _ & _ & Hc).
    rewrite (references_insert b _ i t t' Hi), (uses_None b t Hnone), (uses_Some b t' ev Hev).
    rewrite Hc, (inv_count _ Hinv b y Hy), (Z.eqb_sym ev b).
    destruct (b =? ev) eqn:Eb; [|lia]. Z_eqb. subst b.
    pose proof (references_room ev _ i t Hi (uses_None ev t Hnone)).
    pose proof (references_bound ev (threads sys)). pose proof (inv_size _ Hinv).
    rewrite LONG_of_small by lia. lia.
  - intros j1 j2 u1 u2 b H1 H2 Hu1 Hu2.
    other_thread H1; other_thread H2; try (destruct Hu1, Hu2; congruence).
    eapply (inv_token _ Hinv j1 j2 u1 u2 b); eauto.
  - intros b x j u Hx Hsig Hj [Hu1 Hu2].
    destruct (Hback _ _ Hx) as (y & Hy & _ & Hs & _).
    other_thread Hj; [congruence|].
    apply (inv_signaled _ Hinv b y j u Hy); [congruence | exact Hj | split; auto].
  - intros j u Hj Hu. other_thread Hj.
    + exfalso. eapply not_holding_not_fetching; eauto.
    + eapply inv_mark; eauto.
  - rewrite length_insert. apply Hinv.
Qed.

(** [LcReleaseFileLock] run by the thread that holds the token. *)
Lemma release_invariant sys (i : nat) t t' ev :
  invariant sys -> threads sys !! i = Some t ->
  holds_token (pc t) = true -> fileLockEvent t = Some ev ->
  Name t' = Name t -> fileLockEvent t' = None -> thread_ok t' ->
  holds_token (pc t') = false ->
  invariant {| FileLocksList := fst (LcReleaseFileLock ev (FileLocksList sys));
               volume := volume sys; threads := <[i := t']> (threads sys) |}.
Proof.
  intros Hinv Hi Hpc Hev Hname Hev' Hok Hpc'.
  destruct (inv_event _ Hinv i t ev Hi Hev) as (e & He & Hcmp).
  destruct (LcReleaseFileLock_spec ev _ e (inv_addresses _ Hinv) He) as [Hnd Hat].
  set (l' := fst (LcReleaseFileLock ev (FileLocksList sys))) in *.
  pose proof (inv_count _ Hinv ev e He) as Hcount.
  pose proof (references_user ev _ i t Hi (uses_holds t ev (conj Hpc Hev))) as Hone.
  pose proof (references_bound ev (threads sys)) as Hbound.
  pose proof (inv_size _ Hinv) as Hsize.
  assert (Hlong : LONG_of (RefCount e - 1) = RefCount e - 1)
    by (apply LONG_of_small; lia).
  assert (Hback : forall b x, entry_at b l' = Some x ->
            exists y, entry_at b (FileLocksList sys) = Some y /\
                      FileName x = FileName y /\
                      RefCount x = (if b =? ev then RefCount y - 1 else RefCount y) /\
                      (b <> ev -> Event x = Event y)).
  { intros b x Hx. rewrite Hat in Hx. destruct (b =? ev) eqn:Eb.
    - Z_eqb. subst b. exists e. unfold dereference in Hx. cbv zeta in Hx.
      rewrite Hlong in Hx. destruct (RefCount e - 1 <=? 0); [discriminate|].
      injection Hx as <-. cbn. repeat split; auto. congruence.
    - exists x. auto. }
  assert (Hrest : forall (j : nat) u, i <> j -> threads sys !! j = Some u ->
            fileLockEvent u = Some ev -> 2 <= RefCount e).
  { intros j u Hij Hj Hu.
    assert (Hj' : <[i := t']> (threads sys) !! j = Some u)
      by (rewrite list_lookup_insert_ne; auto).
    pose proof (references_user ev _ j u Hj') as Huser.
    rewrite (references_insert ev _ i t t' Hi), (uses_Some ev t ev Hev), Z.eqb_refl,
      (uses_None ev t' Hev') in Huser.
    rewrite (uses_Some ev u ev Hu), Z.eqb_refl in Huser. specialize (Huser eq_refl). lia. }
  constructor; cbn [FileLocksList volume threads]; fold l'.
  - intros j u Hj. other_thread Hj; [exact Hok | eapply inv_threads; eauto].
  - exact Hnd.
  - intros b c x x' Hx Hx' Hc.
    destruct (Hback _ _ Hx) as (y & Hy & Hn & _).
    destruct (Hback _ _ Hx') as (y' & Hy' & Hn' & _).
    rewrite Hn, Hn' in Hc. eapply (inv_names _ Hinv); eauto.
  - intros j u b Hj Hb. other_thread Hj; [congruence|].
    destruct (inv_event _ Hinv j u b Hj Hb) as (y & Hy & Hc). rewrite Hat.
    destruct (b =? ev) eqn:Eb; [|eauto]. Z_eqb. subst b.
    pose proof (Hrest j u H Hj Hb) as Htwo.
    assert (y = e) as -> by congruence.
    unfold dereference. cbv zeta. rewrite Hlong.
    destruct (RefCount e - 1 <=? 0) eqn:E; [apply Z.leb_le in E; lia|].
    eexists. split; [reflexivity | exact Hc].
  - intros b x Hx. destruct (Hback _ _ Hx) as (y & Hy & _ & Hc & _).
    rewrite (references_insert b _ i t t' Hi), (uses_Some b t ev Hev), (uses_None b t' Hev').
    rewrite Hc, (inv_count _ Hinv b y Hy), (Z.eqb_sym ev b).
    destruct (b =? ev); lia.
  - intros j1 j2 u1 u2 b H1 H2 Hu1 Hu2.
    other_thread H1; other_thread H2; try (destruct Hu1, Hu2; congruence).
    eapply (inv_token _ Hinv j1 j2 u1 u2 b); eauto.
  - intros b x j u Hx Hsig Hj Hu. other_thread Hj; [destruct Hu; congruence|].
    destruct (Z.eq_dec b ev) as [->|Hne].
    + apply H. apply (inv_token _ Hinv i j t u ev Hi Hj); [split; auto | exact Hu].
    + destruct (Hback _ _ Hx) as (y & Hy & _ & _ & Hs).
      apply (inv_signaled _ Hinv b y j u Hy); [rewrite <- Hs; auto | exact Hj | exact Hu].
  - intros j u Hj Hu. other_thread Hj.
    + exfalso. eapply not_holding_not_fetching; eauto.
    + eapply inv_mark; eauto.
  - rewrite length_insert. apply Hinv.
Qed.

(** The cleanup after a failed entry allocation: the last entry of the
    list has its name zeroed in place, and its name and the entry are
    released. *)
Lemma free_last_visited_spec (l : list FILE_LOCK_ENTRY) :
  match last l with
  | Some e =>
      exists l0, l = l0 ++ [e] /\
        free_last_visited l
        = (l0 ++ [free_name e], [NameBlock (Address e); EntryBlock (Address e)])
  | None => l = [] /\ free_last_visited l = ([], [])
  end.
Proof.
  induction l as [|e [|e' rest] IH].
  - split; reflexivity.
  - exists []. split; reflexivity.
  - change (last (e :: e' :: rest)) with (last (e' :: rest)).
    destruct (last (e' :: rest)) as [x|].
    + destruct IH as (l0 & Hl & Hfree). exists (e :: l0). split.
      * rewrite Hl. reflexivity.
      * change (free_last_visited (e :: e' :: rest))
          with (let '(rest', blocks) := free_last_visited (e' :: rest) in (e :: rest', blocks)).
        rewrite Hfree. reflexivity.
    + destruct IH as [H _]. discriminate H.
Qed.

Lemma LcGetFileLock_cases p l name :
  (exists ev l', reference_by_name name l = Some (ev, l') /\
                 LcGetFileLock p l name =
                   {| FileLocks.status := STATUS_SUCCESS; EventOut := Some ev;
                      FileLocks.FileLocksList := l'; freed := [] |}) \/
  (reference_by_name name l = None /\
   exists a, entryBuffer p = Some a /\
             LcGetFileLock p l name =
               {| FileLocks.status := STATUS_SUCCESS; EventOut := Some a;
                  FileLocks.FileLocksList := reference (new_entry a name) :: l;
                  freed := [] |}) \/
  (NT_SUCCESS (FileLocks.status (LcGetFileLock p l name)) = false /\
   (freed_linked_entry (LcGetFileLock p l name) = false ->
    FileLocks.FileLocksList (LcGetFileLock p l name) = l)).
Proof.
  unfold LcGetFileLock.
  destruct (reference_by_name name l) as [[ev l']|] eqn:Href; [left; eauto|].
  right. destruct (entryBuffer p) as [a|].
  - unfold LcCopyUnicodeString.
    destruct (negb (RtlUnicodeStringValidate name)); [right; split; reflexivity|].
    cbv zeta. destruct (NT_SUCCESS (LcAllocateUnicodeString _ _)) eqn:E;
      [left; eauto | right; split; [exact E | reflexivity]].
  - right. split; [reflexivity|]. cbn [FileLocks.FileLocksList].
    unfold freed_linked_entry. cbn [FileLocks.FileLocksList freed].
    pose proof (free_last_visited_spec l) as Hspec.
    destruct (last l) as [e|].
    + destruct Hspec as (l0 & Hl & ->). cbn [fst snd existsb].
      rewrite existsb_app. cbn [existsb Address free_name].
      rewrite Z.eqb_refl, orb_true_r. discriminate.
    + destruct Hspec as [-> ->]. reflexivity.
Qed.

Ltac thread_ok_now :=
  unfold thread_ok in *;
  try match goal with
      | Hpc : pc ?t = _, Hok : match pc ?t with _ => _ end |- _ => rewrite Hpc in Hok
      end;
  cbn [pc move fileLockEvent cancelOnError parked invokedFetch callbackStatus] in *;
  intuition congruence.

Ltac not_holding :=
  let a := fresh in let H1 := fresh in let H2 := fresh in
  intros a [H1 H2]; cbn in H1, H2; split; congruence.

(** A step that releases no linked entry keeps the invariant. *)
Lemma system_step_invariant (i : nat) k sys sys' :
  invariant sys ->
  (forall t, threads sys !! i = Some t ->
             releases_linked_entry k t (FileLocksList sys) = false) ->
  system_step i k sys = Some sys' -> invariant sys'.
Proof.
  intros Hinv Hspare. unfold system_step.
  destruct (threads sys !! i) as [t|] eqn:Hi; [|discriminate].
  specialize (Hspare t eq_refl).
  pose proof (inv_threads _ Hinv i t Hi) as Hok.
  unfold callback_step. destruct (pc t) eqn:Hpc.
  - (* AtEntry *)
    assert (Hnone : fileLockEvent t = None) by (unfold thread_ok in Hok; rewrite Hpc in Hok; tauto).
    unfold releases_linked_entry in Hspare. rewrite Hpc in Hspare.
    destruct (LcIsProcessTrusted k).
    { intros [= <-]. apply (local_step_invariant sys i t); auto;
        [thread_ok_now | not_holding | intros [H|H]; discriminate H]. }
    destruct (NT_SUCCESS (LcGetStreamContext k)); cbn [negb].
    2: { intros [= <-]. apply (local_step_invariant sys i t); auto;
        [thread_ok_now | not_holding | intros [H|H]; discriminate H]. }
    destruct (NT_SUCCESS (LcGetFileNameInformation k)); cbn [negb].
    2: { intros [= <-]. apply (local_step_invariant sys i t); auto;
        [thread_ok_now | not_holding | intros [H|H]; discriminate H]. }
    cbn [negb andb] in Hspare.
    destruct (pool_answer_possible k (FileLocksList sys)) eqn:Hpool; [|discriminate].
    cbn [negb]. cbv zeta.
    destruct (LcGetFileLock_cases (pool k) (FileLocksList sys) (Name t))
      as [(ev & l' & Href & ->) | [(Href & a & Ha & ->) | [Hfail Hsame]]].
    + cbn. intros [= <-].
      apply (acquire_found_invariant sys i t _ ev l'); auto; thread_ok_now.
    + cbn. intros [= <-].
      apply (acquire_new_invariant sys i t _ a); auto; try thread_ok_now.
      unfold pool_answer_possible in Hpool. rewrite Ha in Hpool.
      apply negb_true_iff in Hpool. intros Hin. apply in_map_iff in Hin as (x & Hx & Hin).
      assert (existsb (fun e => Address e =? a) (FileLocksList sys) = true); [|congruence].
      apply existsb_exists. exists x. split; [exact Hin | apply Z.eqb_eq; exact Hx].
    + rewrite Hfail, (Hsame Hspare). cbn [negb].
      intros [= <-]. apply (local_step_invariant sys i t); auto;
        [thread_ok_now | not_holding | intros [H|H]; discriminate H].
  - (* AtZeroWait *)
    destruct (fileLockEvent t) as [ev|] eqn:Hev; [|discriminate].
    destruct (entry_at ev (FileLocksList sys)) as [e|] eqn:He; [|discriminate].
    destruct (Event e) eqn:Hsig; intros [= <-].
    + apply (wait_step_invariant sys i t _ ev e); auto;
        [rewrite Hpc; reflexivity | thread_ok_now | intros [H|H]; discriminate H].
    + apply (local_step_invariant sys i t); auto;
        [thread_ok_now | intros a [H _]; discriminate H | intros [H|H]; discriminate H].
  - (* InWait *)
    destruct (fileLockEvent t) as [ev|] eqn:Hev; [|discriminate].
    destruct (entry_at ev (FileLocksList sys)) as [e|] eqn:He; [|discriminate].
    destruct (Event e) eqn:Hsig; [|discriminate]. intros [= <-].
    apply (wait_step_invariant sys i t _ ev e); auto;
      [rewrite Hpc; reflexivity | thread_ok_now | intros [H|H]; discriminate H].
  - (* AtTagQuery *)
    cbv zeta. destruct (negb (NT_SUCCESS (FltQueryInformationFile k))).
    { intros [= <-]. apply (local_step_invariant sys i t); auto;
        [thread_ok_now | | intros [H|H]; discriminate H].
      intros a [_ Ha]. split; [rewrite Hpc; reflexivity | exact Ha]. }
    destruct (file_at (Name t) (volume sys)) as [f|] eqn:Hf; [|discriminate].
    destruct (ReparseTag f =? LC_REPARSE_TAG) eqn:Htag; cbn [negb]; intros [= <-].
    + apply (local_step_invariant sys i t); auto; [thread_ok_now | | ].
      * intros a [_ Ha]. split; [rewrite Hpc; reflexivity | exact Ha].
      * intros _. unfold tagged. rewrite Hf. exact Htag.
    + apply (local_step_invariant sys i t); auto;
        [thread_ok_now | | intros [H|H]; discriminate H].
      intros a [_ Ha]. split; [rewrite Hpc; reflexivity | exact Ha].
  - (* AtFetch *)
    intros [= <-]. apply (local_step_invariant sys i t); auto; [thread_ok_now | | ].
    + intros a [_ Ha]. split; [rewrite Hpc; reflexivity | exact Ha].
    + intros _. apply (inv_mark _ Hinv i t Hi). left. exact Hpc.
  - (* InFetch *)
    cbv zeta. intros [= <-]. apply (local_step_invariant sys i t); auto.
    + destruct (NT_SUCCESS (LcFetchRemoteFile k)); thread_ok_now.
    + intros a [_ Ha]. split; [rewrite Hpc; reflexivity | exact Ha].
    + destruct (NT_SUCCESS (LcFetchRemoteFile k)); intros [H|H]; discriminate H.
  - (* AtUntag *)
    destruct (file_at (Name t) (volume sys)) as [f|] eqn:Hf; [|discriminate].
    destruct (ReparsePoints.LcUntagFile (untag k) f) as [st f'].
    intros [= <-]. apply (untag_step_invariant sys i t); auto.
    + destruct (NT_SUCCESS st); thread_ok_now.
    + destruct (NT_SUCCESS st); intros [H|H]; discriminate H.
  - (* AtDeleteContext *)
    intros [= <-]. apply (local_step_invariant sys i t); auto;
      [thread_ok_now | | intros [H|H]; discriminate H].
    intros a [_ Ha]. split; [rewrite Hpc; reflexivity | exact Ha].
  - (* AtFinally *)
    intros [= <-]. destruct (fileLockEvent t) as [ev|] eqn:Hev.
    + apply (release_invariant sys i t _ ev); auto; [rewrite Hpc; reflexivity | ].
      unfold thread_ok in *. rewrite Hpc in Hok. cbn.
      destruct (negb (NT_SUCCESS (status t)) && cancelOnError t) eqn:E;
        [apply andb_true_iff in E|]; intuition congruence.
    + apply (local_step_invariant sys i t); auto;
        [ | intros a [_ H]; discriminate H | intros [H|H]; discriminate H].
      unfold thread_ok in *. rewrite Hpc in Hok. cbn.
      destruct (negb (NT_SUCCESS (status t)) && cancelOnError t) eqn:E;
        [apply andb_true_iff in E|]; intuition congruence.
  - (* Completed *)
    discriminate.
Qed.

Lemma run_invariant schedule : forall sys sys',
  invariant sys -> spares_linked_entries schedule sys = true ->
  run schedule sys = Some sys' -> invariant sys'.
Proof.
  induction schedule as [|[i k] rest IH]; intros sys sys' Hinv Hspare Hrun;
    cbn [run] in Hrun; cbn [spares_linked_entries] in Hspare.
  - injection Hrun as <-. exact Hinv.
  - destruct (system_step i k sys) as [sys1|] eqn:Hstep; [|discriminate].
    assert (Hstep' := Hstep). unfold system_step in Hstep'.
    destruct (threads sys !! i) as [t|] eqn:Hi; [|discriminate].
    apply andb_true_iff in Hspare as [Hnow Hrest]. apply negb_true_iff in Hnow.
    eapply IH; [eapply system_step_invariant; eauto | exact Hrest | exact Hrun].
    intros t0 Ht0. rewrite Hi in Ht0. injection Ht0 as <-. exact Hnow.
Qed.

(** C1, amended. Over every interleaving of read, write and
    section-acquire accesses (fewer than 2^31 of them, so that no
    reference count wraps) in which no call of [LcGetFileLock] releases
    an entry that is still linked (which it does when its entry
    allocation fails after a walk over a list that is not empty),
    whatever else the kernel answers: two accesses
    whose paths are equal to the list of locks are never inside the
    fetch engine at the same time; an access that called the fetch
    engine took the event with its zero-timeout wait and never parked;
    an access that parked never calls the fetch engine and lets the I/O
    through, as does every access that did not call it; and while the
    mark of a path is cleared no access to that path is in, or about to
    enter, the fetch engine. Nothing bounds the number of accesses that
    call the fetch engine one after the other while the mark stays. *)
Theorem one_fetcher_per_path (v : VOLUME) (names : list UNICODE_STRING)
    (schedule : list (nat * ANSWERS)) (sys : SYSTEM) :
  Z.of_nat (length names) < 2^31 ->
  spares_linked_entries schedule (boot v names) = true ->
  run schedule (boot v names) = Some sys ->
  (forall (i j : nat) t u,
      threads sys !! i = Some t -> threads sys !! j = Some u ->
      RtlCompareUnicodeString (Name t) (Name u) = 0 ->
      pc t = InFetch -> pc u = InFetch -> i = j) /\
  (forall (i : nat) t,
      threads sys !! i = Some t ->
      (invokedFetch t = true -> parked t = false) /\
      (parked t = true ->
       invokedFetch t = false /\ callbackStatus t = FLT_PREOP_SUCCESS_NO_CALLBACK) /\
      (invokedFetch t = false -> callbackStatus t = FLT_PREOP_SUCCESS_NO_CALLBACK) /\
      (tagged (volume sys) (Name t) = false -> pc t <> AtFetch /\ pc t <> InFetch)).
Proof.
  intros Hsize Hspare Hrun.
  pose proof (run_invariant schedule _ _ (boot_invariant v names Hsize) Hspare Hrun) as Hinv.
  split.
  - intros i j t u Hi Hj Hcmp Ht Hu.
    destruct (thread_ok_event t (inv_threads _ Hinv i t Hi) (or_introl (or_intror Ht)))
      as [Ht1 Ht2].
    destruct (thread_ok_event u (inv_threads _ Hinv j u Hj) (or_introl (or_intror Hu)))
      as [Hu1 Hu2].
    apply (one_token_per_path sys i j t u); assumption.
  - intros i t Hi. pose proof (inv_threads _ Hinv i t Hi) as Hok.
    assert (Hcs : callbackStatus t <> FLT_PREOP_COMPLETE ->
                  callbackStatus t = FLT_PREOP_SUCCESS_NO_CALLBACK)
      by (destruct (callbackStatus t); congruence).
    assert (Hb : forall b : bool, b <> true -> b = false) by (intros []; congruence).
    split; [|split; [|split]].
    + unfold thread_ok in Hok. destruct (pc t), (parked t); intuition congruence.
    + unfold thread_ok in Hok.
      destruct (pc t); (split; [|try tauto]); try (apply Hb); try (apply Hcs);
        intuition congruence.
    + unfold thread_ok in Hok. destruct (pc t); try tauto.
      intros Hno. apply Hcs. intuition congruence.
    + intros Htag. split; intros Hpc.
      * rewrite (inv_mark _ Hinv i t Hi (or_introl Hpc)) in Htag. discriminate.
      * rewrite (inv_mark _ Hinv i t Hi (or_intror Hpc)) in Htag. discriminate.
Qed.

(** Two accesses to [\a], the second under the name [\A]: the first
    fetches, clears the mark and returns; the second finds the mark
    cleared. *)
Lemma one_fetcher_per_path_witness :
  exists sys,
    spares_linked_entries (first_fetching ++ first_succeeds)
      (boot stub_volume [stub_path; stub_PATH]) = true /\
    run (first_fetching ++ first_succeeds) (boot stub_volume [stub_path; stub_PATH])
      = Some sys /\
    map invokedFetch (threads sys) = [true; false] /\
    forall (i j : nat) t u,
      threads sys !! i = Some t -> threads sys !! j = Some u ->
      RtlCompareUnicodeString (Name t) (Name u) = 0 ->
      pc t = InFetch -> pc u = InFetch -> i = j.
Proof.
  eexists. split; [vm_compute; reflexivity|].
  split; [vm_compute; reflexivity|]. split; [reflexivity|].
  apply (one_fetcher_per_path stub_volume [stub_path; stub_PATH]
           (first_fetching ++ first_succeeds)).
  - cbn. lia.
  - vm_compute. reflexivity.
  - vm_compute. reflexivity.
Defined.

(** C1 as stated fails. Access 1 takes the lock of the path while
    access 0 is inside the fetch engine; the fetch of access 0 fails,
    the mark stays, and access 0 signals the event on its way out.
    Access 1 then takes the event with its zero-timeout wait, finds the
    mark and calls the fetch engine as well: both overlapping accesses
    have invoked it, and access 1 neither parked nor saw a cleared
    mark. *)
Lemma failed_fetch_is_repeated :
  RtlCompareUnicodeString stub_path stub_PATH = 0 /\
  match run first_fetching (boot stub_volume [stub_path; stub_PATH]) with
  | Some mid =>
      map pc (threads mid) = [InFetch; AtZeroWait] /\
      match run first_fails mid with
      | Some sys =>
          map pc (threads sys) = [Completed; InFetch] /\
          map invokedFetch (threads sys) = [true; true] /\
          map parked (threads sys) = [false; false] /\
          tagged (volume sys) stub_path = true
      | None => False
      end
  | None => False
  end.
Proof. vm_compute. repeat split. Qed.

End ConcurrentAccessProperties.

(** ** Configuration.c: the list of trusted processes *)

Section TrustedProcessProperties.
Import Settings.

(** The calls that change the list of trusted processes. *)
Inductive TRUST_CALL :=
| AddTrusted (pool : bool) (ProcessId : HANDLE)
| RemoveTrusted (ProcessId : HANDLE)
| ClearTrusted.

Definition trust_call (c : DRIVER_CONFIGURATION_DATA) (call : TRUST_CALL)
    : DRIVER_CONFIGURATION_DATA :=
  match call with
  | AddTrusted pool ProcessId => snd (LcAddTrustedProcess pool c ProcessId)
  | RemoveTrusted ProcessId => LcRemoveTrustedProcess c ProcessId
  | ClearTrusted => LcClearTrustedProcesses c
  end.

Definition trusted_list_ok (l : list HANDLE) : Prop :=
  List.NoDup l /\ ~ In NULL l.

Lemma trusted_In l pid :
  existsb (fun entry => entry =? pid) l = true <-> In pid l.
Proof.
  rewrite existsb_exists. split.
  - intros (x & Hx & E). apply Z.eqb_eq in E. subst x. exact Hx.
  - intros H. exists pid. split; [exact H | apply Z.eqb_refl].
Qed.

Lemma unlink_first_In pid : forall l x,
  List.NoDup l -> (In x (unlink_first pid l) <-> In x l /\ x <> pid).
Proof.
  induction l as [|e rest IH]; intros x Hnd; cbn [unlink_first]; [cbn; tauto|].
  inversion Hnd as [|? ? Hnot Hrest]; subst.
  destruct (e =? pid) eqn:E.
  - apply Z.eqb_eq in E. subst e. cbn. split.
    + intros H. split; [auto|]. intros ->. contradiction.
    + intros [[H | H] Hne]; [congruence | exact H].
  - apply Z.eqb_neq in E. cbn. rewrite (IH x Hrest). split.
    + intros [-> | [H Hne]]; auto.
    + intros [[-> | H] Hne]; auto.
Qed.

Lemma unlink_first_NoDup pid : forall l, List.NoDup l -> List.NoDup (unlink_first pid l).
Proof.
  induction l as [|e rest IH]; intros Hnd; cbn [unlink_first]; [constructor|].
  inversion Hnd as [|? ? Hnot Hrest]; subst.
  destruct (e =? pid); [exact Hrest|].
  constructor; [|apply IH; exact Hrest].
  intros H. apply (unlink_first_In pid rest e Hrest) in H as [H _]. contradiction.
Qed.

Lemma trust_call_ok c call :
  trusted_list_ok (TrustedProccessList c) ->
  trusted_list_ok (TrustedProccessList (trust_call c call)).
Proof.
  intros [Hnd Hnull]. destruct call as [pool pid | pid | ]; cbn [trust_call].
  - unfold LcAddTrustedProcess.
    destruct (pid =? NULL) eqn:E0; [split; assumption|].
    destruct (LcIsProcessTrusted c pid) eqn:Ein; [split; assumption|].
    destruct pool; cbn; [|split; assumption].
    unfold LcIsProcessTrusted in Ein. rewrite E0 in Ein.
    apply Z.eqb_neq in E0. split.
    + constructor; [|exact Hnd]. intros H. apply trusted_In in H. congruence.
    + intros [H | H]; [congruence | contradiction].
  - unfold LcRemoveTrustedProcess. destruct (pid =? NULL); [split; assumption|]. cbn. split.
    + apply unlink_first_NoDup. exact Hnd.
    + intros H. apply unlink_first_In in H as [H _]; [contradiction | exact Hnd].
  - cbn. split; [constructor | intros []].
Qed.

Lemma trust_calls_ok calls : forall c,
  trusted_list_ok (TrustedProccessList c) ->
  trusted_list_ok (TrustedProccessList (fold_left trust_call calls c)).
Proof.
  induction calls as [|call rest IH]; intros c Hok; cbn [fold_left]; [exact Hok|].
  apply IH, trust_call_ok, Hok.
Qed.

(** X1. After any sequence of [LcAddTrustedProcess],
    [LcRemoveTrustedProcess] and [LcClearTrustedProcesses] calls on a
    list that was empty (whatever the pool answered), the list holds no
    process twice. So one [LcRemoveTrustedProcess] makes a process
    untrusted and a served [LcAddTrustedProcess] makes it trusted,
    neither changes whether any other process is trusted, and the null
    process id is never trusted and is refused by the add. *)
Theorem trusted_process_round_trip (c0 : DRIVER_CONFIGURATION_DATA)
    (calls : list TRUST_CALL) (pool : bool) (ProcessId other : HANDLE) :
  let c := fold_left trust_call calls (LcClearTrustedProcesses c0) in
  List.NoDup (TrustedProccessList c) /\
  LcIsProcessTrusted (LcRemoveTrustedProcess c ProcessId) ProcessId = false /\
  (other <> ProcessId ->
   LcIsProcessTrusted (LcRemoveTrustedProcess c ProcessId) other
     = LcIsProcessTrusted c other /\
   LcIsProcessTrusted (snd (LcAddTrustedProcess pool c ProcessId)) other
     = LcIsProcessTrusted c other) /\
  (ProcessId <> NULL ->
   LcAddTrustedProcess true c ProcessId
     = (STATUS_SUCCESS, snd (LcAddTrustedProcess true c ProcessId)) /\
   LcIsProcessTrusted (snd (LcAddTrustedProcess true c ProcessId)) ProcessId = true) /\
  LcIsProcessTrusted c NULL = false /\
  LcAddTrustedProcess pool c NULL = (STATUS_INVALID_PARAMETER_1, c).
Proof.
  cbv zeta. set (c := fold_left trust_call calls (LcClearTrustedProcesses c0)).
  assert (Hok : trusted_list_ok (TrustedProccessList c)).
  { apply trust_calls_ok. cbn. split; [constructor | intros []]. }
  destruct Hok as [Hnd Hnull].
  assert (Htrust : forall d q, q <> NULL ->
            (LcIsProcessTrusted d q = true <-> In q (TrustedProccessList d))).
  { intros d q Hq. unfold LcIsProcessTrusted. apply Z.eqb_neq in Hq. rewrite Hq.
    apply trusted_In. }
  assert (Hbool : forall a b : bool, (a = true <-> b = true) -> a = b).
  { intros [] [] [H1 H2]; auto; symmetry; auto. }
  split; [exact Hnd|]. split; [|split; [|split; [|split]]].
  - destruct (Z.eq_dec ProcessId NULL) as [->|Hne]; [reflexivity|].
    destruct (LcIsProcessTrusted (LcRemoveTrustedProcess c ProcessId) ProcessId) eqn:E;
      [|reflexivity].
    apply (Htrust _ _ Hne) in E. unfold LcRemoveTrustedProcess in E.
    apply Z.eqb_neq in Hne. rewrite Hne in E. cbn in E.
    apply unlink_first_In in E as [_ E]; [congruence | exact Hnd].
  - intros Hother. destruct (Z.eq_dec other NULL) as [->|Hq]; [split; reflexivity|].
    split; apply Hbool; rewrite !(Htrust _ _ Hq).
    + unfold LcRemoveTrustedProcess. destruct (ProcessId =? NULL); [tauto|]. cbn.
      rewrite (unlink_first_In ProcessId _ other Hnd). tauto.
    + unfold LcAddTrustedProcess.
      destruct (ProcessId =? NULL); [tauto|].
      destruct (LcIsProcessTrusted c ProcessId); [tauto|].
      destruct pool; cbn; [|tauto]. split; [intros [H | H]; [congruence | exact H] | auto].
  - intros Hne. unfold LcAddTrustedProcess. pose proof Hne as Hne'.
    apply Z.eqb_neq in Hne'. rewrite Hne'.
    destruct (LcIsProcessTrusted c ProcessId) eqn:E; cbn [negb snd].
    + split; [reflexivity | exact E].
    + split; [reflexivity|]. apply (Htrust _ _ Hne). left. reflexivity.
  - reflexivity.
  - reflexivity.
Qed.

End TrustedProcessProperties.

(** ** Configuration.c: reading the configuration from the registry *)

Section RegistryConfigurationProperties.
Import Configuration Settings.

Lemma wcslen_length : forall buffer n, wcslen buffer = Some n -> (n < length buffer)%nat.
Proof.
  induction buffer as [|c r IH]; cbn; [discriminate|]. intros n.
  destruct (c =? UNICODE_NULL); [intros [= <-]; lia|].
  destruct (wcslen r) as [m|]; [|discriminate].
  intros [= <-]. specialize (IH m eq_refl). lia.
Qed.

Lemma LcAddPathToWatch_validated pool paths p st paths' :
  Configuration.LcAddPathToWatch pool paths p = (st, paths') ->
  forall e, In e paths' ->
            In e paths \/ (e = p /\ NT_SUCCESS (LcValidatePath p) = true).
Proof.
  unfold Configuration.LcAddPathToWatch.
  destruct (NT_SUCCESS (LcValidatePath p)) eqn:Hv; cbn [negb]; [|intros [= _ <-]; auto].
  destruct (LcIsPathWatched paths p); [intros [= _ <-]; auto|].
  destruct (fst pool); cbn [negb]; [|intros [= _ <-]; auto].
  destruct (LcCopyUnicodeString (snd pool) p) as [st0 [copy|]] eqn:Hcopy;
    [|intros [= _ <-]; auto].
  apply LcCopyUnicodeString_copies in Hcopy as [-> _].
  intros [= _ <-] e [<- | He]; auto.
Qed.

(** What the loop over the strings keeps. *)
Definition same_but_paths (c c' : DRIVER_CONFIGURATION_DATA) : Prop :=
  OperationMode c' = OperationMode c /\ ReportRate c' = ReportRate c /\
  RegistryPath c' = RegistryPath c /\ TrustedProccessList c' = TrustedProccessList c.

Definition paths_validated (c : DRIVER_CONFIGURATION_DATA) : Prop :=
  forall p, In p (PathsToWatch c) -> NT_SUCCESS (LcValidatePath p) = true.

Lemma watch_paths_value_spec pool : forall fuel idx buffer st c,
  (length buffer < fuel)%nat -> paths_validated c ->
  match watch_paths_value pool fuel idx buffer st c with
  | Parsed _ c' => same_but_paths c c' /\ paths_validated c'
  | ReadPastValue => True
  | MoreIterations => False
  end.
Proof.
  induction fuel as [|fuel IH]; intros idx buffer st c Hfuel Hval; [lia|].
  cbn [watch_paths_value].
  destruct (wcslen buffer) as [[|n]|] eqn:Hlen; [| |exact I].
  { split; [repeat split | exact Hval]. }
  cbv zeta. destruct (negb (NT_SUCCESS (RtlInitUnicodeStringEx _)));
    [split; [repeat split | exact Hval]|].
  unfold LcAddPathToWatch.
  destruct (Configuration.LcAddPathToWatch (pool idx) (PathsToWatch c)
              (take (S n) buffer)) as [st1 paths] eqn:Hadd.
  assert (Hval' : paths_validated (set_PathsToWatch paths c)).
  { intros p Hp. cbn in Hp.
    destruct (LcAddPathToWatch_validated _ _ _ _ _ Hadd p Hp) as [H | [-> H]]; auto. }
  destruct (negb (NT_SUCCESS st1)); [split; [repeat split | exact Hval']|].
  apply wcslen_length in Hlen.
  specialize (IH (S idx) (drop (S (S n)) buffer) st1 (set_PathsToWatch paths c)).
  rewrite length_drop in IH. specialize (IH ltac:(lia) Hval').
  destruct (watch_paths_value pool fuel (S idx) (drop (S (S n)) buffer) st1
              (set_PathsToWatch paths c)); exact IH.
Qed.

Lemma registry_finally_result st0 d st c' c rate mode :
  registry_finally st0 d = (st, c') ->
  (NT_SUCCESS st0 = true ->
   paths_validated d /\ ReportRate d = rate /\ OperationMode d = mode) ->
  RegistryPath d = RegistryPath c -> TrustedProccessList d = TrustedProccessList c ->
  (NT_SUCCESS st = false ->
   OperationMode c' = DriverDisabled /\ ReportRate c' = 0 /\ PathsToWatch c' = []) /\
  (NT_SUCCESS st = true -> ReportRate c' = rate /\ OperationMode c' = mode) /\
  (forall p, In p (PathsToWatch c') -> NT_SUCCESS (LcValidatePath p) = true) /\
  TrustedProccessList c' = TrustedProccessList c /\
  RegistryPath c' = RegistryPath c.
Proof.
  unfold registry_finally. intros Heq Hgood Hr Ht.
  destruct (NT_SUCCESS st0) eqn:Hst; cbn [negb] in Heq; injection Heq as <- <-.
  - destruct (Hgood eq_refl) as (Hval & Hrate & Hmode).
    repeat split; auto; congruence.
  - cbn. repeat split; auto; try congruence; intros p [].
Qed.

(** X2. [LcReadConfigurationFromRegistry] on a configuration whose
    registry path is a valid string: when it returns a failure, the
    driver is left disabled with a zero report rate and no path to
    watch; when it returns a success, the report rate is the value read
    capped at MAX_REPORT_RATE (zero when the value is missing) and the
    operation mode is the value read (disabled when it is missing). In
    both cases every path left in the list passed [LcValidatePath], and
    the trusted processes and the registry path are untouched. *)
Theorem registry_read_is_fail_safe (env : REGISTRY_ENV) (c c' : DRIVER_CONFIGURATION_DATA)
    (st : NTSTATUS) :
  RtlUnicodeStringValidate (RegistryPath c) = true ->
  LcReadConfigurationFromRegistry env c = Some (st, c') ->
  (NT_SUCCESS st = false ->
   OperationMode c' = DriverDisabled /\ ReportRate c' = 0 /\ PathsToWatch c' = []) /\
  (NT_SUCCESS st = true ->
   ReportRate c' = (if NT_SUCCESS (fst (ReportRateValue env))
                    then Z.min (snd (ReportRateValue env)) MAX_REPORT_RATE else 0) /\
   OperationMode c' = (if NT_SUCCESS (fst (OperationModeValue env))
                       then snd (OperationModeValue env) else DriverDisabled)) /\
  (forall p, In p (PathsToWatch c') -> NT_SUCCESS (LcValidatePath p) = true) /\
  TrustedProccessList c' = TrustedProccessList c /\
  RegistryPath c' = RegistryPath c.
Proof.
  intros Hpath. unfold LcReadConfigurationFromRegistry. rewrite Hpath. cbn [negb].
  assert (Hmin : forall v, (if MAX_REPORT_RATE <? v then MAX_REPORT_RATE else v)
                           = Z.min v MAX_REPORT_RATE).
  { intros v. destruct (MAX_REPORT_RATE <? v) eqn:E;
      [apply Z.ltb_lt in E | apply Z.ltb_ge in E]; lia. }
  assert (Hnone : forall d, paths_validated (LcClearPathsToWatch d)) by (intros d p []).
  destruct (ReportRateValue env) as [st1 v1].
  destruct (OperationModeValue env) as [st2 v2].
  destruct (WatchPathsValue env) as [st3 value]. cbn [fst snd].
  destruct (negb (NT_SUCCESS st1) && negb (st1 =? STATUS_INVALID_PARAMETER)) eqn:E1.
  { apply andb_true_iff in E1 as [E1 _]. apply negb_true_iff in E1. rewrite E1.
    intros Heq. apply (inj Some) in Heq. eapply registry_finally_result; eauto. congruence. }
  destruct (negb (NT_SUCCESS st2) && negb (st2 =? STATUS_INVALID_PARAMETER)) eqn:E2.
  { apply andb_true_iff in E2 as [E2 _]. apply negb_true_iff in E2.
    intros Heq. apply (inj Some) in Heq. eapply registry_finally_result; eauto;
      [congruence | destruct (NT_SUCCESS st1); reflexivity
       | destruct (NT_SUCCESS st1); reflexivity]. }
  set (c1 := if NT_SUCCESS st1 then LcSetReportRate v1 c else LcSetReportRate 0 c).
  set (c2 := if NT_SUCCESS st2 then LcSetOperationMode v2 c1
             else LcSetOperationMode DriverDisabled c1).
  assert (Hc2 : ReportRate (LcClearPathsToWatch c2)
                  = (if NT_SUCCESS st1 then Z.min v1 MAX_REPORT_RATE else 0) /\
                OperationMode (LcClearPathsToWatch c2)
                  = (if NT_SUCCESS st2 then v2 else DriverDisabled) /\
                RegistryPath (LcClearPathsToWatch c2) = RegistryPath c /\
                TrustedProccessList (LcClearPathsToWatch c2) = TrustedProccessList c).
  { subst c2 c1. destruct (NT_SUCCESS st1), (NT_SUCCESS st2); cbn; rewrite ?Hmin; auto. }
  destruct Hc2 as (Hrate & Hmode & Hreg & Htrust).
  destruct (NT_SUCCESS st3) eqn:Hst3; cbn [negb].
  - pose proof (watch_paths_value_spec (pool env) (S (length value)) O value st3
                  (LcClearPathsToWatch c2) ltac:(lia) (Hnone _)) as Hloop.
    destruct (watch_paths_value (pool env) (S (length value)) 0 value st3
                (LcClearPathsToWatch c2)) as [st4 d| |]; try discriminate.
    destruct Hloop as [(H1 & H2 & H3 & H4) H5].
    intros Heq. apply (inj Some) in Heq. eapply registry_finally_result; eauto; try congruence.
    intros _. repeat split; [exact H5 | congruence | congruence].
  - destruct (st3 =? STATUS_INVALID_PARAMETER); intros Heq; apply (inj Some) in Heq.
    + apply (registry_finally_result _ _ _ _ c _ _ Heq); auto.
    + apply (registry_finally_result _ _ _ _ c _ _ Heq); auto; intros Hok; congruence.
Qed.

(** The three values are present: rate 20000, mode 3, and the one path
    [\a\] followed by the empty string. *)
Lemma registry_read_is_fail_safe_witness :
  exists c',
    LcReadConfigurationFromRegistry
      {| ReportRateValue := (STATUS_SUCCESS, 20000);
         OperationModeValue := (STATUS_SUCCESS, 3);
         WatchPathsValue := (STATUS_SUCCESS, [92; 97; 92; 0; 0]);
         pool := fun _ => (true, true) |}
      {| OperationMode := 0; ReportRate := 0; RegistryPath := [92; 114];
         TrustedProccessList := [4]; PathsToWatch := [] |}
      = Some (STATUS_SUCCESS, c') /\
    ReportRate c' = 10000 /\ OperationMode c' = 3 /\ PathsToWatch c' = [[92; 97; 92]] /\
    forall p, In p (PathsToWatch c') -> NT_SUCCESS (LcValidatePath p) = true.
Proof.
  eexists. split; [vm_compute; reflexivity|].
  split; [reflexivity|]. split; [reflexivity|]. split; [reflexivity|].
  apply (registry_read_is_fail_safe
           {| ReportRateValue := (STATUS_SUCCESS, 20000);
              OperationModeValue := (STATUS_SUCCESS, 3);
              WatchPathsValue := (STATUS_SUCCESS, [92; 97; 92; 0; 0]);
              pool := fun _ => (true, true) |}
           {| OperationMode := 0; ReportRate := 0; RegistryPath := [92; 114];
              TrustedProccessList := [4]; PathsToWatch := [] |} _ STATUS_SUCCESS);
    vm_compute; reflexivity.
Defined.

(** The layout of a REG_MULTI_SZ value: strings that are not empty, each
    with its terminator, then an empty string. *)
Inductive multi_sz : list WCHAR -> Prop :=
| multi_sz_end rest : multi_sz (UNICODE_NULL :: rest)
| multi_sz_string s rest :
    s <> [] -> Forall (fun ch => ch <> UNICODE_NULL) s -> multi_sz rest ->
    multi_sz (s ++ UNICODE_NULL :: rest).

Lemma wcslen_terminated s rest :
  Forall (fun ch => ch <> UNICODE_NULL) s ->
  wcslen (s ++ UNICODE_NULL :: rest) = Some (length s).
Proof.
  induction 1 as [|ch s Hch _ IH]; [reflexivity|]. cbn.
  apply Z.eqb_neq in Hch. rewrite Hch, IH. reflexivity.
Qed.

Lemma wcslen_prefix : forall buffer n,
  wcslen buffer = Some n -> Forall (fun ch => ch <> UNICODE_NULL) (take n buffer).
Proof.
  induction buffer as [|ch r IH]; cbn; [discriminate|]. intros n.
  destruct (ch =? UNICODE_NULL) eqn:E; [intros [= <-]; constructor|].
  destruct (wcslen r) as [m|]; [|discriminate].
  intros [= <-]. cbn. constructor; [apply Z.eqb_neq; exact E | apply IH; reflexivity].
Qed.

Lemma watch_paths_value_multi_sz pool : forall fuel idx buffer st0 c st c',
  NT_SUCCESS st0 = true ->
  watch_paths_value pool fuel idx buffer st0 c = Parsed st c' ->
  NT_SUCCESS st = true -> multi_sz buffer.
Proof.
  induction fuel as [|fuel IH]; intros idx buffer st0 c st c' Hst0; [discriminate|].
  cbn [watch_paths_value].
  destruct (wcslen buffer) as [[|n]|] eqn:Hlen; [| |discriminate].
  { intros _ _. rewrite (wcslen_split _ _ Hlen). cbn. constructor. }
  cbv zeta. destruct (NT_SUCCESS (RtlInitUnicodeStringEx (take (S n) buffer))) eqn:Hinit;
    cbn [negb]; [|intros [= <- _]; congruence].
  destruct (LcAddPathToWatch (pool idx) c (take (S n) buffer)) as [st1 c1].
  destruct (NT_SUCCESS st1) eqn:Hst1; cbn [negb]; [|intros [= <- _]; congruence].
  intros Hrec Hok. rewrite (wcslen_split _ _ Hlen).
  change ([UNICODE_NULL] ++ drop (S (S n)) buffer)
    with (UNICODE_NULL :: drop (S (S n)) buffer).
  constructor.
  - pose proof (wcslen_length _ _ Hlen). destruct buffer; [cbn in *; lia | discriminate].
  - apply wcslen_prefix. exact Hlen.
  - exact (IH _ _ _ _ _ _ Hst1 Hrec Hok).
Qed.

Lemma single_string_not_multi_sz s :
  s <> [] -> Forall (fun ch => ch <> UNICODE_NULL) s -> ~ multi_sz (s ++ [UNICODE_NULL]).
Proof.
  intros Hne Hs H. inversion H as [rest Heq | s' rest Hne' Hs' Hrest Heq].
  - destruct s as [|ch s]; [contradiction|]. cbn in Heq. injection Heq as Hch _.
    inversion Hs; subst. congruence.
  - pose proof (wcslen_terminated s [] Hs) as H1.
    pose proof (wcslen_terminated s' rest Hs') as H2.
    rewrite Heq in H2. rewrite H1 in H2. injection H2 as Hlen.
    apply app_inj_1 in Heq as [_ Heq]; [|symmetry; exact Hlen].
    assert (Hnil : rest = []) by congruence. rewrite Hnil in Hrest.
    inversion Hrest as [? Hbad | s0 ? ? ? ? Hbad]. destruct s0; discriminate Hbad.
Qed.

(** X3. [LcReadConfigurationFromRegistry] takes the WatchPaths value for
    a sequence of strings closed by an empty string: whenever it returns
    a success after reading the value, the value had that layout. A
    value that holds one string with one terminator (the REG_SZ layout,
    which [LcGetRegistryValueString] accepts too) is never loaded: the
    call fails, or its loop reads past the end of the value. *)
Theorem watch_paths_value_needs_empty_string (env : REGISTRY_ENV)
    (c : DRIVER_CONFIGURATION_DATA) :
  NT_SUCCESS (fst (WatchPathsValue env)) = true ->
  (forall st c',
      LcReadConfigurationFromRegistry env c = Some (st, c') ->
      NT_SUCCESS st = true -> multi_sz (snd (WatchPathsValue env))) /\
  (forall s,
      snd (WatchPathsValue env) = s ++ [UNICODE_NULL] ->
      s <> [] -> Forall (fun ch => ch <> UNICODE_NULL) s ->
      match LcReadConfigurationFromRegistry env c with
      | Some (st, _) => NT_SUCCESS st = false
      | None => True
      end).
Proof.
  intros Hst3.
  assert (Hmain : forall st c',
            LcReadConfigurationFromRegistry env c = Some (st, c') ->
            NT_SUCCESS st = true -> multi_sz (snd (WatchPathsValue env))).
  { intros st c'. unfold LcReadConfigurationFromRegistry.
    destruct (negb (RtlUnicodeStringValidate (RegistryPath c)));
      [intros [= <- _] H; discriminate H|].
    assert (Hfin : forall st0 d, NT_SUCCESS st0 = false ->
              Some (registry_finally st0 d) = Some (st, c') -> NT_SUCCESS st = true ->
              multi_sz (snd (WatchPathsValue env))).
    { intros st0 d Hf. unfold registry_finally. rewrite Hf. cbn [negb].
      intros [= <- _] H. congruence. }
    destruct (ReportRateValue env) as [st1 v1].
    destruct (negb (NT_SUCCESS st1) && negb (st1 =? STATUS_INVALID_PARAMETER)) eqn:E1.
    { apply andb_true_iff in E1 as [E1 _]. apply negb_true_iff in E1. exact (Hfin _ _ E1). }
    destruct (OperationModeValue env) as [st2 v2].
    destruct (negb (NT_SUCCESS st2) && negb (st2 =? STATUS_INVALID_PARAMETER)) eqn:E2.
    { apply andb_true_iff in E2 as [E2 _]. apply negb_true_iff in E2. exact (Hfin _ _ E2). }
    destruct (WatchPathsValue env) as [st3 value]. cbn [fst snd] in *.
    rewrite Hst3. cbn [negb].
    destruct (watch_paths_value _ _ _ _ _ _) as [st4 d| |] eqn:Hloop; try discriminate.
    unfold registry_finally.
    destruct (NT_SUCCESS st4) eqn:Hst4; cbn [negb]; intros [= <- _] Hok; [|congruence].
    eapply watch_paths_value_multi_sz; [exact Hst3 | exact Hloop | congruence]. }
  split; [exact Hmain|].
  intros s Hvalue Hne Hs.
  destruct (LcReadConfigurationFromRegistry env c) as [[st c']|] eqn:Hread; [|exact I].
  destruct (NT_SUCCESS st) eqn:Hok; [|reflexivity].
  exfalso. apply (single_string_not_multi_sz s Hne Hs). rewrite <- Hvalue.
  eapply Hmain; eauto.
Qed.

(** The value is the one string [\a\] with its terminator: the loop
    reads past it. *)
Definition single_string_value : REGISTRY_ENV :=
  {| ReportRateValue := (STATUS_SUCCESS, 600);
     OperationModeValue := (STATUS_SUCCESS, 3);
     WatchPathsValue := (STATUS_SUCCESS, [92; 97; 92; 0]);
     pool := fun _ => (true, true) |}.

Definition fresh_configuration : DRIVER_CONFIGURATION_DATA :=
  {| OperationMode := 0; ReportRate := 0; RegistryPath := [92; 114];
     TrustedProccessList := []; PathsToWatch := [] |}.

Lemma watch_paths_value_needs_empty_string_witness :
  LcReadConfigurationFromRegistry single_string_value fresh_configuration = None /\
  match LcReadConfigurationFromRegistry single_string_value fresh_configuration with
  | Some (st, _) => NT_SUCCESS st = false
  | None => True
  end.
Proof.
  split; [vm_compute; reflexivity|].
  apply (proj2 (watch_paths_value_needs_empty_string single_string_value
                  fresh_configuration eq_refl) [92; 97; 92]).
  - reflexivity.
  - discriminate.
  - repeat constructor; discriminate.
Defined.

End RegistryConfigurationProperties.

(** ** Operations.c: directory listings *)

Section DirectoryControlProperties.
Import DirectoryControl.

(** The entries of a buffer the file system filled: each but the last
    has a non-zero [NextEntryOffset]. *)
Fixpoint chained (entries : list DIRECTORY_ENTRY) : Prop :=
  match entries with
  | [] => False
  | [last] => NextEntryOffset last = 0
  | fileInfo :: rest => NextEntryOffset fileInfo <> 0 /\ chained rest
  end.

(** A file (not a directory, not a system file) with all the attributes
    of a stub. *)
Definition listed_as_stub (fileInfo : DIRECTORY_ENTRY) : bool :=
  negb (FlagOn (FileAttributes fileInfo) FILE_ATTRIBUTE_DIRECTORY)
  && negb (FlagOn (FileAttributes fileInfo) FILE_ATTRIBUTE_SYSTEM)
  && (Z.land (FileAttributes fileInfo) LC_FILE_ATTRIBUTES =? LC_FILE_ATTRIBUTES).

Lemma walk_cons fileInfo rest :
  walk (fileInfo :: rest) =
    if negb (NextEntryOffset fileInfo =? 0)
    then match walk rest with
         | Some rest' => Some (show_online fileInfo :: rest')
         | None => None
         end
    else Some (show_online fileInfo :: rest).
Proof. reflexivity. Qed.

Lemma walk_chained : forall entries,
  chained entries -> walk entries = Some (map show_online entries).
Proof.
  induction entries as [|e rest IH]; [intros []|].
  destruct rest as [|e' rest'].
  - cbn. intros ->. reflexivity.
  - intros [Hne Hrest]. rewrite walk_cons. apply Z.eqb_neq in Hne. rewrite Hne. cbn [negb].
    rewrite (IH Hrest). reflexivity.
Qed.

Lemma offline_mask_bits bit :
  0 <= bit ->
  Z.testbit (ULONG_of (Z.lnot FILE_ATTRIBUTE_OFFLINE)) bit = (bit <? 32) && negb (bit =? 12).
Proof.
  intros Hbit. unfold ULONG_of. destruct (bit <? 32) eqn:E.
  - apply Z.ltb_lt in E. rewrite Z.mod_pow2_bits_low by lia.
    rewrite Z.lnot_spec by lia. change FILE_ATTRIBUTE_OFFLINE with (2^12).
    rewrite Z.pow2_bits_eqb by lia. rewrite Z.eqb_sym. reflexivity.
  - apply Z.ltb_ge in E. rewrite Z.mod_pow2_bits_high by lia. reflexivity.
Qed.

Lemma ULONG_high_bits a bit : 0 <= a < 2^32 -> 32 <= bit -> Z.testbit a bit = false.
Proof.
  intros Ha Hbit. destruct (Z.eq_dec a 0) as [->|Hz]; [apply Z.bits_0|].
  apply Z.bits_above_log2; [lia|].
  apply Z.log2_lt_pow2; [lia|]. apply Z.lt_le_trans with (2^32); [lia|].
  apply Z.pow_le_mono_r; lia.
Qed.

Lemma show_online_bits fileInfo bit :
  0 <= FileAttributes fileInfo < 2^32 -> 0 <= bit ->
  Z.testbit (FileAttributes (show_online fileInfo)) bit =
    if listed_as_stub fileInfo && (bit =? 12) then false
    else Z.testbit (FileAttributes fileInfo) bit.
Proof.
  intros Ha Hbit. unfold show_online. fold (listed_as_stub fileInfo).
  destruct (listed_as_stub fileInfo); cbn [andb FileAttributes]; [|reflexivity].
  rewrite Z.land_spec, offline_mask_bits by exact Hbit.
  destruct (bit =? 12) eqn:E12; [rewrite !andb_false_r; reflexivity|].
  destruct (bit <? 32) eqn:E32; cbn; [apply andb_true_r|].
  apply Z.ltb_ge in E32. rewrite (ULONG_high_bits _ _ Ha E32). reflexivity.
Qed.

(** X4. [PostDirectoryControlOperationCallback], for a directory query
    the file system completed with success and that is not being
    drained, in one of the five information classes it handles: the
    buffer keeps its entries and their offsets; in the attributes of an
    entry only the OFFLINE bit can change, and it is cleared exactly in
    the entries that are neither directories nor system files and carry
    every attribute of a stub, so that no such entry is listed as
    offline. A drained or failed operation, another minor function or
    another class leaves the buffer as it is. *)
Theorem directory_listing_shows_stubs_online (Data : FLT_CALLBACK_DATA) (Flags0 : Z)
    (entries : list DIRECTORY_ENTRY) :
  buffer Data = Some entries ->
  chained entries ->
  Forall (fun fileInfo => 0 <= FileAttributes fileInfo < 2^32) entries ->
  (FlagOn Flags0 QueryInformation.FLTFL_POST_OPERATION_DRAINING = true \/
   NT_SUCCESS (IoStatus_Status Data) = false \/
   MinorFunction Data <> IRP_MN_QUERY_DIRECTORY \/
   FileInformationClass Data = FileOtherInformation ->
   PostDirectoryControlOperationCallback Data Flags0 = Some (Some entries)) /\
  (FlagOn Flags0 QueryInformation.FLTFL_POST_OPERATION_DRAINING = false ->
   NT_SUCCESS (IoStatus_Status Data) = true ->
   MinorFunction Data = IRP_MN_QUERY_DIRECTORY ->
   FileInformationClass Data <> FileOtherInformation ->
   exists entries',
     PostDirectoryControlOperationCallback Data Flags0 = Some (Some entries') /\
     length entries' = length entries /\
     forall (i : nat) fileInfo,
       entries !! i = Some fileInfo ->
       exists fileInfo',
         entries' !! i = Some fileInfo' /\
         NextEntryOffset fileInfo' = NextEntryOffset fileInfo /\
         (listed_as_stub fileInfo = true ->
          FlagOn (FileAttributes fileInfo') FILE_ATTRIBUTE_OFFLINE = false) /\
         (listed_as_stub fileInfo = false -> fileInfo' = fileInfo) /\
         forall bit, 0 <= bit -> bit <> 12 ->
           Z.testbit (FileAttributes fileInfo') bit = Z.testbit (FileAttributes fileInfo) bit).
Proof.
  intros Hbuf Hchain Hrange. unfold PostDirectoryControlOperationCallback. rewrite Hbuf.
  split.
  - intros [H | [H | [H | H]]].
    + rewrite H. reflexivity.
    + rewrite H, orb_true_r. reflexivity.
    + apply Z.eqb_neq in H. rewrite H, !orb_true_r. reflexivity.
    + rewrite H. destruct (_ || _ || _); reflexivity.
  - intros Hd Hs Hm Hc. rewrite Hd, Hs, Hm. cbn [negb orb]. rewrite Z.eqb_refl. cbn [negb].
    exists (map show_online entries). split; [|split].
    + rewrite (walk_chained entries Hchain). destruct (FileInformationClass Data);
        try reflexivity. contradiction.
    + apply length_map.
    + intros i e Hi. exists (show_online e). split.
      { change (map show_online entries) with (show_online <$> entries).
        rewrite list_lookup_fmap, Hi. reflexivity. }
      assert (Ha : 0 <= FileAttributes e < 2^32).
      { rewrite List.Forall_forall in Hrange. apply Hrange.
        apply list_elem_of_In, list_elem_of_lookup_2 with i, Hi. }
      split; [unfold show_online; destruct (_ && _ && _); reflexivity|].
      split; [|split].
      * intros Hstub. unfold FlagOn. apply negb_false_iff, Z.eqb_eq.
        apply Z.bits_inj'. intros bit Hbit. rewrite Z.land_spec, Z.bits_0.
        change FILE_ATTRIBUTE_OFFLINE with (2^12).
        rewrite Z.pow2_bits_eqb by lia.
        destruct (12 =? bit) eqn:E; [|apply andb_false_r].
        apply Z.eqb_eq in E. subst bit.
        rewrite (show_online_bits e 12 Ha) by lia. rewrite Hstub. reflexivity.
      * intros Hstub. unfold show_online. fold (listed_as_stub e). rewrite Hstub.
        reflexivity.
      * intros bit Hbit Hne. rewrite (show_online_bits e bit Ha Hbit).
        apply Z.eqb_neq in Hne. rewrite Hne, andb_false_r. reflexivity.
Qed.

(** A listing of two entries: a stub and a directory. *)
Lemma directory_listing_shows_stubs_online_witness :
  PostDirectoryControlOperationCallback
    {| IoStatus_Status := STATUS_SUCCESS; MinorFunction := IRP_MN_QUERY_DIRECTORY;
       FileInformationClass := FileBothDirectoryInformation;
       buffer := Some [ {| NextEntryOffset := 104; FileAttributes := 0x3420 |};
                        {| NextEntryOffset := 0; FileAttributes := 0x10 |} ] |} 0
    = Some (Some [ {| NextEntryOffset := 104; FileAttributes := 0x2420 |};
                   {| NextEntryOffset := 0; FileAttributes := 0x10 |} ]) /\
  exists entries',
    PostDirectoryControlOperationCallback
      {| IoStatus_Status := STATUS_SUCCESS; MinorFunction := IRP_MN_QUERY_DIRECTORY;
         FileInformationClass := FileBothDirectoryInformation;
         buffer := Some [ {| NextEntryOffset := 104; FileAttributes := 0x3420 |};
                          {| NextEntryOffset := 0; FileAttributes := 0x10 |} ] |} 0
      = Some (Some entries') /\
    length entries' = 2%nat.
Proof.
  split; [vm_compute; reflexivity|].
  destruct (directory_listing_shows_stubs_online
              {| IoStatus_Status := STATUS_SUCCESS; MinorFunction := IRP_MN_QUERY_DIRECTORY;
                 FileInformationClass := FileBothDirectoryInformation;
                 buffer := Some [ {| NextEntryOffset := 104; FileAttributes := 0x3420 |};
                                  {| NextEntryOffset := 0; FileAttributes := 0x10 |} ] |} 0
              [ {| NextEntryOffset := 104; FileAttributes := 0x3420 |};
                {| NextEntryOffset := 0; FileAttributes := 0x10 |} ]
              eq_refl) as [_ H].
  - cbn. split; [discriminate | reflexivity].
  - repeat constructor; cbn; lia.
  - destruct H as (entries' & H1 & H2 & _); [reflexivity | reflexivity | reflexivity
                                            | discriminate |].
    exists entries'. split; [exact H1 | exact H2].
Defined.

End DirectoryControlProperties.

(** ** Operations.c: the pre-create callback *)

Section PreCreateProperties.
Import PreCreate.

(** The opens the callback looks at: of a file object, not of a
    directory, by file id, of a volume or for paging I/O, not generated
    by a minifilter or reissued, and with a disposition other than
    FILE_CREATE. *)
Definition monitored (Data0 : FLT_CALLBACK_DATA) : bool :=
  TargetFileObject Data0
  && negb (FlagOn (Z.land (Options Data0) 0xFFFFFF) FILE_DIRECTORY_FILE
           || FlagOn (Z.land (Options Data0) 0xFFFFFF) FILE_OPEN_BY_FILE_ID
           || FlagOn (FileObject_Flags Data0) FO_VOLUME_OPEN
           || FlagOn (OperationFlags Data0) SL_OPEN_PAGING_FILE
           || FlagOn (IrpFlags Data0) IRP_PAGING_IO
           || FlagOn (IrpFlags Data0) IRP_SYNCHRONOUS_PAGING_IO)
  && negb (FlagOn (Flags Data0) QueryInformation.FLTFL_CALLBACK_DATA_GENERATED_IO
           || FlagOn (Flags Data0) QueryInformation.FLTFL_CALLBACK_DATA_FS_FILTER_OPERATION
           || FlagOn (Flags Data0) QueryInformation.FLTFL_CALLBACK_DATA_REISSUED_IO)
  && negb (Z.shiftr (Options Data0) 24 =? FILE_CREATE).

Lemma lor_covers a d : Z.land (Z.lor a d) d = d.
Proof.
  apply Z.bits_inj'. intros n _. rewrite Z.land_spec, Z.lor_spec.
  destruct (Z.testbit a n), (Z.testbit d n); reflexivity.
Qed.

Lemma lor_keeps a d bit : Z.testbit a bit = true -> Z.testbit (Z.lor a d) bit = true.
Proof. intros H. rewrite Z.lor_spec, H. reflexivity. Qed.

Lemma default_options_keep_disposition a :
  Z.shiftr (Z.lor a PostCreate.DefaultCreateOptions) 24 = Z.shiftr a 24.
Proof.
  rewrite Z.shiftr_lor.
  change (Z.shiftr PostCreate.DefaultCreateOptions 24) with 0. apply Z.lor_0_r.
Qed.

(** X5. [PreCreateOperationCallback]. A post-create callback is
    requested exactly for a monitored open by a process that is not
    trusted, while the driver is not disabled, when the pool serves the
    completion context and the file name is obtained; the context then
    holds the operation mode and the report rate of the path (zero
    unless watching is enabled). The callback data is changed only for
    a monitored open of a trusted process while the driver is not
    disabled: that open leaves with every bit of DefaultCreateOptions
    and DefaultShareAccess set. A change never clears a bit of the
    options or of the share access and never alters the create
    disposition. *)
Theorem pre_create_is_selective (config : Settings.DRIVER_CONFIGURATION_DATA)
    (env : PRE_CREATE_ENV) (Data0 : FLT_CALLBACK_DATA) :
  let r := PreCreateOperationCallback config env Data0 in
  let mode := Settings.LcGetOperationMode config in
  let trusted := Settings.LcIsProcessTrusted config (Thread_ProcessId Data0) in
  let name := snd (LcGetFileNameInformation env) in
  (callbackStatus r = FLT_PREOP_SUCCESS_WITH_CALLBACK <->
   monitored Data0 = true /\ mode <> Settings.DriverDisabled /\ trusted = false /\
   completionContextBuffer env = true /\
   NT_SUCCESS (fst (LcGetFileNameInformation env)) = true) /\
  (callbackStatus r = FLT_PREOP_SUCCESS_WITH_CALLBACK ->
   Data r = Data0 /\
   CompletionContext r =
     Some {| Name := name; OperationMode := mode;
             ReportRate := if FlagOn mode PostCreate.WatchEnabled
                           then Settings.LcGetReportRateForPath config name else 0 |}) /\
  (callbackStatus r = FLT_PREOP_SUCCESS_NO_CALLBACK -> CompletionContext r = None) /\
  (Data r <> Data0 ->
   monitored Data0 = true /\ mode <> Settings.DriverDisabled /\ trusted = true /\
   Dirty (Data r) = true) /\
  (monitored Data0 = true -> mode <> Settings.DriverDisabled -> trusted = true ->
   Z.land (Options (Data r)) PostCreate.DefaultCreateOptions
     = PostCreate.DefaultCreateOptions /\
   Z.land (ShareAccess (Data r)) PostCreate.DefaultShareAccess
     = PostCreate.DefaultShareAccess) /\
  Z.shiftr (Options (Data r)) 24 = Z.shiftr (Options Data0) 24 /\
  (forall bit, Z.testbit (Options Data0) bit = true ->
               Z.testbit (Options (Data r)) bit = true) /\
  (forall bit, Z.testbit (ShareAccess Data0) bit = true ->
               Z.testbit (ShareAccess (Data r)) bit = true).
Proof.
  cbv zeta. unfold PreCreateOperationCallback, monitored, Settings.LcGetOperationMode.
  cbv zeta.
  destruct (TargetFileObject Data0); cbn [negb andb];
    [|repeat split; try tauto; try discriminate; intros H; try (destruct H; discriminate);
      try (destruct H as [H _]; discriminate); congruence].
  destruct (FlagOn (Z.land (Options Data0) 0xFFFFFF) FILE_DIRECTORY_FILE
            || FlagOn (Z.land (Options Data0) 0xFFFFFF) FILE_OPEN_BY_FILE_ID
            || FlagOn (FileObject_Flags Data0) FO_VOLUME_OPEN
            || FlagOn (OperationFlags Data0) SL_OPEN_PAGING_FILE
            || FlagOn (IrpFlags Data0) IRP_PAGING_IO
            || FlagOn (IrpFlags Data0) IRP_SYNCHRONOUS_PAGING_IO); cbn [negb andb];
    [repeat split; try tauto; try discriminate; intros H; try (destruct H; discriminate);
      try (destruct H as [H _]; discriminate); congruence|].
  destruct (FlagOn (Flags Data0) QueryInformation.FLTFL_CALLBACK_DATA_GENERATED_IO
            || FlagOn (Flags Data0) QueryInformation.FLTFL_CALLBACK_DATA_FS_FILTER_OPERATION
            || FlagOn (Flags Data0) QueryInformation.FLTFL_CALLBACK_DATA_REISSUED_IO);
    cbn [negb andb];
    [repeat split; try tauto; try discriminate; intros H; try (destruct H; discriminate);
      try (destruct H as [H _]; discriminate); congruence|].
  destruct (Z.shiftr (Options Data0) 24 =? FILE_CREATE); cbn [negb];
    [repeat split; try tauto; try discriminate; intros H; try (destruct H; discriminate);
      try (destruct H as [H _]; discriminate); congruence|].
  destruct (Settings.OperationMode config =? Settings.DriverDisabled) eqn:Emode.
  { apply Z.eqb_eq in Emode.
    repeat split; try tauto; try discriminate; try congruence;
      intros H; try (destruct H as (_ & H & _); congruence). }
  apply Z.eqb_neq in Emode.
  destruct (Settings.LcIsProcessTrusted config (Thread_ProcessId Data0)) eqn:Etrust.
  - destruct (negb (Z.land (Options Data0) PostCreate.DefaultCreateOptions
                    =? PostCreate.DefaultCreateOptions)
              || negb (Z.land (ShareAccess Data0) PostCreate.DefaultShareAccess
                       =? PostCreate.DefaultShareAccess)) eqn:Echanged;
      cbn [leave callbackStatus Data CompletionContext Options ShareAccess Dirty].
    + repeat split; try tauto; try discriminate; try congruence;
        try (intros H; destruct H as (_ & _ & H & _); discriminate);
        try apply lor_covers; try apply default_options_keep_disposition;
        try (intros bit; apply lor_keeps).
    + apply orb_false_iff in Echanged as [E1 E2].
      apply negb_false_iff, Z.eqb_eq in E1, E2.
      repeat split; try tauto; try discriminate; try congruence;
        try (intros H; destruct H as (_ & _ & H & _); discriminate).
  - destruct (completionContextBuffer env); cbn [negb];
      [|repeat split; try tauto; try discriminate; try congruence;
        intros H; destruct H as (_ & _ & _ & H & _); discriminate].
    destruct (LcGetFileNameInformation env) as [st name]. cbn [fst snd].
    destruct (NT_SUCCESS st); cbn [negb];
      repeat split; try tauto; try discriminate; try congruence;
      intros H; destruct H as (_ & _ & _ & _ & H); discriminate.
Qed.

End PreCreateProperties.

(** ** Fetch.c: the status of a finished copy *)

Section CopyStatusProperties.
Import Fetch.

Lemma schedule_write_break e s s' :
  schedule_write e s = Break s' -> status s' = status s.
Proof.
  unfold schedule_write. cbv zeta.
  change (writeChunk (set_waitingForRead false s)) with (writeChunk s).
  change (chunks (set_waitingForRead false s)) with (chunks s).
  destruct (writeChunk s) as [id|]; [|discriminate].
  destruct (find_chunk id (chunks s)) as [c|]; [|discriminate].
  destruct (BytesInBuffer c =? 0).
  - destruct (eof (set_waitingForRead false s)); [|discriminate].
    intros [= <-]. reflexivity.
  - match goal with |- (if ?b then _ else _) = _ -> _ => destruct b end; discriminate.
Qed.

Lemma advance_write_break e s s' :
  advance_write e s = Break s' -> status s' = STATUS_SUCCESS.
Proof.
  unfold advance_write, LcGetNextAvailableChunk.
  destruct (next_chunk (writeChunk s) (chunks s)) as [c|]; [|discriminate].
  cbn [negb NT_SUCCESS STATUS_SUCCESS Z.leb Z.compare]. cbv zeta.
  intros H. apply schedule_write_break in H. exact H.
Qed.

Lemma write_side_break e s s' :
  write_side e s = Break s' ->
  status s' = STATUS_SUCCESS \/ (waitingForRead s = true /\ status s' = status s).
Proof.
  unfold write_side. destruct (waitingForRead s); cbn [negb].
  - intros H. right. split; [reflexivity | exact (schedule_write_break _ _ _ H)].
  - destruct (writeChunk s) as [id|].
    + cbv zeta. match goal with |- (if ?b then _ else _) = _ -> _ => destruct b end;
        [discriminate|]. intros H. left. exact (advance_write_break _ _ _ H).
    + intros H. left. exact (advance_write_break _ _ _ H).
Qed.

Lemma LcGetNextAvailableChunk_waiting e s st s' :
  LcGetNextAvailableChunk e true s = Some (st, s') ->
  waitingForRead s' = waitingForRead s.
Proof.
  unfold LcGetNextAvailableChunk.
  destruct (next_chunk (readChunk s) (chunks s)) as [c|]; [|discriminate].
  destruct (BytesInBuffer c =? 0); cbn [negb]; [intros [= _ <-]; reflexivity|].
  destruct (chunkListLength s <? MaxChunks).
  - destruct (LcAddNewChunk _ _ _ _ _) as [[[st0 l] [new|]] len];
      intros [= _ <-]; reflexivity.
  - intros [= _ <-]. unfold LcWriteCallback.
    destruct (writeWait e) as [[st0 info]|]; [|reflexivity].
    destruct (writePending s); reflexivity.
Qed.

Lemma schedule_read_continue e s s' :
  schedule_read e s = Continue s' ->
  waitingForRead s' = waitingForRead s /\
  (NT_SUCCESS (status s) = true -> NT_SUCCESS (status s') = true).
Proof.
  unfold schedule_read. destruct (eof s); [intros [= <-]; auto|].
  set (s1 := if remainingBytes s <=? 0 then set_remainingBytes ChunkSize s else s).
  assert (Hw : waitingForRead s1 = waitingForRead s)
    by (subst s1; destruct (remainingBytes s <=? 0); reflexivity).
  destruct (LcGetNextAvailableChunk e true s1) as [[st s2]|] eqn:Hget; [|discriminate].
  apply LcGetNextAvailableChunk_waiting in Hget.
  cbv zeta. destruct (NT_SUCCESS st); cbn [negb]; [|discriminate].
  match goal with |- (if ?b then _ else _) = _ -> _ => destruct b eqn:Hb end; [|discriminate].
  intros [= <-]. cbn in Hb |- *. split; [congruence|]. intros _.
  apply orb_true_iff in Hb as [Hb | Hb]; apply Z.eqb_eq in Hb; rewrite Hb; reflexivity.
Qed.

Lemma complete_read_waiting e id chunk s :
  waitingForRead (complete_read e id chunk s) = waitingForRead s.
Proof.
  unfold complete_read. cbv zeta.
  repeat match goal with |- context [if ?b then _ else _] => destruct b end; reflexivity.
Qed.

Lemma read_side_continue e s s' :
  read_side e s = Continue s' ->
  waitingForRead s' = waitingForRead s /\
  (NT_SUCCESS (status s) = true -> NT_SUCCESS (status s') = true).
Proof.
  unfold read_side.
  destruct (readChunk s) as [id|]; [|apply schedule_read_continue].
  destruct (find_chunk id (chunks s)) as [c|]; [|discriminate].
  cbv zeta. destruct (NT_SUCCESS (status (complete_read e id c s))) eqn:Hst; cbn [negb];
    [|discriminate].
  intros H. apply schedule_read_continue in H as [Hw Hs].
  rewrite Hw, complete_read_waiting. split; [reflexivity|]. intros _. apply Hs, Hst.
Qed.

Lemma schedule_read_no_break e s s' : schedule_read e s <> Break s'.
Proof.
  unfold schedule_read. destruct (eof s); [discriminate|].
  destruct (LcGetNextAvailableChunk e true _) as [[st s2]|]; [|discriminate].
  cbv zeta. destruct (negb (NT_SUCCESS st)); [discriminate|].
  match goal with |- (if ?b then _ else _) <> _ => destruct b end; discriminate.
Qed.

Lemma read_side_no_break e s s' : read_side e s <> Break s'.
Proof.
  unfold read_side.
  destruct (readChunk s) as [id|]; [|apply schedule_read_no_break].
  destruct (find_chunk id (chunks s)) as [c|]; [|discriminate].
  cbv zeta. match goal with |- (if ?b then _ else _) <> _ => destruct b end;
    [discriminate | apply schedule_read_no_break].
Qed.

Lemma LcWriteCallback_status io s :
  status (LcWriteCallback io s) = status s /\
  waitingForRead (LcWriteCallback io s) = waitingForRead s.
Proof.
  unfold LcWriteCallback. destruct io as [[st info]|]; [|auto].
  destruct (writePending s); auto.
Qed.

(** The loop is left by [break] with a success status only. *)
Lemma loop_body_break e s s' :
  loop_body e s = Break s' -> NT_SUCCESS (status s') = true.
Proof.
  unfold loop_body.
  destruct (waitingForRead s) eqn:Hw; cbn [andb].
  - destruct (NT_SUCCESS (readWait e)) eqn:Hwait; cbn [negb]; [|discriminate].
    cbv beta iota zeta.
    change (waitingForRead (set_status (readWait e) s)) with (waitingForRead s).
    rewrite Hw.
    set (s2 := LcWriteCallback (writeCompleted e) (set_status (readWait e) s)).
    destruct (LcWriteCallback_status (writeCompleted e) (set_status (readWait e) s))
      as [Hs2 Hw2]. fold s2 in Hs2, Hw2. cbn in Hs2, Hw2. rewrite Hw in Hw2.
    set (after_read := if negb (eof s2) && true then read_side e s2 else Continue s2).
    assert (Hafter : forall s3, after_read = Continue s3 ->
              NT_SUCCESS (status s3) = true).
    { subst after_read. destruct (negb (eof s2) && true).
      - intros s3 H. apply read_side_continue in H as [_ H]. apply H. congruence.
      - intros s3 [= <-]. congruence. }
    assert (Hnb : after_read <> Break s').
    { subst after_read. destruct (negb (eof s2) && true);
        [apply read_side_no_break | discriminate]. }
    destruct after_read as [s3| | |]; try discriminate.
    + destruct (writeEvent s2); [|discriminate].
      intros H. apply write_side_break in H as [H | [_ H]]; rewrite H;
        [reflexivity | apply Hafter; reflexivity].
    + intros H. destruct (Hnb H).
  - cbv beta iota zeta.
    set (s2 := LcWriteCallback (writeCompleted e) s).
    destruct (LcWriteCallback_status (writeCompleted e) s) as [_ Hw2]. fold s2 in Hw2.
    set (after_read := if negb (eof s2) && _ then read_side e s2 else Continue s2).
    assert (Hafter : forall s3, after_read = Continue s3 -> waitingForRead s3 = false).
    { subst after_read. destruct (negb (eof s2) && _).
      - intros s3 H. apply read_side_continue in H as [H _]. congruence.
      - intros s3 [= <-]. congruence. }
    assert (Hnb : after_read <> Break s').
    { subst after_read. destruct (negb (eof s2) && _);
        [apply read_side_no_break | discriminate]. }
    destruct after_read as [s3| | |]; try discriminate.
    + destruct (writeEvent s2); [|discriminate].
      intros H. apply write_side_break in H as [H | [Hw3 _]].
      * rewrite H. reflexivity.
      * rewrite (Hafter s3 eq_refl) in Hw3. discriminate Hw3.
    + intros H. destruct (Hnb H).
Qed.

Lemma loop_break env fuel :
  forall n s s', loop env fuel n s = Break s' -> NT_SUCCESS (status s') = true.
Proof.
  induction fuel as [|fuel IH]; intros n s s'; cbn [loop]; [discriminate|].
  destruct (loop_body (env n s) s) as [s1| | |] eqn:Hbody; try discriminate.
  - apply IH.
  - intros [= <-]. exact (loop_body_break _ _ _ Hbody).
Qed.

End CopyStatusProperties.

(** ** Fetch.c: fetching the remote file *)

Section RemoteFetchProperties.
Import RemoteFetch.

(** The handles the kernel and the user-mode client hand out while
    [LcOpenFile] runs. *)
Definition handles_obtained (env : Opener.OPEN_ENV) (FilePath : UNICODE_STRING)
    : list HANDLE :=
  let '(status0, fileHandle) := Opener.ZwOpenFile env FilePath in
  match fileHandle with Some h => [h] | None => [] end
  ++ (if negb (NT_SUCCESS status0) && (status0 =? STATUS_ACCESS_DENIED)
      then match snd (Opener.LcOpenFileInUserMode env FilePath) with
           | Some h => [h]
           | None => []
           end
      else []).

Lemma LcOpenFile_handles env FilePath :
  (NT_SUCCESS (fst (Opener.ZwOpenFile env FilePath)) = false ->
   snd (Opener.ZwOpenFile env FilePath) = None) ->
  let o := Opener.LcOpenFile env FilePath in
  Opener.closed o ++ match Opener.Handle o with Some h => [h] | None => [] end
  = handles_obtained env FilePath.
Proof.
  unfold Opener.LcOpenFile, handles_obtained.
  destruct (Opener.ZwOpenFile env FilePath) as [st h]. cbn [fst snd]. intros Hk.
  destruct (NT_SUCCESS st) eqn:Hst; cbn [negb andb].
  - unfold Opener.LcOpenFile_finally. rewrite Hst. cbn. rewrite app_nil_r. reflexivity.
  - rewrite (Hk eq_refl).
    destruct (st =? STATUS_ACCESS_DENIED).
    + destruct (Opener.LcOpenFileInUserMode env FilePath) as [nst uh]. cbn [snd].
      unfold Opener.LcOpenFile_finally.
      match goal with |- context [NT_SUCCESS ?x] => destruct (NT_SUCCESS x) end;
        destruct uh; reflexivity.
    + unfold Opener.LcOpenFile_finally. rewrite Hst. reflexivity.
Qed.

(** X6. [LcFetchRemoteFile], when the kernel hands out no handle with a
    failed open. If it returns, every handle obtained while the source
    was opened has been closed, once, whatever the status; a failure
    reports no byte copied; and a source whose size is reported as zero
    leaves the target as it is: its end of file is not set and the copy
    does not start. It fails to return within [fuel] passes only when the
    open, the size query and the extension of the target succeeded, the
    size is not zero and the chunked copy is still running. *)
Theorem remote_fetch_releases_source (env : FETCH_ENV) (fuel : nat)
    (SourceFile : UNICODE_STRING) :
  (NT_SUCCESS (fst (Opener.ZwOpenFile (opener env) SourceFile)) = false ->
   snd (Opener.ZwOpenFile (opener env) SourceFile) = None) ->
  match LcFetchRemoteFile env fuel SourceFile with
  | Some r =>
      closed r = handles_obtained (opener env) SourceFile /\
      (NT_SUCCESS (status r) = false -> BytesCopied r = 0) /\
      (snd (ZwQueryInformationFile env) = 0 ->
         EndOfFile r = None /\ engine r = None /\ BytesCopied r = 0)
  | None =>
      NT_SUCCESS (Opener.status (Opener.LcOpenFile (opener env) SourceFile)) = true /\
      NT_SUCCESS (fst (ZwQueryInformationFile env)) = true /\
      snd (ZwQueryInformationFile env) <> 0 /\
      NT_SUCCESS (FltSetInformationFile env) = true /\
      forall st copied final,
        Fetch.LcFetchFileByChunks (pool env) (io env) fuel (snd (ZwQueryInformationFile env))
        <> Fetch.Returned st copied final
  end.
Proof.
  intros Hk. pose proof (LcOpenFile_handles _ _ Hk) as Hh. cbv zeta in Hh.
  unfold LcFetchRemoteFile. cbv zeta.
  destruct (NT_SUCCESS (Opener.status (Opener.LcOpenFile (opener env) SourceFile)))
    eqn:Hopen; cbn [negb].
  2: { cbn. repeat split; auto. }
  destruct (ZwQueryInformationFile env) as [qst size]. cbn [fst snd].
  destruct (NT_SUCCESS qst) eqn:Hq; cbn [negb].
  2: { cbn. repeat split; auto. }
  destruct (size =? 0) eqn:Hsize.
  { cbn. repeat split; auto. }
  apply Z.eqb_neq in Hsize.
  destruct (NT_SUCCESS (FltSetInformationFile env)) eqn:Hset; cbn [negb].
  2: { cbn. repeat split; auto; contradiction. }
  unfold Fetch.LcFetchFileByChunks.
  destruct (Fetch.LcInitializeChunksList (pool env) size) as [[st0 l] len].
  cbv zeta. destruct (NT_SUCCESS st0) eqn:Hinit; cbn [negb].
  2: { cbn. repeat split; auto; contradiction. }
  destruct (Fetch.loop (io env) fuel 0 (Fetch.entry_state l len st0 size))
    as [s|s|s|] eqn:Hloop.
  - repeat split; auto; discriminate.
  - cbn. repeat split; auto; contradiction.
  - cbn. repeat split; auto; try contradiction.
    intros Hf. rewrite (loop_break _ _ _ _ _ Hloop) in Hf. discriminate Hf.
  - repeat split; auto; discriminate.
Qed.

(** A source of 1000 bytes the system account opens; reads and writes
    complete at once. *)
Definition local_source : FETCH_ENV :=
  {| opener := {| Opener.ZwOpenFile := fun _ => (STATUS_SUCCESS, Some 7);
                  Opener.LcOpenFileInUserMode := fun _ => (STATUS_PORT_DISCONNECTED, None) |};
     ZwQueryInformationFile := (STATUS_SUCCESS, 1000);
     FltSetInformationFile := STATUS_SUCCESS;
     pool := fun _ => (true, true);
     io := Fetch.prompt_source 1000 |}.

Lemma remote_fetch_releases_source_witness :
  match LcFetchRemoteFile local_source 10 [92; 97] with
  | Some r => closed r = [7] /\ BytesCopied r = 1000
  | None => False
  end.
Proof.
  pose proof (remote_fetch_releases_source local_source 10 [92; 97]) as H.
  assert (Hr : exists r, LcFetchRemoteFile local_source 10 [92; 97] = Some r
                         /\ BytesCopied r = 1000)
    by (eexists; split; vm_compute; reflexivity).
  destruct Hr as (r & Hr & Hb). rewrite Hr in H |- *.
  split; [|exact Hb]. apply H. discriminate.
Defined.

End RemoteFetchProperties.

(** ** Communication.c: the commands of the user-mode client *)

Section CommandProperties.
Import Configuration Settings Commands.

Lemma LcSetReportRate_bound v c : ReportRate (LcSetReportRate v c) <= MAX_REPORT_RATE.
Proof.
  unfold LcSetReportRate. cbn.
  destruct (MAX_REPORT_RATE <? v) eqn:E; [|apply Z.ltb_ge in E]; lia.
Qed.

(** What no command may break: the cap of the report rate and the
    validity of every path in the list. *)
Definition well_formed (c : DRIVER_CONFIGURATION_DATA) : Prop :=
  ReportRate c <= MAX_REPORT_RATE /\ paths_validated c.

Definition same_identity (c c' : DRIVER_CONFIGURATION_DATA) : Prop :=
  TrustedProccessList c' = TrustedProccessList c /\ RegistryPath c' = RegistryPath c.

Lemma registry_finally_well_formed st0 d st c' :
  registry_finally st0 d = (st, c') -> well_formed d ->
  well_formed c' /\ same_identity d c'.
Proof.
  unfold registry_finally. intros Heq [Hr Hp].
  destruct (negb (NT_SUCCESS st0)); injection Heq as <- <-.
  - split; [split|split]; try reflexivity; [cbn; unfold MAX_REPORT_RATE; lia | intros p []].
  - split; [split|split]; auto.
Qed.

Lemma registry_read_well_formed env c st c' :
  LcReadConfigurationFromRegistry env c = Some (st, c') -> well_formed c ->
  well_formed c' /\ same_identity c c'.
Proof.
  unfold LcReadConfigurationFromRegistry. intros Heq Hwf.
  destruct (negb (RtlUnicodeStringValidate (RegistryPath c))).
  { injection Heq as <- <-. split; [exact Hwf | split; reflexivity]. }
  destruct (ReportRateValue env) as [st1 v1].
  destruct (OperationModeValue env) as [st2 v2].
  destruct (WatchPathsValue env) as [st3 value].
  destruct (negb (NT_SUCCESS st1) && negb (st1 =? STATUS_INVALID_PARAMETER)).
  { apply (inj Some) in Heq. eapply registry_finally_well_formed; eauto. }
  set (c1 := if NT_SUCCESS st1 then LcSetReportRate v1 c else LcSetReportRate 0 c) in Heq.
  assert (H1 : well_formed c1 /\ same_identity c c1).
  { subst c1. destruct Hwf as [_ Hp].
    destruct (NT_SUCCESS st1); (split; [split|split]); try reflexivity;
      try apply LcSetReportRate_bound; exact Hp. }
  destruct H1 as [Hwf1 [Ht1 Hr1]].
  destruct (negb (NT_SUCCESS st2) && negb (st2 =? STATUS_INVALID_PARAMETER)).
  { apply (inj Some) in Heq.
    destruct (registry_finally_well_formed _ _ _ _ Heq Hwf1) as [Hw [Ht Hr]].
    split; [exact Hw | split; congruence]. }
  set (c2 := if NT_SUCCESS st2 then LcSetOperationMode v2 c1
             else LcSetOperationMode DriverDisabled c1) in Heq.
  assert (H2 : well_formed (LcClearPathsToWatch c2) /\
               same_identity c (LcClearPathsToWatch c2)).
  { subst c2. destruct Hwf1 as [Hrate _].
    destruct (NT_SUCCESS st2); (split; [split|split]); cbn; auto; intros p []. }
  destruct H2 as [Hwf2 [Ht2 Hr2]].
  assert (Hfin : forall st0 d, registry_finally st0 d = (st, c') ->
            well_formed d -> same_identity (LcClearPathsToWatch c2) d ->
            well_formed c' /\ same_identity c c').
  { intros st0 d Hf Hd [Hdt Hdr].
    destruct (registry_finally_well_formed _ _ _ _ Hf Hd) as [Hw [Ht Hr]].
    split; [exact Hw | split; congruence]. }
  destruct (negb (NT_SUCCESS st3)).
  - destruct (st3 =? STATUS_INVALID_PARAMETER); apply (inj Some) in Heq;
      eapply Hfin; eauto; split; reflexivity.
  - pose proof (watch_paths_value_spec (Settings.pool env) (S (length value)) O value st3
                  (LcClearPathsToWatch c2) ltac:(lia) (proj2 Hwf2)) as Hloop.
    destruct (watch_paths_value (Settings.pool env) (S (length value)) 0 value st3
                (LcClearPathsToWatch c2)) as [st4 d| |]; try discriminate.
    destruct Hloop as [(Ha & Hb & Hc & Hd) He].
    apply (inj Some) in Heq. eapply Hfin; eauto; [split; [|exact He] | split; auto].
    rewrite Hb. apply Hwf2.
Qed.

Lemma watch_paths_loop_validated pool width bufferEnd :
  forall count idx buffer address paths st paths',
  Communication.watch_paths_loop pool width bufferEnd count idx buffer address paths
    = (st, paths') ->
  (forall p, In p paths -> NT_SUCCESS (LcValidatePath p) = true) ->
  forall p, In p paths' -> NT_SUCCESS (LcValidatePath p) = true.
Proof.
  induction count as [|count IH]; intros idx buffer address paths st paths';
    cbn [Communication.watch_paths_loop].
  { intros [= _ <-]. auto. }
  destruct (wcslen buffer) as [n|]; [|intros [= _ <-]; auto].
  cbv zeta. destruct (negb (_ <=? bufferEnd)); [intros [= _ <-]; auto|]. destruct (negb (NT_SUCCESS (Communication.RtlInitUnicodeStringEx _)));
    [intros [= _ <-]; auto|].
  destruct (Configuration.LcAddPathToWatch (pool idx) paths (take n buffer))
    as [st1 paths1] eqn:Hadd.
  intros Heq Hval.
  assert (Hval1 : forall p, In p paths1 -> NT_SUCCESS (LcValidatePath p) = true).
  { intros p Hp.
    destruct (LcAddPathToWatch_validated _ _ _ _ _ Hadd p Hp) as [H | [-> H]]; auto. }
  destruct (negb (NT_SUCCESS st1)); [injection Heq as _ <-; exact Hval1|].
  eapply IH; eauto.
Qed.

(** One message delivered to the port. *)
Record MESSAGE := {
  answers          : COMMAND_ENV;
  InputBuffer      : option (Z * option DRIVER_COMMAND);
  InputBufferSize  : Z;
  OutputBuffer     : option Z;
  OutputBufferSize : Z
}.

Definition deliver (m : MESSAGE) (c : DRIVER_CONFIGURATION_DATA) : option COMMAND_RESULT :=
  LcClientMessageReceived (answers m) (InputBuffer m) (InputBufferSize m)
    (OutputBuffer m) (OutputBufferSize m) c.

(** The messages of a client, one after the other; the statuses it gets
    and the configuration it leaves. *)
Fixpoint serve (messages : list MESSAGE) (c : DRIVER_CONFIGURATION_DATA)
    : option (list NTSTATUS * DRIVER_CONFIGURATION_DATA) :=
  match messages with
  | [] => Some ([], c)
  | m :: rest =>
      match deliver m c with
      | Some r =>
          match serve rest (Configuration r) with
          | Some (statuses, c') => Some (Commands.status r :: statuses, c')
          | None => None
          end
      | None => None
      end
  end.

(** The command a message names, when its header can be read. *)
Definition named (m : MESSAGE) : option Z :=
  match InputBuffer m with
  | Some (_, Some command) => Some (Type_ command)
  | _ => None
  end.

(** The message passes the checks of the dispatcher and reaches the
    handler of a command: an input buffer that is not null and not empty,
    an output buffer that is given exactly when its size is not zero and
    is aligned, a header that can be read, a declared length that fits
    (as the dispatcher computes it), and a command the driver knows. *)
Definition reaches_handler (m : MESSAGE) : bool :=
  match InputBuffer m with
  | Some (_, Some command) =>
      (0 <? InputBufferSize m)
      && Bool.eqb (match OutputBuffer m with Some _ => true | None => false end)
                  (0 <? OutputBufferSize m)
      && match OutputBuffer m with
         | Some output => NT_SUCCESS (LcValidateBufferAlignment (answers m) output)
         | None => true
         end
      && (ULONG_of (FIELD_OFFSET_Data + DataLength command) <=? InputBufferSize m)
      && existsb (Z.eqb (Type_ command))
           [GetDriverVersion; ReadRegistryParameters; SetOperationMode; SetWatchPaths;
            SetReportRate]
  | _ => false
  end.

Lemma set_PathsToWatch_same c : set_PathsToWatch (PathsToWatch c) c = c.
Proof. destruct c; reflexivity. Qed.

Ltac command_named :=
  match goal with
  | H : (Type_ _ =? _) = true |- _ => apply Z.eqb_eq in H; rewrite H
  end.

Ltac command_reached Hreach :=
  match goal with
  | H : (Type_ _ =? _) = true |- _ =>
      apply Z.eqb_eq in H; specialize (Hreach _ H eq_refl); rewrite H
  end.

Lemma handler_cases (m : MESSAGE) (c : DRIVER_CONFIGURATION_DATA) (r : COMMAND_RESULT) :
  deliver m c = Some r ->
  (Configuration r = c /\
   (Output r = None /\
    (ReturnOutputBufferLength r = Some 0 /\ reaches_handler m = true \/
     ReturnOutputBufferLength r = None /\ reaches_handler m = false /\
     NT_SUCCESS (Commands.status r) = false) \/
    named m = Some GetDriverVersion /\ 4 <= OutputBufferSize m /\
    Commands.status r = STATUS_SUCCESS /\
    Output r = Some (LC_MAJOR_VERSION, LC_MINOR_VERSION) /\
    ReturnOutputBufferLength r = Some 4 /\ reaches_handler m = true)) \/
  (Output r = None /\ ReturnOutputBufferLength r = Some 0 /\ reaches_handler m = true /\
   ((named m = Some ReadRegistryParameters /\
     exists env, LcReadConfigurationFromRegistry env c
                 = Some (Commands.status r, Configuration r)) \/
    (named m = Some SetOperationMode /\
     exists v, Configuration r = LcSetOperationMode v c) \/
    (named m = Some SetReportRate /\
     exists v, Configuration r = LcSetReportRate v c) \/
    (named m = Some SetWatchPaths /\
     exists paths, Configuration r = set_PathsToWatch paths c /\
       forall p, In p paths -> NT_SUCCESS (LcValidatePath p) = true))).
Proof.
  unfold deliver, LcClientMessageReceived, named.
  destruct (InputBuffer m) as [[address [command|]]|] eqn:Hin;
    repeat match goal with
    | |- (if ?b then _ else _) = _ -> _ => destruct b eqn:?
    | |- Some (rejected _ _) = Some _ -> _ =>
        intros [= <-]; cbn [rejected Configuration Output ReturnOutputBufferLength
                            Commands.status];
        left; split; [reflexivity|]; left; split; [reflexivity|]; right;
        split; [reflexivity|]; split; [|reflexivity]
    end;
    repeat match goal with
    | H : negb _ = true |- _ => apply negb_true_iff in H
    | H : negb _ = false |- _ => apply negb_false_iff in H
    end.
  all: try (unfold reaches_handler; rewrite Hin; try reflexivity;
            destruct (OutputBuffer m) as [output|]; cbv beta iota; try discriminate;
            cbn [existsb];
            repeat match goal with
            | H : negb _ = true |- _ => apply negb_true_iff in H
            | H : negb _ = false |- _ => apply negb_false_iff in H
            end;
            repeat match goal with
            | H : _ = true |- _ => rewrite H
            | H : _ = false |- _ => rewrite H
            end; cbn [andb orb existsb]; try reflexivity;
            rewrite ?andb_false_r; reflexivity).
  all: assert (Hreach : forall t, (Type_ command =? t) = true ->
         existsb (Z.eqb t)
           [GetDriverVersion; ReadRegistryParameters; SetOperationMode; SetWatchPaths;
            SetReportRate] = true -> reaches_handler m = true)
    by (intros t Ht Hknown; apply Z.eqb_eq in Ht;
        unfold reaches_handler; rewrite Hin, Ht, Hknown;
        destruct (OutputBuffer m) as [output|]; cbv beta iota; try discriminate;
        repeat match goal with
        | H : negb _ = false |- _ => apply negb_false_iff in H
        end;
        repeat match goal with
        | H : _ = true |- _ => rewrite H
        end; reflexivity).
  all: match goal with
       | H : (Type_ _ =? _) = true |- _ =>
           specialize (Hreach _ H eq_refl); apply Z.eqb_eq in H; rewrite H
       end.
  - unfold LcGetDriverVersionHandler.
    destruct (OutputBuffer m); [|intros [= <-]; cbn; auto 10].
    destruct (OutputBufferSize m <? 4) eqn:Hsize; [intros [= <-]; cbn; auto 10|].
    apply Z.ltb_ge in Hsize.
    destruct (negb (outputWritable (answers m))); intros [= <-]; cbn; auto 10.
  - unfold LcReadRegistryParametersHandler.
    destruct (LcReadConfigurationFromRegistry (registry (answers m)) c)
      as [[st c']|] eqn:Hread; [|discriminate].
    intros [= <-]. cbn. right. split; [reflexivity|]. split; [reflexivity|].
    split; [exact Hreach|].
    left. split; [reflexivity|]. eexists. exact Hread.
  - intros [= <-]. unfold LcSetOperationModeHandler.
    repeat match goal with
    | |- context [match ?x with Some _ => _ | None => _ end] => destruct x
    | |- context [if ?b then _ else _] => destruct b
    end; cbn; auto 10.
    right. split; [reflexivity|]. split; [reflexivity|]. split; [exact Hreach|].
    right. left. eauto.
  - intros [= <-].
    unfold Commands.LcSetWatchPathsHandler.
    destruct (0 <? DataLength command); [|cbn; auto 10].
    destruct (DataLength command <? Communication.FIELD_OFFSET_Data) eqn:Hsize;
      [cbn; auto 10|].
    assert (Hshape : forall st paths,
              (forall p, In p paths -> NT_SUCCESS (LcValidatePath p) = true) ->
              let r := unchanged st (set_PathsToWatch paths c) in
              Output r = None /\ ReturnOutputBufferLength r = Some 0 /\
              exists paths0, Configuration r = set_PathsToWatch paths0 c /\
                forall p, In p paths0 -> NT_SUCCESS (LcValidatePath p) = true).
    { intros st paths Hp. cbn. eauto. }
    destruct (read_ULONG (Data command)) as [count|].
    + destruct (Communication.LcSetWatchPathsHandler _ _ _ _ _) as [st paths] eqn:Hh.
      right. destruct (Hshape st paths) as (Ha & Hb & Hc).
      * unfold Communication.LcSetWatchPathsHandler in Hh. rewrite Hsize in Hh.
        eapply watch_paths_loop_validated; [exact Hh | intros p []].
      * auto 10.
    + right. destruct (Hshape STATUS_ACCESS_VIOLATION []) as (Ha & Hb & Hc);
        [intros p [] | auto 10].
  - intros [= <-]. unfold LcSetReportRateHandler.
    repeat match goal with
    | |- context [match ?x with Some _ => _ | None => _ end] => destruct x
    | |- context [if ?b then _ else _] => destruct b
    end; cbn; auto 10.
    right. split; [reflexivity|]. split; [reflexivity|]. split; [exact Hreach|].
    right. right. left. eauto.
Qed.

Lemma deliver_returns (m : MESSAGE) (c : DRIVER_CONFIGURATION_DATA) :
  deliver m c = None -> named m = Some ReadRegistryParameters.
Proof.
  unfold deliver, LcClientMessageReceived, named.
  destruct (InputBuffer m) as [[address [command|]]|];
    repeat match goal with
    | |- (if ?b then _ else _) = _ -> _ => destruct b eqn:?
    | |- Some _ = None -> _ => discriminate
    end.
  command_named. reflexivity.
Qed.

Lemma deliver_well_formed (m : MESSAGE) (c : DRIVER_CONFIGURATION_DATA) (r : COMMAND_RESULT) :
  deliver m c = Some r -> well_formed c ->
  well_formed (Configuration r) /\ same_identity c (Configuration r).
Proof.
  intros Hd [Hrate Hpaths].
  destruct (handler_cases m c r Hd)
    as [[-> _]
       | (_ & _ & _ & [[_ [env Hread]] | [[_ [v ->]] | [[_ [v ->]] | [_ [paths [-> Hp]]]]]])].
  - split; [split; assumption | split; reflexivity].
  - eapply registry_read_well_formed; [exact Hread | split; assumption].
  - split; [split; assumption | split; reflexivity].
  - split; [split; [apply LcSetReportRate_bound | assumption] | split; reflexivity].
  - split; [split; [assumption | exact Hp] | split; reflexivity].
Qed.

(** X7. Whatever messages a user-mode client sends, and whatever the
    registry, the pool and the buffers answer, the configuration stays
    well formed: the report rate never exceeds MAX_REPORT_RATE, every
    path in the list to watch passed [LcValidatePath], and neither the
    list of trusted processes nor the registry path changes. Every
    message gets one status. *)
Theorem client_cannot_break_configuration (messages : list MESSAGE)
    (c0 c : DRIVER_CONFIGURATION_DATA) (statuses : list NTSTATUS) :
  ReportRate c0 <= MAX_REPORT_RATE ->
  (forall p, In p (PathsToWatch c0) -> NT_SUCCESS (LcValidatePath p) = true) ->
  serve messages c0 = Some (statuses, c) ->
  length statuses = length messages /\
  ReportRate c <= MAX_REPORT_RATE /\
  (forall p, In p (PathsToWatch c) -> NT_SUCCESS (LcValidatePath p) = true) /\
  TrustedProccessList c = TrustedProccessList c0 /\
  RegistryPath c = RegistryPath c0.
Proof.
  revert c0 statuses.
  induction messages as [|m rest IH]; intros c0 statuses Hrate Hpaths; cbn [serve].
  { intros [= <- <-]. auto. }
  destruct (deliver m c0) as [r|] eqn:Hd; [|discriminate].
  destruct (deliver_well_formed m c0 r Hd (conj Hrate Hpaths)) as [[Hr Hp] [Ht Hg]].
  destruct (serve rest (Configuration r)) as [[sts c1]|] eqn:Hs; [|discriminate].
  intros [= <- <-].
  destruct (IH _ _ Hr Hp Hs) as (H1 & H2 & H3 & H4 & H5).
  cbn [length]. repeat split; auto; congruence.
Qed.

(** Three messages: a report rate of 70000, the paths [\a\] and [b] (the
    second is refused), and a command the driver does not know. *)
Definition quiet : COMMAND_ENV :=
  {| registry := {| ReportRateValue := (STATUS_INVALID_PARAMETER, 0);
                    OperationModeValue := (STATUS_INVALID_PARAMETER, 0);
                    WatchPathsValue := (STATUS_INVALID_PARAMETER, []);
                    Settings.pool := fun _ => (true, true) |};
     Commands.pool := fun _ => (true, true);
     IoIs32bitProcess := false;
     sizeof_PVOID := 8;
     outputWritable := true |}.

Definition message (command : DRIVER_COMMAND) : MESSAGE :=
  {| answers := quiet;
     InputBuffer := Some (4096, Some command);
     InputBufferSize := FIELD_OFFSET_Data + DataLength command;
     OutputBuffer := None;
     OutputBufferSize := 0 |}.

Definition three_messages : list MESSAGE :=
  [ message {| Type_ := SetReportRate; DataLength := 4; Data := [112; 17; 1; 0] |};
    message {| Type_ := SetWatchPaths; DataLength := 16;
               Data := [2; 0; 0; 0; 92; 0; 97; 0; 92; 0; 0; 0; 98; 0; 0; 0] |};
    message {| Type_ := 7; DataLength := 0; Data := [] |} ].

Definition started : DRIVER_CONFIGURATION_DATA :=
  {| OperationMode := 3; ReportRate := 0; RegistryPath := [92; 114];
     TrustedProccessList := [4]; PathsToWatch := [] |}.

Lemma client_cannot_break_configuration_witness :
  exists c,
    serve three_messages started
    = Some ([STATUS_SUCCESS; STATUS_INVALID_PARAMETER_1; STATUS_NOT_SUPPORTED], c) /\
    ReportRate c = 10000 /\ PathsToWatch c = [[92; 97; 92]] /\
    TrustedProccessList c = [4].
Proof.
  eexists. split; [vm_compute; reflexivity|].
  split; [reflexivity|]. split; [reflexivity|].
  refine (proj1 (proj2 (proj2 (proj2
    (client_cannot_break_configuration three_messages started _ _ _ _ _))))).
  - vm_compute. discriminate.
  - intros p [].
  - vm_compute. reflexivity.
Defined.

(** X8. One message changes at most the setting its command names: the
    operation mode changes only with ReadRegistryParameters or
    SetOperationMode, the report rate only with ReadRegistryParameters or
    SetReportRate, the list of paths only with ReadRegistryParameters or
    SetWatchPaths. The output buffer is written only by a successful
    GetDriverVersion, with the version 1.1 and a returned length of 4
    bytes in a buffer of at least 4 bytes. Any other message that reaches
    a handler returns a length of zero. A message the dispatcher refuses
    before it calls a handler (null or empty input buffer, output buffer
    and size that disagree, misaligned output buffer, unreadable header,
    declared length beyond the input buffer, unknown command) returns a
    failure and changes nothing, and the returned length is not written:
    the caller's variable keeps the value it had. The dispatcher returns
    for every message, except possibly for ReadRegistryParameters when
    the registry value is not terminated. *)
Theorem command_changes_its_setting_only (m : MESSAGE) (c : DRIVER_CONFIGURATION_DATA) :
  match deliver m c with
  | Some r =>
      (OperationMode (Configuration r) <> OperationMode c ->
         named m = Some ReadRegistryParameters \/ named m = Some SetOperationMode) /\
      (ReportRate (Configuration r) <> ReportRate c ->
         named m = Some ReadRegistryParameters \/ named m = Some SetReportRate) /\
      (PathsToWatch (Configuration r) <> PathsToWatch c ->
         named m = Some ReadRegistryParameters \/ named m = Some SetWatchPaths) /\
      (forall version, Output r = Some version ->
         named m = Some GetDriverVersion /\
         version = (LC_MAJOR_VERSION, LC_MINOR_VERSION) /\
         Commands.status r = STATUS_SUCCESS /\
         ReturnOutputBufferLength r = Some 4 /\ 4 <= OutputBufferSize m) /\
      (Output r = None -> reaches_handler m = true ->
         ReturnOutputBufferLength r = Some 0) /\
      (reaches_handler m = false ->
         ReturnOutputBufferLength r = None /\ Output r = None /\
         Configuration r = c /\ NT_SUCCESS (Commands.status r) = false) /\
      (ReturnOutputBufferLength r = None -> reaches_handler m = false)
  | None => named m = Some ReadRegistryParameters
  end.
Proof.
  destruct (deliver m c) as [r|] eqn:Hd; [|exact (deliver_returns m c Hd)].
  destruct (handler_cases m c r Hd)
    as [[-> [[Ho [[Hl Hr] | (Hl & Hr & Hf)]] | (Hn & Hsize & Hst & Ho & Hl & Hr)]]
       | (Ho & Hl & Hr & [[Hn _] | [[Hn [v ->]] | [[Hn [v ->]] | [Hn [paths [-> Hp]]]]]])];
    repeat split; auto; try contradiction; try congruence;
    cbn; intros; try contradiction; try congruence.
Qed.

End CommandProperties.

(** ** Communication.c: the size check of the dispatcher *)

Section CommandSizeProperties.
Import Configuration Settings Commands.

(** The bytes of a ULONG and of a string in memory (little endian). *)
Definition bytes_of_ULONG (v : Z) : list Z :=
  [v mod 256; (v / 256) mod 256; (v / 65536) mod 256; (v / 16777216) mod 256].

Definition bytes_of_WCHARs (s : list WCHAR) : list Z :=
  flat_map (fun ch => [ch mod 256; ch / 256]) s.

Lemma read_WCHARs_bytes : forall s, read_WCHARs (bytes_of_WCHARs s) = s.
Proof.
  induction s as [|ch s IH]; [reflexivity|].
  cbn [bytes_of_WCHARs flat_map app read_WCHARs]. fold (bytes_of_WCHARs s). rewrite IH.
  f_equal. pose proof (Z.div_mod ch 256). lia.
Qed.

(** A SetWatchPaths command and its one path; [DataLength] is chosen so
    that [FIELD_OFFSET(DRIVER_COMMAND, Data) + DataLength] is zero as a
    ULONG. *)
Definition oversized (p : UNICODE_STRING) : DRIVER_COMMAND :=
  {| Type_ := SetWatchPaths;
     DataLength := 2^32 - FIELD_OFFSET_Data;
     Data := bytes_of_ULONG 1 ++ bytes_of_WCHARs (p ++ [UNICODE_NULL]) |}.

(** X9. The size check of [LcClientMessageReceived] adds the declared
    data length to the header size as a ULONG, so that a message of 8
    bytes, the header alone, can declare 2^32 - 8 bytes of data and pass
    it. The SetWatchPaths handler then clears the list of paths and reads
    the path count and the path from the memory behind the message. On
    the 64-bit build the end of the buffer it computes lies 2^32 bytes
    behind the message, and any valid path found there becomes the list of
    paths to watch. On the 32-bit build the end it computes wraps around
    to the start of the message, the first string is refused with
    STATUS_INVALID_BUFFER_SIZE, and the list is left empty. *)
Theorem declared_length_wraps_past_buffer (env : COMMAND_ENV) (address : Z)
    (p : UNICODE_STRING) (c : DRIVER_CONFIGURATION_DATA) :
  Commands.pool env O = (true, true) ->
  NT_SUCCESS (LcValidatePath p) = true ->
  Forall (fun ch => ch <> UNICODE_NULL) p ->
  UnicodeLength p <= 65532 ->
  0 <= address ->
  let r := LcClientMessageReceived env (Some (address, Some (oversized p)))
             FIELD_OFFSET_Data None 0 c in
  (sizeof_PVOID env = 8 -> address + 2^32 < 2^64 ->
   r = Some (unchanged STATUS_SUCCESS (set_PathsToWatch [p] c))) /\
  (sizeof_PVOID env = 4 -> address + 14 + UnicodeLength p < 2^32 ->
   r = Some (unchanged STATUS_INVALID_BUFFER_SIZE (set_PathsToWatch [] c))).
Proof.
  intros Hpool Hvalid Hnull Hlen Haddr. cbv zeta.
  unfold LcClientMessageReceived. cbn [negb Bool.eqb].
  change (0 <? FIELD_OFFSET_Data) with true. change (0 <? 0) with false. cbn [negb Bool.eqb].
  cbv zeta.
  change (ULONG_of (FIELD_OFFSET_Data + DataLength (oversized p))) with 0.
  change (0 <=? FIELD_OFFSET_Data) with true. cbn [negb].
  change (Type_ (oversized p)) with SetWatchPaths.
  change (SetWatchPaths =? GetDriverVersion) with false.
  change (SetWatchPaths =? ReadRegistryParameters) with false.
  change (SetWatchPaths =? SetOperationMode) with false.
  change (SetWatchPaths =? SetWatchPaths) with true. cbv iota.
  change (0 <? DataLength (oversized p)) with true. cbv iota.
  unfold Commands.LcSetWatchPathsHandler.
  change (DataLength (oversized p) <? Communication.FIELD_OFFSET_Data) with false. cbv iota.
  change (read_ULONG (Data (oversized p))) with (Some 1).
  change (drop 4 (Data (oversized p))) with (bytes_of_WCHARs (p ++ [UNICODE_NULL])).
  rewrite read_WCHARs_bytes.
  unfold Communication.LcSetWatchPathsHandler.
  change (DataLength (oversized p) <? Communication.FIELD_OFFSET_Data) with false. cbv iota.
  change (Z.to_nat (Communication.PathCount _)) with 1%nat.
  cbn [Communication.watch_paths_loop Communication.Data].
  rewrite (wcslen_terminated p [] Hnull). cbv zeta.
  unfold UnicodeLength in Hlen |- *.
  change (DataLength (oversized p)) with 4294967288.
  unfold Communication.ULONG_PTR_of, FIELD_OFFSET_Data, Communication.FIELD_OFFSET_Data.
  split; intros Hwidth Hfits; rewrite Hwidth.
  - change (2 ^ (8 * 8)) with 18446744073709551616.
    change (2 ^ 64) with 18446744073709551616 in Hfits. change (2 ^ 32) with 4294967296 in Hfits.
    rewrite (Z.mod_small (address + 8)) by lia.
    rewrite (Z.mod_small (address + 8 + 4)) by lia.
    rewrite (Z.mod_small (address + 8 + 4294967288)) by lia.
    rewrite (Z.mod_small (address + 8 + 4 + _)) by lia.
    assert (Hfit : (address + 8 + 4 + (Z.of_nat (length p) + 1) * 2
                    <=? address + 8 + 4294967288) = true) by (apply Z.leb_le; lia).
    rewrite Hfit. cbn [negb].
    rewrite take_app_length.
    assert (Hinit : Communication.RtlInitUnicodeStringEx p = STATUS_SUCCESS).
    { unfold Communication.RtlInitUnicodeStringEx, UnicodeLength.
      destruct (65532 <? 2 * Z.of_nat (length p)) eqn:E;
        [apply Z.ltb_lt in E; lia | reflexivity]. }
    rewrite Hinit. cbn [negb NT_SUCCESS STATUS_SUCCESS Z.leb Z.compare].
    unfold Configuration.LcAddPathToWatch, Configuration.LcClearPathsToWatch.
    rewrite Hvalid, Hpool. cbn [negb fst snd].
    assert (Hnot : LcIsPathWatched [] p = false)
      by (unfold LcIsPathWatched; destruct (negb _); reflexivity).
    rewrite Hnot.
    unfold LcCopyUnicodeString, RtlUnicodeStringValidate, UnicodeLength.
    assert (H1 : (2 * Z.of_nat (length p) <=? 65534) = true) by (apply Z.leb_le; lia).
    rewrite H1. cbn [negb].
    assert (H2 : LcAllocateUnicodeString true (USHORT_of (2 * Z.of_nat (length p) + 2))
                 = STATUS_SUCCESS).
    { unfold LcAllocateUnicodeString, USHORT_of.
      rewrite (Z.mod_small (2 * Z.of_nat (length p) + 2)) by lia.
      destruct (_ =? 0) eqn:E0; [apply Z.eqb_eq in E0; lia|].
      replace ((2 * Z.of_nat (length p) + 2) mod 2) with 0
        by (symmetry; apply Z.mod_divide; [lia | exists (Z.of_nat (length p) + 1); lia]).
      reflexivity. }
    rewrite H2. reflexivity.
  - change (2 ^ (8 * 4)) with 4294967296.
    change (2 ^ 32) with 4294967296 in Hfits.
    rewrite (Z.mod_small (address + 8)) by lia.
    rewrite (Z.mod_small (address + 8 + 4)) by lia.
    replace ((address + 8 + 4294967288) mod 4294967296) with address
      by (replace (address + 8 + 4294967288) with (address + 1 * 4294967296) by lia;
          rewrite Z.mod_add by lia; rewrite Z.mod_small by lia; reflexivity).
    rewrite (Z.mod_small (address + 8 + 4 + _)) by lia.
    assert (Hfit : (address + 8 + 4 + (Z.of_nat (length p) + 1) * 2 <=? address) = false)
      by (apply Z.leb_gt; lia).
    rewrite Hfit. reflexivity.
Qed.

Definition quiet_32 : COMMAND_ENV :=
  {| registry := registry quiet;
     Commands.pool := fun _ => (true, true);
     IoIs32bitProcess := false;
     sizeof_PVOID := 4;
     outputWritable := true |}.

Lemma declared_length_wraps_past_buffer_witness :
  LcClientMessageReceived quiet (Some (4096, Some (oversized [92; 97; 92]))) 8 None 0 started
  = Some (unchanged STATUS_SUCCESS (set_PathsToWatch [[92; 97; 92]] started)) /\
  LcClientMessageReceived quiet_32 (Some (4096, Some (oversized [92; 97; 92]))) 8 None 0
    (set_PathsToWatch [[92; 111; 92]] started)
  = Some (unchanged STATUS_INVALID_BUFFER_SIZE (set_PathsToWatch [] started)).
Proof.
  split.
  - apply (declared_length_wraps_past_buffer quiet 4096 [92; 97; 92] started).
    + reflexivity.
    + reflexivity.
    + repeat constructor; discriminate.
    + vm_compute. discriminate.
    + lia.
    + reflexivity.
    + reflexivity.
  - apply (declared_length_wraps_past_buffer quiet_32 4096 [92; 97; 92]
             (set_PathsToWatch [[92; 111; 92]] started)).
    + reflexivity.
    + reflexivity.
    + repeat constructor; discriminate.
    + vm_compute. discriminate.
    + lia.
    + reflexivity.
    + reflexivity.
Defined.

End CommandSizeProperties.

(** ** Configuration.c: which paths can be watched *)

Section WatchedPathProperties.
Import Configuration.

(** The index of the last [c] in [s]. *)
Fixpoint last_index (c : WCHAR) (s : list WCHAR) : option nat :=
  match s with
  | [] => None
  | x :: r =>
      match last_index c r with
      | Some k => Some (S k)
      | None => if x =? c then Some O else None
      end
  end.

Lemma wcsrchr_from_last c : forall s i found,
  Forall (fun ch => ch <> UNICODE_NULL) s ->
  wcsrchr_from s c i found
  = match last_index c s with Some k => Some (i + k)%nat | None => found end.
Proof.
  induction s as [|x r IH]; intros i found Hs; [reflexivity|].
  inversion Hs as [|? ? Hx Hr]; subst. cbn [wcsrchr_from last_index].
  apply Z.eqb_neq in Hx. rewrite Hx, (IH _ _ Hr).
  destruct (last_index c r) as [k|].
  - f_equal. lia.
  - destruct (x =? c); [f_equal; lia | reflexivity].
Qed.

Lemma last_index_none c : forall s, last_index c s = None -> ~ In c s.
Proof.
  induction s as [|x r IH]; cbn; [auto|].
  destruct (last_index c r); [discriminate|].
  destruct (x =? c) eqn:E; [discriminate|]. apply Z.eqb_neq in E.
  intros _ [H | H]; [congruence | exact (IH eq_refl H)].
Qed.

Lemma last_In {A} : forall (s : list A) x, last s = Some x -> In x s.
Proof.
  induction s as [|y r IH]; [discriminate|]. intros x.
  destruct r as [|z r']; [intros [= <-]; left; reflexivity|].
  intros H. right. apply IH. exact H.
Qed.

Lemma last_index_spec c : forall s k,
  last_index c s = Some k ->
  (k < length s)%nat /\ (k = (length s - 1)%nat <-> last s = Some c).
Proof.
  induction s as [|x r IH]; [discriminate|]. intros k. cbn [last_index].
  destruct (last_index c r) as [k'|] eqn:Hr.
  - intros [= <-]. destruct (IH k' eq_refl) as [Hlt Hiff].
    destruct r as [|y r']; [cbn in Hlt; lia|].
    cbn [length] in *. split; [lia|].
    change (last (x :: y :: r')) with (last (y :: r')).
    rewrite <- Hiff. lia.
  - destruct (x =? c) eqn:E; [|discriminate]. intros [= <-].
    apply Z.eqb_eq in E. subst x. split; [cbn; lia|].
    destruct r as [|y r']; [cbn; tauto|].
    change (last (c :: y :: r')) with (last (y :: r')). cbn [length]. split; [lia|].
    intros H. apply last_In in H. destruct (last_index_none _ _ Hr H).
Qed.

Lemma nth_null_free (s : list WCHAR) (i : nat) :
  Forall (fun ch => ch <> UNICODE_NULL) s -> (i < length s)%nat ->
  nth i (s ++ [UNICODE_NULL]) UNICODE_NULL <> UNICODE_NULL.
Proof.
  intros Hs Hi. rewrite app_nth1 by exact Hi.
  rewrite List.Forall_forall in Hs. apply Hs, nth_In, Hi.
Qed.

(** X10. A path without embedded null characters passes [LcValidatePath]
    exactly when it is not empty, holds at most 65534 bytes and its last
    character is the directory separator. *)
Theorem valid_path_ends_with_separator (Path : UNICODE_STRING) :
  Forall (fun ch => ch <> UNICODE_NULL) Path ->
  (NT_SUCCESS (LcValidatePath Path) = true <->
   UnicodeLength Path <= 65534 /\ last Path = Some PATH_SEPARATOR).
Proof.
  intros Hs. unfold LcValidatePath, RtlUnicodeStringValidate, wcsrchr.
  rewrite (wcsrchr_from_last _ _ _ _ Hs).
  destruct (UnicodeLength Path <=? 65534) eqn:Hlen; cbn [negb].
  2: { apply Z.leb_gt in Hlen. split; [discriminate | intros [H _]; lia]. }
  apply Z.leb_le in Hlen.
  destruct (UnicodeLength Path <? 2) eqn:Hmin.
  { apply Z.ltb_lt in Hmin. unfold UnicodeLength in Hmin.
    destruct Path; [|cbn [length] in Hmin; lia].
    split; [discriminate | intros [_ H]; discriminate H]. }
  destruct (last_index PATH_SEPARATOR Path) as [k|] eqn:Hk.
  - destruct (last_index_spec _ _ _ Hk) as [Hlt Hiff]. cbn [Nat.add].
    destruct (k <? length Path - 1)%nat eqn:Hend; cbn [andb].
    + apply Nat.ltb_lt in Hend.
      assert (Hnext : (nth (S k) (Path ++ [UNICODE_NULL]) UNICODE_NULL =? UNICODE_NULL) = false)
        by (apply Z.eqb_neq, nth_null_free; [exact Hs | lia]).
      rewrite Hnext. cbn [negb]. split; [discriminate|].
      intros [_ H]. apply Hiff in H. lia.
    + apply Nat.ltb_ge in Hend. split; [|reflexivity].
      intros _. split; [exact Hlen|]. apply Hiff. lia.
  - split; [discriminate|]. intros [_ H]. apply last_In in H.
    destruct (last_index_none _ _ Hk H).
Qed.

Lemma valid_path_ends_with_separator_witness :
  NT_SUCCESS (LcValidatePath [92; 97; 92]) = true /\
  NT_SUCCESS (LcValidatePath [92; 97]) = false.
Proof.
  split.
  - apply (valid_path_ends_with_separator [92; 97; 92]).
    + repeat constructor; discriminate.
    + split; [vm_compute; discriminate | reflexivity].
  - destruct (NT_SUCCESS (LcValidatePath [92; 97])) eqn:E; [|reflexivity].
    apply (valid_path_ends_with_separator [92; 97]) in E as [_ E];
      [discriminate E | repeat constructor; discriminate].
Defined.

(** X11. [LcAddPathToWatch] either fails and leaves the list as it
    was, or returns [STATUS_SUCCESS], and then a path is watched exactly
    when it was watched before or when it is a valid string that the
    added path is a prefix of, up to case. *)
Theorem added_path_watches_its_subtree (pool : bool * bool) (paths paths' : PATHS_TO_WATCH)
    (p : UNICODE_STRING) (st : NTSTATUS) :
  LcAddPathToWatch pool paths p = (st, paths') ->
  (NT_SUCCESS st = false /\ paths' = paths) \/
  (st = STATUS_SUCCESS /\
   NT_SUCCESS (LcValidatePath p) = true /\
   forall q, LcIsPathWatched paths' q
             = LcIsPathWatched paths q
               || (RtlUnicodeStringValidate q && RtlPrefixUnicodeString p q)).
Proof.
  intros Hadd.
  assert (Hvalid : st = STATUS_SUCCESS -> NT_SUCCESS (LcValidatePath p) = true).
  { revert Hadd. unfold LcAddPathToWatch.
    destruct (NT_SUCCESS (LcValidatePath p)); [reflexivity|].
    cbn [negb]. intros [= <- _] H. discriminate H. }
  destruct (LcAddPathToWatch_cases _ _ _ _ _ Hadd) as [H | (-> & Hw & _)]; [left; exact H|].
  right. split; [reflexivity|]. split; [apply Hvalid; reflexivity|].
  intros q. apply eq_true_iff_eq.
  rewrite LcIsPathWatched_watches, Hw, orb_true_iff, andb_true_iff, LcIsPathWatched_watches.
  unfold watches. split.
  - intros [Hq (e & He & Hpre)]. apply in_app_iff in He as [He | [<- | []]].
    + left. split; [exact Hq | exists e; auto].
    + right. auto.
  - intros [[Hq (e & He & Hpre)] | [Hq Hpre]].
    + split; [exact Hq|]. exists e. split; [apply in_app_iff; left; exact He | exact Hpre].
    + split; [exact Hq|]. exists p. split; [apply in_app_iff; right; left; reflexivity|].
      exact Hpre.
Qed.

Lemma added_path_watches_its_subtree_witness :
  LcIsPathWatched [[92; 97; 92]] [92; 65; 92; 102] = true.
Proof.
  destruct (added_path_watches_its_subtree (true, true) [] [[92; 97; 92]] [92; 97; 92]
              STATUS_SUCCESS eq_refl) as [[H _] | (_ & _ & H)]; [discriminate H|].
  rewrite H. reflexivity.
Defined.

End WatchedPathProperties.

(** ** FileLocks.c: what a failed acquire frees *)

Section FileLockCleanupProperties.
Import FileLocks.

Lemma reference_by_name_unmatched name : forall l,
  reference_by_name name l = None ->
  Forall (fun e => ~ equal_ignoring_case name (FileName e)) l.
Proof.
  induction l as [|e rest IH]; cbn; [constructor|].
  destruct (RtlCompareUnicodeString name (FileName e) =? 0) eqn:E; [discriminate|].
  destruct (reference_by_name name rest) as [[ev l']|]; [discriminate|].
  intros _. constructor; [|apply IH; reflexivity].
  intros H. apply RtlCompareUnicodeString_zero in H. apply Z.eqb_neq in E. contradiction.
Qed.

(** X12. With a pool that hands out memory no linked entry lives in,
    [LcGetFileLock] releases an entry that is still linked in the list in
    exactly one case: no entry has the name, the list is not empty and the
    pool refuses the new entry. It then returns
    [STATUS_INSUFFICIENT_RESOURCES] and no event. The entry released is
    the last one of the list, the one the search visited last: its name is
    zeroed in place, the buffer of the name is released when it is not
    null, then the entry itself is released, and the entry stays linked,
    so that the list the function leaves ends in a released entry with an
    empty name and the event, count and address it had. With an empty
    list nothing is released. *)
Theorem failed_acquire_frees_last_entry (pool : POOL_ENV) (l : list FILE_LOCK_ENTRY)
    (name : UNICODE_STRING) :
  (forall a, entryBuffer pool = Some a -> ~ In a (map Address l)) ->
  let r := LcGetFileLock pool l name in
  ((exists a, In (EntryBlock a) (freed r) /\ In a (map Address (FileLocksList r))) <->
   (Forall (fun e => ~ equal_ignoring_case name (FileName e)) l /\
    l <> [] /\ entryBuffer pool = None)) /\
  (Forall (fun e => ~ equal_ignoring_case name (FileName e)) l ->
   entryBuffer pool = None ->
   status r = STATUS_INSUFFICIENT_RESOURCES /\ EventOut r = None /\
   match last l with
   | Some e =>
       exists l0, l = l0 ++ [e] /\
         FileLocksList r
         = l0 ++ [{| FileName := []; Event := Event e; RefCount := RefCount e;
                     Address := Address e |}] /\
         freed r = [NameBlock (Address e); EntryBlock (Address e)]
   | None => l = [] /\ FileLocksList r = [] /\ freed r = []
   end).
Proof.
  intros Hfresh. cbv zeta. unfold LcGetFileLock. split.
  - destruct (reference_by_name name l) as [[ev l']|] eqn:Hwalk.
    { cbn. split; [intros (a & [] & _)|].
      intros (Hnone & _). rewrite (reference_by_name_none _ _ Hnone) in Hwalk.
      discriminate Hwalk. }
    apply reference_by_name_unmatched in Hwalk.
    destruct (entryBuffer pool) as [a|] eqn:Hpool.
    + destruct (LcCopyUnicodeString (nameBuffer pool) name) as [st [copy|]]; cbn.
      * split; [intros (b & [] & _) | intros (_ & _ & H); discriminate H].
      * split; [|intros (_ & _ & H); discriminate H].
        intros (b & [[= <-] | []] & Hb). destruct (Hfresh a eq_refl Hb).
    + cbn [freed FileLocksList]. pose proof (free_last_visited_spec l) as Hspec.
      destruct (last l) as [e|].
      * destruct Hspec as (l0 & Hl & ->). cbn [fst snd]. split.
        -- intros _. split; [exact Hwalk|]. split; [|reflexivity].
           rewrite Hl. destruct l0; discriminate.
        -- intros _. exists (Address e). split; [right; left; reflexivity|].
           rewrite map_app. apply in_or_app. right. left. reflexivity.
      * destruct Hspec as [-> ->]. cbn. split; [intros (a & [] & _)|].
        intros (_ & Hne & _). contradiction.
  - intros Hnone Hpool. rewrite (reference_by_name_none _ _ Hnone), Hpool.
    cbn [status EventOut freed FileLocksList].
    split; [reflexivity|]. split; [reflexivity|].
    pose proof (free_last_visited_spec l) as Hspec.
    destruct (last l) as [e|].
    + destruct Hspec as (l0 & Hl & ->). exists l0. cbn [fst snd]. auto.
    + destruct Hspec as [-> ->]. cbn. auto.
Qed.

(** One file is locked; the lock of another one is asked for and the
    pool is exhausted. The entry of the first file is released and stays
    linked without its name, so that the next acquire for the first file
    does not find it and links a second entry, with a signaled event. *)
Lemma failed_acquire_frees_last_entry_witness :
  let held := [{| FileName := [65]; Event := false; RefCount := 1; Address := 4096 |}] in
  let r := LcGetFileLock {| entryBuffer := None; nameBuffer := true |} held [66] in
  freed r = [NameBlock 4096; EntryBlock 4096] /\
  FileLocksList r = [{| FileName := []; Event := false; RefCount := 1; Address := 4096 |}] /\
  FileLocksList (LcGetFileLock {| entryBuffer := Some 8192; nameBuffer := true |}
                   (FileLocksList r) [65])
  = [{| FileName := [65]; Event := true; RefCount := 1; Address := 8192 |};
     {| FileName := []; Event := false; RefCount := 1; Address := 4096 |}].
Proof.
  cbv zeta.
  destruct (failed_acquire_frees_last_entry {| entryBuffer := None; nameBuffer := true |}
              [{| FileName := [65]; Event := false; RefCount := 1; Address := 4096 |}] [66])
    as [_ H].
  - intros a Ha. discriminate Ha.
  - destruct H as (_ & _ & (l0 & Hl & Hlist & Hfreed)).
    + repeat constructor. intros H. apply RtlCompareUnicodeString_zero in H. discriminate H.
    + reflexivity.
    + split; [exact Hfreed|]. split; [reflexivity | reflexivity].
Defined.

End FileLockCleanupProperties.

(** ** ReparsePoints.c: untagging a stub *)

Section UntagStubProperties.
Import ReparsePoints.

Lemma FlagOn_readonly_mask a m :
  Z.land m FILE_ATTRIBUTE_READONLY = FILE_ATTRIBUTE_READONLY ->
  FlagOn (Z.land a m) FILE_ATTRIBUTE_READONLY = FlagOn a FILE_ATTRIBUTE_READONLY.
Proof. intros Hm. unfold FlagOn. rewrite <- Z.land_assoc, Hm. reflexivity. Qed.

Lemma FlagOn_readonly_cleared a :
  FlagOn (without_stub_attributes a) FILE_ATTRIBUTE_READONLY
  = FlagOn a FILE_ATTRIBUTE_READONLY.
Proof. rewrite clear_as_mask. apply FlagOn_readonly_mask. reflexivity. Qed.

(** X13. [LcUntagFile] on a file that carries the driver's reparse
    point, with every lower-layer call succeeding: the reparse point is
    removed and the read-only attribute is as it was. The offline and
    not-content-indexed attributes are cleared too, unless the file has
    no other attribute: the attributes to store are then zero, which the
    file system reads as a request to keep them, and the file keeps the
    offline and not-content-indexed attributes it had. *)
Theorem untagged_stub_attributes (env : UNTAG_ENV) (f : FILE_STATE) :
  ReparsePoint f = Some LC_REPARSE_TAG ->
  0 <= FileAttributes f < 2^32 ->
  lower_layers_succeed env ->
  let r := LcUntagFile env f in
  NT_SUCCESS (fst r) = true /\
  ReparsePoint (snd r) = None /\
  FileAttributes (snd r) =
    (if without_stub_attributes (FileAttributes f) =? 0
     then ClearFlag (FileAttributes f) FILE_ATTRIBUTE_REPARSE_POINT
     else without_stub_attributes (FileAttributes f)) /\
  FlagOn (FileAttributes (snd r)) FILE_ATTRIBUTE_READONLY
  = FlagOn (FileAttributes f) FILE_ATTRIBUTE_READONLY.
Proof.
  intros Hrp Ha (Hq & Hs1 & Hc & Hu & Hs2). cbv zeta.
  assert (Hresult : LcUntagFile env f =
            (FltSetInformationFile_2 env,
             {| FileAttributes :=
                  if without_stub_attributes (FileAttributes f) =? 0
                  then ClearFlag (FileAttributes f) FILE_ATTRIBUTE_REPARSE_POINT
                  else without_stub_attributes (FileAttributes f);
                ReparsePoint := None |})).
  { unfold LcUntagFile. rewrite Hq. cbn [negb]. cbv zeta.
    destruct (FlagOn (FileAttributes f) FILE_ATTRIBUTE_READONLY) eqn:Hro.
    - rewrite Hs1, Hc. cbn [negb]. rewrite Hu.
      unfold FltUntagFile at 1. rewrite set_basic_information_ReparsePoint, Hrp.
      change (LC_REPARSE_TAG =? LC_REPARSE_TAG) with true. cbv iota.
      change (NT_SUCCESS STATUS_SUCCESS) with true. cbn [negb andb].
      fold (without_stub_attributes (ClearFlag (FileAttributes f) FILE_ATTRIBUTE_READONLY)).
      rewrite (restore_readonly _ Ha Hro).
      assert (Hnz : (without_stub_attributes (FileAttributes f) =? 0) = false).
      { apply Z.eqb_neq. rewrite <- (restore_readonly _ Ha Hro). unfold SetFlag.
        intros H0. apply Z.lor_eq_0_iff in H0 as [_ H0]. discriminate H0. }
      rewrite Hnz. f_equal.
      unfold set_basic_information at 1. rewrite Hs2, Hnz. reflexivity.
    - rewrite Hq, Hc. cbn [negb]. rewrite Hu.
      unfold FltUntagFile. rewrite Hrp.
      change (LC_REPARSE_TAG =? LC_REPARSE_TAG) with true. cbv iota.
      change (NT_SUCCESS STATUS_SUCCESS) with true. cbn [negb andb].
      fold (without_stub_attributes (FileAttributes f)).
      f_equal. unfold set_basic_information. rewrite Hs2. cbn [andb].
      destruct (without_stub_attributes (FileAttributes f) =? 0); reflexivity. }
  rewrite Hresult. cbn [fst snd FileAttributes ReparsePoint].
  split; [exact Hs2|]. split; [reflexivity|]. split; [reflexivity|].
  destruct (without_stub_attributes (FileAttributes f) =? 0).
  - unfold ClearFlag. apply FlagOn_readonly_mask. reflexivity.
  - apply FlagOn_readonly_cleared.
Qed.

(** A stub as the driver's tools make it, offline and with the reparse
    point only, and a stub that is also an archive file. *)
Lemma untagged_stub_attributes_witness :
  FileAttributes (snd (LcUntagFile every_call_succeeds
     {| FileAttributes := LC_FILE_ATTRIBUTES; ReparsePoint := Some LC_REPARSE_TAG |}))
  = FILE_ATTRIBUTE_OFFLINE /\
  FileAttributes (snd (LcUntagFile every_call_succeeds
     {| FileAttributes := Z.lor LC_FILE_ATTRIBUTES FILE_ATTRIBUTE_ARCHIVE;
        ReparsePoint := Some LC_REPARSE_TAG |}))
  = FILE_ATTRIBUTE_ARCHIVE.
Proof.
  split.
  - destruct (untagged_stub_attributes every_call_succeeds
                {| FileAttributes := LC_FILE_ATTRIBUTES;
                   ReparsePoint := Some LC_REPARSE_TAG |})
      as (_ & _ & H & _);
      [reflexivity | vm_compute; split; [discriminate | reflexivity]
       | repeat split | exact H].
  - destruct (untagged_stub_attributes every_call_succeeds
                {| FileAttributes := Z.lor LC_FILE_ATTRIBUTES FILE_ATTRIBUTE_ARCHIVE;
                   ReparsePoint := Some LC_REPARSE_TAG |})
      as (_ & _ & H & _);
      [reflexivity | vm_compute; split; [discriminate | reflexivity]
       | repeat split | exact H].
Defined.

(** X14. [LcUntagFile] on a read-only file that has another attribute:
    once the read-only attribute has been cleared, a failure to open the
    file or to remove the reparse point is returned with the file left
    writable; the attribute is not set again. *)
Theorem failed_untag_leaves_file_writable (env : UNTAG_ENV) (f : FILE_STATE) :
  FlagOn (FileAttributes f) FILE_ATTRIBUTE_READONLY = true ->
  ClearFlag (FileAttributes f) FILE_ATTRIBUTE_READONLY <> 0 ->
  NT_SUCCESS (FltQueryInformationFile env) = true ->
  NT_SUCCESS (FltSetInformationFile_1 env) = true ->
  NT_SUCCESS (FltCreateFileEx env) = false \/
  (exists st, FltUntagFile_failure env = Some st /\ NT_SUCCESS st = false /\
              st <> STATUS_NOT_A_REPARSE_POINT) ->
  let r := LcUntagFile env f in
  NT_SUCCESS (fst r) = false /\
  FlagOn (FileAttributes (snd r)) FILE_ATTRIBUTE_READONLY = false /\
  ReparsePoint (snd r) = ReparsePoint f.
Proof.
  intros Hro Hother Hq Hs1 Hfail. cbv zeta.
  unfold LcUntagFile. rewrite Hq. cbn [negb]. cbv zeta. rewrite Hro, Hs1. cbn [negb].
  assert (Hset : set_basic_information (FltSetInformationFile_1 env)
                   (ClearFlag (FileAttributes f) FILE_ATTRIBUTE_READONLY) f
                 = {| FileAttributes := ClearFlag (FileAttributes f) FILE_ATTRIBUTE_READONLY;
                      ReparsePoint := ReparsePoint f |}).
  { unfold set_basic_information. rewrite Hs1.
    apply Z.eqb_neq in Hother. rewrite Hother. reflexivity. }
  rewrite Hset.
  assert (Hclear : FlagOn (ClearFlag (FileAttributes f) FILE_ATTRIBUTE_READONLY)
                     FILE_ATTRIBUTE_READONLY = false).
  { unfold FlagOn, ClearFlag. rewrite <- Z.land_assoc.
    change (Z.land (ULONG_of (Z.lnot FILE_ATTRIBUTE_READONLY)) FILE_ATTRIBUTE_READONLY)
      with 0. rewrite Z.land_0_r. reflexivity. }
  destruct (NT_SUCCESS (FltCreateFileEx env)) eqn:Hc; cbn [negb].
  2: { cbn. rewrite Hc. auto. }
  destruct Hfail as [Hfail | (st & Hu & Hst & Hne)]; [discriminate Hfail|].
  rewrite Hu. cbn [FltUntagFile]. rewrite Hst. apply Z.eqb_neq in Hne. rewrite Hne.
  cbn. rewrite Hst. auto.
Qed.

Lemma failed_untag_leaves_file_writable_witness :
  let env := {| FltQueryInformationFile := STATUS_SUCCESS;
                FltSetInformationFile_1 := STATUS_SUCCESS;
                FltCreateFileEx := STATUS_ACCESS_DENIED;
                FltUntagFile_failure := None;
                FltSetInformationFile_2 := STATUS_SUCCESS |} in
  let f := {| FileAttributes := Z.lor LC_FILE_ATTRIBUTES FILE_ATTRIBUTE_READONLY;
              ReparsePoint := Some LC_REPARSE_TAG |} in
  fst (LcUntagFile env f) = STATUS_ACCESS_DENIED /\
  FlagOn (FileAttributes (snd (LcUntagFile env f))) FILE_ATTRIBUTE_READONLY = false.
Proof.
  cbv zeta. split; [reflexivity|].
  refine (proj1 (proj2 (failed_untag_leaves_file_writable _ _ _ _ _ _ _)));
    try reflexivity.
  - vm_compute. discriminate.
  - left. reflexivity.
Defined.

End UntagStubProperties.

(** ** Fetch.c: the target is written in sequence *)

Section SequentialWriteProperties.
Import Fetch.

(** Every write issued starts where the bytes credited for the writes
    before it end, and carries at least one byte. *)
Definition sequential (s : ENGINE) : Prop :=
  destinationFileOffset s = totalBytesWritten s /\
  forall (i : nat) offset len,
    writes s !! i = Some (offset, len) ->
    offset = LONGLONG_of (bytes_written (take i (completions s))) /\ len <> 0.

Definition offsets_view (s : ENGINE) :=
  (destinationFileOffset s, totalBytesWritten s, writes s, completions s).

Lemma sequential_view s s' : offsets_view s = offsets_view s' -> sequential s -> sequential s'.
Proof.
  unfold offsets_view. intros H. injection H as H1 H2 H3 H4.
  unfold sequential. rewrite H1, H2, H3, H4. auto.
Qed.

Definition step_sequential (st : STEP) : Prop :=
  match st with
  | Continue s | Leave s | Break s => sequential s
  | InvalidPointer => True
  end.

Lemma LcWriteCallback_sequential io s :
  accounting s -> sequential s -> sequential (LcWriteCallback io s).
Proof.
  intros (_ & _ & Hlen & _) [Hd Hw]. unfold LcWriteCallback.
  destruct io as [[st info]|]; [|split; assumption].
  destruct (writePending s) eqn:Hp; [|split; assumption].
  split; [exact Hd|]. cbn. intros i offset len Hi.
  destruct (Hw i offset len Hi) as [Hoff Hne]. split; [|exact Hne].
  apply lookup_lt_Some in Hi. rewrite take_app_le by lia. exact Hoff.
Qed.

Lemma schedule_write_sequential e s :
  settled s -> sequential s -> step_sequential (schedule_write e s).
Proof.
  intros (Hp & Hl & Ht & _) [Hd Hw]. unfold schedule_write. cbv zeta.
  change (writeChunk (set_waitingForRead false s)) with (writeChunk s).
  change (chunks (set_waitingForRead false s)) with (chunks s).
  destruct (writeChunk s) as [id|]; [|exact I].
  destruct (find_chunk id (chunks s)) as [c|]; [|exact I].
  destruct (BytesInBuffer c =? 0) eqn:Hdata.
  - destruct (eof (set_waitingForRead false s)); split; assumption.
  - apply Z.eqb_neq in Hdata.
    assert (Hseq : forall st, sequential
              (set_status st (set_writePending true
                 (set_writes (writes (set_writeEvent false (set_waitingForRead false s))
                              ++ [(destinationFileOffset
                                     (set_writeEvent false (set_waitingForRead false s)),
                                   BytesInBuffer c)])
                    (set_writeEvent false (set_waitingForRead false s)))))).
    { intros st. split; [exact Hd|]. cbn. intros i offset len Hi.
      apply lookup_app_Some in Hi as [Hi | [Hge Hi]]; [exact (Hw _ _ _ Hi)|].
      destruct (i - length (writes s))%nat as [|n] eqn:Hn; [|discriminate Hi].
      injection Hi as <- <-. split; [|exact Hdata].
      rewrite take_ge by lia. rewrite Hd. exact Ht. }
    match goal with |- step_sequential (if ?b then _ else _) => destruct b end;
      apply Hseq.
Qed.

Lemma advance_write_sequential e s :
  settled s -> sequential s -> step_sequential (advance_write e s).
Proof.
  intros Hs Hq. unfold advance_write, LcGetNextAvailableChunk.
  destruct (next_chunk (writeChunk s) (chunks s)) as [c|]; [|exact I].
  cbn [negb NT_SUCCESS STATUS_SUCCESS Z.leb Z.compare]. cbv zeta.
  apply schedule_write_sequential; [exact Hs | exact Hq].
Qed.

Lemma write_side_sequential e s :
  accounting s -> writeEvent s = true -> sequential s -> step_sequential (write_side e s).
Proof.
  intros (H1 & H2 & H3 & done & Ht & Hd & Hc) He [Hq Hw].
  assert (Hp : writePending s = false) by (rewrite H1, He; reflexivity).
  rewrite Hp in H3. unfold write_side.
  unfold unaccounted in Hc. rewrite He in Hc. cbn [andb] in Hc.
  destruct (waitingForRead s) eqn:Hwait; cbn [negb] in Hc |- *.
  - cbn [andb] in Hc. subst done.
    apply schedule_write_sequential; [|split; assumption]. repeat split; auto. lia.
  - destruct (writeChunk s) as [id|] eqn:Hwc; cbn [andb] in Hc.
    + destruct Hc as (info & Hc & Hb). cbv zeta.
      destruct (NT_SUCCESS (status (set_status (writeStatus s) s))) eqn:Hst; cbn [negb];
        [|split; assumption].
      cbn in Hst. apply advance_write_sequential.
      * unfold settled, complete_write. cbn -[bytes_written LONGLONG_of].
        split; [exact Hp|]. split; [lia|]. split.
        -- rewrite Hc, bytes_written_app, Ht, Hb. apply LONGLONG_of_add.
        -- rewrite Hc. apply List.Forall_app. split; [exact Hd|].
           constructor; [exact Hst | constructor].
      * unfold complete_write. split; [cbn; rewrite Hq; reflexivity|].
        cbn. exact Hw.
    + subst done. apply advance_write_sequential; [|split; assumption].
      repeat split; auto. lia.
Qed.

Lemma LcGetNextAvailableChunk_read_sequential e s st s' :
  accounting s -> sequential s ->
  LcGetNextAvailableChunk e true s = Some (st, s') -> sequential s'.
Proof.
  intros Hacc Hq. unfold LcGetNextAvailableChunk.
  destruct (next_chunk (readChunk s) (chunks s)) as [c|]; [|discriminate].
  destruct (BytesInBuffer c =? 0); cbn [negb].
  { intros [= _ <-]. eapply sequential_view; [|exact Hq]. reflexivity. }
  destruct (chunkListLength s <? MaxChunks).
  - destruct (LcAddNewChunk_cases (chunkPool e) (chunks s) (Some (Id c))
                (remainingBytes s) (chunkListLength s)) as [(st0 & -> & _) | [_ ->]];
      intros [= _ <-]; [exact Hq|].
    eapply sequential_view; [|exact Hq]. reflexivity.
  - intros [= _ <-].
    eapply sequential_view;
      [|apply (LcWriteCallback_sequential (writeWait e)); [exact Hacc | exact Hq]].
    reflexivity.
Qed.

Lemma complete_read_offsets e id chunk s :
  offsets_view (complete_read e id chunk s) = offsets_view s.
Proof.
  unfold complete_read. cbv zeta.
  repeat match goal with |- context [if ?b then _ else _] => destruct b end; reflexivity.
Qed.

Lemma schedule_read_sequential e s :
  accounting s -> sequential s -> step_sequential (schedule_read e s).
Proof.
  intros Hacc Hq. unfold schedule_read. destruct (eof s); [exact Hq|].
  set (s1 := if remainingBytes s <=? 0 then set_remainingBytes ChunkSize s else s).
  assert (Hacc1 : accounting s1).
  { eapply accounting_view; [|exact Hacc].
    subst s1; destruct (remainingBytes s <=? 0); reflexivity. }
  assert (Hq1 : sequential s1).
  { eapply sequential_view; [|exact Hq].
    subst s1; destruct (remainingBytes s <=? 0); reflexivity. }
  destruct (LcGetNextAvailableChunk e true s1) as [[st s']|] eqn:Hget; [|exact I].
  pose proof (LcGetNextAvailableChunk_read_sequential _ _ _ _ Hacc1 Hq1 Hget) as Hq'.
  cbv zeta. destruct (NT_SUCCESS st); cbn [negb];
    [|eapply sequential_view; [|exact Hq']; reflexivity].
  match goal with |- step_sequential (if ?c then _ else _) => destruct c end;
    (eapply sequential_view; [|exact Hq']; reflexivity).
Qed.

Lemma read_side_sequential e s :
  accounting s -> sequential s -> step_sequential (read_side e s).
Proof.
  intros Hacc Hq. unfold read_side.
  destruct (readChunk s) as [id|]; [|apply schedule_read_sequential; assumption].
  destruct (find_chunk id (chunks s)) as [c|]; [|exact I].
  cbv zeta.
  assert (Hq' : sequential (complete_read e id c s))
    by (eapply sequential_view; [symmetry; apply complete_read_offsets | exact Hq]).
  assert (Hacc' : accounting (complete_read e id c s))
    by (eapply accounting_view; [symmetry; apply complete_read_view | exact Hacc]).
  destruct (negb (NT_SUCCESS (status (complete_read e id c s)))); [exact Hq'|].
  apply schedule_read_sequential; assumption.
Qed.

Lemma loop_body_sequential e s :
  accounting s -> sequential s -> step_sequential (loop_body e s).
Proof.
  intros Hacc Hq. unfold loop_body.
  destruct (waitingForRead s && negb (NT_SUCCESS (readWait e))).
  { eapply sequential_view; [|exact Hq]. reflexivity. }
  cbv zeta.
  set (s1 := if waitingForRead s then set_status (readWait e) s else s).
  assert (Hacc1 : accounting s1).
  { eapply accounting_view; [|exact Hacc]. subst s1. destruct (waitingForRead s); reflexivity. }
  assert (Hq1 : sequential s1).
  { eapply sequential_view; [|exact Hq]. subst s1. destruct (waitingForRead s); reflexivity. }
  set (s2 := LcWriteCallback (writeCompleted e) s1).
  assert (Hacc2 : accounting s2) by (apply LcWriteCallback_accounting; exact Hacc1).
  assert (Hq2 : sequential s2) by (apply LcWriteCallback_sequential; assumption).
  set (after_read := if negb (eof s2) && _ then read_side e s2 else Continue s2).
  assert (Hafter : read_step_accounted s2 after_read /\ step_sequential after_read).
  { subst after_read. destruct (negb (eof s2) && _).
    - split; [apply read_side_accounted; exact Hacc2 | apply read_side_sequential; assumption].
    - split; [split; auto | exact Hq2]. }
  destruct Hafter as [Ha Hs].
  destruct after_read as [s3| | |]; cbn in Ha, Hs |- *; try exact Hs.
  destruct Ha as [Hacc3 Hev].
  destruct (writeEvent s2); [apply write_side_sequential; auto | exact Hs].
Qed.

Lemma loop_sequential env fuel :
  forall n s, accounting s -> sequential s -> step_sequential (loop env fuel n s).
Proof.
  induction fuel as [|fuel IH]; intros n s Hacc Hq; cbn [loop]; [exact Hq|].
  pose proof (loop_body_accounted (env n s) s Hacc) as Hstep.
  pose proof (loop_body_sequential (env n s) s Hacc Hq) as Hseq.
  destruct (loop_body (env n s) s) as [s'| | |]; try exact Hseq.
  apply IH; assumption.
Qed.

(** X15. Whatever the pool, the source and the target answer, at every
    moment of [LcFetchFileByChunks] (after any number of passes through
    its loop, or when it returns) the writes it has issued to the target
    are sequential: each one starts at the offset that equals the bytes
    credited for the writes issued before it (in 64-bit arithmetic), and
    none is empty. *)
Theorem target_is_written_in_sequence (pool : nat -> bool * bool)
    (env : nat -> ENGINE -> ITER_ENV) (fuel : nat) (SourceFileSize : Z) :
  match LcFetchFileByChunks pool env fuel SourceFileSize with
  | Returned _ _ s | StillRunning s =>
      forall (i : nat) offset len,
        writes s !! i = Some (offset, len) ->
        offset = LONGLONG_of (bytes_written (take i (completions s))) /\ len <> 0
  | Invalid => False
  end.
Proof.
  unfold LcFetchFileByChunks.
  pose proof (LcInitializeChunksList_ok pool SourceFileSize) as Hinit.
  destruct (LcInitializeChunksList pool SourceFileSize) as [[st0 l] len0].
  cbv zeta.
  assert (Hentry : sequential (entry_state l len0 st0 SourceFileSize)).
  { split; [reflexivity|]. intros i offset len Hi. destruct i; discriminate Hi. }
  destruct (NT_SUCCESS st0); cbn [negb]; [|apply Hentry].
  assert (Hok : engine_ok (entry_state l len0 st0 SourceFileSize))
    by (split; [exact Hinit | discriminate]).
  pose proof (loop_ok env fuel O _ Hok) as Hvalid.
  pose proof (loop_sequential env fuel O _ (entry_state_accounting l len0 st0 SourceFileSize)
                Hentry) as Hloop.
  destruct (loop env fuel 0 (entry_state l len0 st0 SourceFileSize)) as [s|s|s|];
    [apply Hloop | apply Hloop | apply Hloop | exact Hvalid].
Qed.

End SequentialWriteProperties.

(** ** Fetch.c: a slow read and a slow target *)

Section SlowTransferProperties.
Import Fetch.

(** The answers [e] with another status of the wait for the source. *)
Definition with_readWait (st : NTSTATUS) (e : ITER_ENV) : ITER_ENV :=
  {| readWait := st; statusBlock := statusBlock e; writeCompleted := writeCompleted e;
     chunkPool := chunkPool e; writeWait := writeWait e; ZwReadFile := ZwReadFile e;
     FltWriteFile := FltWriteFile e |}.

(** Reads are served at once by a source of [actual] bytes; a write
    completes, in full, only while the reader waits for a chunk of the
    full list or once the source has been read to its end. *)
Definition slow_target (actual : Z) (n : nat) (s : ENGINE) : ITER_ENV :=
  let requested :=
    match readChunk s with
    | Some id => match find_chunk id (chunks s) with
                 | Some chunk => BufferSize chunk
                 | None => 0
                 end
    | None => 0
    end in
  let done :=
    match last (writes s) with
    | Some (_, Length) => Some (STATUS_SUCCESS, Length)
    | None => None
    end in
  {| readWait := STATUS_SUCCESS;
     statusBlock :=
       if actual <=? sourceFileOffset s then (STATUS_END_OF_FILE, 0)
       else (STATUS_SUCCESS, Z.min requested (actual - sourceFileOffset s));
     writeCompleted := if eof s then done else None;
     chunkPool := (true, true);
     writeWait := done;
     ZwReadFile := STATUS_PENDING;
     FltWriteFile := STATUS_PENDING |}.

Lemma LcGetNextAvailableChunk_status e a y :
  match LcGetNextAvailableChunk e true (set_status a y), LcGetNextAvailableChunk e true y with
  | Some (st1, s1), Some (st2, s2) => st1 = st2 /\ forall c, set_status c s1 = set_status c s2
  | None, None => True
  | _, _ => False
  end.
Proof.
  unfold LcGetNextAvailableChunk.
  change (readChunk (set_status a y)) with (readChunk y).
  change (chunks (set_status a y)) with (chunks y).
  change (chunkListLength (set_status a y)) with (chunkListLength y).
  change (remainingBytes (set_status a y)) with (remainingBytes y).
  destruct (next_chunk (readChunk y) (chunks y)) as [c|]; [|exact I].
  destruct (negb (BytesInBuffer c =? 0)); [|split; reflexivity].
  destruct (chunkListLength y <? MaxChunks).
  - destruct (LcAddNewChunk _ _ _ _ _) as [[[st l] [new|]] len]; split; reflexivity.
  - unfold LcWriteCallback. destruct (writeWait e) as [[st info]|].
    + change (writePending (set_status a y)) with (writePending y).
      destruct (writePending y); split; reflexivity.
    + split; reflexivity.
Qed.

Lemma schedule_read_status e x a b :
  eof x = false -> schedule_read e (set_status a x) = schedule_read e (set_status b x).
Proof.
  intros He.
  assert (H : forall c, schedule_read e (set_status c x) = schedule_read e x).
  { intros c. unfold schedule_read.
    change (eof (set_status c x)) with (eof x). rewrite He.
    change (remainingBytes (set_status c x)) with (remainingBytes x).
    set (y := if remainingBytes x <=? 0 then set_remainingBytes ChunkSize x else x).
    assert (Hy : (if remainingBytes x <=? 0 then set_remainingBytes ChunkSize (set_status c x)
                  else set_status c x) = set_status c y)
      by (subst y; destruct (remainingBytes x <=? 0); reflexivity).
    rewrite Hy. pose proof (LcGetNextAvailableChunk_status e c y) as Hg.
    destruct (LcGetNextAvailableChunk e true (set_status c y)) as [[st1 s1]|],
             (LcGetNextAvailableChunk e true y) as [[st2 s2]|]; try contradiction;
      [|reflexivity].
    destruct Hg as [-> Hs]. cbv zeta. rewrite (Hs st2). reflexivity. }
  rewrite (H a), (H b). reflexivity.
Qed.

Lemma read_side_status e x a b :
  eof x = false -> read_side e (set_status a x) = read_side e (set_status b x).
Proof.
  intros He. unfold read_side.
  change (readChunk (set_status a x)) with (readChunk x).
  change (readChunk (set_status b x)) with (readChunk x).
  change (chunks (set_status a x)) with (chunks x).
  change (chunks (set_status b x)) with (chunks x).
  destruct (readChunk x) as [id|]; [|apply schedule_read_status; exact He].
  destruct (find_chunk id (chunks x)); reflexivity.
Qed.

(** X16. [STATUS_TIMEOUT] is a success status, so that the check of the
    wait for the source lets it pass: when the loop waits for a read that
    is not over after the timeout, the pass goes on exactly as if the
    read had completed, and takes the result of the read from the status
    block as it is at that time. *)
Theorem timed_out_read_is_taken_as_complete (e : ITER_ENV) (s : ENGINE) :
  waitingForRead s = true -> eof s = false ->
  loop_body (with_readWait STATUS_TIMEOUT e) s
  = loop_body (with_readWait STATUS_SUCCESS e) s.
Proof.
  intros Hw He. unfold loop_body. rewrite Hw.
  change (readWait (with_readWait STATUS_TIMEOUT e)) with STATUS_TIMEOUT.
  change (readWait (with_readWait STATUS_SUCCESS e)) with STATUS_SUCCESS.
  change (NT_SUCCESS STATUS_TIMEOUT) with true. change (NT_SUCCESS STATUS_SUCCESS) with true.
  cbn [andb negb]. cbv zeta.
  change (waitingForRead (set_status STATUS_TIMEOUT s)) with (waitingForRead s).
  change (waitingForRead (set_status STATUS_SUCCESS s)) with (waitingForRead s).
  rewrite Hw.
  change (writeCompleted (with_readWait STATUS_TIMEOUT e)) with (writeCompleted e).
  change (writeCompleted (with_readWait STATUS_SUCCESS e)) with (writeCompleted e).
  assert (Heof : forall st, eof (LcWriteCallback (writeCompleted e) (set_status st s)) = false).
  { intros st. unfold LcWriteCallback. destruct (writeCompleted e) as [[st0 info]|]; [|exact He].
    destruct (writePending (set_status st s)); exact He. }
  rewrite !Heof. cbn [negb andb].
  assert (Hevent : forall st, writeEvent (LcWriteCallback (writeCompleted e) (set_status st s))
                              = writeEvent (LcWriteCallback (writeCompleted e) s)).
  { intros st. unfold LcWriteCallback. destruct (writeCompleted e) as [[st0 info]|];
      [|reflexivity]. change (writePending (set_status st s)) with (writePending s).
    destruct (writePending s); reflexivity. }
  rewrite !Hevent.
  assert (Hread : forall a st,
            read_side (with_readWait a e)
              (LcWriteCallback (writeCompleted e) (set_status st s))
            = read_side e (LcWriteCallback (writeCompleted e) (set_status st s))).
  { intros a st. reflexivity. }
  rewrite !Hread.
  assert (Hsame : read_side e (LcWriteCallback (writeCompleted e) (set_status STATUS_TIMEOUT s))
                  = read_side e (LcWriteCallback (writeCompleted e)
                                   (set_status STATUS_SUCCESS s))).
  { assert (Hcommute : forall st, LcWriteCallback (writeCompleted e) (set_status st s)
                                  = set_status st (LcWriteCallback (writeCompleted e) s)).
    { intros st. unfold LcWriteCallback. destruct (writeCompleted e) as [[st0 info]|];
        [|reflexivity]. change (writePending (set_status st s)) with (writePending s).
      destruct (writePending s); reflexivity. }
    rewrite !Hcommute. apply read_side_status.
    unfold LcWriteCallback. destruct (writeCompleted e) as [[st0 info]|]; [|exact He].
    destruct (writePending s); exact He. }
  rewrite Hsame.
  destruct (read_side e (LcWriteCallback (writeCompleted e) (set_status STATUS_SUCCESS s)));
    reflexivity.
Qed.

(** The locals after the first pass of a copy of 1000 bytes: the first
    read is scheduled and the loop waits for it. The source has not
    answered yet: the status block is as it was initialized. *)
Definition first_read_scheduled : ENGINE :=
  match LcFetchFileByChunks (fun _ => (true, true)) (prompt_source 1000) 1 1000 with
  | StillRunning s => s
  | _ => entry_state [] 0 STATUS_SUCCESS 0
  end.

Definition unanswered : ITER_ENV :=
  {| readWait := STATUS_TIMEOUT; statusBlock := (STATUS_SUCCESS, 0);
     writeCompleted := None; chunkPool := (true, true); writeWait := None;
     ZwReadFile := STATUS_PENDING; FltWriteFile := STATUS_PENDING |}.

Lemma timed_out_read_is_taken_as_complete_witness :
  exists final,
    loop_body unanswered first_read_scheduled = Break final /\
    status final = STATUS_SUCCESS /\ totalBytesWritten final = 0.
Proof.
  change unanswered with (with_readWait STATUS_TIMEOUT unanswered).
  rewrite (timed_out_read_is_taken_as_complete unanswered first_read_scheduled
             eq_refl eq_refl).
  eexists. split; [vm_compute; reflexivity|]. split; reflexivity.
Defined.

(** X17. [LcFetchFileByChunks] can return [STATUS_SUCCESS] without
    having written what it read. With a source that is faster than the
    target ([slow_target]), a source of 1 MiB is read in full, every read
    and every write succeeds in full, and the copy returns
    [STATUS_SUCCESS] with 512 KiB written, in four writes of 128 KiB. *)
Theorem fast_source_overruns_unwritten_chunks :
  exists final,
    LcFetchFileByChunks (fun _ => (true, true)) (slow_target (8 * ChunkSize)) 12
      (8 * ChunkSize)
    = Returned STATUS_SUCCESS (4 * ChunkSize) final /\
    totalBytesRead final = 8 * ChunkSize /\
    completions final = repeat (STATUS_SUCCESS, ChunkSize) 4 /\
    map snd (writes final) = repeat ChunkSize 4.
Proof.
  eexists. split; [vm_compute; reflexivity|]. repeat split.
Qed.

End SlowTransferProperties.

(** ** Operations.c and FileLocks.c: the list of locks over every interleaving *)

Section LockDisciplineProperties.
Import FileLocks ReadWrite.

Lemma PROGRAM_POINT_eq_dec (p q : PROGRAM_POINT) : {p = q} + {p <> q}.
Proof. decide equality. Defined.

Ltac eqb_facts :=
  repeat match goal with
         | H : (_ =? _) = true |- _ => apply Z.eqb_eq in H
         | H : (_ =? _) = false |- _ => apply Z.eqb_neq in H
         end.

(** Every linked entry is referenced, and an event that is not signaled
    has been taken by an access that is past its wait. *)
Record discipline (sys : SYSTEM) : Prop := {
  dis_referenced : forall a e,
    entry_at a (FileLocksList sys) = Some e -> 1 <= RefCount e;
  dis_holder : forall a e,
    entry_at a (FileLocksList sys) = Some e -> Event e = false ->
    exists (j : nat) u, threads sys !! j = Some u /\ holds u a
}.

Lemma boot_discipline v names : discipline (boot v names).
Proof. constructor; cbn; discriminate. Qed.

Lemma holder_stays sys (i : nat) t t' a :
  threads sys !! i = Some t ->
  (holds t a -> holds t' a) ->
  (exists (j : nat) u, threads sys !! j = Some u /\ holds u a) ->
  exists (j : nat) u, <[i := t']> (threads sys) !! j = Some u /\ holds u a.
Proof.
  intros Hi Hkeep (j & u & Hj & Hu).
  destruct (Nat.eq_dec i j) as [<-|Hne].
  - exists i, t'. split.
    + apply list_lookup_insert_Some. left. split; [reflexivity|]. split; [reflexivity|].
      eapply lookup_lt_Some; eauto.
    + apply Hkeep. congruence.
  - exists j, u. split; [|exact Hu]. rewrite list_lookup_insert_ne; auto.
Qed.

(** A step that leaves the list as it is. *)
Lemma local_step_discipline sys (i : nat) t t' v' :
  discipline sys -> threads sys !! i = Some t ->
  (forall a, holds t a -> holds t' a) ->
  discipline {| FileLocksList := FileLocksList sys; volume := v';
                threads := <[i := t']> (threads sys) |}.
Proof.
  intros [Href Hhold] Hi Hkeep. constructor; cbn [FileLocksList volume threads].
  - exact Href.
  - intros a e He Hsig. eapply holder_stays; eauto.
Qed.

Lemma wait_step_discipline sys (i : nat) t t' ev :
  discipline sys -> threads sys !! i = Some t ->
  holds_token (pc t) = false -> holds t' ev ->
  discipline {| FileLocksList := satisfy_wait ev (FileLocksList sys); volume := volume sys;
                threads := <[i := t']> (threads sys) |}.
Proof.
  intros [Href Hhold] Hi Hpc Hnew. constructor; cbn [FileLocksList volume threads].
  - intros a x Hx. rewrite entry_at_satisfy_wait in Hx.
    destruct (a =? ev); [|eauto].
    destruct (entry_at a (FileLocksList sys)) as [y|] eqn:Hy; [|discriminate].
    injection Hx as <-. cbn. eauto.
  - intros a x Hx Hsig. rewrite entry_at_satisfy_wait in Hx.
    destruct (a =? ev) eqn:Ea.
    + eqb_facts. subst a. exists i, t'. split; [|exact Hnew].
      apply list_lookup_insert_Some. left. split; [reflexivity|]. split; [reflexivity|].
      eapply lookup_lt_Some; eauto.
    + eapply holder_stays; eauto. intros [H _]. congruence.
Qed.

Lemma acquire_new_discipline sys (i : nat) t t' a :
  discipline sys -> threads sys !! i = Some t -> fileLockEvent t = None ->
  discipline {| FileLocksList := reference (new_entry a (Name t)) :: FileLocksList sys;
                volume := volume sys; threads := <[i := t']> (threads sys) |}.
Proof.
  intros [Href Hhold] Hi Hnone. constructor; cbn [FileLocksList volume threads].
  - intros b x Hx. rewrite entry_at_cons in Hx. cbn [reference new_entry Address] in Hx.
    destruct (a =? b); [|eauto]. injection Hx as <-. cbn. reflexivity.
  - intros b x Hx Hsig. rewrite entry_at_cons in Hx. cbn [reference new_entry Address] in Hx.
    destruct (a =? b); [injection Hx as <-; discriminate Hsig|].
    eapply holder_stays; eauto. intros [_ H]. congruence.
Qed.

Lemma acquire_found_discipline sys (i : nat) t t' ev l' :
  invariant sys -> discipline sys -> threads sys !! i = Some t -> fileLockEvent t = None ->
  reference_by_name (Name t) (FileLocksList sys) = Some (ev, l') ->
  discipline {| FileLocksList := l'; volume := volume sys;
                threads := <[i := t']> (threads sys) |}.
Proof.
  intros Hinv [Href Hhold] Hi Hnone Hwalk.
  destruct (reference_by_name_spec _ _ _ _ (inv_addresses _ Hinv) Hwalk)
    as (_ & _ & Hat).
  constructor; cbn [FileLocksList volume threads].
  - intros b x Hx. rewrite Hat in Hx. destruct (b =? ev) eqn:Eb; [|eauto].
    destruct (entry_at b (FileLocksList sys)) as [y|] eqn:Hy; [|discriminate].
    injection Hx as <-. cbn [reference RefCount].
    pose proof (inv_count _ Hinv b y Hy) as Hcount.
    pose proof (references_room b _ i t Hi (uses_None b t Hnone)).
    pose proof (references_bound b (threads sys)). pose proof (inv_size _ Hinv).
    rewrite LONG_of_small by lia. lia.
  - intros b x Hx Hsig. rewrite Hat in Hx.
    assert (Hy : exists y, entry_at b (FileLocksList sys) = Some y /\ Event y = false).
    { destruct (b =? ev); [|eauto].
      destruct (entry_at b (FileLocksList sys)) as [y|]; [|discriminate].
      injection Hx as <-. eauto. }
    destruct Hy as (y & Hy & Hsigy).
    eapply holder_stays; eauto. intros [_ H]. congruence.
Qed.

Lemma release_discipline sys (i : nat) t t' ev :
  invariant sys -> discipline sys -> threads sys !! i = Some t ->
  fileLockEvent t = Some ev ->
  discipline {| FileLocksList := fst (LcReleaseFileLock ev (FileLocksList sys));
                volume := volume sys; threads := <[i := t']> (threads sys) |}.
Proof.
  intros Hinv [Href Hhold] Hi Hev.
  destruct (inv_event _ Hinv i t ev Hi Hev) as (e & He & _).
  destruct (LcReleaseFileLock_spec ev _ e (inv_addresses _ Hinv) He) as [_ Hat].
  assert (Hleft : forall x, dereference e = Some x -> 1 <= RefCount x /\ Event x = true).
  { unfold dereference. cbv zeta. intros x.
    destruct (LONG_of (RefCount e - 1) <=? 0) eqn:E; [discriminate|].
    intros [= <-]. cbn. apply Z.leb_gt in E. split; [lia | reflexivity]. }
  constructor; cbn [FileLocksList volume threads].
  - intros b x Hx. rewrite Hat in Hx. destruct (b =? ev); [apply Hleft; exact Hx | eauto].
  - intros b x Hx Hsig. rewrite Hat in Hx. destruct (b =? ev) eqn:Eb.
    + apply Hleft in Hx as [_ Hx]. congruence.
    + eapply holder_stays; eauto. intros [_ H]. eqb_facts. congruence.
Qed.

Ltac keeps_token Hpc :=
  let a := fresh in let H := fresh in
  intros a [_ H]; split; [reflexivity | exact H].

Lemma system_step_discipline (i : nat) k sys sys' :
  invariant sys -> discipline sys ->
  (forall t, threads sys !! i = Some t ->
             releases_linked_entry k t (FileLocksList sys) = false) ->
  system_step i k sys = Some sys' -> discipline sys'.
Proof.
  intros Hinv Hdis Hspare. unfold system_step.
  destruct (threads sys !! i) as [t|] eqn:Hi; [|discriminate].
  specialize (Hspare t eq_refl).
  pose proof (inv_threads _ Hinv i t Hi) as Hok.
  unfold callback_step. destruct (pc t) eqn:Hpc.
  - (* AtEntry *)
    assert (Hnone : fileLockEvent t = None) by (unfold thread_ok in Hok; rewrite Hpc in Hok; tauto).
    assert (Hfree : forall t' a, holds t a -> holds t' a) by (intros t' a [_ H]; congruence).
    unfold releases_linked_entry in Hspare. rewrite Hpc in Hspare.
    destruct (LcIsProcessTrusted k).
    { intros [= <-]. apply (local_step_discipline sys i t); auto. }
    destruct (NT_SUCCESS (LcGetStreamContext k)); cbn [negb].
    2: { intros [= <-]. apply (local_step_discipline sys i t); auto. }
    destruct (NT_SUCCESS (LcGetFileNameInformation k)); cbn [negb].
    2: { intros [= <-]. apply (local_step_discipline sys i t); auto. }
    cbn [negb andb] in Hspare.
    destruct (pool_answer_possible k (FileLocksList sys)); [|discriminate].
    cbn [negb]. cbv zeta.
    destruct (LcGetFileLock_cases (pool k) (FileLocksList sys) (Name t))
      as [(ev & l' & Href & ->) | [(Href & a & Ha & ->) | [Hfail Hsame]]].
    + cbn. intros [= <-]. apply (acquire_found_discipline sys i t _ ev l'); auto.
    + cbn. intros [= <-]. apply (acquire_new_discipline sys i t _ a); auto.
    + rewrite Hfail, (Hsame Hspare). cbn [negb].
      intros [= <-]. apply (local_step_discipline sys i t); auto.
  - (* AtZeroWait *)
    destruct (fileLockEvent t) as [ev|] eqn:Hev; [|discriminate].
    destruct (entry_at ev (FileLocksList sys)) as [e|] eqn:He; [|discriminate].
    destruct (Event e) eqn:Hsig; intros [= <-].
    + apply (wait_step_discipline sys i t _ ev); auto; [rewrite Hpc; reflexivity|].
      split; [reflexivity | exact Hev].
    + apply (local_step_discipline sys i t); auto.
      intros a [H _]. rewrite Hpc in H. discriminate H.
  - (* InWait *)
    destruct (fileLockEvent t) as [ev|] eqn:Hev; [|discriminate].
    destruct (entry_at ev (FileLocksList sys)) as [e|] eqn:He; [|discriminate].
    destruct (Event e) eqn:Hsig; [|discriminate]. intros [= <-].
    apply (wait_step_discipline sys i t _ ev); auto; [rewrite Hpc; reflexivity|].
    split; [reflexivity | exact Hev].
  - (* AtTagQuery *)
    cbv zeta. destruct (negb (NT_SUCCESS (FltQueryInformationFile k))).
    { intros [= <-]. apply (local_step_discipline sys i t); auto. keeps_token Hpc. }
    destruct (file_at (Name t) (volume sys)) as [f|] eqn:Hf; [|discriminate].
    destruct (negb (ReparseTag f =? LC_REPARSE_TAG)); intros [= <-];
      apply (local_step_discipline sys i t); auto; keeps_token Hpc.
  - (* AtFetch *)
    intros [= <-]. apply (local_step_discipline sys i t); auto. keeps_token Hpc.
  - (* InFetch *)
    cbv zeta. intros [= <-]. apply (local_step_discipline sys i t); auto.
    intros a [_ H]. split; [destruct (NT_SUCCESS (LcFetchRemoteFile k)); reflexivity | exact H].
  - (* AtUntag *)
    destruct (file_at (Name t) (volume sys)) as [f|] eqn:Hf; [|discriminate].
    destruct (ReparsePoints.LcUntagFile (untag k) f) as [st f'].
    intros [= <-]. apply (local_step_discipline sys i t); auto.
    intros a [_ H]. split; [destruct (NT_SUCCESS st); reflexivity | exact H].
  - (* AtDeleteContext *)
    intros [= <-]. apply (local_step_discipline sys i t); auto. keeps_token Hpc.
  - (* AtFinally *)
    intros [= <-]. destruct (fileLockEvent t) as [ev|] eqn:Hev.
    + apply (release_discipline sys i t _ ev); auto.
    + apply (local_step_discipline sys i t); auto. intros a [_ H]. congruence.
  - (* Completed *)
    discriminate.
Qed.

Lemma run_discipline schedule : forall sys sys',
  invariant sys -> discipline sys -> spares_linked_entries schedule sys = true ->
  run schedule sys = Some sys' -> discipline sys'.
Proof.
  induction schedule as [|[i k] rest IH]; intros sys sys' Hinv Hdis Hspare Hrun;
    cbn [run] in Hrun; cbn [spares_linked_entries] in Hspare.
  - injection Hrun as <-. exact Hdis.
  - destruct (system_step i k sys) as [sys1|] eqn:Hstep; [|discriminate].
    assert (Hstep' := Hstep). unfold system_step in Hstep'.
    destruct (threads sys !! i) as [t|] eqn:Hi; [|discriminate].
    apply andb_true_iff in Hspare as [Hnow Hrest]. apply negb_true_iff in Hnow.
    assert (Hthis : forall t0, threads sys !! i = Some t0 ->
                      releases_linked_entry k t0 (FileLocksList sys) = false).
    { intros t0 Ht0. rewrite Hi in Ht0. injection Ht0 as <-. exact Hnow. }
    eapply IH; [eapply system_step_invariant; eauto
               | eapply system_step_discipline; eauto | exact Hrest | exact Hrun].
Qed.

Lemma entry_at_linked a : forall l,
  In a (map Address l) -> exists e, entry_at a l = Some e.
Proof.
  induction l as [|x l IH]; [intros []|]. cbn [map]. rewrite entry_at_cons.
  destruct (Address x =? a) eqn:E; [eauto|]. intros [H | H]; [|auto].
  apply Z.eqb_neq in E. contradiction.
Qed.

Lemma references_positive a : forall ths,
  1 <= references a ths ->
  exists (i : nat) t, ths !! i = Some t /\ fileLockEvent t = Some a.
Proof.
  induction ths as [|x ths IH]; cbn [references]; [lia|].
  destruct (uses a x) eqn:Hu.
  - intros _. exists O, x. split; [reflexivity|]. unfold uses in Hu.
    destruct (fileLockEvent x) as [b|]; [|discriminate]. apply Z.eqb_eq in Hu. congruence.
  - intros H. destruct IH as (i & t & Hi & Ht); [lia|]. exists (S i), t. auto.
Qed.

(** X18. Over every interleaving of accesses (fewer than 2^31) in which
    no call of [LcGetFileLock] releases an entry that is still linked,
    whatever else the kernel answers: the list of locks holds exactly the
    entries that some access still refers to, the count of an entry is
    the number of these accesses, and once every access has returned the
    list is empty. *)
Theorem lock_list_holds_referenced_entries (v : VOLUME) (names : list UNICODE_STRING)
    (schedule : list (nat * ANSWERS)) (sys : SYSTEM) :
  Z.of_nat (length names) < 2^31 ->
  spares_linked_entries schedule (boot v names) = true ->
  run schedule (boot v names) = Some sys ->
  (forall a, In a (map Address (FileLocksList sys)) <->
             exists (i : nat) t, threads sys !! i = Some t /\ fileLockEvent t = Some a) /\
  (forall a e, entry_at a (FileLocksList sys) = Some e ->
               RefCount e = references a (threads sys) /\ 1 <= RefCount e) /\
  ((forall (i : nat) t, threads sys !! i = Some t -> pc t = Completed) ->
   FileLocksList sys = []).
Proof.
  intros Hsize Hspare Hrun.
  pose proof (run_invariant schedule _ _ (boot_invariant v names Hsize) Hspare Hrun) as Hinv.
  pose proof (run_discipline schedule _ _ (boot_invariant v names Hsize)
                (boot_discipline v names) Hspare Hrun) as Hdis.
  assert (Hiff : forall a, In a (map Address (FileLocksList sys)) <->
            exists (i : nat) t, threads sys !! i = Some t /\ fileLockEvent t = Some a).
  { intros a. split.
    - intros Ha. apply entry_at_linked in Ha as [e He].
      apply references_positive. rewrite <- (inv_count _ Hinv a e He).
      exact (dis_referenced _ Hdis a e He).
    - intros (i & t & Hi & Ht). destruct (inv_event _ Hinv i t a Hi Ht) as (e & He & _).
      eapply entry_at_present; eauto. }
  split; [exact Hiff|]. split.
  - intros a e He. split; [exact (inv_count _ Hinv a e He) | exact (dis_referenced _ Hdis a e He)].
  - intros Hall. destruct (FileLocksList sys) as [|e l] eqn:Hl; [reflexivity|]. exfalso.
    destruct (proj1 (Hiff (Address e))) as (i & t & Hi & Ht); [left; reflexivity|].
    pose proof (inv_threads _ Hinv i t Hi) as Hok. unfold thread_ok in Hok.
    rewrite (Hall i t Hi) in Hok. destruct Hok as [Hnone _]. congruence.
Qed.

(** Two accesses to one stub have both returned. *)
Lemma lock_list_holds_referenced_entries_witness :
  exists sys,
    spares_linked_entries (first_fetching ++ first_succeeds)
      (boot stub_volume [stub_path; stub_PATH]) = true /\
    run (first_fetching ++ first_succeeds) (boot stub_volume [stub_path; stub_PATH])
      = Some sys /\
    map pc (threads sys) = [Completed; Completed] /\ FileLocksList sys = [].
Proof.
  eexists. split; [vm_compute; reflexivity|].
  split; [vm_compute; reflexivity|]. split; [reflexivity|].
  refine (proj2 (proj2 (lock_list_holds_referenced_entries stub_volume [stub_path; stub_PATH]
           (first_fetching ++ first_succeeds) _ _ _ _)) _).
  - cbn. lia.
  - vm_compute. reflexivity.
  - vm_compute. reflexivity.
  - intros [|[|i]] t Hi; cbn in Hi; try discriminate Hi; injection Hi as <-; reflexivity.
Defined.

(** An access is blocked when it is in its wait and cannot leave it. *)
Definition blocked (sys : SYSTEM) (t : THREAD) : Prop :=
  pc t = InWait /\
  forall k, callback_step k t (FileLocksList sys, volume sys) = None.

(** X19. Over every interleaving of accesses (fewer than 2^31) in which
    no call of [LcGetFileLock] releases an entry that is still linked,
    whatever else the kernel answers: an access that is parked in its wait finds the
    event of its path signaled, or another access to the same path has
    taken the event and is between its satisfied wait and its release of
    the lock. Hence the accesses never all block: as long as one of them
    has not returned, one that has not returned is not blocked. *)
Theorem parked_access_has_a_holder (v : VOLUME) (names : list UNICODE_STRING)
    (schedule : list (nat * ANSWERS)) (sys : SYSTEM) :
  Z.of_nat (length names) < 2^31 ->
  spares_linked_entries schedule (boot v names) = true ->
  run schedule (boot v names) = Some sys ->
  (forall (i : nat) t a,
      threads sys !! i = Some t -> pc t = InWait -> fileLockEvent t = Some a ->
      exists e, entry_at a (FileLocksList sys) = Some e /\
        (Event e = true \/
         exists (j : nat) u,
           j <> i /\ threads sys !! j = Some u /\
           holds_token (pc u) = true /\ fileLockEvent u = Some a /\
           RtlCompareUnicodeString (Name u) (Name t) = 0)) /\
  ((exists (i : nat) t, threads sys !! i = Some t /\ pc t <> Completed) ->
   exists (j : nat) u, threads sys !! j = Some u /\ pc u <> Completed /\ ~ blocked sys u).
Proof.
  intros Hsize Hspare Hrun.
  pose proof (run_invariant schedule _ _ (boot_invariant v names Hsize) Hspare Hrun) as Hinv.
  pose proof (run_discipline schedule _ _ (boot_invariant v names Hsize)
                (boot_discipline v names) Hspare Hrun) as Hdis.
  assert (Hparked : forall (i : nat) t a,
      threads sys !! i = Some t -> pc t = InWait -> fileLockEvent t = Some a ->
      exists e, entry_at a (FileLocksList sys) = Some e /\
        (Event e = true \/
         exists (j : nat) u,
           j <> i /\ threads sys !! j = Some u /\
           holds_token (pc u) = true /\ fileLockEvent u = Some a /\
           RtlCompareUnicodeString (Name u) (Name t) = 0)).
  { intros i t a Hi Hpc Ha.
    destruct (inv_event _ Hinv i t a Hi Ha) as (e & He & Hcmp).
    exists e. split; [exact He|].
    destruct (Event e) eqn:Hsig; [left; reflexivity | right].
    destruct (dis_holder _ Hdis a e He Hsig) as (j & u & Hj & [Hu1 Hu2]).
    exists j, u. split; [|split; [exact Hj | split; [exact Hu1 | split; [exact Hu2|]]]].
    - intros ->. rewrite Hi in Hj. injection Hj as <-. rewrite Hpc in Hu1. discriminate Hu1.
    - destruct (inv_event _ Hinv j u a Hj Hu2) as (e' & He' & Hcmp').
      assert (e' = e) as -> by congruence.
      apply (compare_trans _ (FileName e)); [exact Hcmp' | apply compare_sym, Hcmp]. }
  split; [exact Hparked|].
  intros (i & t & Hi & Hrunning).
  destruct (PROGRAM_POINT_eq_dec (pc t) InWait) as [Hpc|Hpc].
  2: { exists i, t. split; [exact Hi|]. split; [exact Hrunning|]. intros [H _]. contradiction. }
  pose proof (inv_threads _ Hinv i t Hi) as Hok. unfold thread_ok in Hok. rewrite Hpc in Hok.
  destruct (fileLockEvent t) as [a|] eqn:Ha; [|destruct Hok as [H _]; contradiction].
  destruct (Hparked i t a Hi Hpc Ha) as (e & He & [Hsig | (j & u & _ & Hj & Hu & _)]).
  - exists i, t. split; [exact Hi|]. split; [exact Hrunning|]. intros [_ Hstuck].
    specialize (Hstuck (served 0 STATUS_SUCCESS)). unfold callback_step in Hstuck.
    rewrite Hpc, Ha, He, Hsig in Hstuck. discriminate Hstuck.
  - exists j, u. split; [exact Hj|].
    split; [intros H; rewrite H in Hu; discriminate Hu|].
    intros [H _]. rewrite H in Hu. discriminate Hu.
Qed.

(** Access 0 is inside the fetch engine and access 1 has parked. *)
Lemma parked_access_has_a_holder_witness :
  exists sys,
    spares_linked_entries (first_fetching ++ [(1%nat, served 8192 STATUS_SUCCESS)])
      (boot stub_volume [stub_path; stub_PATH]) = true /\
    run (first_fetching ++ [(1%nat, served 8192 STATUS_SUCCESS)])
      (boot stub_volume [stub_path; stub_PATH]) = Some sys /\
    map pc (threads sys) = [InFetch; InWait] /\
    exists (j : nat) u, threads sys !! j = Some u /\ pc u <> Completed /\ ~ blocked sys u.
Proof.
  eexists. split; [vm_compute; reflexivity|].
  split; [vm_compute; reflexivity|]. split; [reflexivity|].
  refine (proj2 (parked_access_has_a_holder stub_volume [stub_path; stub_PATH]
           (first_fetching ++ [(1%nat, served 8192 STATUS_SUCCESS)]) _ _ _ _) _).
  - cbn. lia.
  - vm_compute. reflexivity.
  - vm_compute. reflexivity.
  - exists 1%nat. eexists. split; [reflexivity | discriminate].
Defined.

End LockDisciplineProperties.

(** ** Operations.c and FileLocks.c: an entry released while it is linked *)

Section ReleasedEntryProperties.
Import FileLocks ReadWrite.

(** The answers of [served], with a pool that has no memory for an
    entry. *)
Definition exhausted : ANSWERS :=
  {| LcIsProcessTrusted := false; LcGetStreamContext := STATUS_SUCCESS;
     LcGetFileNameInformation := STATUS_SUCCESS;
     pool := {| entryBuffer := None; nameBuffer := true |};
     FltQueryInformationFile := STATUS_SUCCESS;
     LcFetchRemoteFile := STATUS_SUCCESS;
     untag := untag (served 0 STATUS_SUCCESS);
     FltDeleteStreamContext := STATUS_SUCCESS |}.

Definition other_path : UNICODE_STRING := [92; 98].

(** Access 0 runs up to its call of the fetch engine. *)
Definition first_in_engine : list (nat * ANSWERS) :=
  [(0%nat, served 4096 STATUS_SUCCESS); (0%nat, served 4096 STATUS_SUCCESS);
   (0%nat, served 4096 STATUS_SUCCESS); (0%nat, served 4096 STATUS_SUCCESS)].

(** Access 1 runs up to its call of the fetch engine. *)
Definition second_in_engine : list (nat * ANSWERS) :=
  [(1%nat, served 8192 STATUS_SUCCESS); (1%nat, served 8192 STATUS_SUCCESS);
   (1%nat, served 8192 STATUS_SUCCESS); (1%nat, served 8192 STATUS_SUCCESS)].

(** X22. Accesses 0 and 1 are to the stub [\a] (access 1 under the name
    [\A]), access 2 is to [\b]. Access 0 takes the lock of its path and
    enters the fetch engine. Access 2 then asks for the lock of [\b] and
    the pool has no memory for its entry: [LcGetFileLock] fails, and its
    cleanup releases the entry of [\a], which the walk visited last, and
    zeroes its name; the entry stays linked. Access 1 then asks for the
    lock of [\A]: no entry has that name any more, a second entry is
    linked with its event signaled, access 1 takes it with its
    zero-timeout wait, finds the mark and enters the fetch engine while
    access 0 is still inside it. *)
Theorem released_entry_admits_two_fetchers :
  RtlCompareUnicodeString stub_path stub_PATH = 0 /\
  spares_linked_entries (first_in_engine ++ (2%nat, exhausted) :: second_in_engine)
    (boot stub_volume [stub_path; stub_PATH; other_path]) = false /\
  match run first_in_engine (boot stub_volume [stub_path; stub_PATH; other_path]) with
  | Some before =>
      map pc (threads before) = [InFetch; AtEntry; AtEntry] /\
      FileLocksList before
      = [{| FileName := stub_path; Event := false; RefCount := 1; Address := 4096 |}] /\
      releases_linked_entry exhausted (enter other_path) (FileLocksList before) = true /\
      match system_step 2 exhausted before with
      | Some released =>
          map pc (threads released) = [InFetch; AtEntry; AtFinally] /\
          map status (threads released)
          = [STATUS_SUCCESS; STATUS_SUCCESS; STATUS_INSUFFICIENT_RESOURCES] /\
          FileLocksList released
          = [{| FileName := []; Event := false; RefCount := 1; Address := 4096 |}] /\
          match run second_in_engine released with
          | Some sys =>
              map pc (threads sys) = [InFetch; InFetch; AtFinally] /\
              map invokedFetch (threads sys) = [true; true; false] /\
              map parked (threads sys) = [false; false; false] /\
              map fileLockEvent (threads sys) = [Some 4096; Some 8192; None] /\
              FileLocksList sys
              = [{| FileName := stub_PATH; Event := false; RefCount := 1; Address := 8192 |};
                 {| FileName := []; Event := false; RefCount := 1; Address := 4096 |}]
          | None => False
          end
      | None => False
      end
  | None => False
  end.
Proof. vm_compute. repeat split. Qed.

End ReleasedEntryProperties.

(** ** Registry.c: the buffer of a string value *)

Section RegistryStringProperties.
Import Registry.

(** X20. [LcGetRegistryValueString] allocates [(USHORT)DataLength] bytes
    for the string and copies [DataLength] bytes into them. When it hands
    out a string, the buffer holds at least one character and [Length] is
    the buffer size less the terminator; the copy stays inside the buffer
    exactly when the value is shorter than 65536 bytes. *)
Theorem registry_string_copy_bound (value : NTSTATUS * KEY_VALUE_PARTIAL_INFORMATION)
    (pool : bool) (st : NTSTATUS) (s : STRING_VALUE) :
  0 <= DataLength (snd value) < 2^32 ->
  LcGetRegistryValueString value pool = (st, Some s) ->
  st = STATUS_SUCCESS /\
  MaximumLength s = DataLength (snd value) mod 65536 /\
  2 <= MaximumLength s /\
  Length s = MaximumLength s - 2 /\
  bytesCopied s = DataLength (snd value) /\
  (bytesCopied s <= MaximumLength s <-> DataLength (snd value) < 65536).
Proof.
  destruct value as [st0 valueBuffer]. cbn [snd]. intros Hrange.
  unfold LcGetRegistryValueString.
  destruct (negb (NT_SUCCESS st0)); [discriminate|].
  destruct (negb _); [discriminate|]. cbv zeta.
  unfold LcAllocateUnicodeString, USHORT_of. change (2^16) with 65536.
  set (size := DataLength valueBuffer mod 65536).
  pose proof (Z.mod_pos_bound (DataLength valueBuffer) 65536 ltac:(lia)) as Hsize.
  fold size in Hsize.
  destruct (size =? 0) eqn:Hzero; [discriminate|]. apply Z.eqb_neq in Hzero.
  destruct (negb (size mod 2 =? 0)) eqn:Heven; [discriminate|].
  apply negb_false_iff, Z.eqb_eq in Heven.
  destruct pool; [|discriminate]. cbn [negb NT_SUCCESS STATUS_SUCCESS Z.leb Z.compare].
  intros [= <- <-]. cbn [MaximumLength Length bytesCopied].
  assert (Htwo : 2 <= size).
  { destruct (Z.eq_dec size 1) as [H1|H1]; [rewrite H1 in Heven; discriminate Heven | lia]. }
  split; [reflexivity|]. split; [reflexivity|]. split; [exact Htwo|].
  split; [apply Z.mod_small; lia|]. split; [reflexivity|].
  split.
  - intros Hfit. lia.
  - intros Hsmall. subst size. rewrite Z.mod_small by lia. lia.
Qed.

(** A REG_MULTI_SZ value of 65538 bytes: a buffer of 2 bytes receives
    them all. *)
Lemma registry_string_copy_bound_witness :
  exists s,
    LcGetRegistryValueString
      (STATUS_SUCCESS, {| Type_ := REG_MULTI_SZ; DataLength := 65538 |}) true
    = (STATUS_SUCCESS, Some s) /\
    MaximumLength s = 2 /\ bytesCopied s = 65538 /\ ~ bytesCopied s <= MaximumLength s.
Proof.
  eexists. split; [reflexivity|]. split; [reflexivity|]. split; [reflexivity|].
  intros Hfit.
  apply (proj2 (proj2 (proj2 (proj2 (proj2
    (registry_string_copy_bound
       (STATUS_SUCCESS, {| Type_ := REG_MULTI_SZ; DataLength := 65538 |}) true
       STATUS_SUCCESS _ ltac:(cbn; lia) eq_refl)))))) in Hfit.
  cbn in Hfit. lia.
Defined.

End RegistryStringProperties.

(** ** Communication.c: the connected client and the trusted processes *)

Section ConnectionProperties.
Import Settings Connection.

(** What the filter manager delivers to the port: a connection request,
    only while no client is connected (the port accepts one connection),
    or the tear-down of the connection. *)
Inductive EVENT :=
| Connect (env : CONNECT_ENV) (Port : Z)
| Disconnect.

Definition deliver_event (e : EVENT) (d : DRIVER) : option DRIVER :=
  match e with
  | Connect env Port =>
      if ClientProcessId (connection d) =? NULL
      then Some (snd (LcCommunicationPortConnect env Port d))
      else None
  | Disconnect => Some (LcCommunicationPortDisconnect d)
  end.

Fixpoint deliver_events (events : list EVENT) (d : DRIVER) : option DRIVER :=
  match events with
  | [] => Some d
  | e :: rest =>
      match deliver_event e d with
      | Some d' => deliver_events rest d'
      | None => None
      end
  end.

(** The driver after [LcCreateCommunicationPort]: no client. *)
Definition listening (c : DRIVER_CONFIGURATION_DATA) : DRIVER :=
  {| connection := {| ClientPort := None; ClientProcessId := NULL;
                      ClientProcessHandle := None; SystemProcessHandle := None |};
     Configuration := c; closed := [] |}.

Definition connection_ok (c0 : DRIVER_CONFIGURATION_DATA) (d : DRIVER) : Prop :=
  let c := connection d in
  TrustedProccessList (Configuration d)
    = (if ClientProcessId c =? NULL then [] else [ClientProcessId c]) /\
  (ClientProcessId c = NULL ->
   ClientProcessHandle c = None /\ SystemProcessHandle c = None) /\
  (ClientProcessId c <> NULL -> ClientPort c <> None) /\
  OperationMode (Configuration d) = OperationMode c0 /\
  ReportRate (Configuration d) = ReportRate c0 /\
  PathsToWatch (Configuration d) = PathsToWatch c0 /\
  RegistryPath (Configuration d) = RegistryPath c0.

Lemma reset_ok c0 d :
  TrustedProccessList (Configuration d) = [] \/
  (ClientProcessId (connection d) <> NULL /\
   TrustedProccessList (Configuration d) = [ClientProcessId (connection d)]) ->
  OperationMode (Configuration d) = OperationMode c0 ->
  ReportRate (Configuration d) = ReportRate c0 ->
  PathsToWatch (Configuration d) = PathsToWatch c0 ->
  RegistryPath (Configuration d) = RegistryPath c0 ->
  connection_ok c0 (LcResetConnectionVariables d).
Proof.
  intros Hlist H1 H2 H3 H4. unfold connection_ok, LcResetConnectionVariables. cbn.
  change (NULL =? NULL) with true. cbv iota.
  assert (Hsame : forall pid, OperationMode (LcRemoveTrustedProcess (Configuration d) pid)
                              = OperationMode (Configuration d) /\
                              ReportRate (LcRemoveTrustedProcess (Configuration d) pid)
                              = ReportRate (Configuration d) /\
                              PathsToWatch (LcRemoveTrustedProcess (Configuration d) pid)
                              = PathsToWatch (Configuration d) /\
                              RegistryPath (LcRemoveTrustedProcess (Configuration d) pid)
                              = RegistryPath (Configuration d)).
  { intros pid. unfold LcRemoveTrustedProcess. destruct (pid =? NULL); auto. }
  destruct (ClientProcessId (connection d) =? NULL) eqn:Hpid; cbn [negb].
  - apply Z.eqb_eq in Hpid.
    split; [|repeat split; auto; contradiction].
    destruct Hlist as [H | [H _]]; [exact H | contradiction].
  - destruct (Hsame (ClientProcessId (connection d))) as (S1 & S2 & S3 & S4).
    split; [|repeat split; auto; try congruence; contradiction].
    unfold LcRemoveTrustedProcess. rewrite Hpid. cbn.
    destruct Hlist as [-> | [_ ->]]; [reflexivity|]. cbn. rewrite Z.eqb_refl. reflexivity.
Qed.

Lemma connect_ok c0 env Port d :
  connection_ok c0 d -> ClientProcessId (connection d) = NULL ->
  connection_ok c0 (snd (LcCommunicationPortConnect env Port d)).
Proof.
  intros (Hlist & Hnone & _ & H1 & H2 & H3 & H4) Hpid.
  rewrite Hpid in Hlist. change (NULL =? NULL) with true in Hlist. cbv iota in Hlist.
  unfold LcCommunicationPortConnect. cbv zeta.
  destruct (ZwOpenProcess env) as [st1 h1].
  destruct (negb (NT_SUCCESS st1)).
  { cbn [snd]. apply reset_ok; cbn; auto. }
  destruct (ObOpenObjectByPointer env) as [st2 h2].
  destruct (negb (NT_SUCCESS st2)).
  { cbn [snd]. apply reset_ok; cbn; auto. }
  unfold LcAddTrustedProcess, LcIsProcessTrusted. rewrite Hlist.
  destruct (PsGetCurrentProcessId env =? NULL) eqn:Hnull.
  { cbn. apply reset_ok; cbn; auto. }
  cbn [existsb]. cbv iota. destruct (pool env); cbn [negb].
  - cbn. unfold connection_ok. cbn. rewrite Hnull. apply Z.eqb_neq in Hnull.
    repeat split; auto; try contradiction; discriminate.
  - cbn. apply reset_ok; cbn; auto.
Qed.

Lemma disconnect_ok c0 d :
  connection_ok c0 d -> connection_ok c0 (LcCommunicationPortDisconnect d).
Proof.
  intros (Hlist & _ & _ & H1 & H2 & H3 & H4).
  unfold LcCommunicationPortDisconnect. apply reset_ok; cbn; auto.
  destruct (ClientProcessId (connection d) =? NULL) eqn:Hpid; [left; exact Hlist|].
  right. apply Z.eqb_neq in Hpid. auto.
Qed.

(** X21. Whatever connection requests and tear-downs reach the port, and
    whatever the kernel answers, the connected client is the only trusted
    process: the list of trusted processes holds the id of the connected
    client and nothing else, and is empty while no client is connected
    (after a tear-down and after a refused connection alike). While no
    client is connected no process handle is held, and the connection
    callbacks never touch the operation mode, the report rate, the paths
    to watch or the registry path. *)
Theorem connected_client_is_the_only_trusted_process (events : list EVENT)
    (c0 : DRIVER_CONFIGURATION_DATA) (d : DRIVER) :
  TrustedProccessList c0 = [] ->
  deliver_events events (listening c0) = Some d ->
  (forall pid, LcIsProcessTrusted (Configuration d) pid = true <->
               pid <> NULL /\ pid = ClientProcessId (connection d)) /\
  TrustedProccessList (Configuration d)
    = (if ClientProcessId (connection d) =? NULL then []
       else [ClientProcessId (connection d)]) /\
  (ClientProcessId (connection d) = NULL ->
   ClientProcessHandle (connection d) = None /\
   SystemProcessHandle (connection d) = None) /\
  OperationMode (Configuration d) = OperationMode c0 /\
  ReportRate (Configuration d) = ReportRate c0 /\
  PathsToWatch (Configuration d) = PathsToWatch c0 /\
  RegistryPath (Configuration d) = RegistryPath c0.
Proof.
  intros Hempty Hrun.
  assert (Hok : connection_ok c0 d).
  { assert (Hstart : connection_ok c0 (listening c0))
      by (unfold connection_ok; cbn; repeat split; auto; contradiction).
    revert Hrun Hstart. generalize (listening c0). clear Hempty.
    induction events as [|e rest IH]; intros d0 Hrun Hd0; cbn [deliver_events] in Hrun.
    - injection Hrun as <-. exact Hd0.
    - destruct e as [env Port|]; cbn [deliver_event] in Hrun.
      + destruct (ClientProcessId (connection d0) =? NULL) eqn:Hpid; [|discriminate].
        apply Z.eqb_eq in Hpid. apply (IH _ Hrun). apply connect_ok; assumption.
      + apply (IH _ Hrun). apply disconnect_ok; assumption. }
  destruct Hok as (Hlist & Hnone & _ & H1 & H2 & H3 & H4).
  split; [|repeat split; auto; apply Hnone; assumption].
  intros pid. unfold LcIsProcessTrusted. rewrite Hlist.
  destruct (pid =? NULL) eqn:Hnull.
  { apply Z.eqb_eq in Hnull. split; [discriminate | intros [H _]; contradiction]. }
  apply Z.eqb_neq in Hnull.
  destruct (ClientProcessId (connection d) =? NULL) eqn:Hpid; cbn [existsb].
  - apply Z.eqb_eq in Hpid. split; [discriminate | intros [_ H]; congruence].
  - rewrite orb_false_r. rewrite Z.eqb_eq. split; [intros H; auto | intros [_ H]; auto].
Qed.

(** Process 700 connects and is trusted; the connection is torn down;
    process 800 is refused for lack of memory. *)
Definition accepted (pid : HANDLE) (served : bool) : CONNECT_ENV :=
  {| PsGetCurrentProcessId := pid; ZwOpenProcess := (STATUS_SUCCESS, Some 16);
     ObOpenObjectByPointer := (STATUS_SUCCESS, Some 20); pool := served |}.

Definition loaded : DRIVER_CONFIGURATION_DATA :=
  {| OperationMode := 3; ReportRate := 100; RegistryPath := [92; 114];
     TrustedProccessList := []; PathsToWatch := [[92; 97; 92]] |}.

Lemma connected_client_is_the_only_trusted_process_witness :
  exists d1 d2,
    deliver_events [Connect (accepted 700 true) 1] (listening loaded) = Some d1 /\
    LcIsProcessTrusted (Configuration d1) 700 = true /\
    deliver_events [Disconnect; Connect (accepted 800 false) 2] d1 = Some d2 /\
    closed d2 = [16; 20; 16; 20] /\
    forall pid, LcIsProcessTrusted (Configuration d2) pid = true <->
                pid <> NULL /\ pid = ClientProcessId (connection d2).
Proof.
  eexists. eexists. split; [reflexivity|]. split; [reflexivity|].
  split; [reflexivity|]. split; [reflexivity|].
  apply (connected_client_is_the_only_trusted_process
           [Connect (accepted 700 true) 1; Disconnect; Connect (accepted 800 false) 2]
           loaded); reflexivity.
Defined.

End ConnectionProperties.
